(** * The Boyer-Myrvold embedder of graphEmbed.c, as a shallow embedding

    The graph of graphEmbed.c is an arena of vertex records and arc records
    linked by integer indices.  The arena is modelled by finite maps from
    indices to records, read with a total lookup; every routine of
    graphEmbed.c becomes a function on the graph state.  Loops whose
    termination depends on the shape of the linked structure take a fuel
    argument and return [None] when it runs out. *)

From stdpp Require Import base option list gmap.
From Stdlib Require Import ZArith Lia.

Open Scope Z_scope.

(** ** Constants of graph.h and appconst.h *)

(** Modelled from the spec: the return codes (appconst.h is not under src/).
    The spec names three distinct results, OK, NON_EMBEDDABLE and INTERNAL;
    the code calls the last one NOTOK. *)
Inductive RetCode : Type := OK | NOTOK | NONEMBEDDABLE.

Global Instance RetCode_eq_dec : EqDecision RetCode.
Proof. solve_decision. Defined.

(** Modelled from the spec: the arc types of the data model (graph.h is not
    under src/). *)
Inductive EdgeType : Type :=
  | EDGE_TYPE_UNKNOWN
  | EDGE_TYPE_CHILD
  | EDGE_TYPE_PARENT
  | EDGE_TYPE_BACK
  | EDGE_TYPE_FORWARD.

Global Instance EdgeType_eq_dec : EqDecision EdgeType.
Proof. solve_decision. Defined.

(** Modelled from the spec: the embedding flags of gp_Embed. *)
Inductive EmbedFlags : Type :=
  | EMBEDFLAGS_PLANAR
  | EMBEDFLAGS_OUTERPLANAR
  | EMBEDFLAGS_OTHER (code : Z).

(** Modelled from the spec: NIL is the sentinel index, outside the range of
    valid vertex and arc indices (graph.h is not under src/). *)
Definition NIL : Z := -1.

(** The C type int has 32 bits: [int_wrap z] is the value that the
    arithmetic result [z] takes in it, in two's complement.  The indices
    and counters of graphEmbed.c stay within the arena of the graph; the
    product of the capacity test of _EmbeddingInitialize (line 121) does
    not, and is wrapped. *)
Definition int_wrap (z : Z) : Z := (z + 2 ^ 31) mod 2 ^ 32 - 2 ^ 31.

(** Modelled from the spec: the vertex activity classes of section 4.5. *)
Inductive VertexActiveStatus : Type := VAS_INACTIVE | VAS_INTERNAL | VAS_EXTERNAL.

Global Instance VertexActiveStatus_eq_dec : EqDecision VertexActiveStatus.
Proof. solve_decision. Defined.

(** ** Records of the arena *)

(** A vertex record; [link0] and [link1] are the first and the last arc of
    the adjacency list, [extFace0] and [extFace1] the two external face
    links. *)
Record vertexRec : Type := mkVertex {
  index : Z;
  parent : Z;
  visited : bool;
  visitedInfo : Z;
  leastAncestor : Z;
  lowpoint : Z;
  sortedDFSChildList : Z;
  separatedDFSChildList : Z;
  pertinentBicompList : Z;
  fwdArcList : Z;
  pertinentAdjacencyInfo : Z;
  vlink0 : Z;
  vlink1 : Z;
  extFace0 : Z;
  extFace1 : Z;
  extFaceInversionFlag : bool
}.

(** An arc record; [alink0] is the next arc and [alink1] the previous arc of
    the list the arc is in. *)
Record arcRec : Type := mkArc {
  neighbor : Z;
  alink0 : Z;
  alink1 : Z;
  edgeType : EdgeType;
  inverted : bool
}.

Global Instance vertexRec_inhabited : Inhabited vertexRec :=
  populate (mkVertex NIL NIL false NIL NIL NIL NIL NIL NIL NIL NIL NIL NIL NIL NIL false).

Global Instance arcRec_inhabited : Inhabited arcRec :=
  populate (mkArc NIL NIL NIL EDGE_TYPE_UNKNOWN false).

(** A node of a list collection: the circular links of listcoll.h. *)
Record lcnode : Type := mkLcnode { lc_prev : Z; lc_next : Z }.

Global Instance lcnode_inhabited : Inhabited lcnode := populate (mkLcnode NIL NIL).

Abbreviation listCollection := (gmap Z lcnode).

(** The reusable integer stack: its content, top first, and its capacity. *)
Record stackRec : Type := mkStack { stack_items : list Z; stack_capacity : Z }.

Record Graph : Type := mkGraph {
  gN : Z;
  gNV : Z;
  V : gmap Z vertexRec;
  E : gmap Z arcRec;
  arcCapacity : Z;
  theStack : stackRec;
  sortedDFSChildLists : listCollection;
  DFSChildLists : listCollection;
  BicompLists : listCollection;
  bin : listCollection;
  buckets : gmap Z Z;
  dfsNumbered : bool;
  embedFlags : EmbedFlags
}.

(** ** Field updates *)

Definition set_index (x : Z) (r : vertexRec) : vertexRec :=
  mkVertex x (parent r) (visited r) (visitedInfo r) (leastAncestor r) (lowpoint r)
    (sortedDFSChildList r) (separatedDFSChildList r) (pertinentBicompList r) (fwdArcList r)
    (pertinentAdjacencyInfo r) (vlink0 r) (vlink1 r) (extFace0 r) (extFace1 r)
    (extFaceInversionFlag r).
Definition set_parent (x : Z) (r : vertexRec) : vertexRec :=
  mkVertex (index r) x (visited r) (visitedInfo r) (leastAncestor r) (lowpoint r)
    (sortedDFSChildList r) (separatedDFSChildList r) (pertinentBicompList r) (fwdArcList r)
    (pertinentAdjacencyInfo r) (vlink0 r) (vlink1 r) (extFace0 r) (extFace1 r)
    (extFaceInversionFlag r).
Definition set_visited (x : bool) (r : vertexRec) : vertexRec :=
  mkVertex (index r) (parent r) x (visitedInfo r) (leastAncestor r) (lowpoint r)
    (sortedDFSChildList r) (separatedDFSChildList r) (pertinentBicompList r) (fwdArcList r)
    (pertinentAdjacencyInfo r) (vlink0 r) (vlink1 r) (extFace0 r) (extFace1 r)
    (extFaceInversionFlag r).
Definition set_visitedInfo (x : Z) (r : vertexRec) : vertexRec :=
  mkVertex (index r) (parent r) (visited r) x (leastAncestor r) (lowpoint r)
    (sortedDFSChildList r) (separatedDFSChildList r) (pertinentBicompList r) (fwdArcList r)
    (pertinentAdjacencyInfo r) (vlink0 r) (vlink1 r) (extFace0 r) (extFace1 r)
    (extFaceInversionFlag r).
Definition set_leastAncestor (x : Z) (r : vertexRec) : vertexRec :=
  mkVertex (index r) (parent r) (visited r) (visitedInfo r) x (lowpoint r)
    (sortedDFSChildList r) (separatedDFSChildList r) (pertinentBicompList r) (fwdArcList r)
    (pertinentAdjacencyInfo r) (vlink0 r) (vlink1 r) (extFace0 r) (extFace1 r)
    (extFaceInversionFlag r).
Definition set_lowpoint (x : Z) (r : vertexRec) : vertexRec :=
  mkVertex (index r) (parent r) (visited r) (visitedInfo r) (leastAncestor r) x
    (sortedDFSChildList r) (separatedDFSChildList r) (pertinentBicompList r) (fwdArcList r)
    (pertinentAdjacencyInfo r) (vlink0 r) (vlink1 r) (extFace0 r) (extFace1 r)
    (extFaceInversionFlag r).
Definition set_sortedDFSChildList (x : Z) (r : vertexRec) : vertexRec :=
  mkVertex (index r) (parent r) (visited r) (visitedInfo r) (leastAncestor r) (lowpoint r)
    x (separatedDFSChildList r) (pertinentBicompList r) (fwdArcList r)
    (pertinentAdjacencyInfo r) (vlink0 r) (vlink1 r) (extFace0 r) (extFace1 r)
    (extFaceInversionFlag r).
Definition set_separatedDFSChildList (x : Z) (r : vertexRec) : vertexRec :=
  mkVertex (index r) (parent r) (visited r) (visitedInfo r) (leastAncestor r) (lowpoint r)
    (sortedDFSChildList r) x (pertinentBicompList r) (fwdArcList r)
    (pertinentAdjacencyInfo r) (vlink0 r) (vlink1 r) (extFace0 r) (extFace1 r)
    (extFaceInversionFlag r).
Definition set_pertinentBicompList (x : Z) (r : vertexRec) : vertexRec :=
  mkVertex (index r) (parent r) (visited r) (visitedInfo r) (leastAncestor r) (lowpoint r)
    (sortedDFSChildList r) (separatedDFSChildList r) x (fwdArcList r)
    (pertinentAdjacencyInfo r) (vlink0 r) (vlink1 r) (extFace0 r) (extFace1 r)
    (extFaceInversionFlag r).
Definition set_fwdArcList (x : Z) (r : vertexRec) : vertexRec :=
  mkVertex (index r) (parent r) (visited r) (visitedInfo r) (leastAncestor r) (lowpoint r)
    (sortedDFSChildList r) (separatedDFSChildList r) (pertinentBicompList r) x
    (pertinentAdjacencyInfo r) (vlink0 r) (vlink1 r) (extFace0 r) (extFace1 r)
    (extFaceInversionFlag r).
Definition set_pertinentAdjacencyInfo (x : Z) (r : vertexRec) : vertexRec :=
  mkVertex (index r) (parent r) (visited r) (visitedInfo r) (leastAncestor r) (lowpoint r)
    (sortedDFSChildList r) (separatedDFSChildList r) (pertinentBicompList r) (fwdArcList r)
    x (vlink0 r) (vlink1 r) (extFace0 r) (extFace1 r)
    (extFaceInversionFlag r).
Definition set_vlink0 (x : Z) (r : vertexRec) : vertexRec :=
  mkVertex (index r) (parent r) (visited r) (visitedInfo r) (leastAncestor r) (lowpoint r)
    (sortedDFSChildList r) (separatedDFSChildList r) (pertinentBicompList r) (fwdArcList r)
    (pertinentAdjacencyInfo r) x (vlink1 r) (extFace0 r) (extFace1 r)
    (extFaceInversionFlag r).
Definition set_vlink1 (x : Z) (r : vertexRec) : vertexRec :=
  mkVertex (index r) (parent r) (visited r) (visitedInfo r) (leastAncestor r) (lowpoint r)
    (sortedDFSChildList r) (separatedDFSChildList r) (pertinentBicompList r) (fwdArcList r)
    (pertinentAdjacencyInfo r) (vlink0 r) x (extFace0 r) (extFace1 r)
    (extFaceInversionFlag r).
Definition set_extFace0 (x : Z) (r : vertexRec) : vertexRec :=
  mkVertex (index r) (parent r) (visited r) (visitedInfo r) (leastAncestor r) (lowpoint r)
    (sortedDFSChildList r) (separatedDFSChildList r) (pertinentBicompList r) (fwdArcList r)
    (pertinentAdjacencyInfo r) (vlink0 r) (vlink1 r) x (extFace1 r)
    (extFaceInversionFlag r).
Definition set_extFace1 (x : Z) (r : vertexRec) : vertexRec :=
  mkVertex (index r) (parent r) (visited r) (visitedInfo r) (leastAncestor r) (lowpoint r)
    (sortedDFSChildList r) (separatedDFSChildList r) (pertinentBicompList r) (fwdArcList r)
    (pertinentAdjacencyInfo r) (vlink0 r) (vlink1 r) (extFace0 r) x
    (extFaceInversionFlag r).
Definition set_extFaceInversionFlag (x : bool) (r : vertexRec) : vertexRec :=
  mkVertex (index r) (parent r) (visited r) (visitedInfo r) (leastAncestor r) (lowpoint r)
    (sortedDFSChildList r) (separatedDFSChildList r) (pertinentBicompList r) (fwdArcList r)
    (pertinentAdjacencyInfo r) (vlink0 r) (vlink1 r) (extFace0 r) (extFace1 r) x.

Definition set_neighbor (x : Z) (a : arcRec) : arcRec :=
  mkArc x (alink0 a) (alink1 a) (edgeType a) (inverted a).
Definition set_alink0 (x : Z) (a : arcRec) : arcRec :=
  mkArc (neighbor a) x (alink1 a) (edgeType a) (inverted a).
Definition set_alink1 (x : Z) (a : arcRec) : arcRec :=
  mkArc (neighbor a) (alink0 a) x (edgeType a) (inverted a).
Definition set_edgeType (x : EdgeType) (a : arcRec) : arcRec :=
  mkArc (neighbor a) (alink0 a) (alink1 a) x (inverted a).
Definition set_inverted (x : bool) (a : arcRec) : arcRec :=
  mkArc (neighbor a) (alink0 a) (alink1 a) (edgeType a) x.

Definition with_V (f : gmap Z vertexRec -> gmap Z vertexRec) (g : Graph) : Graph :=
  mkGraph (gN g) (gNV g) (f (V g)) (E g) (arcCapacity g) (theStack g) (sortedDFSChildLists g)
    (DFSChildLists g) (BicompLists g) (bin g) (buckets g) (dfsNumbered g) (embedFlags g).
Definition with_E (f : gmap Z arcRec -> gmap Z arcRec) (g : Graph) : Graph :=
  mkGraph (gN g) (gNV g) (V g) (f (E g)) (arcCapacity g) (theStack g) (sortedDFSChildLists g)
    (DFSChildLists g) (BicompLists g) (bin g) (buckets g) (dfsNumbered g) (embedFlags g).
Definition with_theStack (s : stackRec) (g : Graph) : Graph :=
  mkGraph (gN g) (gNV g) (V g) (E g) (arcCapacity g) s (sortedDFSChildLists g)
    (DFSChildLists g) (BicompLists g) (bin g) (buckets g) (dfsNumbered g) (embedFlags g).
Definition with_sortedDFSChildLists (l : listCollection) (g : Graph) : Graph :=
  mkGraph (gN g) (gNV g) (V g) (E g) (arcCapacity g) (theStack g) l
    (DFSChildLists g) (BicompLists g) (bin g) (buckets g) (dfsNumbered g) (embedFlags g).
Definition with_DFSChildLists (l : listCollection) (g : Graph) : Graph :=
  mkGraph (gN g) (gNV g) (V g) (E g) (arcCapacity g) (theStack g) (sortedDFSChildLists g)
    l (BicompLists g) (bin g) (buckets g) (dfsNumbered g) (embedFlags g).
Definition with_BicompLists (l : listCollection) (g : Graph) : Graph :=
  mkGraph (gN g) (gNV g) (V g) (E g) (arcCapacity g) (theStack g) (sortedDFSChildLists g)
    (DFSChildLists g) l (bin g) (buckets g) (dfsNumbered g) (embedFlags g).
Definition with_bin (l : listCollection) (g : Graph) : Graph :=
  mkGraph (gN g) (gNV g) (V g) (E g) (arcCapacity g) (theStack g) (sortedDFSChildLists g)
    (DFSChildLists g) (BicompLists g) l (buckets g) (dfsNumbered g) (embedFlags g).
Definition with_buckets (b : gmap Z Z) (g : Graph) : Graph :=
  mkGraph (gN g) (gNV g) (V g) (E g) (arcCapacity g) (theStack g) (sortedDFSChildLists g)
    (DFSChildLists g) (BicompLists g) (bin g) b (dfsNumbered g) (embedFlags g).
Definition with_dfsNumbered (b : bool) (g : Graph) : Graph :=
  mkGraph (gN g) (gNV g) (V g) (E g) (arcCapacity g) (theStack g) (sortedDFSChildLists g)
    (DFSChildLists g) (BicompLists g) (bin g) (buckets g) b (embedFlags g).
Definition with_embedFlags (f : EmbedFlags) (g : Graph) : Graph :=
  mkGraph (gN g) (gNV g) (V g) (E g) (arcCapacity g) (theStack g) (sortedDFSChildLists g)
    (DFSChildLists g) (BicompLists g) (bin g) (buckets g) (dfsNumbered g) f.

(** In-place update of one vertex record and of one arc record. *)
Definition upd_vertex (v : Z) (f : vertexRec -> vertexRec) (g : Graph) : Graph :=
  with_V (fun m => <[v := f (m !!! v)]> m) g.
Definition upd_arc (e : Z) (f : arcRec -> arcRec) (g : Graph) : Graph :=
  with_E (fun m => <[e := f (m !!! e)]> m) g.

(** ** Access macros of graph.h *)

(** Modelled from the spec: graph.h is not under src/.  The spec fixes the
    arc twin as the arc index XOR 1, the adjacency list end marker as a
    sentinel outside the arc range, link 0 as the first arc of a vertex and
    the next arc of an arc, link 1 as the last and the previous one. *)
Definition gp_IsArc (g : Graph) (e : Z) : bool := bool_decide (e <> NIL).
Definition gp_AdjacencyListEndMark (v : Z) : Z := NIL.
Definition gp_GetTwinArc (g : Graph) (e : Z) : Z := Z.lxor e 1.
Definition gp_GetArcCapacity (g : Graph) : Z := arcCapacity g.

Definition gp_GetFirstArc (g : Graph) (v : Z) : Z := vlink0 (V g !!! v).
Definition gp_GetLastArc (g : Graph) (v : Z) : Z := vlink1 (V g !!! v).
Definition gp_GetArc (g : Graph) (v link : Z) : Z :=
  if bool_decide (link = 0) then vlink0 (V g !!! v) else vlink1 (V g !!! v).
Definition gp_SetFirstArc (g : Graph) (v a : Z) : Graph := upd_vertex v (set_vlink0 a) g.
Definition gp_SetLastArc (g : Graph) (v a : Z) : Graph := upd_vertex v (set_vlink1 a) g.
Definition gp_SetArc (g : Graph) (v link a : Z) : Graph :=
  if bool_decide (link = 0) then gp_SetFirstArc g v a else gp_SetLastArc g v a.

Definition gp_GetNextArc (g : Graph) (e : Z) : Z := alink0 (E g !!! e).
Definition gp_GetPrevArc (g : Graph) (e : Z) : Z := alink1 (E g !!! e).
Definition gp_GetAdjacentArc (g : Graph) (e link : Z) : Z :=
  if bool_decide (link = 0) then alink0 (E g !!! e) else alink1 (E g !!! e).
Definition gp_SetNextArc (g : Graph) (e a : Z) : Graph := upd_arc e (set_alink0 a) g.
Definition gp_SetPrevArc (g : Graph) (e a : Z) : Graph := upd_arc e (set_alink1 a) g.
Definition gp_SetAdjacentArc (g : Graph) (e link a : Z) : Graph :=
  if bool_decide (link = 0) then gp_SetNextArc g e a else gp_SetPrevArc g e a.

Definition gp_GetNeighbor (g : Graph) (e : Z) : Z := neighbor (E g !!! e).
Definition gp_SetNeighbor (g : Graph) (e v : Z) : Graph := upd_arc e (set_neighbor v) g.
Definition gp_GetEdgeType (g : Graph) (e : Z) : EdgeType := edgeType (E g !!! e).
Definition gp_SetEdgeType (g : Graph) (e : Z) (t : EdgeType) : Graph :=
  upd_arc e (set_edgeType t) g.
Definition gp_GetEdgeFlagInverted (g : Graph) (e : Z) : bool := inverted (E g !!! e).
Definition gp_XorEdgeFlagInverted (g : Graph) (e : Z) : Graph :=
  upd_arc e (fun a => set_inverted (negb (inverted a)) a) g.
Definition gp_ClearEdgeFlagInverted (g : Graph) (e : Z) : Graph :=
  upd_arc e (set_inverted false) g.

Definition gp_GetVertexIndex (g : Graph) (v : Z) : Z := index (V g !!! v).
Definition gp_SetVertexIndex (g : Graph) (v x : Z) : Graph := upd_vertex v (set_index x) g.
Definition gp_GetVertexParent (g : Graph) (v : Z) : Z := parent (V g !!! v).
Definition gp_SetVertexParent (g : Graph) (v x : Z) : Graph := upd_vertex v (set_parent x) g.
Definition gp_GetVertexVisited (g : Graph) (v : Z) : bool := visited (V g !!! v).
Definition gp_SetVertexVisited (g : Graph) (v : Z) : Graph := upd_vertex v (set_visited true) g.
Definition gp_GetVertexVisitedInfo (g : Graph) (v : Z) : Z := visitedInfo (V g !!! v).
Definition gp_SetVertexVisitedInfo (g : Graph) (v x : Z) : Graph :=
  upd_vertex v (set_visitedInfo x) g.
Definition gp_GetVertexLeastAncestor (g : Graph) (v : Z) : Z := leastAncestor (V g !!! v).
Definition gp_SetVertexLeastAncestor (g : Graph) (v x : Z) : Graph :=
  upd_vertex v (set_leastAncestor x) g.
Definition gp_GetVertexLowpoint (g : Graph) (v : Z) : Z := lowpoint (V g !!! v).
Definition gp_SetVertexLowpoint (g : Graph) (v x : Z) : Graph :=
  upd_vertex v (set_lowpoint x) g.
Definition gp_GetVertexSortedDFSChildList (g : Graph) (v : Z) : Z :=
  sortedDFSChildList (V g !!! v).
Definition gp_SetVertexSortedDFSChildList (g : Graph) (v x : Z) : Graph :=
  upd_vertex v (set_sortedDFSChildList x) g.
Definition gp_GetVertexSeparatedDFSChildList (g : Graph) (v : Z) : Z :=
  separatedDFSChildList (V g !!! v).
Definition gp_SetVertexSeparatedDFSChildList (g : Graph) (v x : Z) : Graph :=
  upd_vertex v (set_separatedDFSChildList x) g.
Definition gp_GetVertexPertinentBicompList (g : Graph) (v : Z) : Z :=
  pertinentBicompList (V g !!! v).
Definition gp_SetVertexPertinentBicompList (g : Graph) (v x : Z) : Graph :=
  upd_vertex v (set_pertinentBicompList x) g.
Definition gp_GetVertexFwdArcList (g : Graph) (v : Z) : Z := fwdArcList (V g !!! v).
Definition gp_SetVertexFwdArcList (g : Graph) (v x : Z) : Graph :=
  upd_vertex v (set_fwdArcList x) g.
Definition gp_GetVertexPertinentAdjacencyInfo (g : Graph) (v : Z) : Z :=
  pertinentAdjacencyInfo (V g !!! v).
Definition gp_SetVertexPertinentAdjacencyInfo (g : Graph) (v x : Z) : Graph :=
  upd_vertex v (set_pertinentAdjacencyInfo x) g.

Definition gp_GetExtFaceVertex (g : Graph) (v link : Z) : Z :=
  if bool_decide (link = 0) then extFace0 (V g !!! v) else extFace1 (V g !!! v).
Definition gp_SetExtFaceVertex (g : Graph) (v link x : Z) : Graph :=
  if bool_decide (link = 0) then upd_vertex v (set_extFace0 x) g
  else upd_vertex v (set_extFace1 x) g.
Definition gp_GetExtFaceInversionFlag (g : Graph) (v : Z) : bool :=
  extFaceInversionFlag (V g !!! v).
Definition gp_SetExtFaceInversionFlag (g : Graph) (v : Z) : Graph :=
  upd_vertex v (set_extFaceInversionFlag true) g.
Definition gp_ClearExtFaceInversionFlag (g : Graph) (v : Z) : Graph :=
  upd_vertex v (set_extFaceInversionFlag false) g.

(** Modelled from the spec: the activity classification of section 4.5
    (the macros PERTINENT and _VertexActiveStatus of graph.h are not under
    src/).  A vertex is pertinent when it has an unembedded back edge to the
    current vertex or a pertinent child bicomp; it is externally active when
    its least ancestor, or the lowpoint of the first child of its
    separatedDFSChildList, is below the current vertex. *)
Definition PERTINENT (g : Graph) (v : Z) : bool :=
  bool_decide (gp_GetVertexPertinentAdjacencyInfo g v <> NIL)
  || bool_decide (gp_GetVertexPertinentBicompList g v <> NIL).
Definition EXTERNALLY_ACTIVE (g : Graph) (v I : Z) : bool :=
  bool_decide (gp_GetVertexLeastAncestor g v < I)
  || (bool_decide (gp_GetVertexSeparatedDFSChildList g v <> NIL)
      && bool_decide (gp_GetVertexLowpoint g (gp_GetVertexSeparatedDFSChildList g v) < I)).
Definition _VertexActiveStatus (g : Graph) (v I : Z) : VertexActiveStatus :=
  if EXTERNALLY_ACTIVE g v I then VAS_EXTERNAL
  else if PERTINENT g v then VAS_INTERNAL
  else VAS_INACTIVE.

(** ** The integer stack of stack.h *)

(** Modelled from the spec: the reusable integer stack (stack.h is not under
    src/).  Two integers are pushed and popped at a time; the second one
    pushed is the first one popped.  Popping the empty stack is outside the
    contract of the stack; the model then yields NIL. *)
Definition sp_GetCapacity (s : stackRec) : Z := stack_capacity s.
Definition sp_GetCurrentSize (s : stackRec) : Z := Z.of_nat (length (stack_items s)).
Definition sp_NonEmpty (s : stackRec) : bool :=
  match stack_items s with [] => false | _ => true end.
Definition sp_ClearStack (s : stackRec) : stackRec := mkStack [] (stack_capacity s).
Definition sp_Push (s : stackRec) (a : Z) : stackRec :=
  mkStack (a :: stack_items s) (stack_capacity s).
Definition sp_Pop (s : stackRec) : Z * stackRec :=
  match stack_items s with
  | [] => (NIL, s)
  | a :: rest => (a, mkStack rest (stack_capacity s))
  end.
Definition sp_Push2 (s : stackRec) (a b : Z) : stackRec := sp_Push (sp_Push s a) b.
Definition sp_Pop2 (s : stackRec) : Z * Z * stackRec :=
  let '(b, s) := sp_Pop s in
  let '(a, s) := sp_Pop s in
  (a, b, s).

(** ** The list collection of listcoll.h *)

(** Modelled from the spec: the list collection (listcoll.h is not under
    src/) is an arena of nodes with circular prev and next indices; a list
    is named by its head node, NIL names the empty list.  Appending links
    the node in front of the head, which is the last place of the circular
    list, and keeps the head; prepending does the same and makes the node
    the head. *)
Definition LCGetNext (lc : listCollection) (theList theNode : Z) : Z :=
  if bool_decide (lc_next (lc !!! theNode) = theList) then NIL
  else lc_next (lc !!! theNode).

Definition LCAppend (lc : listCollection) (theList theNode : Z) : listCollection * Z :=
  if bool_decide (theList = NIL) then
    (<[theNode := mkLcnode theNode theNode]> lc, theNode)
  else
    let pred := lc_prev (lc !!! theList) in
    let lc := <[theList := mkLcnode theNode (lc_next (lc !!! theList))]> lc in
    let lc := <[theNode := mkLcnode pred theList]> lc in
    let lc := <[pred := mkLcnode (lc_prev (lc !!! pred)) theNode]> lc in
    (lc, theList).

Definition LCPrepend (lc : listCollection) (theList theNode : Z) : listCollection * Z :=
  let '(lc, _) := LCAppend lc theList theNode in (lc, theNode).

Definition LCDelete (lc : listCollection) (theList theNode : Z) : listCollection * Z :=
  if bool_decide (lc_next (lc !!! theList) = theList) then
    (<[theList := mkLcnode NIL NIL]> lc, NIL)
  else
    let pred := lc_prev (lc !!! theNode) in
    let succ := lc_next (lc !!! theNode) in
    let lc := <[pred := mkLcnode (lc_prev (lc !!! pred)) succ]> lc in
    let lc := <[succ := mkLcnode pred (lc_next (lc !!! succ))]> lc in
    let lc := <[theNode := mkLcnode NIL NIL]> lc in
    (lc, if bool_decide (theList = theNode) then succ else theList).

Definition LCReset (lc : listCollection) : listCollection := ∅.

(** ** The function table of graphFunctionTable.h *)

(** The hooks of [theGraph->functions] that graphEmbed.c calls.  A hook whose
    core version contains a loop over the linked structure returns [None]
    when it does not return. *)
Record graphFunctionTable : Type := mkFunctionTable {
  fpEmbedBackEdgeToDescendant : Graph -> Z -> Z -> Z -> Z -> Graph;
  fpWalkUp : Graph -> Z -> Z -> option Graph;
  fpWalkDown : Graph -> Z -> Z -> option (RetCode * Graph);
  fpMergeBicomps : Graph -> Z -> Z -> Z -> Z -> option (RetCode * Graph);
  fpHandleBlockedDescendantBicomp :
    Graph -> Z -> Z -> Z -> Z -> Z -> Z -> RetCode * (Z * Z * Z) * Graph;
  fpHandleInactiveVertex : Graph -> Z -> Z -> Z -> RetCode * (Z * Z) * Graph;
  fpHandleBlockedEmbedIteration : Graph -> Z -> RetCode * Graph;
  fpEmbedPostprocess : Graph -> Z -> RetCode -> option (RetCode * Graph);
  fpInitVertexRec : Graph -> Z -> Graph;
  fpSortVertices : Graph -> RetCode * Graph
}.

(** ** Vertex inversion and merging (graphEmbed.c, lines 613-826) *)

(** The loop of _InvertVertex: swap the links of the arcs from [J] on. *)
Fixpoint InvertVertex_arcs (fuel : nat) (g : Graph) (J : Z) : option Graph :=
  if gp_IsArc g J then
    match fuel with
    | O => None
    | S fuel =>
        let temp := gp_GetNextArc g J in
        let g := gp_SetNextArc g J (gp_GetPrevArc g J) in
        let g := gp_SetPrevArc g J temp in
        InvertVertex_arcs fuel g temp
    end
  else Some g.

Definition _InvertVertex (fuel : nat) (g : Graph) (v : Z) : option Graph :=
  g ← InvertVertex_arcs fuel g (gp_GetFirstArc g v);
  let temp := gp_GetFirstArc g v in
  let g := gp_SetFirstArc g v (gp_GetLastArc g v) in
  let g := gp_SetLastArc g v temp in
  let temp := gp_GetExtFaceVertex g v 0 in
  let g := gp_SetExtFaceVertex g v 0 (gp_GetExtFaceVertex g v 1) in
  let g := gp_SetExtFaceVertex g v 1 temp in
  Some g.

(** The first loop of _MergeVertex: the twins of the arcs of R name W. *)
Fixpoint MergeVertex_redirect (fuel : nat) (g : Graph) (W J : Z) : option Graph :=
  if gp_IsArc g J then
    match fuel with
    | O => None
    | S fuel =>
        let JTwin := gp_GetTwinArc g J in
        let g := gp_SetNeighbor g JTwin W in
        MergeVertex_redirect fuel g W (gp_GetNextArc g J)
    end
  else Some g.

Definition _MergeVertex (functions : graphFunctionTable) (fuel : nat) (g : Graph)
    (W WPrevLink R : Z) : option Graph :=
  g ← MergeVertex_redirect fuel g W (gp_GetFirstArc g R);
  let e_w := gp_GetArc g W WPrevLink in
  let e_r := gp_GetArc g R (Z.lxor 1 WPrevLink) in
  let e_ext := gp_GetArc g R WPrevLink in
  let g :=
    if gp_IsArc g e_w then
      let g := gp_SetAdjacentArc g e_w (Z.lxor 1 WPrevLink) e_r in
      let g := gp_SetAdjacentArc g e_r WPrevLink e_w in
      let g := gp_SetArc g W WPrevLink e_ext in
      gp_SetAdjacentArc g e_ext (Z.lxor 1 WPrevLink) (gp_AdjacencyListEndMark W)
    else
      let g := gp_SetArc g W (Z.lxor 1 WPrevLink) e_r in
      let g := gp_SetAdjacentArc g e_r WPrevLink (gp_AdjacencyListEndMark W) in
      let g := gp_SetArc g W WPrevLink e_ext in
      gp_SetAdjacentArc g e_ext (Z.lxor 1 WPrevLink) (gp_AdjacencyListEndMark W) in
  Some (fpInitVertexRec functions g R).

(** The search of _MergeBicomps for the tree-child arc of R, whose inverted
    flag is reversed (lines 775-792). *)
Fixpoint MergeBicomps_signChild (fuel : nat) (g : Graph) (J : Z) : option Graph :=
  if gp_IsArc g J then
    match fuel with
    | O => None
    | S fuel =>
        if decide (gp_GetEdgeType g J = EDGE_TYPE_CHILD) then
          Some (gp_XorEdgeFlagInverted g J)
        else MergeBicomps_signChild fuel g (gp_GetNextArc g J)
    end
  else Some g.

(** The flip of the bicomp rooted at R when the path into Z opposes the path
    out of R (lines 768-793); the result holds the local Rout. *)
Definition MergeBicomps_flip (fuel : nat) (g : Graph) (R Rout ZPrevLink : Z)
    : option (Z * Graph) :=
  if bool_decide (ZPrevLink = Rout) then
    let Rout := Z.lxor 1 ZPrevLink in
    g ← (if bool_decide (gp_GetFirstArc g R <> gp_GetLastArc g R)
         then _InvertVertex fuel g R else Some g);
    g ← MergeBicomps_signChild fuel g (gp_GetFirstArc g R);
    Some (Rout, g)
  else Some (Rout, g).

Definition flag_bit (b : bool) : Z := if b then 1 else 0.

(** One turn of the loop of _MergeBicomps: the two pairs on top of the stack
    are popped and the bicomp rooted at R is merged into Z. *)
Definition MergeBicomps_pair (functions : graphFunctionTable) (fuel : nat) (g : Graph)
    : option Graph :=
  let '(R, Rout, s) := sp_Pop2 (theStack g) in
  let '(Zv, ZPrevLink, s) := sp_Pop2 s in
  let g := with_theStack s g in
  let extFaceVertex := gp_GetExtFaceVertex g R (Z.lxor 1 Rout) in
  let g := gp_SetExtFaceVertex g Zv ZPrevLink extFaceVertex in
  let g :=
    if bool_decide (gp_GetExtFaceVertex g extFaceVertex 0 = gp_GetExtFaceVertex g extFaceVertex 1)
    then gp_SetExtFaceVertex g extFaceVertex
           (Z.lxor Rout (flag_bit (gp_GetExtFaceInversionFlag g extFaceVertex))) Zv
    else gp_SetExtFaceVertex g extFaceVertex
           (if bool_decide (gp_GetExtFaceVertex g extFaceVertex 0 = R) then 0 else 1) Zv in
  '(Rout, g) ← MergeBicomps_flip fuel g R Rout ZPrevLink;
  let RootID_DFSChild := R - gN g in
  let theList := gp_GetVertexPertinentBicompList g Zv in
  let '(lc, theList) := LCDelete (BicompLists g) theList RootID_DFSChild in
  let g := with_BicompLists lc g in
  let g := gp_SetVertexPertinentBicompList g Zv theList in
  let theList := gp_GetVertexSeparatedDFSChildList g Zv in
  let '(lc, theList) := LCDelete (DFSChildLists g) theList RootID_DFSChild in
  let g := with_DFSChildLists lc g in
  let g := gp_SetVertexSeparatedDFSChildList g Zv theList in
  _MergeVertex functions fuel g Zv ZPrevLink R.

Fixpoint MergeBicomps_loop (functions : graphFunctionTable) (fuel : nat) (n : nat)
    (g : Graph) : option (RetCode * Graph) :=
  if sp_NonEmpty (theStack g) then
    match n with
    | O => None
    | S n =>
        g ← MergeBicomps_pair functions fuel g;
        MergeBicomps_loop functions fuel n g
    end
  else Some (OK, g).

Definition _MergeBicomps (functions : graphFunctionTable) (fuel : nat) (g : Graph)
    (I RootVertex W WPrevLink : Z) : option (RetCode * Graph) :=
  MergeBicomps_loop functions fuel fuel g.

(** ** Embedding a back edge (lines 504-553) *)

Definition _EmbedBackEdgeToDescendant (g : Graph) (RootSide RootVertex W WPrevLink : Z)
    : Graph :=
  let fwdArc := gp_GetVertexPertinentAdjacencyInfo g W in
  let backArc := gp_GetTwinArc g fwdArc in
  let parentCopy := gp_GetVertexParent g (RootVertex - gN g) in
  let g :=
    if bool_decide (gp_GetVertexFwdArcList g parentCopy = fwdArc) then
      let g := gp_SetVertexFwdArcList g parentCopy (gp_GetNextArc g fwdArc) in
      if bool_decide (gp_GetVertexFwdArcList g parentCopy = fwdArc)
      then gp_SetVertexFwdArcList g parentCopy NIL else g
    else g in
  let g := gp_SetNextArc g (gp_GetPrevArc g fwdArc) (gp_GetNextArc g fwdArc) in
  let g := gp_SetPrevArc g (gp_GetNextArc g fwdArc) (gp_GetPrevArc g fwdArc) in
  let g := gp_SetAdjacentArc g fwdArc (Z.lxor 1 RootSide) (gp_AdjacencyListEndMark RootVertex) in
  let g := gp_SetAdjacentArc g fwdArc RootSide (gp_GetArc g RootVertex RootSide) in
  let g := gp_SetAdjacentArc g (gp_GetArc g RootVertex RootSide) (Z.lxor 1 RootSide) fwdArc in
  let g := gp_SetArc g RootVertex RootSide fwdArc in
  let g := gp_SetAdjacentArc g backArc (Z.lxor 1 WPrevLink) (gp_AdjacencyListEndMark W) in
  let g := gp_SetAdjacentArc g backArc WPrevLink (gp_GetArc g W WPrevLink) in
  let g := gp_SetAdjacentArc g (gp_GetArc g W WPrevLink) (Z.lxor 1 WPrevLink) backArc in
  let g := gp_SetArc g W WPrevLink backArc in
  let g := gp_SetNeighbor g backArc RootVertex in
  let g := gp_SetExtFaceVertex g RootVertex RootSide W in
  gp_SetExtFaceVertex g W WPrevLink RootVertex.

(** ** Walkup (lines 864-972) *)

(** What one turn of the Walkup loop finds before it marks Zig and Zag:
    a break on the visited-info test, or the bicomp root (NIL when neither
    direction reached one) and the two next vertices. *)
Inductive WalkUpProbe : Type :=
  | WU_Break
  | WU_Found (R nextZig nextZag : Z).

Definition WalkUp_probe (g : Graph) (I Zig Zag ZigPrevLink ZagPrevLink : Z) : WalkUpProbe :=
  let nextZig := gp_GetExtFaceVertex g Zig (Z.lxor 1 ZigPrevLink) in
  if bool_decide (nextZig >= gN g) then
    if bool_decide (gp_GetVertexVisitedInfo g Zig = I) then WU_Break
    else
      let R := nextZig in
      let nextZag :=
        gp_GetExtFaceVertex g R
          (if bool_decide (gp_GetExtFaceVertex g R 0 = Zig) then 1 else 0) in
      if bool_decide (gp_GetVertexVisitedInfo g nextZag = I) then WU_Break
      else WU_Found R nextZig nextZag
  else
    let nextZag := gp_GetExtFaceVertex g Zag (Z.lxor 1 ZagPrevLink) in
    if bool_decide (nextZag >= gN g) then
      if bool_decide (gp_GetVertexVisitedInfo g Zag = I) then WU_Break
      else
        let R := nextZag in
        let nextZig :=
          gp_GetExtFaceVertex g R
            (if bool_decide (gp_GetExtFaceVertex g R 0 = Zag) then 1 else 0) in
        if bool_decide (gp_GetVertexVisitedInfo g nextZig = I) then WU_Break
        else WU_Found R nextZig nextZag
    else
      if bool_decide (gp_GetVertexVisitedInfo g Zig = I) then WU_Break
      else if bool_decide (gp_GetVertexVisitedInfo g Zag = I) then WU_Break
      else WU_Found NIL nextZig nextZag.

(** The bicomp root R found by the Walkup is recorded in the
    pertinentBicompList of its parent copy (lines 943-965). *)
Definition WalkUp_recordRoot (g : Graph) (I R : Z) : Graph :=
  let RootID_DFSChild := R - gN g in
  let ParentCopy := gp_GetVertexParent g RootID_DFSChild in
  let BicompList := gp_GetVertexPertinentBicompList g ParentCopy in
  let '(lc, BicompList) :=
    if bool_decide (gp_GetVertexLowpoint g RootID_DFSChild < I)
    then LCAppend (BicompLists g) BicompList RootID_DFSChild
    else LCPrepend (BicompLists g) BicompList RootID_DFSChild in
  let g := with_BicompLists lc g in
  gp_SetVertexPertinentBicompList g ParentCopy BicompList.

Fixpoint WalkUp_loop (fuel : nat) (g : Graph) (I Zig Zag ZigPrevLink ZagPrevLink : Z)
    : option Graph :=
  if bool_decide (Zig <> I) then
    match fuel with
    | O => None
    | S fuel =>
        match WalkUp_probe g I Zig Zag ZigPrevLink ZagPrevLink with
        | WU_Break => Some g
        | WU_Found R nextZig nextZag =>
            let g := gp_SetVertexVisitedInfo g Zig I in
            let g := gp_SetVertexVisitedInfo g Zag I in
            if bool_decide (R = NIL) then
              let ZigPrevLink :=
                if bool_decide (gp_GetExtFaceVertex g nextZig 0 = Zig) then 0 else 1 in
              let ZagPrevLink :=
                if bool_decide (gp_GetExtFaceVertex g nextZag 0 = Zag) then 0 else 1 in
              WalkUp_loop fuel g I nextZig nextZag ZigPrevLink ZagPrevLink
            else
              let ParentCopy := gp_GetVertexParent g (R - gN g) in
              let g := WalkUp_recordRoot g I R in
              WalkUp_loop fuel g I ParentCopy ParentCopy 1 0
        end
    end
  else Some g.

Definition _WalkUp (fuel : nat) (g : Graph) (I J : Z) : option Graph :=
  let W := gp_GetNeighbor g J in
  let g := gp_SetVertexPertinentAdjacencyInfo g W J in
  WalkUp_loop fuel g I W W 1 0.

(** ** Walkdown (lines 1000-1298) *)

Definition _HandleBlockedDescendantBicomp (g : Graph) (I RootVertex R Rout W WPrevLink : Z)
    : RetCode * (Z * Z * Z) * Graph :=
  let g := with_theStack (sp_Push2 (theStack g) R 0) g in
  (NONEMBEDDABLE, (Rout, W, WPrevLink), g).

Definition _HandleInactiveVertex (g : Graph) (BicompRoot W WPrevLink : Z)
    : RetCode * (Z * Z) * Graph :=
  let X := gp_GetExtFaceVertex g W (Z.lxor 1 WPrevLink) in
  let WPrevLink := if bool_decide (gp_GetExtFaceVertex g X 0 = W) then 0 else 1 in
  (OK, (X, WPrevLink), g).

Definition _GetPertinentChildBicomp (g : Graph) (W : Z) : Z :=
  if bool_decide (gp_GetVertexPertinentBicompList g W = NIL) then NIL
  else gp_GetVertexPertinentBicompList g W + gN g.

(** The choice of WPrevLink when the Walkdown leaves RootVertex on RootSide
    (lines 1108-1141); [None] is the NOTOK return. *)
Definition WalkDown_enter (g : Graph) (RootVertex RootSide : Z) : option (Z * Z) :=
  let W := gp_GetExtFaceVertex g RootVertex RootSide in
  if bool_decide (gp_GetExtFaceVertex g W 0 = gp_GetExtFaceVertex g W 1) then
    Some (W, Z.lxor 1 RootSide)
  else
    let WPrevLink := if bool_decide (gp_GetExtFaceVertex g W 0 = RootVertex) then 0 else 1 in
    if bool_decide (gp_GetExtFaceVertex g W WPrevLink <> RootVertex) then None
    else Some (W, WPrevLink).

(** The visit of a vertex W that has an unembedded back edge to the current
    vertex (lines 1148-1166): the bicomps on the stack are merged, the back
    edge is embedded and the mark of W is cleared.  The left result is the
    early return of the Walkdown. *)
Definition WalkDown_embedAt (functions : graphFunctionTable) (g : Graph)
    (I RootVertex RootSide W WPrevLink : Z) : option (RetCode * Graph + Graph) :=
  if bool_decide (gp_GetVertexPertinentAdjacencyInfo g W <> NIL) then
    '(RetVal, g) ← (if sp_NonEmpty (theStack g)
                    then fpMergeBicomps functions g I RootVertex W WPrevLink
                    else Some (OK, g));
    if decide (RetVal <> OK) then Some (inl (RetVal, g))
    else
      let g := fpEmbedBackEdgeToDescendant functions g RootSide RootVertex W WPrevLink in
      let g := gp_SetVertexPertinentAdjacencyInfo g W NIL in
      Some (inr g)
  else Some (inr g).

(** The descent into the pertinent child bicomp at the head of W's list
    (lines 1172-1239). *)
Definition WalkDown_descend (functions : graphFunctionTable) (g : Graph)
    (I RootVertex W WPrevLink Rout : Z) : RetCode * Graph + Z * Z * Z * Graph :=
  let g := with_theStack (sp_Push2 (theStack g) W WPrevLink) g in
  let R := _GetPertinentChildBicomp g W in
  let X := gp_GetExtFaceVertex g R 0 in
  let XPrevLink := if bool_decide (gp_GetExtFaceVertex g X 1 = R) then 1 else 0 in
  let Y := gp_GetExtFaceVertex g R 1 in
  let YPrevLink := if bool_decide (gp_GetExtFaceVertex g Y 0 = R) then 0 else 1 in
  let '(XPrevLink, YPrevLink) :=
    if bool_decide (X = Y) && gp_GetExtFaceInversionFlag g X then (0, 1)
    else (XPrevLink, YPrevLink) in
  let chosen : RetCode * Graph + Z * Z * Z * Graph :=
    if decide (_VertexActiveStatus g X I = VAS_INTERNAL) then inr (X, XPrevLink, 0, g)
    else if decide (_VertexActiveStatus g Y I = VAS_INTERNAL) then inr (Y, YPrevLink, 1, g)
    else if PERTINENT g X then inr (X, XPrevLink, 0, g)
    else if PERTINENT g Y then inr (Y, YPrevLink, 1, g)
    else
      let '(RetVal, (Rout, W, WPrevLink), g) :=
        fpHandleBlockedDescendantBicomp functions g I RootVertex R Rout W WPrevLink in
      if decide (RetVal <> OK) then inl (RetVal, g) else inr (W, WPrevLink, Rout, g) in
  match chosen with
  | inl r => inl r
  | inr (W, WPrevLink, Rout, g) =>
      inr (W, WPrevLink, Rout, with_theStack (sp_Push2 (theStack g) R Rout) g)
  end.

(** How the traversal of one side of RootVertex ends: by a return out of
    _WalkDown, or at a vertex W entered by WPrevLink. *)
Inductive SideResult : Type :=
  | Side_Return (RetVal : RetCode) (g : Graph)
  | Side_Done (W WPrevLink Rout : Z) (g : Graph).

(** The inner loop of _WalkDown (lines 1143-1259). *)
Fixpoint WalkDown_side (functions : graphFunctionTable) (fuel : nat) (g : Graph)
    (I RootVertex RootSide W WPrevLink Rout : Z) : option SideResult :=
  if bool_decide (W <> RootVertex) then
    match fuel with
    | O => None
    | S fuel =>
        r ← WalkDown_embedAt functions g I RootVertex RootSide W WPrevLink;
        match r with
        | inl (RetVal, g) => Some (Side_Return RetVal g)
        | inr g =>
            if bool_decide (gp_GetVertexPertinentBicompList g W <> NIL) then
              match WalkDown_descend functions g I RootVertex W WPrevLink Rout with
              | inl (RetVal, g) => Some (Side_Return RetVal g)
              | inr (W, WPrevLink, Rout, g) =>
                  WalkDown_side functions fuel g I RootVertex RootSide W WPrevLink Rout
              end
            else if decide (_VertexActiveStatus g W I = VAS_INACTIVE) then
              let '(RetVal, (W, WPrevLink), g) :=
                fpHandleInactiveVertex functions g RootVertex W WPrevLink in
              if decide (RetVal <> OK) then Some (Side_Return NOTOK g)
              else WalkDown_side functions fuel g I RootVertex RootSide W WPrevLink Rout
            else Some (Side_Done W WPrevLink Rout g)
        end
    end
  else Some (Side_Done W WPrevLink Rout g).

(** The short-circuit of the external face after the traversal of a side
    (lines 1270-1288). *)
Definition WalkDown_shortCircuit (g : Graph) (RootVertex RootSide W WPrevLink : Z) : Graph :=
  let g := gp_SetExtFaceVertex g RootVertex RootSide W in
  let g := gp_SetExtFaceVertex g W WPrevLink RootVertex in
  if bool_decide (gp_GetExtFaceVertex g W 0 = gp_GetExtFaceVertex g W 1)
     && bool_decide (WPrevLink = RootSide)
  then gp_SetExtFaceInversionFlag g W
  else gp_ClearExtFaceInversionFlag g W.

(** The loop of _WalkDown over the sides of RootVertex. *)
Fixpoint WalkDown_sides (functions : graphFunctionTable) (fuel : nat) (I RootVertex : Z)
    (sides : list Z) (Rout : Z) (g : Graph) : option (RetCode * Graph) :=
  match sides with
  | [] => Some (OK, g)
  | RootSide :: sides =>
      match WalkDown_enter g RootVertex RootSide with
      | None => Some (NOTOK, g)
      | Some (W, WPrevLink) =>
          r ← WalkDown_side functions fuel g I RootVertex RootSide W WPrevLink Rout;
          match r with
          | Side_Return RetVal g => Some (RetVal, g)
          | Side_Done W WPrevLink Rout g =>
              let g := WalkDown_shortCircuit g RootVertex RootSide W WPrevLink in
              if bool_decide (W = RootVertex) then Some (OK, g)
              else WalkDown_sides functions fuel I RootVertex sides Rout g
          end
      end
  end.

(** _WalkDown; the local Rout has no value before its first assignment, the
    model starts it at NIL. *)
Definition _WalkDown (functions : graphFunctionTable) (fuel : nat) (g : Graph)
    (I RootVertex : Z) : option (RetCode * Graph) :=
  let g := with_theStack (sp_ClearStack (theStack g)) g in
  WalkDown_sides functions fuel I RootVertex [0; 1] NIL g.

(** ** Orientation and joining of bicomps (lines 1578-1685) *)

(** The arcs of V from J on: the DFS children in the bicomp are pushed with
    the sign accumulated so far. *)
Fixpoint OrientVerticesInBicomp_arcs (fuel : nat) (g : Graph) (J invertedFlag : Z)
    (PreserveSigns : bool) : option Graph :=
  if gp_IsArc g J then
    match fuel with
    | O => None
    | S fuel =>
        let g :=
          if decide (gp_GetEdgeType g J = EDGE_TYPE_CHILD) then
            let g :=
              with_theStack
                (sp_Push2 (theStack g) (gp_GetNeighbor g J)
                   (Z.lxor invertedFlag (flag_bit (gp_GetEdgeFlagInverted g J)))) g in
            if negb PreserveSigns then gp_ClearEdgeFlagInverted g J else g
          else g in
        OrientVerticesInBicomp_arcs fuel g (gp_GetNextArc g J) invertedFlag PreserveSigns
    end
  else Some g.

Fixpoint OrientVerticesInBicomp_loop (fuel n : nat) (g : Graph) (stackBottom : Z)
    (PreserveSigns : bool) : option Graph :=
  if bool_decide (sp_GetCurrentSize (theStack g) > stackBottom) then
    match n with
    | O => None
    | S n =>
        let '(v, invertedFlag, s) := sp_Pop2 (theStack g) in
        let g := with_theStack s g in
        g ← (if bool_decide (invertedFlag <> 0) then _InvertVertex fuel g v else Some g);
        g ← OrientVerticesInBicomp_arcs fuel g (gp_GetFirstArc g v) invertedFlag PreserveSigns;
        OrientVerticesInBicomp_loop fuel n g stackBottom PreserveSigns
    end
  else Some g.

Definition _OrientVerticesInBicomp (fuel : nat) (g : Graph) (BicompRoot : Z)
    (PreserveSigns : bool) : option (RetCode * Graph) :=
  let stackBottom := sp_GetCurrentSize (theStack g) in
  let g := with_theStack (sp_Push2 (theStack g) BicompRoot 0) g in
  g ← OrientVerticesInBicomp_loop fuel fuel g stackBottom PreserveSigns;
  Some (OK, g).

(** The loops over the root copies R = N, ..., N + NV - 1. *)
Fixpoint OrientVerticesInEmbedding_roots (fuel : nat) (g : Graph) (roots : list Z)
    : option (RetCode * Graph) :=
  match roots with
  | [] => Some (OK, g)
  | R :: roots =>
      if gp_IsArc g (gp_GetFirstArc g R) then
        '(RetVal, g) ← _OrientVerticesInBicomp fuel g R false;
        if decide (RetVal <> OK) then Some (NOTOK, g)
        else OrientVerticesInEmbedding_roots fuel g roots
      else OrientVerticesInEmbedding_roots fuel g roots
  end.

Definition _OrientVerticesInEmbedding (fuel : nat) (g : Graph) : option (RetCode * Graph) :=
  let g := with_theStack (sp_ClearStack (theStack g)) g in
  OrientVerticesInEmbedding_roots fuel g (seqZ (gN g) (gNV g)).

Fixpoint JoinBicomps_roots (functions : graphFunctionTable) (fuel : nat) (g : Graph)
    (roots : list Z) : option Graph :=
  match roots with
  | [] => Some g
  | R :: roots =>
      g ← (if gp_IsArc g (gp_GetFirstArc g R)
           then _MergeVertex functions fuel g (gp_GetVertexParent g (R - gN g)) 0 R
           else Some g);
      JoinBicomps_roots functions fuel g roots
  end.

Definition _JoinBicomps (functions : graphFunctionTable) (fuel : nat) (g : Graph)
    : option (RetCode * Graph) :=
  g ← JoinBicomps_roots functions fuel g (seqZ (gN g) (gNV g));
  Some (OK, g).

(** ** The embedder (lines 97-312 and 1343-1565) *)

Section Embedder.

(** The functions that graphEmbed.c imports from files that are not under
    src/: the reset of the visited flags and the two obstruction isolators. *)
Variable _ClearVertexVisitedFlags : Graph -> bool -> Graph.
Variable _IsolateKuratowskiSubgraph : Graph -> Z -> Z -> RetCode * Graph.
Variable _IsolateOuterplanarObstruction : Graph -> Z -> Z -> RetCode * Graph.

(** The table of hooks installed on the graph. *)
Variable functions : graphFunctionTable.

(** Modelled from the spec: gp_SortVertices (graphUtils.c is not under src/)
    runs the vertex sort of the function table. *)
Definition gp_SortVertices (g : Graph) : RetCode * Graph := fpSortVertices functions g.

(** The move of the forward arc JTwin of a back arc J, found at vertex u,
    out of the adjacency list of the ancestor and into its fwdArcList, and
    the update of the least ancestor of u (lines 193-229). *)
Definition EmbeddingInitialize_backArc (g : Graph) (u J : Z) : Graph :=
  let g := gp_SetEdgeType g J EDGE_TYPE_BACK in
  let JTwin := gp_GetTwinArc g J in
  let g := gp_SetEdgeType g JTwin EDGE_TYPE_FORWARD in
  let uneighbor := gp_GetNeighbor g J in
  let JPrev := gp_GetPrevArc g JTwin in
  let JNext := gp_GetNextArc g JTwin in
  let g := if gp_IsArc g JPrev then gp_SetNextArc g JPrev JNext
           else gp_SetFirstArc g uneighbor JNext in
  let g := if gp_IsArc g JNext then gp_SetPrevArc g JNext JPrev
           else gp_SetLastArc g uneighbor JPrev in
  let e := gp_GetVertexFwdArcList g uneighbor in
  let g :=
    if gp_IsArc g e then
      let JPrev := gp_GetPrevArc g e in
      let g := gp_SetPrevArc g JTwin JPrev in
      let g := gp_SetNextArc g JTwin e in
      let g := gp_SetPrevArc g e JTwin in
      gp_SetNextArc g JPrev JTwin
    else
      let g := gp_SetVertexFwdArcList g uneighbor JTwin in
      let g := gp_SetPrevArc g JTwin JTwin in
      gp_SetNextArc g JTwin JTwin in
  let uneighbor := gp_GetVertexIndex g uneighbor in
  if bool_decide (uneighbor < gp_GetVertexLeastAncestor g u)
  then gp_SetVertexLeastAncestor g u uneighbor else g.

(** What the scan of a newly visited vertex u does with its arc J
    (lines 187-230): an arc to an unvisited neighbour is pushed, an arc to a
    visited neighbour that is not the arc to the DFS parent is a back arc. *)
Definition EmbeddingInitialize_scanArc (g : Graph) (u J : Z) : Graph :=
  if negb (gp_GetVertexVisited g (gp_GetNeighbor g J)) then
    with_theStack (sp_Push2 (theStack g) u J) g
  else if decide (gp_GetEdgeType g J <> EDGE_TYPE_PARENT) then
    EmbeddingInitialize_backArc g u J
  else g.

(** The scan of the arcs of a newly visited vertex u (lines 184-233). *)
Fixpoint EmbeddingInitialize_scan (fuel : nat) (g : Graph) (u J : Z) : option Graph :=
  if gp_IsArc g J then
    match fuel with
    | O => None
    | S fuel =>
        let g := EmbeddingInitialize_scanArc g u J in
        EmbeddingInitialize_scan fuel g u (gp_GetNextArc g J)
    end
  else Some g.

(** The numbering of the vertex u reached from uparent by the arc e
    (lines 155-178): u gets the index DFI and, unless it is a DFS tree
    root, its tree edge is typed and recorded. *)
Definition EmbeddingInitialize_number (g : Graph) (N DFI uparent e u : Z) : Graph :=
  let g := gp_SetVertexVisited g u in
  let g := gp_SetVertexIndex g u DFI in
  let g := gp_SetVertexParent g u uparent in
  if bool_decide (e <> NIL) then
    let g := gp_SetEdgeType g e EDGE_TYPE_CHILD in
    let g := gp_SetEdgeType g (gp_GetTwinArc g e) EDGE_TYPE_PARENT in
    let '(lc, theList) :=
      LCAppend (sortedDFSChildLists g) (gp_GetVertexSortedDFSChildList g uparent)
        (gp_GetVertexIndex g u) in
    let g := with_sortedDFSChildLists lc g in
    let g := gp_SetVertexSortedDFSChildList g uparent theList in
    let R := gp_GetVertexIndex g u + N in
    let g := gp_SetFirstArc g R e in
    gp_SetLastArc g R e
  else g.

(** The visit of the endpoint u of the popped pair (uparent, e)
    (lines 151-234); the result holds the next DFI. *)
Definition EmbeddingInitialize_visit (fuel : nat) (g : Graph) (N DFI uparent e u : Z)
    : option (Z * Graph) :=
  if negb (gp_GetVertexVisited g u) then
    let g := EmbeddingInitialize_number g N DFI uparent e u in
    let DFI := DFI + 1 in
    g ← EmbeddingInitialize_scan fuel g u (gp_GetFirstArc g u);
    Some (DFI, g)
  else Some (DFI, g).

(** One turn of the DFS loop (lines 142-234): a pair is popped and its
    endpoint visited. *)
Definition EmbeddingInitialize_turn (fuel : nat) (g : Graph) (N I DFI : Z)
    : option (Z * Graph) :=
  let '(uparent, e, s) := sp_Pop2 (theStack g) in
  let g := with_theStack s g in
  let u := if bool_decide (uparent = NIL) then I else gp_GetNeighbor g e in
  EmbeddingInitialize_visit fuel g N DFI uparent e u.

(** The DFS of the connected component of the root I (lines 140-235). *)
Fixpoint EmbeddingInitialize_component (fuel n : nat) (g : Graph) (N I DFI : Z)
    : option (Z * Graph) :=
  if sp_NonEmpty (theStack g) then
    match n with
    | O => None
    | S n =>
        '(DFI, g) ← EmbeddingInitialize_turn fuel g N I DFI;
        EmbeddingInitialize_component fuel n g N I DFI
    end
  else Some (DFI, g).

(** The loop over the DFS tree roots (lines 131-236). *)
Fixpoint EmbeddingInitialize_roots (fuel n : nat) (g : Graph) (N I DFI : Z)
    : option Graph :=
  if bool_decide (DFI < N) then
    match n with
    | O => None
    | S n =>
        if bool_decide (gp_GetVertexParent g I <> NIL) then
          EmbeddingInitialize_roots fuel n g N (I + 1) DFI
        else
          let g := with_theStack (sp_Push2 (theStack g) NIL NIL) g in
          '(DFI, g) ← EmbeddingInitialize_component fuel fuel g N I DFI;
          EmbeddingInitialize_roots fuel n g N (I + 1) DFI
    end
  else Some g.

(** The least lowpoint over the children of I from [child] on
    (lines 254-260). *)
Fixpoint Lowpoint_children (fuel : nat) (g : Graph) (I child leastValue : Z) : option Z :=
  if bool_decide (child <> NIL) then
    match fuel with
    | O => None
    | S fuel =>
        let leastValue :=
          if bool_decide (leastValue > gp_GetVertexLowpoint g child)
          then gp_GetVertexLowpoint g child else leastValue in
        Lowpoint_children fuel g I
          (LCGetNext (sortedDFSChildLists g) (gp_GetVertexSortedDFSChildList g I) child)
          leastValue
    end
  else Some leastValue.

(** The body of the lowpoint loop for the vertex I (lines 251-265). *)
Definition Lowpoint_vertex (fuel : nat) (g : Graph) (I : Z) : option Graph :=
  let leastValue := I in
  leastValue ← Lowpoint_children fuel g I (gp_GetVertexSortedDFSChildList g I) leastValue;
  let leastValue :=
    if bool_decide (leastValue > gp_GetVertexLeastAncestor g I)
    then gp_GetVertexLeastAncestor g I else leastValue in
  Some (gp_SetVertexLowpoint g I leastValue).

(** The lowpoint loop, for I = k - 1 down to 0 (lines 249-266). *)
Fixpoint Lowpoint_loop (fuel : nat) (k : nat) (g : Graph) : option Graph :=
  match k with
  | O => Some g
  | S k =>
      g ← Lowpoint_vertex fuel g (Z.of_nat k);
      Lowpoint_loop fuel k g
  end.

(** The singleton bicomp of the tree edge into I, rooted at R = I + N
    (lines 274-301). *)
Definition EmbeddingInitialize_treeEdge (N : Z) (g : Graph) (I : Z) : Graph :=
  let R := I + N in
  if bool_decide (gp_GetVertexParent g I = NIL) then
    let g := gp_SetFirstArc g I (gp_AdjacencyListEndMark I) in
    gp_SetLastArc g I (gp_AdjacencyListEndMark I)
  else
    let J := gp_GetFirstArc g R in
    let g := gp_SetPrevArc g J (gp_AdjacencyListEndMark I) in
    let g := gp_SetNextArc g J (gp_AdjacencyListEndMark I) in
    let JTwin := gp_GetTwinArc g J in
    let g := gp_SetNeighbor g JTwin R in
    let g := gp_SetFirstArc g I JTwin in
    let g := gp_SetLastArc g I JTwin in
    let g := gp_SetPrevArc g JTwin (gp_AdjacencyListEndMark I) in
    let g := gp_SetNextArc g JTwin (gp_AdjacencyListEndMark I) in
    let g := gp_SetExtFaceVertex g R 0 I in
    let g := gp_SetExtFaceVertex g R 1 I in
    let g := gp_SetExtFaceVertex g I 0 R in
    gp_SetExtFaceVertex g I 1 R.

(** _EmbeddingInitialize (lines 97-312).  The capacity test of line 121
    compares the capacity of the stack with a product of two C ints. *)
Definition _EmbeddingInitialize (fuel : nat) (g : Graph) : option (RetCode * Graph) :=
  let N := gN g in
  if bool_decide (sp_GetCapacity (theStack g) < int_wrap (2 * gp_GetArcCapacity g))
  then Some (NOTOK, g)
  else
    let g := with_theStack (sp_ClearStack (theStack g)) g in
    let g := _ClearVertexVisitedFlags g false in
    g ← EmbeddingInitialize_roots fuel fuel g N 0 0;
    let g := with_dfsNumbered true g in
    let '(RetVal, g) := gp_SortVertices g in
    if decide (RetVal <> OK) then Some (NOTOK, g)
    else
      g ← Lowpoint_loop fuel (Z.to_nat N) g;
      let g := foldl (EmbeddingInitialize_treeEdge N) g (seqZ 0 N) in
      Some (OK, g).

(** The bucket sort of the DFS children by lowpoint (lines 331-381). *)
Definition bucket (g : Graph) (I : Z) : Z := default NIL (buckets g !! I).

Definition CreateSortedSeparatedDFSChildLists_drop (g : Graph) (I : Z) : Graph :=
  let L := gp_GetVertexLowpoint g I in
  let '(lc, theList) := LCAppend (bin g) (bucket g L) I in
  with_buckets (<[L := theList]> (buckets g)) (with_bin lc g).

Fixpoint CreateSortedSeparatedDFSChildLists_bucket (fuel : nat) (g : Graph) (I L : Z)
    : option Graph :=
  if bool_decide (L <> NIL) then
    match fuel with
    | O => None
    | S fuel =>
        let DFSParent := gp_GetVertexParent g L in
        let g :=
          if bool_decide (DFSParent <> NIL) && bool_decide (DFSParent <> L) then
            let theList := gp_GetVertexSeparatedDFSChildList g DFSParent in
            let '(lc, theList) := LCAppend (DFSChildLists g) theList L in
            let g := with_DFSChildLists lc g in
            gp_SetVertexSeparatedDFSChildList g DFSParent theList
          else g in
        CreateSortedSeparatedDFSChildLists_bucket fuel g I (LCGetNext (bin g) (bucket g I) L)
    end
  else Some g.

Fixpoint CreateSortedSeparatedDFSChildLists_scan (fuel : nat) (g : Graph) (vs : list Z)
    : option Graph :=
  match vs with
  | [] => Some g
  | v :: vs =>
      g ← CreateSortedSeparatedDFSChildLists_bucket fuel g v (bucket g v);
      CreateSortedSeparatedDFSChildLists_scan fuel g vs
  end.

Definition _CreateSortedSeparatedDFSChildLists (fuel : nat) (g : Graph) : option Graph :=
  let N := gN g in
  let g := with_bin (LCReset (bin g)) g in
  let g := foldl (fun g I => with_buckets (<[I := NIL]> (buckets g)) g) g (seqZ 0 N) in
  let g := foldl CreateSortedSeparatedDFSChildLists_drop g (seqZ 0 N) in
  CreateSortedSeparatedDFSChildLists_scan fuel g (seqZ 0 N).

Definition _HandleBlockedEmbedIteration (g : Graph) (I : Z) : RetCode * Graph :=
  (NONEMBEDDABLE, g).

Definition _EmbedPostprocess (fuel : nat) (g : Graph) (I : Z) (edgeEmbeddingResult : RetCode)
    : option (RetCode * Graph) :=
  let RetVal := edgeEmbeddingResult in
  if decide (edgeEmbeddingResult = OK) then
    '(r1, g) ← _OrientVerticesInEmbedding fuel g;
    if decide (r1 <> OK) then Some (NOTOK, g)
    else
      '(r2, g) ← _JoinBicomps functions fuel g;
      if decide (r2 <> OK) then Some (NOTOK, g) else Some (RetVal, g)
  else if decide (edgeEmbeddingResult = NONEMBEDDABLE) then
    match embedFlags g with
    | EMBEDFLAGS_PLANAR =>
        let '(r, g) := _IsolateKuratowskiSubgraph g I NIL in
        if decide (r <> OK) then Some (NOTOK, g) else Some (RetVal, g)
    | EMBEDFLAGS_OUTERPLANAR =>
        let '(r, g) := _IsolateOuterplanarObstruction g I NIL in
        if decide (r <> OK) then Some (NOTOK, g) else Some (RetVal, g)
    | EMBEDFLAGS_OTHER _ => Some (RetVal, g)
    end
  else Some (RetVal, g).

(** The Walkup calls of step I, once around the circular fwdArcList of I
    (lines 1392-1400). *)
Fixpoint Embed_walkups (fuel : nat) (g : Graph) (I J : Z) : option Graph :=
  if bool_decide (J <> NIL) then
    match fuel with
    | O => None
    | S fuel =>
        g ← fpWalkUp functions g I J;
        let J := gp_GetNextArc g J in
        let J := if bool_decide (J = gp_GetVertexFwdArcList g I) then NIL else J in
        Embed_walkups fuel g I J
    end
  else Some g.

(** The Walkdown calls of step I over the sortedDFSChildList of I
    (lines 1408-1437).  The left result is the return of NOTOK out of
    gp_Embed; the right result holds RetVal after the loop. *)
Fixpoint Embed_walkdowns (fuel : nat) (g : Graph) (N I child : Z) (RetVal : RetCode)
    : option (Graph + RetCode * Graph) :=
  if bool_decide (child <> NIL) then
    match fuel with
    | O => None
    | S fuel =>
        r ← (if bool_decide (gp_GetVertexPertinentBicompList g child <> NIL)
             then fpWalkDown functions g I (child + N)
             else Some (RetVal, g));
        let '(RetVal, g) := r in
        if decide (RetVal <> OK) then
          if decide (RetVal = NONEMBEDDABLE) then Some (inr (RetVal, g)) else Some (inl g)
        else
          Embed_walkdowns fuel g N I
            (LCGetNext (sortedDFSChildLists g) (gp_GetVertexSortedDFSChildList g I) child)
            RetVal
    end
  else Some (inr (RetVal, g)).

(** Step I up to the reset of the pertinentBicompList of I
    (lines 1383-1441). *)
Definition Embed_walks (fuel : nat) (g : Graph) (N I : Z)
    : option (Graph + RetCode * Graph) :=
  let RetVal := OK in
  let g := gp_SetVertexVisitedInfo g I N in
  g ← Embed_walkups fuel g I (gp_GetVertexFwdArcList g I);
  r ← Embed_walkdowns fuel g N I (gp_GetVertexSortedDFSChildList g I) RetVal;
  match r with
  | inl g => Some (inl g)
  | inr (RetVal, g) => Some (inr (RetVal, gp_SetVertexPertinentBicompList g I NIL))
  end.

(** How step I ends: by the return of NOTOK, by the break out of the loop,
    or by going on to the next vertex. *)
Inductive IterationResult : Type :=
  | Iter_ReturnNOTOK (g : Graph)
  | Iter_Break (RetVal : RetCode) (g : Graph)
  | Iter_Next (RetVal : RetCode) (g : Graph).

(** The test for a blocked iteration at the end of step I
    (lines 1448-1453). *)
Definition Embed_blockedCheck (g : Graph) (I : Z) (RetVal : RetCode) : IterationResult :=
  if bool_decide (gp_GetVertexFwdArcList g I <> NIL) || bool_decide (RetVal = NONEMBEDDABLE)
  then
    let '(RetVal, g) := fpHandleBlockedEmbedIteration functions g I in
    if decide (RetVal <> OK) then Iter_Break RetVal g else Iter_Next RetVal g
  else Iter_Next RetVal g.

Definition Embed_iteration (fuel : nat) (g : Graph) (N I : Z) : option IterationResult :=
  r ← Embed_walks fuel g N I;
  match r with
  | inl g => Some (Iter_ReturnNOTOK g)
  | inr (RetVal, g) => Some (Embed_blockedCheck g I RetVal)
  end.

(** The loop of gp_Embed over I, downward from I while I >= 0; the counter
    [k] bounds the number of turns.  The right result holds I and RetVal as
    the loop leaves them. *)
Fixpoint Embed_loop (fuel : nat) (k : nat) (g : Graph) (N I : Z) (RetVal : RetCode)
    : option (Graph + Z * RetCode * Graph) :=
  if bool_decide (I >= 0) then
    match k with
    | O => None
    | S k =>
        r ← Embed_iteration fuel g N I;
        match r with
        | Iter_ReturnNOTOK g => Some (inl g)
        | Iter_Break RetVal g => Some (inr (I, RetVal, g))
        | Iter_Next RetVal g => Embed_loop fuel k g N (I - 1) RetVal
        end
    end
  else Some (inr (I, RetVal, g)).

(** The end of gp_Embed: NOTOK when the loop returned it, and else the
    postprocessing hook on I and RetVal as the loop left them (line 1461). *)
Definition Embed_finish (r : Graph + Z * RetCode * Graph) : option (RetCode * option Graph) :=
  match r with
  | inl g => Some (NOTOK, Some g)
  | inr (lastI, RetVal, g) =>
      '(r, g) ← fpEmbedPostprocess functions g lastI RetVal;
      Some (r, Some g)
  end.

(** gp_Embed; [None] as the graph is the NULL pointer. *)
Definition gp_Embed (fuel : nat) (theGraph : option Graph) (flags : EmbedFlags)
    : option (RetCode * option Graph) :=
  match theGraph with
  | None => Some (NOTOK, None)
  | Some g =>
      let N := gN g in
      let g := with_embedFlags flags g in
      '(r, g) ← _EmbeddingInitialize fuel g;
      if decide (r <> OK) then Some (NOTOK, Some g)
      else
        g ← _CreateSortedSeparatedDFSChildLists fuel g;
        r ← Embed_loop fuel (Z.to_nat N) g N (N - 1) OK;
        Embed_finish r
  end.

End Embedder.

(** ** The core function table *)

(** Modelled from the spec: _InitVertexRec (graphUtils.c is not under src/)
    clears the record of a consumed root copy. *)
Definition _InitVertexRec (g : Graph) (v : Z) : Graph := upd_vertex v (fun _ => inhabitant) g.

(** The hooks of the core planarity algorithm, for a given vertex sort and
    given isolators; the hooks that call other hooks are installed last. *)
Definition core_functions (fuel : nat)
    (isolateKuratowski isolateOuterplanar : Graph -> Z -> Z -> RetCode * Graph)
    (sortVertices : Graph -> RetCode * Graph) : graphFunctionTable :=
  let leaves :=
    mkFunctionTable _EmbedBackEdgeToDescendant (_WalkUp fuel)
      (fun _ _ _ => None) (fun _ _ _ _ _ => None)
      _HandleBlockedDescendantBicomp _HandleInactiveVertex _HandleBlockedEmbedIteration
      (fun _ _ _ => None) _InitVertexRec sortVertices in
  let merging :=
    mkFunctionTable _EmbedBackEdgeToDescendant (_WalkUp fuel)
      (fun _ _ _ => None) (_MergeBicomps leaves fuel)
      _HandleBlockedDescendantBicomp _HandleInactiveVertex _HandleBlockedEmbedIteration
      (_EmbedPostprocess isolateKuratowski isolateOuterplanar leaves fuel)
      _InitVertexRec sortVertices in
  mkFunctionTable _EmbedBackEdgeToDescendant (_WalkUp fuel)
    (_WalkDown merging fuel) (_MergeBicomps leaves fuel)
    _HandleBlockedDescendantBicomp _HandleInactiveVertex _HandleBlockedEmbedIteration
    (_EmbedPostprocess isolateKuratowski isolateOuterplanar leaves fuel)
    _InitVertexRec sortVertices.

(** ** Functions of graphEmbed.c that gp_Embed does not call *)

(** _GetNextVertexOnExternalFace (lines 580-611); the result holds the next
    vertex and the new value of *pPrevLink. *)
Definition _GetNextVertexOnExternalFace (g : Graph) (curVertex PrevLink : Z) : Z * Z :=
  let arc := gp_GetArc g curVertex (Z.lxor 1 PrevLink) in
  let nextVertex := gp_GetNeighbor g arc in
  let PrevLink :=
    if bool_decide (gp_GetFirstArc g nextVertex <> gp_GetLastArc g nextVertex) then
      (if bool_decide (gp_GetTwinArc g arc = gp_GetFirstArc g nextVertex) then 0 else 1)
    else PrevLink in
  (nextVertex, PrevLink).

(** The search of _CreateDFSTreeEmbedding for the arc to the DFS parent
    (lines 468-470); the loop has no test for the end of the list. *)
Fixpoint CreateDFSTreeEmbedding_parentArc (fuel : nat) (g : Graph) (J : Z) : option Z :=
  if decide (gp_GetEdgeType g J <> EDGE_TYPE_PARENT) then
    match fuel with
    | O => None
    | S fuel => CreateDFSTreeEmbedding_parentArc fuel g (gp_GetNextArc g J)
    end
  else Some J.

(** The body of the loop of _CreateDFSTreeEmbedding for the vertex I and
    its root copy R (lines 460-500). *)
Definition CreateDFSTreeEmbedding_vertex (fuel : nat) (g : Graph) (I R : Z) : option Graph :=
  if bool_decide (gp_GetVertexParent g I = NIL) then
    let g := gp_SetFirstArc g I (gp_AdjacencyListEndMark I) in
    Some (gp_SetLastArc g I (gp_AdjacencyListEndMark I))
  else
    J ← CreateDFSTreeEmbedding_parentArc fuel g (gp_GetFirstArc g I);
    let g := gp_SetFirstArc g I J in
    let g := gp_SetLastArc g I J in
    let g := gp_SetNextArc g J (gp_AdjacencyListEndMark I) in
    let g := gp_SetPrevArc g J (gp_AdjacencyListEndMark I) in
    let g := gp_SetNeighbor g J R in
    let Jtwin := gp_GetTwinArc g J in
    let g := gp_SetFirstArc g R Jtwin in
    let g := gp_SetLastArc g R Jtwin in
    let g := gp_SetNextArc g Jtwin (gp_AdjacencyListEndMark R) in
    let g := gp_SetPrevArc g Jtwin (gp_AdjacencyListEndMark R) in
    let g := gp_SetExtFaceVertex g R 0 I in
    let g := gp_SetExtFaceVertex g R 1 I in
    let g := gp_SetExtFaceVertex g I 0 R in
    Some (gp_SetExtFaceVertex g I 1 R).

Fixpoint CreateDFSTreeEmbedding_loop (fuel : nat) (N : Z) (g : Graph) (vs : list Z)
    : option Graph :=
  match vs with
  | [] => Some g
  | v :: vs =>
      g ← CreateDFSTreeEmbedding_vertex fuel g v (v + N);
      CreateDFSTreeEmbedding_loop fuel N g vs
  end.

Definition _CreateDFSTreeEmbedding (fuel : nat) (g : Graph) : option Graph :=
  let N := gN g in
  CreateDFSTreeEmbedding_loop fuel N g (seqZ 0 N).

(** * Specification-side definitions *)

(** ** Adjacency lists *)

(** The adjacency list read from the arc [J] by next links: [l] lists the
    arcs met before the end marker. *)
Fixpoint arc_chain (g : Graph) (J : Z) (l : list Z) : Prop :=
  match l with
  | [] => gp_IsArc g J = false
  | a :: l => J = a /\ gp_IsArc g J = true /\ arc_chain g (gp_GetNextArc g a) l
  end.

(** An arc record with its two links exchanged, and a vertex record with
    its first and last arc and its two external face links exchanged. *)
Definition inverted_arcRec (a : arcRec) : arcRec :=
  mkArc (neighbor a) (alink1 a) (alink0 a) (edgeType a) (inverted a).

Definition inverted_vertexRec (r : vertexRec) : vertexRec :=
  mkVertex (index r) (parent r) (visited r) (visitedInfo r) (leastAncestor r) (lowpoint r)
    (sortedDFSChildList r) (separatedDFSChildList r) (pertinentBicompList r) (fwdArcList r)
    (pertinentAdjacencyInfo r) (vlink1 r) (vlink0 r) (extFace1 r) (extFace0 r)
    (extFaceInversionFlag r).

(** Two graph states that differ at most in their vertex and arc records. *)
Definition same_frame (g g' : Graph) : Prop :=
  gN g' = gN g /\ gNV g' = gNV g /\ arcCapacity g' = arcCapacity g /\
  theStack g' = theStack g /\ sortedDFSChildLists g' = sortedDFSChildLists g /\
  DFSChildLists g' = DFSChildLists g /\ BicompLists g' = BicompLists g /\
  bin g' = bin g /\ buckets g' = buckets g /\ dfsNumbered g' = dfsNumbered g /\
  embedFlags g' = embedFlags g.

(** The links of a doubly linked run [l] of arcs: [p] is what the first arc
    has as previous arc and [n] what the last arc has as next arc. *)
Fixpoint arc_links (g : Graph) (p : Z) (l : list Z) (n : Z) : Prop :=
  match l with
  | [] => True
  | a :: l' =>
      gp_GetPrevArc g a = p /\ gp_GetNextArc g a = hd n l' /\ arc_links g a l' n
  end.

(** The adjacency list of [v] holds the arcs [l], in this order from the
    first arc to the last arc. *)
Definition adjacency_list (g : Graph) (v : Z) (l : list Z) : Prop :=
  gp_GetFirstArc g v = hd (gp_AdjacencyListEndMark v) l /\
  gp_GetLastArc g v = default (gp_AdjacencyListEndMark v) (last l) /\
  arc_links g (gp_AdjacencyListEndMark v) l (gp_AdjacencyListEndMark v) /\
  NoDup l /\ Forall (fun a => a <> NIL) l.

(** The first tree-child arc of a list of arcs. *)
Fixpoint first_child (g : Graph) (l : list Z) : option Z :=
  match l with
  | [] => None
  | a :: l =>
      if decide (gp_GetEdgeType g a = EDGE_TYPE_CHILD) then Some a else first_child g l
  end.

(** ** Lists of a list collection *)

(** The next links from the node [x] run through [rest] and close the
    circle at [head]. *)
Fixpoint lc_path (lc : listCollection) (x : Z) (rest : list Z) (head : Z) : Prop :=
  match rest with
  | [] => lc_next (lc !!! x) = head
  | y :: rest => lc_next (lc !!! x) = y /\ lc_path lc y rest head
  end.

(** The list named by [head] in the collection holds the nodes [l], in this
    order. *)
Definition lc_list (lc : listCollection) (head : Z) (l : list Z) : Prop :=
  match l with
  | [] => head = NIL
  | x :: rest =>
      head = x /\ lc_path lc x rest x /\ lc_prev (lc !!! x) = default x (last rest)
  end /\ NoDup l /\ Forall (fun a => a <> NIL) l.







(** ** Example graphs *)

(** The arc of the vertex [u] that leads to [v], when the edges are stored
    in the order of the list [edges]: the two arcs of the edge number k are
    the arcs 2k and 2k + 1. *)
Fixpoint edge_arc (edges : list (Z * Z)) (k u v : Z) : Z :=
  match edges with
  | [] => NIL
  | (a, b) :: edges =>
      if bool_decide (a = u /\ b = v) then 2 * k
      else if bool_decide (a = v /\ b = u) then 2 * k + 1
      else edge_arc edges (k + 1) u v
  end.

(** The arc records of one adjacency list, linked in the order given. *)
Fixpoint link_arcs (prev : Z) (arcs nbrs : list Z) (m : gmap Z arcRec) : gmap Z arcRec :=
  match arcs, nbrs with
  | a :: arcs', v :: nbrs' =>
      link_arcs a arcs' nbrs' (<[a := mkArc v (hd NIL arcs') prev EDGE_TYPE_UNKNOWN false]> m)
  | _, _ => m
  end.

(** Modelled from the spec: the initialisation of the vertex records
    (graphUtils.c) is not under src/.  The least ancestor of a vertex is the
    least DFI that a back edge of the vertex reaches (section 3 and the
    glossary), and _EmbeddingInitialize only lowers the value it finds
    (lines 224-226).  The vertex number [v] starts with [v] as least ancestor
    and as lowpoint, the value with which the lowpoint loop yields the
    lowpoint equation of section 8, with no DFS information and with the
    given first and last arc. *)
Definition fresh_vertex (v first last : Z) : vertexRec :=
  mkVertex NIL NIL false NIL v v NIL NIL NIL NIL NIL first last NIL NIL false.

(** The graph on the vertices 0, ..., N - 1 with the given edges, the
    adjacency list of the vertex number i holding its neighbours in the
    order of the i-th list of [adj]; the stack has room for two integers
    per arc and two more. *)
Definition example_graph (N : Z) (edges : list (Z * Z)) (adj : list (list Z)) : Graph :=
  let '(vs, es, _) :=
    foldl (fun '(vs, es, u) nbrs =>
             let arcs := (fun v => edge_arc edges 0 u v) <$> nbrs in
             (<[u := fresh_vertex u (hd NIL arcs) (default NIL (last arcs))]> vs,
              link_arcs NIL arcs nbrs es, u + 1))
          (∅, ∅, 0) adj in
  mkGraph N N vs es (2 * Z.of_nat (length edges))
    (mkStack [] (4 * Z.of_nat (length edges) + 2)) ∅ ∅ ∅ ∅ ∅ false EMBEDFLAGS_PLANAR.

(** The functions that the examples use for the imported ones.  The
    vertices of every example are numbered in the order in which the DFS
    meets them, so that the vertex sort leaves them in place; no vertex of
    an example is marked visited, so that the reset of the visited flags
    has nothing to do; the isolators leave the graph as it is. *)
Definition example_sort (g : Graph) : RetCode * Graph := (OK, g).
Definition example_clear (g : Graph) (includeVirtual : bool) : Graph := g.
Definition example_isolate (g : Graph) (I R : Z) : RetCode * Graph := (OK, g).
Definition example_functions (fuel : nat) : graphFunctionTable :=
  core_functions fuel example_isolate example_isolate example_sort.

(** The result of a run that is known to return. *)
Definition returned {A : Type} (dflt : A) (r : option (RetCode * A)) : A :=
  match r with Some (_, a) => a | None => dflt end.

(** The path 0 - 1. *)
Definition path2 : Graph := example_graph 2 [(0, 1)] [[1]; [0]].

(** ** Pertinent bicomp lists *)

(** In step [I], the bicomp of the DFS child [c] is internally active when
    the lowpoint of [c] is not below [I] and externally active when it is;
    a list of children meets the internally active ones first. *)
Definition internally_active_first (g : Graph) (I : Z) (l : list Z) : Prop :=
  exists l1 l2, l = l1 ++ l2 /\
    Forall (fun c => I <= gp_GetVertexLowpoint g c) l1 /\
    Forall (fun c => gp_GetVertexLowpoint g c < I) l2.

(** The state of an example after _EmbeddingInitialize and after the bucket
    sort of the DFS children, and its state after one more step of the loop
    of gp_Embed. *)
Definition example_initialized (g : Graph) : Graph :=
  returned g (_EmbeddingInitialize example_clear (example_functions 20) 20 g).
Definition example_sorted (g : Graph) : Graph :=
  let g := example_initialized g in
  default g (_CreateSortedSeparatedDFSChildLists 20 g).
Definition example_step (g : Graph) (N I : Z) : Graph :=
  match Embed_iteration (example_functions 20) 20 g N I with
  | Some (Iter_Next _ g') => g'
  | _ => g
  end.

(** The complete graph on 4 vertices: its state when step 1 of gp_Embed has
    made its Walkup calls, with the stack cleared as _WalkDown does on entry;
    its state when the Walkdown from the root copy 6 has traversed side 0;
    and its state after step 1. *)
Definition k4 : Graph :=
  example_graph 4 [(0, 1); (0, 2); (0, 3); (1, 2); (1, 3); (2, 3)]
    [[3; 2; 1]; [3; 2; 0]; [3; 1; 0]; [2; 1; 0]].
Definition k4_step1 : Graph := example_step (example_step (example_sorted k4) 4 3) 4 2.
Definition k4_walkedUp : Graph :=
  let g := gp_SetVertexVisitedInfo k4_step1 1 4 in
  default g (Embed_walkups (example_functions 20) 20 g 1 (gp_GetVertexFwdArcList g 1)).
Definition k4_side0 : Graph :=
  let gc := with_theStack (sp_ClearStack (theStack k4_walkedUp)) k4_walkedUp in
  match WalkDown_side (example_functions 20) 20 gc 1 6 0 2 1 NIL with
  | Some (Side_Done _ _ _ g) => g
  | _ => gc
  end.
Definition k4_side1 : Graph :=
  let g := WalkDown_shortCircuit k4_side0 6 0 3 1 in
  match WalkDown_side (example_functions 20) 20 g 1 6 1 2 0 0 with
  | Some (Side_Done _ _ _ g') => g'
  | _ => g
  end.
Definition k4_step0 : Graph := example_step k4_step1 4 1.

(** The path 0 - 1 with a stack of capacity 1. *)
Definition path2_small_stack : Graph := with_theStack (mkStack [] 1) path2.

(** The graph without vertices that has an arc capacity of 2^30 and a stack
    of capacity 1. *)
Definition wide_graph : Graph :=
  mkGraph 0 0 ∅ ∅ (2 ^ 30) (mkStack [] 1) ∅ ∅ ∅ ∅ ∅ false EMBEDFLAGS_PLANAR.

(** The graph with the tree edges 0 - 1, 1 - 2, 1 - 3 and the back edges
    2 - 0 and 3 - 0: its state before step 0 of gp_Embed, its state in
    step 0 before the Walkups, its state when the first Walkup, from the
    vertex 2, is done, and its state when the second Walkup, from the
    vertex 3, has marked the vertex 3 and is about to record the root
    copy 7; [kite_children] lists its DFS children. *)
Definition kite : Graph :=
  example_graph 4 [(0, 1); (1, 2); (1, 3); (0, 2); (0, 3)]
    [[3; 2; 1]; [3; 2; 0]; [1; 0]; [1; 0]].
Definition kite_step1 : Graph :=
  example_step (example_step (example_step (example_sorted kite) 4 3) 4 2) 4 1.
Definition kite_step0 : Graph := gp_SetVertexVisitedInfo kite_step1 0 4.
Definition kite_walkup1 : Graph :=
  default kite_step0 (_WalkUp 20 kite_step0 0 (gp_GetVertexFwdArcList kite_step0 0)).
Definition kite_walkup2_marked : Graph :=
  let g := gp_SetVertexPertinentAdjacencyInfo kite_walkup1 3 8 in
  gp_SetVertexVisitedInfo (gp_SetVertexVisitedInfo g 3 0) 3 0.

(** ** Forward arc lists *)

(** The fwdArcList of [v] is the circular doubly linked list of the arcs
    [f], read from its head by next links. *)
Definition fwd_list (g : Graph) (v : Z) (f : list Z) : Prop :=
  match f with
  | [] => gp_GetVertexFwdArcList g v = NIL
  | h :: _ => gp_GetVertexFwdArcList g v = h /\ arc_links g (default h (last f)) f h
  end /\ NoDup f /\ Forall (fun a => a <> NIL) f.

(** The DFI of the descendant that a forward arc leads to, and a list of
    forward arcs in ascending order of these. *)
Definition descendant_DFI (g : Graph) (a : Z) : Z :=
  gp_GetVertexIndex g (gp_GetNeighbor g a).

Fixpoint ascending (l : list Z) : Prop :=
  match l with
  | a :: l' => match l' with b :: _ => a <= b | [] => True end /\ ascending l'
  | [] => True
  end.

Definition descendant_order (g : Graph) (f : list Z) : Prop :=
  ascending (descendant_DFI g <$> f).

(** The state of the back-arc step once the arc JTwin, which stands between
    [p0] and [n0], is out of the adjacency list of the ancestor. *)
Definition backArc_unlinked (g : Graph) (J p0 n0 : Z) : Graph :=
  let JTwin := gp_GetTwinArc g J in
  let A := gp_GetNeighbor g J in
  let g2 := gp_SetEdgeType (gp_SetEdgeType g J EDGE_TYPE_BACK) JTwin EDGE_TYPE_FORWARD in
  let g3 := if gp_IsArc g p0 then gp_SetNextArc g2 p0 n0 else gp_SetFirstArc g2 A n0 in
  if gp_IsArc g n0 then gp_SetPrevArc g3 n0 p0 else gp_SetLastArc g3 A p0.

(** The state once JTwin is in the fwdArcList with head [e] of the ancestor,
    [t] being the arc before [e]. *)
Definition backArc_listed (g4 : Graph) (A JTwin e t : Z) : Graph :=
  if gp_IsArc g4 e then
    gp_SetNextArc (gp_SetPrevArc (gp_SetNextArc (gp_SetPrevArc g4 JTwin t) JTwin e) e JTwin)
      t JTwin
  else
    gp_SetNextArc (gp_SetPrevArc (gp_SetVertexFwdArcList g4 A JTwin) JTwin JTwin)
      JTwin JTwin.

(** The DFS of _EmbeddingInitialize on the kite: its state when the
    vertices 0, 1 and 2 are visited, and its state when the vertex 3 has
    its number and the scan of its arcs has reached the arc 9 to the
    visited vertex 0, which already has the forward arc 6 to the vertex 2. *)
Definition kite_visited2 : Graph :=
  let g := with_theStack (sp_Push2 (theStack kite) NIL NIL) kite in
  let turn r := '(DFI, g) ← r; EmbeddingInitialize_turn 10 g 4 0 DFI in
  match turn (turn (turn (Some (0, g)))) with
  | Some (_, g) => g
  | None => kite
  end.
Definition kite_numbered3 : Graph :=
  let '(uparent, e, s) := sp_Pop2 (theStack kite_visited2) in
  let g := with_theStack s kite_visited2 in
  let g := EmbeddingInitialize_number g 4 3 uparent e (gp_GetNeighbor g e) in
  EmbeddingInitialize_scanArc g 3 (gp_GetFirstArc g 3).

(** ** The marks of the back edges of a step *)

(** No vertex is marked with a forward arc. *)
Definition unmarked (g : Graph) : Prop :=
  forall W, gp_GetVertexPertinentAdjacencyInfo g W = NIL.

(** The invariant of the spec for the forward arcs [f] that the fwdArcList
    of the current vertex holds, which are the back edges not embedded yet:
    a vertex is marked exactly when one of them leads to it. *)
Definition marks_unembedded (g : Graph) (f : list Z) : Prop :=
  forall W, gp_GetVertexPertinentAdjacencyInfo g W <> NIL <->
            exists J, J ∈ f /\ gp_GetNeighbor g J = W.

(** The marks name the forward arcs: the mark of a vertex is an arc of [f]
    that leads to it, and every arc of [f] is the mark of the vertex it
    leads to. *)
Definition marked_by (g : Graph) (f : list Z) : Prop :=
  (forall W, gp_GetVertexPertinentAdjacencyInfo g W <> NIL ->
     gp_GetVertexPertinentAdjacencyInfo g W ∈ f /\
     gp_GetNeighbor g (gp_GetVertexPertinentAdjacencyInfo g W) = W) /\
  (forall J, J ∈ f -> gp_GetVertexPertinentAdjacencyInfo g (gp_GetNeighbor g J) = J).

(** ** The arcs of the embedding *)

(** The links of the adjacency lists stay within [Emb]: the end marker is
    in it, the first and the last arc of every vertex, and the next and the
    previous arc of every arc of [D]. *)
Definition links_closed (g : Graph) (D Emb : Z -> Prop) : Prop :=
  Emb NIL /\
  (forall v, Emb (gp_GetFirstArc g v) /\ Emb (gp_GetLastArc g v)) /\
  (forall a, D a -> Emb (gp_GetNextArc g a) /\ Emb (gp_GetPrevArc g a)).

Definition twin_closed (Emb : Z -> Prop) : Prop :=
  forall a, Emb a -> a <> NIL -> Emb (Z.lxor a 1).

(** [Emb] holds the arcs of the embedding built so far, with their twins
    and the end marker: every adjacency list runs within it. *)
Definition embedded_arcs (g : Graph) (Emb : Z -> Prop) : Prop :=
  links_closed g Emb Emb /\ twin_closed Emb.

(** The pertinentBicompLists hold DFS children: a list head and a next
    link are NIL or not negative. *)
Definition bicomp_lists_bounded (g : Graph) : Prop :=
  (forall v, NIL <= gp_GetVertexPertinentBicompList g v) /\
  (forall k, NIL <= lc_next (BicompLists g !!! k)).

(** The merge stack of the Walkdown holds a vertex, its entry link, a root
    copy and its exit link, four by four. *)
Fixpoint merge_stack (N : Z) (l : list Z) : Prop :=
  match l with
  | [] => True
  | Rout :: R :: ZPrevLink :: Zv :: l' => N <= R /\ merge_stack N l'
  | _ => False
  end.

(** The fields of a vertex record that the Walkdown leaves alone where it
    does not embed a back edge. *)
Definition vertex_kept (r r' : vertexRec) : Prop :=
  parent r' = parent r /\ fwdArcList r' = fwdArcList r /\
  pertinentAdjacencyInfo r' = pertinentAdjacencyInfo r /\
  sortedDFSChildList r' = sortedDFSChildList r.

(** What a part of the Walkdown that embeds no back edge may change from
    [g] to [g']: the records of the arcs of [Emb], the other fields of the
    vertices, the records of the root copies, which it may clear. *)
Definition walk_frame (Emb : Z -> Prop) (g g' : Graph) : Prop :=
  gN g' = gN g /\ sortedDFSChildLists g' = sortedDFSChildLists g /\
  (forall v, vertex_kept (V g !!! v) (V g' !!! v) \/
             (gN g <= v /\ pertinentAdjacencyInfo (V g' !!! v) = NIL)) /\
  (forall a, ~ Emb a -> E g' !!! a = E g !!! a).

(** The state [g] is reached from [g0] within the frame, its links are
    closed and its lists bounded. *)
Definition walk_state (D Emb : Z -> Prop) (g0 g : Graph) : Prop :=
  links_closed g D Emb /\ bicomp_lists_bounded g /\ walk_frame Emb g0 g.

(** The forward arcs of step [I] over the DFS children [kids] of I: the
    fwdArcList of I is [f], and its arcs are no arcs of the embedding
    [Emb]. *)
Definition walk_lists (I : Z) (kids : list Z) (g : Graph) (f : list Z) (Emb : Z -> Prop)
    : Prop :=
  fwd_list g I f /\
  (forall J, J ∈ f -> ~ Emb J /\ (gp_GetTwinArc g J ∉ f) /\ gp_GetNeighbor g J < gN g) /\
  I < gN g /\
  lc_list (sortedDFSChildLists g) (gp_GetVertexSortedDFSChildList g I) kids /\
  Forall (fun c => c < gN g /\ gp_GetVertexParent g c = I) kids.

(** The invariant of the Walkdowns of step [I]: the arcs of the fwdArcList
    of I are the marks. *)
Definition walk_inv (I : Z) (kids : list Z) (g : Graph) (f : list Z) (Emb : Z -> Prop)
    : Prop :=
  embedded_arcs g Emb /\ bicomp_lists_bounded g /\ marked_by g f /\
  walk_lists I kids g f Emb.

(** The first part of _EmbedBackEdgeToDescendant (lines 513-527): the
    forward arc is taken out of the fwdArcList of the parent copy. *)
Definition embed_unlisted (g : Graph) (parentCopy fwdArc : Z) : Graph :=
  let g :=
    if bool_decide (gp_GetVertexFwdArcList g parentCopy = fwdArc) then
      let g := gp_SetVertexFwdArcList g parentCopy (gp_GetNextArc g fwdArc) in
      if bool_decide (gp_GetVertexFwdArcList g parentCopy = fwdArc)
      then gp_SetVertexFwdArcList g parentCopy NIL else g
    else g in
  let g := gp_SetNextArc g (gp_GetPrevArc g fwdArc) (gp_GetNextArc g fwdArc) in
  gp_SetPrevArc g (gp_GetNextArc g fwdArc) (gp_GetPrevArc g fwdArc).

(** Its second part (lines 529-552): the forward arc goes into the
    adjacency list of the root copy and its twin into that of W. *)
Definition embed_linked (g : Graph) (fwdArc backArc RootSide RootVertex W WPrevLink : Z)
    : Graph :=
  let g := gp_SetAdjacentArc g fwdArc (Z.lxor 1 RootSide) (gp_AdjacencyListEndMark RootVertex) in
  let g := gp_SetAdjacentArc g fwdArc RootSide (gp_GetArc g RootVertex RootSide) in
  let g := gp_SetAdjacentArc g (gp_GetArc g RootVertex RootSide) (Z.lxor 1 RootSide) fwdArc in
  let g := gp_SetArc g RootVertex RootSide fwdArc in
  let g := gp_SetAdjacentArc g backArc (Z.lxor 1 WPrevLink) (gp_AdjacencyListEndMark W) in
  let g := gp_SetAdjacentArc g backArc WPrevLink (gp_GetArc g W WPrevLink) in
  let g := gp_SetAdjacentArc g (gp_GetArc g W WPrevLink) (Z.lxor 1 WPrevLink) backArc in
  let g := gp_SetArc g W WPrevLink backArc in
  let g := gp_SetNeighbor g backArc RootVertex in
  let g := gp_SetExtFaceVertex g RootVertex RootSide W in
  gp_SetExtFaceVertex g W WPrevLink RootVertex.

(** The arcs of the embedding once the edge of the arc [J] is embedded. *)
Definition with_edge (Emb : Z -> Prop) (J : Z) : Z -> Prop :=
  fun a => Emb a \/ a = J \/ a = Z.lxor J 1.

(** The invariant holds for forward arcs among [f], whatever the arcs of
    the embedding are. *)
Definition walk_ok (I : Z) (kids : list Z) (f : list Z) (g : Graph) : Prop :=
  exists f' Emb, f' ⊆ f /\ walk_inv I kids g f' Emb.

(** A link of a vertex or of an arc: 0 or 1. *)
Definition is_link (l : Z) : Prop := l = 0 \/ l = 1.

(** The invariant of the Walkups of step [I]: the forward arcs [pre] of
    the fwdArcList [f] of I have had their Walkup. *)
Definition walkup_inv (I : Z) (kids f : list Z) (Emb : Z -> Prop) (pre : list Z) (g : Graph)
    : Prop :=
  embedded_arcs g Emb /\ bicomp_lists_bounded g /\ marked_by g pre /\
  walk_lists I kids g f Emb.

(** The graph that a run of step I leaves. *)
Definition walked (r : Graph + RetCode * Graph) : Graph :=
  match r with inl g => g | inr (_, g) => g end.

(** The kite when the walks of step 0 are done. *)
Definition kite_walked0 : Graph :=
  match Embed_walks (example_functions 20) 20 kite_step1 4 0 with
  | Some r => walked r
  | None => kite_step1
  end.

(** The arcs of the tree edges of the kite, with the end marker. *)
Definition kite_tree (a : Z) : Prop := NIL <= a < 6.

(** ** The Walkdown calls of a step *)

(** The Walkdown calls that step I of gp_Embed makes from the DFS child
    [child] of I on (lines 1408-1437).  Started at [child] in the state [g],
    the loop over the sortedDFSChildList of I ends after [n] children in
    the state [g'], and [r] is what its last Walkdown call returned, OK
    where it made none: a child without pertinent bicomp gets no call, a
    call that returns OK is followed by the next child, and a call that
    returns another result is the last. *)
Inductive walkdown_calls (functions : graphFunctionTable) (N I : Z)
    : nat -> Graph -> Z -> RetCode -> Graph -> Prop :=
  | calls_done (g : Graph) : walkdown_calls functions N I 0 g NIL OK g
  | calls_skip (n : nat) (g : Graph) (child : Z) (r : RetCode) (g' : Graph) :
      child <> NIL -> gp_GetVertexPertinentBicompList g child = NIL ->
      walkdown_calls functions N I n g
        (LCGetNext (sortedDFSChildLists g) (gp_GetVertexSortedDFSChildList g I) child) r g' ->
      walkdown_calls functions N I (S n) g child r g'
  | calls_returned_OK (n : nat) (g : Graph) (child : Z) (g1 : Graph) (r : RetCode)
        (g' : Graph) :
      child <> NIL -> gp_GetVertexPertinentBicompList g child <> NIL ->
      fpWalkDown functions g I (child + N) = Some (OK, g1) ->
      walkdown_calls functions N I n g1
        (LCGetNext (sortedDFSChildLists g1) (gp_GetVertexSortedDFSChildList g1 I) child) r g' ->
      walkdown_calls functions N I (S n) g child r g'
  | calls_blocked (g : Graph) (child : Z) (r : RetCode) (g1 : Graph) :
      child <> NIL -> gp_GetVertexPertinentBicompList g child <> NIL ->
      fpWalkDown functions g I (child + N) = Some (r, g1) -> r <> OK ->
      walkdown_calls functions N I 1 g child r g1.

(** ** The orientation of a bicomp *)

(** The integers of the pairs [ps] as sp_Push2 leaves them on the stack:
    the pair pushed last comes first, the second integer of a pair above
    the first. *)
Definition pushed (ps : list (Z * Z)) : list Z := ps ≫= (fun p => [p.2; p.1]).

(** From [g] to [g'] the arcs keep their neighbours and their types. *)
Definition same_labels (g g' : Graph) : Prop :=
  forall K, gp_GetNeighbor g' K = gp_GetNeighbor g K /\
            gp_GetEdgeType g' K = gp_GetEdgeType g K.

(** From [g] to [g'] no inverted flag is set, and none changes where the
    signs are preserved. *)
Definition signs_kept (PreserveSigns : bool) (g g' : Graph) : Prop :=
  forall K, gp_GetEdgeFlagInverted g' K = gp_GetEdgeFlagInverted g K \/
            (PreserveSigns = false /\ gp_GetEdgeFlagInverted g' K = false).

(** The K4 in step 1, when the Walkdown from the root copy 6 has descended
    from the vertex 2 into the bicomp of the root copy 7 and stands at the
    vertex 3; its state after the merge of the bicomps on the stack. *)
Definition k4_descended : Graph :=
  let gc := with_theStack (sp_ClearStack (theStack k4_walkedUp)) k4_walkedUp in
  match WalkDown_descend (example_functions 20) gc 1 6 2 1 NIL with
  | inr (_, _, _, g) => g
  | inl _ => gc
  end.
Definition k4_merged : Graph :=
  returned k4_descended (_MergeBicomps (example_functions 20) 20 k4_descended 1 6 3 1).

(** ** What a Walkup leaves alone *)

(** The vertex record [r'] is [r] but for the three fields that a Walkup
    writes: visitedInfo, pertinentBicompList and pertinentAdjacencyInfo. *)
Definition walkup_fields (r r' : vertexRec) : Prop :=
  r' = set_visitedInfo (visitedInfo r')
         (set_pertinentBicompList (pertinentBicompList r')
            (set_pertinentAdjacencyInfo (pertinentAdjacencyInfo r') r)).

(** From [g] to [g'] nothing changes but these fields and the collection of
    the pertinent bicomp lists. *)
Definition walkup_kept (g g' : Graph) : Prop :=
  E g' = E g /\ theStack g' = theStack g /\ gN g' = gN g /\ gNV g' = gNV g /\
  sortedDFSChildLists g' = sortedDFSChildLists g /\ DFSChildLists g' = DFSChildLists g /\
  forall v, walkup_fields (V g !!! v) (V g' !!! v).

(** The Walkups of the forward arcs [f] one after the other. *)
Definition walkups_of (functions : graphFunctionTable) (I : Z) (g : Graph) (f : list Z)
    : option Graph :=
  foldl (fun r J => r ≫= fun g => fpWalkUp functions g I J) (Some g) f.

(** ** Singleton bicomps *)

(** The bicomp of one tree edge: the root copy [R] holds the arc [e] alone,
    the child [c] holds its twin alone, the twin names R as its neighbour,
    and the two external face links of each of R and c lead to the other. *)
Definition singleton_bicomp (g : Graph) (R c e : Z) : Prop :=
  adjacency_list g R [e] /\ adjacency_list g c [gp_GetTwinArc g e] /\
  gp_GetNeighbor g (gp_GetTwinArc g e) = R /\
  forall link, gp_GetExtFaceVertex g R link = c /\ gp_GetExtFaceVertex g c link = R.

(** ** The embedding of a back edge *)

(** The four assignments by which _EmbedBackEdgeToDescendant links the arc
    [e] at the end [link] of the adjacency list of [v] (lines 529-534 for
    the forward arc, lines 538-543 for the back arc). *)
Definition link_end (g : Graph) (e link v : Z) : Graph :=
  let g := gp_SetAdjacentArc g e (Z.lxor 1 link) (gp_AdjacencyListEndMark v) in
  let g := gp_SetAdjacentArc g e link (gp_GetArc g v link) in
  let g := gp_SetAdjacentArc g (gp_GetArc g v link) (Z.lxor 1 link) e in
  gp_SetArc g v link e.

(** The arcs [l] with the arc [e] at the end [link]. *)
Definition at_end (link e : Z) (l : list Z) : list Z :=
  if bool_decide (link = 0) then e :: l else l ++ [e].

(** ** A blocked Walkdown *)

(** The bicomp rooted at [R], the first pertinent child bicomp of [W],
    blocks the Walkdown of step [I]: neither of the two vertices next to R
    on the external face is internally active or pertinent. *)
Definition blocked_bicomp (g : Graph) (I W R : Z) : Prop :=
  gp_GetVertexPertinentBicompList g W <> NIL /\
  R = _GetPertinentChildBicomp g W /\
  let X := gp_GetExtFaceVertex g R 0 in
  let Y := gp_GetExtFaceVertex g R 1 in
  _VertexActiveStatus g X I <> VAS_INTERNAL /\ _VertexActiveStatus g Y I <> VAS_INTERNAL /\
  PERTINENT g X = false /\ PERTINENT g Y = false.

(** What a Walkdown that does not return OK leaves: the pairs of the
    vertex W and of the root R of the blocking bicomp on top of the stack,
    or a root whose external face link does not lead back. *)
Definition walkdown_stopped (g : Graph) (I RootVertex : Z) (r : RetCode) : Prop :=
  (r = NONEMBEDDABLE /\
   exists R W WPrevLink rest,
     stack_items (theStack g) = 0 :: R :: WPrevLink :: W :: rest /\ blocked_bicomp g I W R) \/
  (r = NOTOK /\
   exists RootSide, is_link RootSide /\ WalkDown_enter g RootVertex RootSide = None).

(** ** More states of the examples *)

(** The K4 when the last step of gp_Embed is done, when its vertices are
    oriented, and when its bicomps are joined. *)
Definition k4_embedded : Graph := example_step k4_step0 4 0.
Definition k4_oriented : Graph :=
  returned k4_embedded (_OrientVerticesInEmbedding 20 k4_embedded).
Definition k4_joined : Graph :=
  returned k4_oriented (_JoinBicomps (example_functions 20) 20 k4_oriented).

(** The K4 after step 1 with the bicomp of the root copy 6 oriented, the
    signs cleared and the signs preserved. *)
Definition k4_step0_oriented (PreserveSigns : bool) : Graph :=
  returned k4_step0 (_OrientVerticesInBicomp 20 k4_step0 6 PreserveSigns).

(** The kite when the DFS has numbered it and the lowpoints are computed,
    before the tree edges are embedded. *)
Definition kite_lowpoints : Graph :=
  let g := with_theStack (sp_ClearStack (theStack kite)) kite in
  let g := default g (EmbeddingInitialize_roots 20 20 g 4 0 0) in
  let g := with_dfsNumbered true g in
  default g (Lowpoint_loop 20 4 g).

(** The complete bipartite graph on 3 and 3 vertices: its state before
    step 1 of gp_Embed, its state when step 1 has made its Walkup calls,
    the state in which the Walkdown from the root copy 8 returns, and the
    state in which step 1 ends. *)
Definition k33 : Graph :=
  example_graph 6 [(0, 1); (0, 3); (0, 5); (1, 2); (1, 4); (2, 3); (2, 5); (3, 4); (4, 5)]
    [[5; 3; 1]; [4; 2; 0]; [5; 3; 1]; [4; 2; 0]; [5; 3; 1]; [4; 2; 0]].
Definition k33_step2 : Graph :=
  example_step (example_step (example_step (example_step (example_sorted k33) 6 5) 6 4) 6 3) 6 2.
Definition k33_walkedUp : Graph :=
  let g := gp_SetVertexVisitedInfo k33_step2 1 6 in
  default g (Embed_walkups (example_functions 20) 20 g 1 (gp_GetVertexFwdArcList g 1)).
Definition k33_blocked : Graph :=
  returned k33_walkedUp (_WalkDown (example_functions 20) 20 k33_walkedUp 1 8).
Definition k33_step1_end : Graph := gp_SetVertexPertinentBicompList k33_blocked 1 NIL.

(** ** The join of the bicomps *)

(** From [g] to [g'] the numbers of vertices and the DFS parents stay, and
    no vertex record but that of [W] changes. *)
Definition vertices_kept (W : Z) (g g' : Graph) : Prop :=
  gN g' = gN g /\ gNV g' = gNV g /\
  forall u, gp_GetVertexParent g' u = gp_GetVertexParent g u /\
            (u <> W -> V g' !!! u = V g !!! u).

(** ** The separated DFS child lists *)

(** The vertices below [N] in the order in which the bucket sort of
    _CreateSortedSeparatedDFSChildLists meets them: by lowpoint, and by
    number among the vertices of one lowpoint. *)
Definition lowpoint_order (g : Graph) (N : Z) : list Z :=
  seqZ 0 N ≫= (fun I => filter (fun v => gp_GetVertexLowpoint g v = I) (seqZ 0 N)).

(** The vertices of [l] that are DFS children of [p]. *)
Definition children_of (g : Graph) (p : Z) (l : list Z) : list Z :=
  filter (fun v => gp_GetVertexParent g v = p /\ p <> NIL /\ p <> v) l.

(** The state of the bucket sort when the vertices [dropped] are in their
    buckets: the bucket of every lowpoint below N holds its vertices in the
    order in which they came. *)
Definition buckets_hold (g0 g : Graph) (dropped : list Z) : Prop :=
  V g = V g0 /\ gN g = gN g0 /\ DFSChildLists g = DFSChildLists g0 /\
  forall L, 0 <= L < gN g0 ->
    lc_list (bin g) (bucket g L) (filter (fun v => gp_GetVertexLowpoint g0 v = L) dropped).

(** The state of the bucket sort when the vertices [placed] are in the
    separatedDFSChildLists of their DFS parents. *)
Definition children_placed (g0 gb g : Graph) (placed : list Z) : Prop :=
  gN g = gN g0 /\ bin g = bin gb /\ buckets g = buckets gb /\
  (forall v, gp_GetVertexParent g v = gp_GetVertexParent g0 v /\
             gp_GetVertexLowpoint g v = gp_GetVertexLowpoint g0 v) /\
  forall p, lc_list (DFSChildLists g) (gp_GetVertexSeparatedDFSChildList g p)
              (children_of g0 p placed).

(** ** The DFS numbering *)

(** The fields that the DFS writes when it numbers a vertex. *)
Definition dfs_number (r : vertexRec) : bool * Z * Z := (visited r, index r, parent r).

(** From [g] to [g'] no vertex is numbered and the stack stays. *)
Definition same_numbering (g g' : Graph) : Prop :=
  theStack g' = theStack g /\ forall v, dfs_number (V g' !!! v) = dfs_number (V g !!! v).

(** The visited vertices are the vertices [order], each one once, and the
    index of a vertex is its place in [order]. *)
Definition numbered (g : Graph) (order : list Z) : Prop :=
  NoDup order /\
  (forall k v, order !! k = Some v -> gp_GetVertexIndex g v = Z.of_nat k) /\
  (forall v, gp_GetVertexVisited g v = true <-> v ∈ order).

(** A visited vertex is a DFS tree root, or its DFS parent was visited
    before it and has a smaller index. *)
Definition parents_first (g : Graph) : Prop :=
  forall v, gp_GetVertexVisited g v = true ->
    gp_GetVertexParent g v = NIL \/
    (gp_GetVertexVisited g (gp_GetVertexParent g v) = true /\
     gp_GetVertexIndex g (gp_GetVertexParent g v) < gp_GetVertexIndex g v).

(** The stack of the DFS holds the pairs [ps] of a parent and an arc, and
    every parent among them is visited. *)
Definition pending (g : Graph) (ps : list (Z * Z)) : Prop :=
  stack_items (theStack g) = pushed ps /\
  Forall (fun p => p.1 = NIL \/ gp_GetVertexVisited g p.1 = true) ps.

(** The state of the DFS when the next index is [DFI] and the pairs [ps]
    are on the stack. *)
Definition dfs_state (g : Graph) (DFI : Z) (ps : list (Z * Z)) : Prop :=
  exists order, numbered g order /\ DFI = Z.of_nat (length order) /\
    pending g ps /\ parents_first g.

(** The kite before its DFS, on an empty stack, and when the DFS has
    numbered it. *)
Definition kite_unvisited : Graph := with_theStack (sp_ClearStack (theStack kite)) kite.
Definition kite_numbered : Graph :=
  default kite_unvisited (EmbeddingInitialize_roots 20 20 kite_unvisited 4 0 0).

(** ** The embedding of the DFS tree *)

(** The first tree-parent arc of a list of arcs. *)
Fixpoint first_parent (g : Graph) (l : list Z) : option Z :=
  match l with
  | [] => None
  | a :: l =>
      if decide (gp_GetEdgeType g a = EDGE_TYPE_PARENT) then Some a else first_parent g l
  end.

(** The adjacency lists of the kite when its DFS is done. *)
Definition kite_numbered_lists (v : Z) : list Z :=
  if decide (v = 0) then [0]
  else if decide (v = 1) then [4; 2; 1]
  else if decide (v = 2) then [3; 7]
  else if decide (v = 3) then [5; 9]
  else [].

(** * Proofs *)

(** ** Reading a record after an update *)

Lemma V_upd_vertex g v f u :
  V (upd_vertex v f g) !!! u = if decide (v = u) then f (V g !!! v) else V g !!! u.
Proof. unfold upd_vertex, with_V; cbn [V]. apply lookup_total_insert. Qed.

Lemma E_upd_arc g e f a :
  E (upd_arc e f g) !!! a = if decide (e = a) then f (E g !!! e) else E g !!! a.
Proof. unfold upd_arc, with_E; cbn [E]. apply lookup_total_insert. Qed.

Lemma E_upd_vertex g v f : E (upd_vertex v f g) = E g.
Proof. reflexivity. Qed.

Lemma V_upd_arc g e f : V (upd_arc e f g) = V g.
Proof. reflexivity. Qed.

Lemma same_frame_refl g : same_frame g g.
Proof. repeat split. Qed.

Lemma same_frame_trans g1 g2 g3 : same_frame g1 g2 -> same_frame g2 g3 -> same_frame g1 g3.
Proof. unfold same_frame; intros; destruct_and!; repeat split; congruence. Qed.

Lemma same_frame_upd_vertex g v f : same_frame g (upd_vertex v f g).
Proof. repeat split. Qed.

Lemma same_frame_upd_arc g e f : same_frame g (upd_arc e f g).
Proof. repeat split. Qed.

(** ** Adjacency lists as chains of arcs *)

Lemma arc_chain_frame g g' l : forall J,
  arc_chain g J l ->
  (forall K, K ∈ l -> alink0 (E g' !!! K) = alink0 (E g !!! K)) ->
  arc_chain g' J l.
Proof.
  induction l as [|a l IH]; intros J Hc Hsame; simpl in *; [exact Hc|].
  destruct Hc as (-> & Harc & Hc). split; [reflexivity|]. split; [exact Harc|].
  unfold gp_GetNextArc in *. rewrite Hsame by (left).
  apply IH; [exact Hc|]. intros K HK. apply Hsame. by right.
Qed.

Lemma arc_chain_functional g l1 : forall l2 J,
  arc_chain g J l1 -> arc_chain g J l2 -> l1 = l2.
Proof.
  induction l1 as [|a l1 IH]; intros [|b l2] J H1 H2; simpl in *.
  - reflexivity.
  - destruct H2 as (_ & H2 & _). congruence.
  - destruct H1 as (_ & H1 & _). congruence.
  - destruct H1 as (-> & _ & H1), H2 as (<- & _ & H2). f_equal. eapply IH; eauto.
Qed.

Lemma arc_chain_suffix g l : forall J a,
  arc_chain g J l -> a ∈ l ->
  exists l2, arc_chain g a (a :: l2) /\ (length (a :: l2) <= length l)%nat.
Proof.
  induction l as [|b l IH]; intros J a Hc Hin; [by apply elem_of_nil in Hin|].
  simpl in Hc. destruct Hc as (-> & Harc & Hc).
  apply elem_of_cons in Hin as [->|Hin].
  - exists l. simpl. repeat split; auto.
  - destruct (IH _ _ Hc Hin) as (l2 & H2 & Hlen). exists l2. split; [exact H2|].
    simpl in *. lia.
Qed.

Lemma arc_chain_NoDup g l : forall J, arc_chain g J l -> NoDup l.
Proof.
  induction l as [|a l IH]; intros J Hc; [constructor|].
  simpl in Hc. destruct Hc as (-> & Harc & Hc). constructor; [|eauto].
  intros Hin. destruct (arc_chain_suffix _ _ _ _ Hc Hin) as (l2 & H2 & Hlen).
  assert (a :: l = a :: l2) as Heq.
  { eapply arc_chain_functional; [|exact H2]. simpl. auto. }
  injection Heq as ->. simpl in Hlen. lia.
Qed.

(** ** _InvertVertex *)

Lemma InvertVertex_arcs_spec l : forall fuel g J,
  arc_chain g J l -> (length l <= fuel)%nat ->
  exists g', InvertVertex_arcs fuel g J = Some g' /\
    V g' = V g /\ same_frame g g' /\
    forall K, E g' !!! K =
      if decide (K ∈ l) then inverted_arcRec (E g !!! K) else E g !!! K.
Proof.
  induction l as [|a l IH]; intros fuel g J Hc Hfuel.
  - simpl in Hc. exists g. destruct fuel; simpl; rewrite Hc;
      (split; [reflexivity|]); (split; [reflexivity|]); (split; [apply same_frame_refl|]);
      intros K; destruct (decide (K ∈ [])) as [Hin|]; try reflexivity;
      by apply elem_of_nil in Hin.
  - pose proof (arc_chain_NoDup _ _ _ Hc) as Hnd. apply NoDup_cons in Hnd as [Hnotin _].
    simpl in Hc. destruct Hc as (-> & Harc & Hc).
    destruct fuel as [|fuel]; [simpl in Hfuel; lia|]. simpl in Hfuel.
    simpl. rewrite Harc.
    set (g1 := gp_SetPrevArc (gp_SetNextArc g a (gp_GetPrevArc g a)) a (gp_GetNextArc g a)).
    assert (HE1 : forall K, E g1 !!! K =
              if decide (a = K) then inverted_arcRec (E g !!! a) else E g !!! K).
    { intros K. unfold g1, gp_SetPrevArc, gp_SetNextArc, gp_GetPrevArc, gp_GetNextArc.
      rewrite !E_upd_arc. destruct (decide (a = K)); [|reflexivity].
      destruct (decide (a = a)); [|done]. reflexivity. }
    destruct (IH fuel g1 (gp_GetNextArc g a)) as (g' & Hrun & HV & Hfr & HE); [| lia |].
    { eapply arc_chain_frame; [exact Hc|]. intros K HK. rewrite HE1.
      destruct (decide (a = K)) as [->|]; [done|reflexivity]. }
    exists g'. split; [exact Hrun|]. split; [rewrite HV; reflexivity|].
    split; [eapply same_frame_trans; [|exact Hfr]; repeat split|].
    intros K. rewrite HE, HE1.
    destruct (decide (K ∈ l)) as [Hin|Hnin].
    + destruct (decide (a = K)) as [->|]; [done|].
      destruct (decide (K ∈ a :: l)) as [|Hn]; [reflexivity|].
      exfalso. apply Hn. by right.
    + destruct (decide (a = K)) as [->|Hne].
      * destruct (decide (K ∈ K :: l)) as [|Hn]; [reflexivity|]. exfalso. apply Hn. by left.
      * destruct (decide (K ∈ a :: l)) as [Hin|]; [|reflexivity].
        apply elem_of_cons in Hin as [->|Hin]; done.
Qed.

(** C7: _InvertVertex exchanges the two links of every arc of the adjacency
    list of V, the first and the last arc of V and the two external face
    links of V, and leaves every other field of V, of the arcs and of the
    graph as it was.  The adjacency list of V is the list [l] of arcs read
    from the first arc of V by next links up to the end marker. *)
Theorem InvertVertex_swaps_links (fuel : nat) (g : Graph) (v : Z) (l : list Z) :
  arc_chain g (gp_GetFirstArc g v) l ->
  (length l <= fuel)%nat ->
  exists g', _InvertVertex fuel g v = Some g' /\
    (forall K, E g' !!! K =
       if decide (K ∈ l) then inverted_arcRec (E g !!! K) else E g !!! K) /\
    (forall u, V g' !!! u =
       if decide (u = v) then inverted_vertexRec (V g !!! v) else V g !!! u) /\
    same_frame g g'.
Proof.
  intros Hc Hfuel.
  destruct (InvertVertex_arcs_spec l fuel g _ Hc Hfuel) as (g1 & Hrun & HV & Hfr & HE).
  unfold _InvertVertex. rewrite Hrun. cbn [mbind option_bind].
  eexists. split; [reflexivity|]. split; [|split].
  - intros K. rewrite <- HE. reflexivity.
  - intros u. unfold gp_SetExtFaceVertex, gp_GetExtFaceVertex, gp_SetLastArc, gp_SetFirstArc,
      gp_GetFirstArc, gp_GetLastArc.
    change (bool_decide (0 = 0)) with true. change (bool_decide (1 = 0)) with false.
    cbv iota. rewrite !V_upd_vertex. rewrite HV.
    destruct (decide (v = u)) as [->|Hne].
    + destruct (decide (u = u)); [|done]. reflexivity.
    + destruct (decide (u = v)); [congruence|]. reflexivity.
  - eapply same_frame_trans; [exact Hfr|].
    unfold gp_SetExtFaceVertex. cbn. repeat split.
Qed.

(** ** gp_Embed: parameter check, stack capacity, blocked iterations *)

(** C10: gp_Embed on the NULL graph returns NOTOK for every value of the
    flags; there is no graph state in the result, none was read and none
    was made. *)
Theorem gp_Embed_NULL_graph clearVisited (functions : graphFunctionTable) (fuel : nat)
    (flags : EmbedFlags) :
  gp_Embed clearVisited functions fuel None flags = Some (NOTOK, None).
Proof. reflexivity. Qed.

Lemma int_wrap_small z : - (2 ^ 31) <= z < 2 ^ 31 -> int_wrap z = z.
Proof.
  intros Hz. unfold int_wrap. rewrite Z.mod_small by lia. lia.
Qed.

(** C9: _EmbeddingInitialize returns NOTOK, with the graph as it received
    it and so before any step of the DFS, whenever the capacity of the stack
    is less than twice the arc capacity of the graph, the product being a
    value of the type int. *)
Theorem EmbeddingInitialize_stack_capacity clearVisited (functions : graphFunctionTable)
    (fuel : nat) (g : Graph) :
  - (2 ^ 31) <= 2 * gp_GetArcCapacity g < 2 ^ 31 ->
  sp_GetCapacity (theStack g) < 2 * gp_GetArcCapacity g ->
  _EmbeddingInitialize clearVisited functions fuel g = Some (NOTOK, g).
Proof.
  intros Hint Hcap. unfold _EmbeddingInitialize.
  rewrite (int_wrap_small _ Hint). rewrite bool_decide_eq_true_2 by exact Hcap. reflexivity.
Qed.

(** Past that range the product of line 121 wraps around: with an arc
    capacity of 2^30 the product is - 2^31 as an int, no stack capacity is
    below it, and _EmbeddingInitialize goes on to the DFS. *)
Lemma EmbeddingInitialize_stack_capacity_wraps :
  sp_GetCapacity (theStack wide_graph) < 2 * gp_GetArcCapacity wide_graph /\
  int_wrap (2 * gp_GetArcCapacity wide_graph) = - (2 ^ 31) /\
  exists g', _EmbeddingInitialize example_clear (example_functions 10) 10 wide_graph
             = Some (OK, g').
Proof.
  split; [vm_compute; reflexivity|]. split; [vm_compute; reflexivity|].
  eexists. vm_compute. reflexivity.
Qed.

Lemma Embed_blockedCheck_core (functions : graphFunctionTable) g I RetVal :
  fpHandleBlockedEmbedIteration functions = _HandleBlockedEmbedIteration ->
  gp_GetVertexFwdArcList g I <> NIL \/ RetVal = NONEMBEDDABLE ->
  Embed_blockedCheck functions g I RetVal = Iter_Break NONEMBEDDABLE g.
Proof.
  intros Hcore Hblocked. unfold Embed_blockedCheck.
  assert (bool_decide (gp_GetVertexFwdArcList g I <> NIL)
          || bool_decide (RetVal = NONEMBEDDABLE) = true) as ->.
  { apply orb_true_iff. destruct Hblocked; [left|right]; by apply bool_decide_eq_true_2. }
  rewrite Hcore. unfold _HandleBlockedEmbedIteration.
  destruct (decide (NONEMBEDDABLE <> OK)); [reflexivity|]. exfalso; auto.
Qed.

(** The loop of step I over the sortedDFSChildList of I makes the Walkdown
    calls of the step: where the calls end with OK or NONEMBEDDABLE, the
    loop leaves RetVal with the result of the last call, in the state in
    which that call returned. *)
Lemma Embed_walkdowns_of_calls (functions : graphFunctionTable) (N I : Z) n g child r g' :
  walkdown_calls functions N I n g child r g' ->
  r = OK \/ r = NONEMBEDDABLE ->
  forall fuel, (n <= fuel)%nat ->
  Embed_walkdowns functions fuel g N I child OK = Some (inr (r, g')).
Proof.
  intros Hcalls Hr.
  induction Hcalls as [g|m g child r g' Hchild Hnone _ IH
                      |m g child g1 r g' Hchild Hsome Hcall _ IH
                      |g child r g1 Hchild Hsome Hcall HrOK]; intros fuel Hfuel.
  - destruct fuel; reflexivity.
  - destruct fuel as [|fuel]; [lia|]. cbn [Embed_walkdowns].
    rewrite bool_decide_eq_true_2 by exact Hchild.
    rewrite bool_decide_eq_false_2 by (intros H; by apply H).
    cbn [mbind option_bind]. destruct (decide (OK <> OK)); [done|].
    apply IH; [exact Hr|lia].
  - destruct fuel as [|fuel]; [lia|]. cbn [Embed_walkdowns].
    rewrite bool_decide_eq_true_2 by exact Hchild.
    rewrite bool_decide_eq_true_2 by exact Hsome.
    rewrite Hcall. cbn [mbind option_bind]. destruct (decide (OK <> OK)); [done|].
    apply IH; [exact Hr|lia].
  - destruct fuel as [|fuel]; [lia|]. cbn [Embed_walkdowns].
    rewrite bool_decide_eq_true_2 by exact Hchild.
    rewrite bool_decide_eq_true_2 by exact Hsome.
    rewrite Hcall. cbn [mbind option_bind]. destruct (decide (r <> OK)); [|done].
    destruct Hr as [->| ->]; [done|]. by rewrite decide_True.
Qed.

(** Conversely RetVal holds nothing but what the calls returned: where the
    loop leaves it with [r], the Walkdown calls of the step ended with
    [r]. *)
Lemma Embed_walkdowns_calls (functions : graphFunctionTable) (N I : Z) fuel :
  forall g child r g',
  Embed_walkdowns functions fuel g N I child OK = Some (inr (r, g')) ->
  exists n, (n <= fuel)%nat /\ walkdown_calls functions N I n g child r g'.
Proof.
  induction fuel as [|fuel IH]; intros g child r g' Hrun; cbn [Embed_walkdowns] in Hrun.
  - destruct (bool_decide_reflect (child <> NIL)) as [Hchild|Hchild]; [discriminate|].
    injection Hrun as <- <-. apply dec_stable in Hchild. subst child.
    exists 0%nat. split; [lia|constructor].
  - destruct (bool_decide_reflect (child <> NIL)) as [Hchild|Hchild].
    2:{ injection Hrun as <- <-. apply dec_stable in Hchild. subst child.
        exists 0%nat. split; [lia|constructor]. }
    destruct (bool_decide_reflect (gp_GetVertexPertinentBicompList g child <> NIL))
      as [Hsome|Hnone].
    + destruct (fpWalkDown functions g I (child + N)) as [[r1 g1]|] eqn:Hcall;
        [|discriminate].
      cbn [mbind option_bind] in Hrun. destruct (decide (r1 <> OK)) as [Hr1|Hr1].
      * destruct (decide (r1 = NONEMBEDDABLE)); [|discriminate].
        injection Hrun as <- <-. exists 1%nat. split; [lia|].
        by apply calls_blocked.
      * apply dec_stable in Hr1. subst r1.
        destruct (IH _ _ _ _ Hrun) as (m & Hm & Hcalls).
        exists (S m). split; [lia|]. by eapply calls_returned_OK.
    + cbn [mbind option_bind] in Hrun. destruct (decide (OK <> OK)); [done|].
      apply dec_stable in Hnone.
      destruct (IH _ _ _ _ Hrun) as (m & Hm & Hcalls).
      exists (S m). split; [lia|]. by apply calls_skip.
Qed.

(** C8: in step I of gp_Embed, when the Walkups are done and the Walkdown
    calls of the step have ended, the last one returning NONEMBEDDABLE, or
    all of them returning OK with arcs left in the fwdArcList of I, RetVal
    holds the result of the last Walkdown call and the blocked-iteration
    handler is called; the core handler returns NONEMBEDDABLE whatever the
    graph and the vertex, the loop over I stops at I, and the
    postprocessing hook receives I and NONEMBEDDABLE. *)
Theorem Embed_blocked_iteration_stops (functions : graphFunctionTable) (fuel k n : nat)
    (g gw g1 : Graph) (N I : Z) (r R0 : RetCode) :
  fpHandleBlockedEmbedIteration functions = _HandleBlockedEmbedIteration ->
  0 <= I ->
  Embed_walkups functions fuel (gp_SetVertexVisitedInfo g I N) I
    (gp_GetVertexFwdArcList (gp_SetVertexVisitedInfo g I N) I) = Some gw ->
  walkdown_calls functions N I n gw (gp_GetVertexSortedDFSChildList gw I) r g1 ->
  (n <= fuel)%nat ->
  r = NONEMBEDDABLE \/ (r = OK /\ gp_GetVertexFwdArcList g1 I <> NIL) ->
  let g2 := gp_SetVertexPertinentBicompList g1 I NIL in
  (forall g' I', _HandleBlockedEmbedIteration g' I' = (NONEMBEDDABLE, g')) /\
  Embed_walks functions fuel g N I = Some (inr (r, g2)) /\
  Embed_blockedCheck functions g2 I r =
    (let '(r', g') := fpHandleBlockedEmbedIteration functions g2 I in
     if decide (r' <> OK) then Iter_Break r' g' else Iter_Next r' g') /\
  Embed_iteration functions fuel g N I = Some (Iter_Break NONEMBEDDABLE g2) /\
  Embed_loop functions fuel (S k) g N I R0 = Some (inr (I, NONEMBEDDABLE, g2)) /\
  Embed_loop functions fuel (S k) g N I R0 ≫= Embed_finish functions =
    fpEmbedPostprocess functions g2 I NONEMBEDDABLE ≫= (fun '(r', g') => Some (r', Some g')).
Proof.
  intros Hcore HI Hups Hcalls Hfuel Hblocked g2.
  assert (Hwalks : Embed_walks functions fuel g N I = Some (inr (r, g2))).
  { unfold Embed_walks. cbv zeta. rewrite Hups. cbn [mbind option_bind].
    rewrite (Embed_walkdowns_of_calls functions N I n gw _ r g1 Hcalls);
      [reflexivity| |exact Hfuel].
    destruct Hblocked as [->|[-> _]]; [by right|by left]. }
  assert (Hfwd : gp_GetVertexFwdArcList g2 I <> NIL \/ r = NONEMBEDDABLE).
  { destruct Hblocked as [->|[_ Hfwd]]; [by right|left].
    unfold g2, gp_GetVertexFwdArcList, gp_SetVertexPertinentBicompList in *.
    rewrite V_upd_vertex. destruct (decide (I = I)); [|done].
    by destruct (V g1 !!! I). }
  assert (Hiter : Embed_iteration functions fuel g N I = Some (Iter_Break NONEMBEDDABLE g2)).
  { unfold Embed_iteration. rewrite Hwalks. cbn [mbind option_bind].
    by rewrite Embed_blockedCheck_core. }
  assert (Hloop : Embed_loop functions fuel (S k) g N I R0 = Some (inr (I, NONEMBEDDABLE, g2))).
  { cbn [Embed_loop]. rewrite bool_decide_eq_true_2 by lia. by rewrite Hiter. }
  split; [reflexivity|]. split; [exact Hwalks|].
  split; [|split; [exact Hiter|split; [exact Hloop|]]].
  - unfold Embed_blockedCheck.
    assert (bool_decide (gp_GetVertexFwdArcList g2 I <> NIL)
            || bool_decide (r = NONEMBEDDABLE) = true) as ->; [|reflexivity].
    apply orb_true_iff. destruct Hfwd; [left|right]; by apply bool_decide_eq_true_2.
  - rewrite Hloop. reflexivity.
Qed.

(** ** _WalkDown: the short-circuit of the external face *)

Lemma extFace_set_same g v link x :
  gp_GetExtFaceVertex (gp_SetExtFaceVertex g v link x) v link = x.
Proof.
  unfold gp_GetExtFaceVertex, gp_SetExtFaceVertex.
  destruct (bool_decide (link = 0)); rewrite V_upd_vertex;
    (destruct (decide (v = v)); [reflexivity|done]).
Qed.

Lemma extFace_set_other_vertex g v link x u link' :
  u <> v ->
  gp_GetExtFaceVertex (gp_SetExtFaceVertex g v link x) u link' = gp_GetExtFaceVertex g u link'.
Proof.
  intros Hne. unfold gp_GetExtFaceVertex, gp_SetExtFaceVertex.
  destruct (bool_decide (link = 0)); rewrite V_upd_vertex;
    (destruct (decide (v = u)); [congruence|reflexivity]).
Qed.

Lemma extFace_set_other_link g v link x link' :
  bool_decide (link = 0) <> bool_decide (link' = 0) ->
  gp_GetExtFaceVertex (gp_SetExtFaceVertex g v link x) v link' = gp_GetExtFaceVertex g v link'.
Proof.
  intros Hne. unfold gp_GetExtFaceVertex, gp_SetExtFaceVertex.
  destruct (bool_decide (link = 0)), (bool_decide (link' = 0)); try done;
    rewrite V_upd_vertex; (destruct (decide (v = v)); [reflexivity|done]).
Qed.

Lemma extFace_flag_irrelevant g v b u link :
  gp_GetExtFaceVertex (upd_vertex v (set_extFaceInversionFlag b) g) u link =
  gp_GetExtFaceVertex g u link.
Proof.
  unfold gp_GetExtFaceVertex. rewrite V_upd_vertex.
  destruct (decide (v = u)) as [->|]; reflexivity.
Qed.

(** The short-circuit links RootVertex and W to one another, whatever the
    state of the stack. *)
Lemma WalkDown_shortCircuit_links g RootVertex RootSide W WPrevLink :
  let g' := WalkDown_shortCircuit g RootVertex RootSide W WPrevLink in
  gp_GetExtFaceVertex g' RootVertex RootSide = W /\
  gp_GetExtFaceVertex g' W WPrevLink = RootVertex.
Proof.
  unfold WalkDown_shortCircuit.
  set (g1 := gp_SetExtFaceVertex g RootVertex RootSide W).
  set (g2 := gp_SetExtFaceVertex g1 W WPrevLink RootVertex).
  assert (H1 : gp_GetExtFaceVertex g2 RootVertex RootSide = W).
  { unfold g2. destruct (decide (RootVertex = W)) as [->|Hne].
    - destruct (decide (bool_decide (WPrevLink = 0) = bool_decide (RootSide = 0))) as [He|He].
      + unfold gp_GetExtFaceVertex, gp_SetExtFaceVertex. rewrite <- He.
        destruct (bool_decide (WPrevLink = 0)); rewrite V_upd_vertex;
          (destruct (decide (W = W)); [reflexivity|done]).
      + rewrite extFace_set_other_link by exact He. apply extFace_set_same.
    - rewrite extFace_set_other_vertex by exact Hne. apply extFace_set_same. }
  assert (H2 : gp_GetExtFaceVertex g2 W WPrevLink = RootVertex) by apply extFace_set_same.
  cbv zeta.
  destruct (bool_decide (gp_GetExtFaceVertex g2 W 0 = gp_GetExtFaceVertex g2 W 1)
            && bool_decide (WPrevLink = RootSide));
    unfold gp_SetExtFaceInversionFlag, gp_ClearExtFaceInversionFlag;
    rewrite !extFace_flag_irrelevant; auto.
Qed.

(** C6: when the traversal of side 0 of RootVertex ends at a vertex W0
    entered by P0, _WalkDown sets extFace[0] of RootVertex to W0 and
    extFace[P0] of W0 to RootVertex; it returns there when W0 is RootVertex
    and else goes on with side 1, at whose end W1, entered by P1, it sets
    extFace[1] of RootVertex to W1 and extFace[P1] of W1 to RootVertex.
    Nothing but the end of the traversal is tested: the stack may hold
    entries or not. *)
Theorem WalkDown_short_circuits_both_sides (functions : graphFunctionTable) (fuel : nat)
    (g : Graph) (I RootVertex W P W0 P0 R0 : Z) (g0 : Graph) :
  let gc := with_theStack (sp_ClearStack (theStack g)) g in
  WalkDown_enter gc RootVertex 0 = Some (W, P) ->
  WalkDown_side functions fuel gc I RootVertex 0 W P NIL = Some (Side_Done W0 P0 R0 g0) ->
  let g0' := WalkDown_shortCircuit g0 RootVertex 0 W0 P0 in
  gp_GetExtFaceVertex g0' RootVertex 0 = W0 /\
  gp_GetExtFaceVertex g0' W0 P0 = RootVertex /\
  (W0 = RootVertex -> _WalkDown functions fuel g I RootVertex = Some (OK, g0')) /\
  (W0 <> RootVertex ->
   forall W' P' W1 P1 R1 g1,
     WalkDown_enter g0' RootVertex 1 = Some (W', P') ->
     WalkDown_side functions fuel g0' I RootVertex 1 W' P' R0 = Some (Side_Done W1 P1 R1 g1) ->
     let g1' := WalkDown_shortCircuit g1 RootVertex 1 W1 P1 in
     _WalkDown functions fuel g I RootVertex = Some (OK, g1') /\
     gp_GetExtFaceVertex g1' RootVertex 1 = W1 /\
     gp_GetExtFaceVertex g1' W1 P1 = RootVertex).
Proof.
  intros gc Henter Hside g0'.
  destruct (WalkDown_shortCircuit_links g0 RootVertex 0 W0 P0) as [H1 H2].
  split; [exact H1|]. split; [exact H2|]. split.
  - intros ->. unfold _WalkDown. fold gc. cbn [WalkDown_sides].
    rewrite Henter, Hside. cbn [mbind option_bind].
    by rewrite bool_decide_eq_true_2.
  - intros Hne W' P' W1 P1 R1 g1 Henter1 Hside1 g1'.
    destruct (WalkDown_shortCircuit_links g1 RootVertex 1 W1 P1) as [H3 H4].
    split; [|split; [exact H3|exact H4]].
    unfold _WalkDown. fold gc. cbn [WalkDown_sides].
    rewrite Henter, Hside. cbn [mbind option_bind].
    rewrite bool_decide_eq_false_2 by exact Hne. fold g0'.
    rewrite Henter1, Hside1. cbn [mbind option_bind].
    destruct (bool_decide (W1 = RootVertex)); reflexivity.
Qed.

(** ** Doubly linked adjacency lists *)

Lemma hd_app_default (l1 l2 : list Z) (n : Z) : hd n (l1 ++ l2) = hd (hd n l2) l1.
Proof. destruct l1; reflexivity. Qed.

Lemma hd_reverse (l : list Z) (d : Z) : hd d (reverse l) = default d (last l).
Proof.
  rewrite <- (reverse_involutive l) at 2. rewrite last_reverse.
  destruct (reverse l); reflexivity.
Qed.

Lemma last_reverse_hd (l : list Z) (d : Z) : default d (last (reverse l)) = hd d l.
Proof. rewrite last_reverse. destruct l; reflexivity. Qed.

Lemma arc_links_app g l1 : forall p l2 n,
  arc_links g p (l1 ++ l2) n <->
  arc_links g p l1 (hd n l2) /\ arc_links g (default p (last l1)) l2 n.
Proof.
  induction l1 as [|a l1 IH]; intros p l2 n; cbn [arc_links app].
  - simpl. tauto.
  - rewrite IH, hd_app_default.
    assert (default p (last (a :: l1)) = default a (last l1)) as ->.
    { destruct l1 as [|b l1]; [reflexivity|]. rewrite last_cons_cons.
      destruct (last (b :: l1)) eqn:Hl; [reflexivity|].
      by apply last_None in Hl. }
    tauto.
Qed.

Lemma arc_links_frame g g' l : forall p n,
  arc_links g p l n ->
  (forall K, K ∈ l -> alink0 (E g' !!! K) = alink0 (E g !!! K) /\
                      alink1 (E g' !!! K) = alink1 (E g !!! K)) ->
  arc_links g' p l n.
Proof.
  induction l as [|a l IH]; intros p n Hl Hsame; simpl in *; [exact I|].
  destruct Hl as (Hp & Hn & Hl). destruct (Hsame a) as [H0 H1]; [by left|].
  unfold gp_GetPrevArc, gp_GetNextArc in *. rewrite H0, H1.
  repeat split; auto. apply IH; [exact Hl|]. intros K HK. apply Hsame. by right.
Qed.

Lemma arc_links_reverse g g' l : forall p n,
  arc_links g p l n ->
  (forall K, K ∈ l -> E g' !!! K = inverted_arcRec (E g !!! K)) ->
  arc_links g' n (reverse l) p.
Proof.
  induction l as [|a l IH]; intros p n Hl Hinv; [exact I|].
  simpl in Hl. destruct Hl as (Hp & Hn & Hl).
  rewrite reverse_cons. apply arc_links_app. split.
  - apply IH; [exact Hl|]. intros K HK. apply Hinv. by right.
  - simpl. unfold gp_GetPrevArc, gp_GetNextArc in *.
    rewrite (Hinv a) by (by left). cbn [inverted_arcRec alink0 alink1].
    rewrite last_reverse_hd. auto.
Qed.

Lemma arc_links_chain g l : forall p,
  arc_links g p l NIL -> Forall (fun a => a <> NIL) l -> arc_chain g (hd NIL l) l.
Proof.
  induction l as [|a l IH]; intros p Hl Hnil; simpl.
  - unfold gp_IsArc. by apply bool_decide_eq_false_2; intros H; apply H.
  - simpl in Hl. destruct Hl as (_ & Hn & Hl). apply Forall_cons in Hnil as [Ha Hnil].
    split; [reflexivity|]. split; [by apply bool_decide_eq_true_2|].
    rewrite Hn. eapply IH; eauto.
Qed.

Lemma adjacency_list_chain g v l :
  adjacency_list g v l -> arc_chain g (gp_GetFirstArc g v) l.
Proof.
  intros (Hf & _ & Hl & _ & Hnil). rewrite Hf. eapply arc_links_chain; eauto.
Qed.

Lemma adjacency_list_single_arc g v l :
  adjacency_list g v l ->
  (1 < length l)%nat <-> gp_GetFirstArc g v <> gp_GetLastArc g v.
Proof.
  intros (Hf & Hla & _ & Hnd & _). rewrite Hf, Hla. unfold gp_AdjacencyListEndMark.
  destruct l as [|a [|b l]].
  - simpl. split; [lia|congruence].
  - simpl. split; [lia|congruence].
  - cbn [hd length]. split; [|lia]. intros _. rewrite last_cons_cons.
    destruct (last (b :: l)) as [c|] eqn:Hl; [|by apply last_None in Hl].
    cbn [default]. intros ->. apply NoDup_cons in Hnd as [Hnotin _]. apply Hnotin.
    by apply last_Some_elem_of.
Qed.

(** The records that _InvertVertex leaves, read off the loop over the arcs. *)
Lemma InvertVertex_records fuel g v l :
  arc_chain g (gp_GetFirstArc g v) l ->
  (length l <= fuel)%nat ->
  exists g', _InvertVertex fuel g v = Some g' /\
    (forall K, E g' !!! K =
       if decide (K ∈ l) then inverted_arcRec (E g !!! K) else E g !!! K) /\
    (forall u, V g' !!! u =
       if decide (u = v) then inverted_vertexRec (V g !!! v) else V g !!! u) /\
    same_frame g g'.
Proof.
  intros Hc Hfuel.
  destruct (InvertVertex_arcs_spec l fuel g _ Hc Hfuel) as (g1 & Hrun & HV & Hfr & HE).
  unfold _InvertVertex. rewrite Hrun. cbn [mbind option_bind].
  eexists. split; [reflexivity|]. split; [|split].
  - intros K. rewrite <- HE. reflexivity.
  - intros u. unfold gp_SetExtFaceVertex, gp_GetExtFaceVertex, gp_SetLastArc, gp_SetFirstArc,
      gp_GetFirstArc, gp_GetLastArc.
    change (bool_decide (0 = 0)) with true. change (bool_decide (1 = 0)) with false.
    cbv iota. rewrite !V_upd_vertex. rewrite HV.
    destruct (decide (v = u)) as [->|Hne].
    + destruct (decide (u = u)); [|done]. reflexivity.
    + destruct (decide (u = v)); [congruence|]. reflexivity.
  - eapply same_frame_trans; [exact Hfr|].
    unfold gp_SetExtFaceVertex. cbn. repeat split.
Qed.

(** _InvertVertex reverses a well-formed adjacency list. *)
Lemma InvertVertex_reverses fuel g v l :
  adjacency_list g v l -> (length l <= fuel)%nat ->
  exists g', _InvertVertex fuel g v = Some g' /\ adjacency_list g' v (reverse l) /\
    (forall K, E g' !!! K =
       if decide (K ∈ l) then inverted_arcRec (E g !!! K) else E g !!! K) /\
    (forall u, V g' !!! u =
       if decide (u = v) then inverted_vertexRec (V g !!! v) else V g !!! u) /\
    same_frame g g'.
Proof.
  intros Hadj Hfuel.
  destruct (InvertVertex_records fuel g v l (adjacency_list_chain _ _ _ Hadj) Hfuel)
    as (g' & Hrun & HE & HV & Hfr).
  exists g'. split; [exact Hrun|]. split; [|auto].
  destruct Hadj as (Hf & Hla & Hl & Hnd & Hnil).
  unfold adjacency_list, gp_GetFirstArc, gp_GetLastArc in *.
  rewrite HV. destruct (decide (v = v)); [|done].
  cbn [inverted_vertexRec vlink0 vlink1].
  rewrite hd_reverse, last_reverse_hd. repeat split; auto.
  - eapply arc_links_reverse; [exact Hl|]. intros K HK. rewrite HE.
    destruct (decide (K ∈ l)); [reflexivity|done].
  - by rewrite reverse_Permutation.
  - by rewrite reverse_Permutation.
Qed.

(** ** _MergeBicomps: the flip of the bicomp rooted at R *)

Lemma first_child_frame g g' l :
  (forall K, edgeType (E g' !!! K) = edgeType (E g !!! K)) ->
  first_child g' l = first_child g l.
Proof.
  intros Hty. induction l as [|a l IH]; [reflexivity|]. simpl.
  unfold gp_GetEdgeType. rewrite Hty, IH. reflexivity.
Qed.

Lemma MergeBicomps_signChild_spec g l : forall fuel J,
  arc_chain g J l -> (length l <= fuel)%nat ->
  MergeBicomps_signChild fuel g J =
    Some (match first_child g l with
          | Some a => gp_XorEdgeFlagInverted g a
          | None => g
          end).
Proof.
  induction l as [|a l IH]; intros fuel J Hc Hfuel; simpl in Hc.
  - destruct fuel; simpl; rewrite Hc; reflexivity.
  - destruct Hc as (-> & Harc & Hc). destruct fuel as [|fuel]; [simpl in Hfuel; lia|].
    simpl in *. rewrite Harc.
    destruct (decide (gp_GetEdgeType g a = EDGE_TYPE_CHILD)); [reflexivity|].
    apply IH; [exact Hc|lia].
Qed.

(** C5: for a pair popped with ZPrevLink equal to Rout, the flip sets Rout
    to 1 XOR ZPrevLink, runs _InvertVertex on R exactly when the first arc of
    R differs from its last arc, which is when the adjacency list of R holds
    more than one arc, and reverses the inverted flag of the first tree-child
    arc of the adjacency list of R; for a pair with ZPrevLink different from
    Rout it changes nothing. *)
Theorem MergeBicomps_flip_inverts_root (fuel : nat) (g : Graph) (R Rout ZPrevLink : Z)
    (l : list Z) :
  adjacency_list g R l ->
  (length l <= fuel)%nat ->
  ((1 < length l)%nat <-> gp_GetFirstArc g R <> gp_GetLastArc g R) /\
  (ZPrevLink <> Rout -> MergeBicomps_flip fuel g R Rout ZPrevLink = Some (Rout, g)) /\
  (ZPrevLink = Rout ->
   exists g1 l1,
     (if bool_decide (gp_GetFirstArc g R <> gp_GetLastArc g R)
      then _InvertVertex fuel g R = Some g1 /\ l1 = reverse l
      else g1 = g /\ l1 = l) /\
     adjacency_list g1 R l1 /\
     MergeBicomps_flip fuel g R Rout ZPrevLink =
       Some (Z.lxor 1 ZPrevLink,
             match first_child g l1 with
             | Some J => gp_XorEdgeFlagInverted g1 J
             | None => g1
             end)).
Proof.
  intros Hadj Hfuel. split; [by apply adjacency_list_single_arc|]. split.
  - intros Hne. unfold MergeBicomps_flip. by rewrite bool_decide_eq_false_2.
  - intros Heq. unfold MergeBicomps_flip.
    rewrite (bool_decide_eq_true_2 (ZPrevLink = Rout)) by exact Heq.
    destruct (bool_decide (gp_GetFirstArc g R <> gp_GetLastArc g R)) eqn:Hmany.
    + destruct (InvertVertex_reverses fuel g R l Hadj Hfuel)
        as (g1 & Hrun & Hadj1 & HE & HV & Hfr).
      exists g1, (reverse l). split; [auto|]. split; [exact Hadj1|].
      rewrite Hrun. cbn [mbind option_bind].
      rewrite (MergeBicomps_signChild_spec g1 (reverse l) fuel).
      * cbn [mbind option_bind]. rewrite (first_child_frame g g1); [reflexivity|].
        intros K. rewrite HE. destruct (decide (K ∈ l)); reflexivity.
      * by apply adjacency_list_chain.
      * by rewrite length_reverse.
    + exists g, l. split; [auto|]. split; [exact Hadj|]. cbn [mbind option_bind].
      rewrite (MergeBicomps_signChild_spec g l fuel); [reflexivity| |exact Hfuel].
      by apply adjacency_list_chain.
Qed.

(** ** The lowpoint pass of _EmbeddingInitialize *)






















(** ** Appending and prepending in a list collection *)

Lemma lc_path_append lc lc' x t head rest : forall a,
  lc_path lc a rest head ->
  default a (last rest) = t ->
  NoDup (a :: rest) -> x ∉ a :: rest ->
  (forall K, K <> t -> K <> x -> lc_next (lc' !!! K) = lc_next (lc !!! K)) ->
  lc_next (lc' !!! t) = x ->
  forall stop, lc_path lc' x [] stop -> lc_path lc' a (rest ++ [x]) stop.
Proof.
  induction rest as [|b rest IH]; intros a Hpath Hlast Hnd Hx Hsame Ht stop Hstop.
  - simpl in Hlast. subst t. simpl. auto.
  - simpl in Hpath. destruct Hpath as [Hnext Hpath].
    apply NoDup_cons in Hnd as [Ha Hnd].
    assert (Hlast' : default b (last rest) = t).
    { rewrite <- Hlast. destruct rest as [|c rest]; [reflexivity|].
      rewrite last_cons_cons. destruct (last (c :: rest)) eqn:Hl; [reflexivity|].
      by apply last_None in Hl. }
    assert (t ∈ b :: rest).
    { rewrite <- Hlast'. destruct (last rest) eqn:Hl; simpl; [right|left].
      by apply last_Some_elem_of. }
    cbn [app lc_path]. split.
    + rewrite Hsame; [exact Hnext| |].
      * intros ->. done.
      * intros ->. apply Hx. by left.
    + eapply IH; eauto. intros Hin. apply Hx. by right.
Qed.

Lemma lc_path_retarget lc lc' x t head rest : forall a,
  lc_path lc a rest head ->
  default a (last rest) = t ->
  NoDup (a :: rest) -> x ∉ a :: rest ->
  (forall K, K <> t -> K <> x -> lc_next (lc' !!! K) = lc_next (lc !!! K)) ->
  lc_next (lc' !!! t) = x ->
  lc_path lc' a rest x.
Proof.
  induction rest as [|b rest IH]; intros a Hpath Hlast Hnd Hx Hsame Ht.
  - simpl in Hlast. subst t. simpl. auto.
  - simpl in Hpath. destruct Hpath as [Hnext Hpath].
    apply NoDup_cons in Hnd as [Ha Hnd].
    assert (Hlast' : default b (last rest) = t).
    { rewrite <- Hlast. destruct rest as [|c rest]; [reflexivity|].
      rewrite last_cons_cons. destruct (last (c :: rest)) eqn:Hl; [reflexivity|].
      by apply last_None in Hl. }
    assert (t ∈ b :: rest).
    { rewrite <- Hlast'. destruct (last rest) eqn:Hl; simpl; [right|left].
      by apply last_Some_elem_of. }
    cbn [lc_path]. split.
    + rewrite Hsame; [exact Hnext| |].
      * intros ->. done.
      * intros ->. apply Hx. by left.
    + eapply IH; eauto. intros Hin. apply Hx. by right.
Qed.

(** The links after LCAppend on a non-empty list with head [h] and last
    node [t]. *)
Lemma LCAppend_links lc h x :
  h <> NIL -> x <> h -> x <> lc_prev (lc !!! h) ->
  let t := lc_prev (lc !!! h) in
  let lc' := (LCAppend lc h x).1 in
  (LCAppend lc h x).2 = h /\
  (forall K, K <> t -> K <> x -> lc_next (lc' !!! K) = lc_next (lc !!! K)) /\
  lc_next (lc' !!! t) = x /\ lc_next (lc' !!! x) = h /\
  lc_prev (lc' !!! h) = x /\ lc_prev (lc' !!! x) = t.
Proof.
  intros Hh Hxh Hxt t lc'. unfold lc', LCAppend.
  rewrite bool_decide_eq_false_2 by exact Hh. cbv zeta. cbn [fst snd]. fold t.
  assert (Htx : t <> x) by (unfold t; congruence).
  split; [reflexivity|]. split; [|split; [|split; [|split]]].
  - intros K HKt HKx. rewrite (lookup_total_insert_ne _ t K) by congruence.
    rewrite (lookup_total_insert_ne _ x K) by congruence.
    rewrite lookup_total_insert. destruct (decide (h = K)) as [->|]; reflexivity.
  - by rewrite lookup_total_insert_eq.
  - rewrite (lookup_total_insert_ne _ t x) by congruence.
    by rewrite lookup_total_insert_eq.
  - rewrite (lookup_total_insert _ t h). destruct (decide (t = h)) as [Hth|Hth].
    + cbn [lc_prev]. rewrite (lookup_total_insert_ne _ x t) by congruence.
      rewrite Hth. by rewrite lookup_total_insert_eq.
    + rewrite (lookup_total_insert_ne _ x h) by congruence.
      by rewrite lookup_total_insert_eq.
  - rewrite (lookup_total_insert_ne _ t x) by congruence.
    by rewrite lookup_total_insert_eq.
Qed.

Lemma lc_list_last_elem (h : Z) (rest : list Z) : default h (last rest) ∈ h :: rest.
Proof.
  destruct (last rest) eqn:Hl; simpl; [right; by apply last_Some_elem_of|by left].
Qed.

Lemma LCAppend_list lc head l x :
  lc_list lc head l -> x ∉ l -> x <> NIL ->
  lc_list (LCAppend lc head x).1 (LCAppend lc head x).2 (l ++ [x]).
Proof.
  intros (Hshape & Hnd & Hnil) Hx HxNIL.
  assert (Hnd' : NoDup (l ++ [x])).
  { apply NoDup_app. split; [exact Hnd|]. split; [|apply NoDup_singleton].
    intros y Hy Hyx. apply list_elem_of_singleton in Hyx. by subst. }
  assert (Hnil' : Forall (fun a => a <> NIL) (l ++ [x])).
  { apply Forall_app. split; [exact Hnil|]. by repeat constructor. }
  split; [|split; [exact Hnd'|exact Hnil']].
  destruct l as [|h rest].
  - subst head. unfold LCAppend. rewrite bool_decide_eq_true_2 by reflexivity.
    cbn [fst snd app lc_path last default]. rewrite lookup_total_insert_eq. auto.
  - destruct Hshape as (-> & Hpath & Hprev).
    apply Forall_cons in Hnil as [Hh _].
    assert (Hxh : x <> h) by (intros ->; apply Hx; by left).
    assert (Hxt : x <> lc_prev (lc !!! h)).
    { rewrite Hprev. intros ->. apply Hx. apply lc_list_last_elem. }
    destruct (LCAppend_links lc h x Hh Hxh Hxt) as (Hhead & Hsame & Ht & Hxn & Hph & _).
    rewrite Hprev in Hsame, Ht. rewrite Hhead. cbn [app]. split; [reflexivity|]. split.
    + eapply lc_path_append; eauto.
    + rewrite Hph. by rewrite last_snoc.
Qed.

Lemma LCPrepend_list lc head l x :
  lc_list lc head l -> x ∉ l -> x <> NIL ->
  lc_list (LCPrepend lc head x).1 (LCPrepend lc head x).2 (x :: l).
Proof.
  intros (Hshape & Hnd & Hnil) Hx HxNIL.
  assert (Hfst : (LCPrepend lc head x).1 = (LCAppend lc head x).1).
  { unfold LCPrepend. by destruct (LCAppend lc head x). }
  assert (Hsnd : (LCPrepend lc head x).2 = x).
  { unfold LCPrepend. by destruct (LCAppend lc head x). }
  rewrite Hfst, Hsnd.
  split; [|split; [by apply NoDup_cons|by apply Forall_cons]].
  split; [reflexivity|].
  destruct l as [|h rest].
  - subst head. unfold LCAppend. rewrite bool_decide_eq_true_2 by reflexivity.
    cbn [fst snd lc_path last default]. rewrite lookup_total_insert_eq. auto.
  - destruct Hshape as (-> & Hpath & Hprev).
    apply Forall_cons in Hnil as [Hh _].
    assert (Hxh : x <> h) by (intros ->; apply Hx; by left).
    assert (Hxt : x <> lc_prev (lc !!! h)).
    { rewrite Hprev. intros ->. apply Hx. apply lc_list_last_elem. }
    destruct (LCAppend_links lc h x Hh Hxh Hxt) as (Hhead & Hsame & Ht & Hxn & Hph & Hpx).
    rewrite Hprev in Hsame, Ht. split.
    + cbn [lc_path]. split; [exact Hxn|]. eapply lc_path_retarget; eauto.
    + rewrite Hpx, Hprev. destruct rest as [|c rest]; [reflexivity|].
      rewrite last_cons_cons. destruct (last (c :: rest)) eqn:Hl; [reflexivity|].
      by apply last_None in Hl.
Qed.

(** ** _WalkUp: the pertinent bicomp lists *)

Lemma WalkUp_recordRoot_fields g I R :
  let g' := WalkUp_recordRoot g I R in
  (forall u, gp_GetVertexLowpoint g' u = gp_GetVertexLowpoint g u) /\
  (forall u, gp_GetVertexPertinentAdjacencyInfo g' u = gp_GetVertexPertinentAdjacencyInfo g u) /\
  E g' = E g.
Proof.
  unfold WalkUp_recordRoot. cbv zeta.
  destruct (if bool_decide _ then _ else _) as [lc BL].
  unfold gp_GetVertexLowpoint, gp_GetVertexPertinentAdjacencyInfo,
    gp_SetVertexPertinentBicompList.
  split; [|split; [|reflexivity]]; intros u; rewrite V_upd_vertex;
    destruct (decide (_ = u)) as [->|]; reflexivity.
Qed.

(** C3: the Walkup turn that finds a bicomp root R records it, and the root
    goes into the pertinentBicompList of the parent copy of R, in front of
    the list when the lowpoint of the child R - N is not below I and behind
    it when the lowpoint is below I; a list that meets its internally active
    bicomps first still does so afterwards. *)
Theorem WalkUp_records_root (g : Graph) (I R : Z) (l : list Z) :
  let C := R - gN g in
  let P := gp_GetVertexParent g C in
  lc_list (BicompLists g) (gp_GetVertexPertinentBicompList g P) l ->
  C ∉ l -> C <> NIL ->
  let g' := WalkUp_recordRoot g I R in
  let l' := if bool_decide (gp_GetVertexLowpoint g C < I) then l ++ [C] else C :: l in
  lc_list (BicompLists g') (gp_GetVertexPertinentBicompList g' P) l' /\
  (internally_active_first g I l -> internally_active_first g' I l') /\
  (forall fuel g0 Zig Zag ZigPrevLink ZagPrevLink nextZig nextZag,
     Zig <> I -> R <> NIL ->
     WalkUp_probe g0 I Zig Zag ZigPrevLink ZagPrevLink = WU_Found R nextZig nextZag ->
     let gm := gp_SetVertexVisitedInfo (gp_SetVertexVisitedInfo g0 Zig I) Zag I in
     let ParentCopy := gp_GetVertexParent gm (R - gN gm) in
     WalkUp_loop (S fuel) g0 I Zig Zag ZigPrevLink ZagPrevLink =
     WalkUp_loop fuel (WalkUp_recordRoot gm I R) I ParentCopy ParentCopy 1 0).
Proof.
  intros C P Hl Hfresh HC g' l'. split; [|split].
  - unfold g', WalkUp_recordRoot. fold C P. cbv zeta. unfold l'.
    destruct (bool_decide (gp_GetVertexLowpoint g C < I)).
    + pose proof (LCAppend_list _ _ _ C Hl Hfresh HC) as Happ.
      destruct (LCAppend (BicompLists g) (gp_GetVertexPertinentBicompList g P) C) as [lc BL].
      unfold gp_GetVertexPertinentBicompList, gp_SetVertexPertinentBicompList.
      rewrite V_upd_vertex. destruct (decide (P = P)); [|done]. exact Happ.
    + pose proof (LCPrepend_list _ _ _ C Hl Hfresh HC) as Hpre.
      destruct (LCPrepend (BicompLists g) (gp_GetVertexPertinentBicompList g P) C) as [lc BL].
      unfold gp_GetVertexPertinentBicompList, gp_SetVertexPertinentBicompList.
      rewrite V_upd_vertex. destruct (decide (P = P)); [|done]. exact Hpre.
  - intros (l1 & l2 & -> & H1 & H2).
    destruct (WalkUp_recordRoot_fields g I R) as (Hlow & _). fold g' in Hlow.
    assert (Hfa : forall (Q : Z -> Prop) (k : list Z),
              Forall (fun c => Q (gp_GetVertexLowpoint g c)) k ->
              Forall (fun c => Q (gp_GetVertexLowpoint g' c)) k).
    { intros Q k Hk. eapply Forall_impl; [exact Hk|]. intros c. by rewrite Hlow. }
    unfold l'. destruct (bool_decide (gp_GetVertexLowpoint g C < I)) eqn:Hd.
    + apply bool_decide_eq_true_1 in Hd. exists l1, (l2 ++ [C]).
      split; [by rewrite app_assoc|]. split; [by apply (Hfa (fun x => I <= x))|].
      apply Forall_app. split; [by apply (Hfa (fun x => x < I))|].
      repeat constructor. by rewrite Hlow.
    + apply bool_decide_eq_false_1 in Hd. exists (C :: l1), l2.
      split; [reflexivity|]. split; [|by apply (Hfa (fun x => x < I))].
      apply Forall_cons. split; [rewrite Hlow; lia|by apply (Hfa (fun x => I <= x))].
  - intros fuel g0 Zig Zag ZigPrevLink ZagPrevLink nextZig nextZag HZig HR Hprobe gm ParentCopy.
    cbn [WalkUp_loop]. rewrite bool_decide_eq_true_2 by exact HZig. rewrite Hprobe.
    fold gm. rewrite bool_decide_eq_false_2 by exact HR. reflexivity.
Qed.

(** ** The theorems at work on the examples *)

Lemma InvertVertex_swaps_links_witness :
  exists g', _InvertVertex 3 k4 0 = Some g' /\
    (forall K, E g' !!! K =
       if decide (K ∈ [4; 2; 0]) then inverted_arcRec (E k4 !!! K) else E k4 !!! K) /\
    (forall u, V g' !!! u =
       if decide (u = 0) then inverted_vertexRec (V k4 !!! 0) else V k4 !!! u) /\
    same_frame k4 g'.
Proof.
  apply (InvertVertex_swaps_links 3 k4 0 [4; 2; 0]).
  - vm_compute. tauto.
  - simpl. lia.
Defined.

Lemma EmbeddingInitialize_stack_capacity_witness :
  _EmbeddingInitialize example_clear (example_functions 20) 20 path2_small_stack
  = Some (NOTOK, path2_small_stack).
Proof.
  apply (EmbeddingInitialize_stack_capacity example_clear (example_functions 20) 20
           path2_small_stack).
  - vm_compute. split; [discriminate|reflexivity].
  - vm_compute. reflexivity.
Defined.

Lemma k33_step1_walkups :
  Embed_walkups (example_functions 20) 20 (gp_SetVertexVisitedInfo k33_step2 1 6) 1
    (gp_GetVertexFwdArcList (gp_SetVertexVisitedInfo k33_step2 1 6) 1) = Some k33_walkedUp.
Proof. vm_compute. reflexivity. Qed.

(** Step 1 on the K33 makes one Walkdown call, from the root copy 8 of the
    DFS child 2, and the call returns NONEMBEDDABLE. *)
Lemma k33_step1_calls :
  walkdown_calls (example_functions 20) 6 1 1 k33_walkedUp
    (gp_GetVertexSortedDFSChildList k33_walkedUp 1) NONEMBEDDABLE k33_blocked.
Proof.
  replace (gp_GetVertexSortedDFSChildList k33_walkedUp 1) with 2
    by (vm_compute; reflexivity).
  apply calls_blocked.
  - discriminate.
  - vm_compute. discriminate.
  - vm_compute. reflexivity.
  - discriminate.
Qed.

Lemma Embed_blocked_iteration_stops_witness :
  (forall g' I', _HandleBlockedEmbedIteration g' I' = (NONEMBEDDABLE, g')) /\
  Embed_walks (example_functions 20) 20 k33_step2 6 1
    = Some (inr (NONEMBEDDABLE, k33_step1_end)) /\
  Embed_blockedCheck (example_functions 20) k33_step1_end 1 NONEMBEDDABLE =
    (let '(r', g') := fpHandleBlockedEmbedIteration (example_functions 20) k33_step1_end 1 in
     if decide (r' <> OK) then Iter_Break r' g' else Iter_Next r' g') /\
  Embed_iteration (example_functions 20) 20 k33_step2 6 1
    = Some (Iter_Break NONEMBEDDABLE k33_step1_end) /\
  Embed_loop (example_functions 20) 20 2 k33_step2 6 1 OK
    = Some (inr (1, NONEMBEDDABLE, k33_step1_end)) /\
  Embed_loop (example_functions 20) 20 2 k33_step2 6 1 OK
    ≫= Embed_finish (example_functions 20) =
    fpEmbedPostprocess (example_functions 20) k33_step1_end 1 NONEMBEDDABLE
      ≫= (fun '(r', g') => Some (r', Some g')).
Proof.
  apply (Embed_blocked_iteration_stops (example_functions 20) 20 1 1 k33_step2
           k33_walkedUp k33_blocked 6 1 NONEMBEDDABLE OK).
  - reflexivity.
  - lia.
  - exact k33_step1_walkups.
  - exact k33_step1_calls.
  - lia.
  - by left.
Defined.

Lemma k4_step0_root6 : adjacency_list k4_step0 6 [8; 6].
Proof.
  repeat split; try (vm_compute; reflexivity).
  - apply NoDup_cons. split; [|apply NoDup_singleton].
    intros Hin%list_elem_of_singleton. discriminate.
  - by repeat constructor.
Qed.

Lemma MergeBicomps_flip_inverts_root_witness :
  ((1 < length [8; 6])%nat <-> gp_GetFirstArc k4_step0 6 <> gp_GetLastArc k4_step0 6) /\
  (0 <> 0 -> MergeBicomps_flip 2 k4_step0 6 0 0 = Some (0, k4_step0)) /\
  (0 = 0 ->
   exists g1 l1,
     (if bool_decide (gp_GetFirstArc k4_step0 6 <> gp_GetLastArc k4_step0 6)
      then _InvertVertex 2 k4_step0 6 = Some g1 /\ l1 = reverse [8; 6]
      else g1 = k4_step0 /\ l1 = [8; 6]) /\
     adjacency_list g1 6 l1 /\
     MergeBicomps_flip 2 k4_step0 6 0 0 =
       Some (Z.lxor 1 0,
             match first_child k4_step0 l1 with
             | Some J => gp_XorEdgeFlagInverted g1 J
             | None => g1
             end)).
Proof.
  apply (MergeBicomps_flip_inverts_root 2 k4_step0 6 0 0 [8; 6]).
  - exact k4_step0_root6.
  - simpl. lia.
Defined.

Lemma WalkDown_short_circuits_both_sides_witness :
  let gc := with_theStack (sp_ClearStack (theStack k4_walkedUp)) k4_walkedUp in
  let g0' := WalkDown_shortCircuit k4_side0 6 0 3 1 in
  gp_GetExtFaceVertex g0' 6 0 = 3 /\
  gp_GetExtFaceVertex g0' 3 1 = 6 /\
  (3 = 6 -> _WalkDown (example_functions 20) 20 k4_walkedUp 1 6 = Some (OK, g0')) /\
  (3 <> 6 ->
   forall W' P' W1 P1 R1 g1,
     WalkDown_enter g0' 6 1 = Some (W', P') ->
     WalkDown_side (example_functions 20) 20 g0' 1 6 1 W' P' 0 = Some (Side_Done W1 P1 R1 g1) ->
     let g1' := WalkDown_shortCircuit g1 6 1 W1 P1 in
     _WalkDown (example_functions 20) 20 k4_walkedUp 1 6 = Some (OK, g1') /\
     gp_GetExtFaceVertex g1' 6 1 = W1 /\
     gp_GetExtFaceVertex g1' W1 P1 = 6).
Proof.
  apply (WalkDown_short_circuits_both_sides (example_functions 20) 20 k4_walkedUp
           1 6 2 1 3 1 0 k4_side0).
  - vm_compute. reflexivity.
  - vm_compute. reflexivity.
Defined.

(** Side 1 of the same Walkdown ends at the vertex 2, entered by link 0. *)
Lemma k4_walkdown_side1 :
  let g0' := WalkDown_shortCircuit k4_side0 6 0 3 1 in
  WalkDown_enter g0' 6 1 = Some (2, 0) /\
  WalkDown_side (example_functions 20) 20 g0' 1 6 1 2 0 0 = Some (Side_Done 2 0 0 k4_side1).
Proof. split; vm_compute; reflexivity. Qed.

Lemma kite_walkup2_list :
  lc_list (BicompLists kite_walkup2_marked)
    (gp_GetVertexPertinentBicompList kite_walkup2_marked 1) [2].
Proof.
  split; [|split].
  - vm_compute. auto.
  - apply NoDup_singleton.
  - by repeat constructor.
Qed.

Lemma WalkUp_records_root_witness :
  let g := kite_walkup2_marked in
  let g' := WalkUp_recordRoot g 0 7 in
  let l' := if bool_decide (gp_GetVertexLowpoint g 3 < 0) then [2] ++ [3] else [3; 2] in
  lc_list (BicompLists g') (gp_GetVertexPertinentBicompList g' 1) l' /\
  (internally_active_first g 0 [2] -> internally_active_first g' 0 l') /\
  (forall fuel g0 Zig Zag ZigPrevLink ZagPrevLink nextZig nextZag,
     Zig <> 0 -> 7 <> NIL ->
     WalkUp_probe g0 0 Zig Zag ZigPrevLink ZagPrevLink = WU_Found 7 nextZig nextZag ->
     let gm := gp_SetVertexVisitedInfo (gp_SetVertexVisitedInfo g0 Zig 0) Zag 0 in
     let ParentCopy := gp_GetVertexParent gm (7 - gN gm) in
     WalkUp_loop (S fuel) g0 0 Zig Zag ZigPrevLink ZagPrevLink =
     WalkUp_loop fuel (WalkUp_recordRoot gm 0 7) 0 ParentCopy ParentCopy 1 0).
Proof.
  apply (WalkUp_records_root kite_walkup2_marked 0 7 [2]).
  - exact kite_walkup2_list.
  - change (7 - gN kite_walkup2_marked) with 3.
    intros Hin%list_elem_of_singleton. discriminate.
  - vm_compute. discriminate.
Defined.

(** ** Reading an arc after an update *)

Lemma next_SetNextArc g e (a : Z) K :
  gp_GetNextArc (gp_SetNextArc g e a) K = if decide (e = K) then a else gp_GetNextArc g K.
Proof.
  unfold gp_GetNextArc, gp_SetNextArc. rewrite E_upd_arc.
  destruct (decide (e = K)) as [->|]; reflexivity.
Qed.

Lemma next_SetPrevArc g e (a : Z) K : gp_GetNextArc (gp_SetPrevArc g e a) K = gp_GetNextArc g K.
Proof.
  unfold gp_GetNextArc, gp_SetPrevArc. rewrite E_upd_arc.
  destruct (decide (e = K)) as [->|]; reflexivity.
Qed.

Lemma next_SetEdgeType g e (a : EdgeType) K : gp_GetNextArc (gp_SetEdgeType g e a) K = gp_GetNextArc g K.
Proof.
  unfold gp_GetNextArc, gp_SetEdgeType. rewrite E_upd_arc.
  destruct (decide (e = K)) as [->|]; reflexivity.
Qed.

Lemma next_SetNeighbor g e (a : Z) K : gp_GetNextArc (gp_SetNeighbor g e a) K = gp_GetNextArc g K.
Proof.
  unfold gp_GetNextArc, gp_SetNeighbor. rewrite E_upd_arc.
  destruct (decide (e = K)) as [->|]; reflexivity.
Qed.

Lemma next_upd_vertex g v f K : gp_GetNextArc (upd_vertex v f g) K = gp_GetNextArc g K.
Proof. reflexivity. Qed.

Lemma prev_SetNextArc g e (a : Z) K : gp_GetPrevArc (gp_SetNextArc g e a) K = gp_GetPrevArc g K.
Proof.
  unfold gp_GetPrevArc, gp_SetNextArc. rewrite E_upd_arc.
  destruct (decide (e = K)) as [->|]; reflexivity.
Qed.

Lemma prev_SetPrevArc g e (a : Z) K :
  gp_GetPrevArc (gp_SetPrevArc g e a) K = if decide (e = K) then a else gp_GetPrevArc g K.
Proof.
  unfold gp_GetPrevArc, gp_SetPrevArc. rewrite E_upd_arc.
  destruct (decide (e = K)) as [->|]; reflexivity.
Qed.

Lemma prev_SetEdgeType g e (a : EdgeType) K : gp_GetPrevArc (gp_SetEdgeType g e a) K = gp_GetPrevArc g K.
Proof.
  unfold gp_GetPrevArc, gp_SetEdgeType. rewrite E_upd_arc.
  destruct (decide (e = K)) as [->|]; reflexivity.
Qed.

Lemma prev_SetNeighbor g e (a : Z) K : gp_GetPrevArc (gp_SetNeighbor g e a) K = gp_GetPrevArc g K.
Proof.
  unfold gp_GetPrevArc, gp_SetNeighbor. rewrite E_upd_arc.
  destruct (decide (e = K)) as [->|]; reflexivity.
Qed.

Lemma prev_upd_vertex g v f K : gp_GetPrevArc (upd_vertex v f g) K = gp_GetPrevArc g K.
Proof. reflexivity. Qed.

Lemma edgeType_SetNextArc g e (a : Z) K : gp_GetEdgeType (gp_SetNextArc g e a) K = gp_GetEdgeType g K.
Proof.
  unfold gp_GetEdgeType, gp_SetNextArc. rewrite E_upd_arc.
  destruct (decide (e = K)) as [->|]; reflexivity.
Qed.

Lemma edgeType_SetPrevArc g e (a : Z) K : gp_GetEdgeType (gp_SetPrevArc g e a) K = gp_GetEdgeType g K.
Proof.
  unfold gp_GetEdgeType, gp_SetPrevArc. rewrite E_upd_arc.
  destruct (decide (e = K)) as [->|]; reflexivity.
Qed.

Lemma edgeType_SetEdgeType g e (a : EdgeType) K :
  gp_GetEdgeType (gp_SetEdgeType g e a) K = if decide (e = K) then a else gp_GetEdgeType g K.
Proof.
  unfold gp_GetEdgeType, gp_SetEdgeType. rewrite E_upd_arc.
  destruct (decide (e = K)) as [->|]; reflexivity.
Qed.

Lemma edgeType_SetNeighbor g e (a : Z) K : gp_GetEdgeType (gp_SetNeighbor g e a) K = gp_GetEdgeType g K.
Proof.
  unfold gp_GetEdgeType, gp_SetNeighbor. rewrite E_upd_arc.
  destruct (decide (e = K)) as [->|]; reflexivity.
Qed.

Lemma edgeType_upd_vertex g v f K : gp_GetEdgeType (upd_vertex v f g) K = gp_GetEdgeType g K.
Proof. reflexivity. Qed.

Lemma neighbor_SetNextArc g e (a : Z) K : gp_GetNeighbor (gp_SetNextArc g e a) K = gp_GetNeighbor g K.
Proof.
  unfold gp_GetNeighbor, gp_SetNextArc. rewrite E_upd_arc.
  destruct (decide (e = K)) as [->|]; reflexivity.
Qed.

Lemma neighbor_SetPrevArc g e (a : Z) K : gp_GetNeighbor (gp_SetPrevArc g e a) K = gp_GetNeighbor g K.
Proof.
  unfold gp_GetNeighbor, gp_SetPrevArc. rewrite E_upd_arc.
  destruct (decide (e = K)) as [->|]; reflexivity.
Qed.

Lemma neighbor_SetEdgeType g e (a : EdgeType) K : gp_GetNeighbor (gp_SetEdgeType g e a) K = gp_GetNeighbor g K.
Proof.
  unfold gp_GetNeighbor, gp_SetEdgeType. rewrite E_upd_arc.
  destruct (decide (e = K)) as [->|]; reflexivity.
Qed.

Lemma neighbor_SetNeighbor g e (a : Z) K :
  gp_GetNeighbor (gp_SetNeighbor g e a) K = if decide (e = K) then a else gp_GetNeighbor g K.
Proof.
  unfold gp_GetNeighbor, gp_SetNeighbor. rewrite E_upd_arc.
  destruct (decide (e = K)) as [->|]; reflexivity.
Qed.

Lemma neighbor_upd_vertex g v f K : gp_GetNeighbor (upd_vertex v f g) K = gp_GetNeighbor g K.
Proof. reflexivity. Qed.

(** ** The forward arc lists built by the DFS *)

Lemma twin_arc_differs g J : gp_GetTwinArc g J <> J.
Proof.
  unfold gp_GetTwinArc. intros H.
  assert (Z.testbit (Z.lxor J 1) 0 = Z.testbit J 0) as Hbit by (by rewrite H).
  rewrite Z.lxor_spec in Hbit. change (Z.testbit 1 0) with true in Hbit.
  destruct (Z.testbit J 0); discriminate.
Qed.

Lemma arc_links_relink g g' l : forall p n p' n',
  arc_links g p l n -> NoDup l ->
  (forall K, K ∈ l ->
     gp_GetPrevArc g' K = if decide (Some K = head l) then p' else gp_GetPrevArc g K) ->
  (forall K, K ∈ l ->
     gp_GetNextArc g' K = if decide (Some K = last l) then n' else gp_GetNextArc g K) ->
  arc_links g' p' l n'.
Proof.
  induction l as [|a l IH]; intros p n p' n' Hl Hnd Hprev Hnext; [exact I|].
  cbn [arc_links] in *. destruct Hl as (Hp & Hn & Hl).
  apply NoDup_cons in Hnd as [Ha Hnd].
  split; [|split].
  - rewrite Hprev by (by left). cbn [head]. by rewrite decide_True.
  - rewrite Hnext by (by left). destruct l as [|b l].
    + cbn [last hd]. by rewrite decide_True.
    + rewrite last_cons_cons. rewrite decide_False; [exact Hn|].
      intros Heq. apply Ha. symmetry in Heq. by apply last_Some_elem_of.
  - apply (IH a n a n' Hl Hnd).
    + intros K HK. rewrite Hprev by (by right). cbn [head].
      rewrite decide_False by (intros [= ->]; done).
      destruct l as [|b l]; [by apply elem_of_nil in HK|]. cbn [head].
      destruct (decide (Some K = Some b)) as [[= ->]|]; [|reflexivity].
      cbn [arc_links] in Hl. tauto.
    + intros K HK. rewrite Hnext by (by right).
      destruct l as [|b l]; [by apply elem_of_nil in HK|]. by rewrite last_cons_cons.
Qed.

Lemma ascending_snoc (l : list Z) (y : Z) :
  ascending l -> Forall (fun x => x <= y) l -> ascending (l ++ [y]).
Proof.
  induction l as [|a l IH]; intros Hasc Hle; [simpl; auto|].
  apply Forall_cons in Hle as [Ha Hle]. cbn [ascending] in Hasc. destruct Hasc as [Hab Hasc].
  cbn [app ascending]. split; [|by apply IH].
  destruct l as [|b l]; [exact Ha|exact Hab].
Qed.

Ltac unfold_vertex_set :=
  unfold gp_SetFirstArc, gp_SetLastArc, gp_SetVertexFwdArcList, gp_SetVertexLeastAncestor.

Ltac arcs_through :=
  unfold_vertex_set;
  repeat first
    [ rewrite next_SetNextArc | rewrite next_SetPrevArc | rewrite next_SetEdgeType
    | rewrite next_SetNeighbor | rewrite next_upd_vertex
    | rewrite prev_SetPrevArc | rewrite prev_SetNextArc | rewrite prev_SetEdgeType
    | rewrite prev_SetNeighbor | rewrite prev_upd_vertex
    | rewrite edgeType_SetEdgeType | rewrite edgeType_SetNextArc | rewrite edgeType_SetPrevArc
    | rewrite edgeType_SetNeighbor | rewrite edgeType_upd_vertex
    | rewrite neighbor_SetNeighbor | rewrite neighbor_SetNextArc | rewrite neighbor_SetPrevArc
    | rewrite neighbor_SetEdgeType | rewrite neighbor_upd_vertex ].

Lemma backArc_types g u J :
  let g' := EmbeddingInitialize_backArc g u J in
  gp_GetEdgeType g' J = EDGE_TYPE_BACK /\
  gp_GetEdgeType g' (gp_GetTwinArc g J) = EDGE_TYPE_FORWARD.
Proof.
  pose proof (twin_arc_differs g J) as Hne.
  unfold EmbeddingInitialize_backArc. cbv zeta.
  change (gp_GetTwinArc (gp_SetEdgeType g J EDGE_TYPE_BACK) J) with (gp_GetTwinArc g J).
  set (JTwin := gp_GetTwinArc g J) in *.
  repeat match goal with |- context [if bool_decide ?b then _ else _] =>
    destruct (bool_decide b) end.
  all: repeat match goal with |- context [if gp_IsArc ?g ?b then _ else _] =>
    destruct (gp_IsArc g b) end.
  all: split; arcs_through.
  all: try (rewrite decide_False by done); rewrite decide_True by done; reflexivity.
Qed.

Ltac unfold_arc_set := unfold gp_SetNextArc, gp_SetPrevArc, gp_SetEdgeType, gp_SetNeighbor.

Ltac vertices_through :=
  unfold_arc_set; unfold_vertex_set;
  repeat first [ rewrite V_upd_arc | rewrite V_upd_vertex ].

Lemma adjacency_list_split g A l1 x l2 :
  adjacency_list g A (l1 ++ x :: l2) ->
  gp_GetPrevArc g x = default NIL (last l1) /\
  gp_GetNextArc g x = hd NIL l2 /\
  arc_links g NIL l1 x /\ arc_links g x l2 NIL /\
  (x ∉ l1) /\ (x ∉ l2) /\ (forall K, K ∈ l1 -> K ∉ l2) /\ NoDup l1 /\ NoDup l2 /\
  x <> NIL /\ Forall (fun a => a <> NIL) l1 /\ Forall (fun a => a <> NIL) l2.
Proof.
  intros (_ & _ & Hl & Hnd & Hnil). unfold gp_AdjacencyListEndMark in Hl.
  apply arc_links_app in Hl as [H1 H2]. cbn [hd arc_links] in H1, H2.
  destruct H2 as (Hp & Hn & H2).
  apply NoDup_app in Hnd as (Hnd1 & Hd & Hnd2). apply NoDup_cons in Hnd2 as [Hx2 Hnd2].
  apply Forall_app in Hnil as [Hn1 Hn2]. apply Forall_cons in Hn2 as [Hx Hn2].
  repeat split; auto.
  - intros Hin. apply (Hd x Hin). by left.
  - intros K HK1 HK2. apply (Hd K HK1). by right.
Qed.

Lemma backArc_unlinked_effect g J p0 n0 :
  let A := gp_GetNeighbor g J in
  let g4 := backArc_unlinked g J p0 n0 in
  (forall K, K <> NIL ->
     gp_GetNextArc g4 K = if decide (p0 = K) then n0 else gp_GetNextArc g K) /\
  (forall K, K <> NIL ->
     gp_GetPrevArc g4 K = if decide (n0 = K) then p0 else gp_GetPrevArc g K) /\
  (forall K, gp_GetNeighbor g4 K = gp_GetNeighbor g K) /\
  (forall v, V g4 !!! v =
     if decide (A = v)
     then set_vlink1 (if decide (n0 = NIL) then p0 else vlink1 (V g !!! A))
            (set_vlink0 (if decide (p0 = NIL) then n0 else vlink0 (V g !!! A)) (V g !!! A))
     else V g !!! v).
Proof.
  intros A g4. unfold g4, backArc_unlinked. cbv zeta. fold A. unfold gp_IsArc.
  destruct (decide (p0 = NIL)) as [Hp|Hp], (decide (n0 = NIL)) as [Hn|Hn].
  all: try rewrite (bool_decide_eq_false_2 (p0 <> NIL)) by tauto.
  all: try rewrite (bool_decide_eq_true_2 (p0 <> NIL)) by tauto.
  all: try rewrite (bool_decide_eq_false_2 (n0 <> NIL)) by tauto.
  all: try rewrite (bool_decide_eq_true_2 (n0 <> NIL)) by tauto.
  all: split; [|split; [|split]].
  all: try (intros K HK; arcs_through; repeat case_decide; congruence).
  all: try (intros K; arcs_through; reflexivity).
  all: intros v; vertices_through; repeat case_decide; subst; try done;
       match goal with |- context [V ?g0 !!! ?w] => by destruct (V g0 !!! w) end.
Qed.

Lemma backArc_listed_effect g4 A JTwin e t :
  let g5 := backArc_listed g4 A JTwin e t in
  (forall K, gp_GetNextArc g5 K =
     if decide (e <> NIL /\ t = K) then JTwin
     else if decide (JTwin = K) then (if decide (e = NIL) then JTwin else e)
     else gp_GetNextArc g4 K) /\
  (forall K, gp_GetPrevArc g5 K =
     if decide (e <> NIL /\ e = K) then JTwin
     else if decide (JTwin = K) then (if decide (e = NIL) then JTwin else t)
     else gp_GetPrevArc g4 K) /\
  (forall K, gp_GetNeighbor g5 K = gp_GetNeighbor g4 K) /\
  (forall v, V g5 !!! v =
     if decide (e = NIL /\ A = v) then set_fwdArcList JTwin (V g4 !!! A) else V g4 !!! v).
Proof.
  intros g5. unfold g5, backArc_listed, gp_IsArc.
  destruct (decide (e = NIL)) as [He|He].
  - rewrite (bool_decide_eq_false_2 (e <> NIL)) by tauto.
    split; [|split; [|split]].
    + intros K. arcs_through. repeat case_decide; try tauto; congruence.
    + intros K. arcs_through. repeat case_decide; try tauto; congruence.
    + intros K. arcs_through. reflexivity.
    + intros v. vertices_through. repeat case_decide; subst; try tauto; try congruence.
  - rewrite (bool_decide_eq_true_2 (e <> NIL)) by tauto.
    split; [|split; [|split]].
    + intros K. arcs_through. repeat case_decide; try tauto; congruence.
    + intros K. arcs_through. repeat case_decide; try tauto; congruence.
    + intros K. arcs_through. reflexivity.
    + intros v. vertices_through. repeat case_decide; subst; try tauto; try congruence.
Qed.

Lemma backArc_form g u J :
  let JTwin := gp_GetTwinArc g J in
  let A := gp_GetNeighbor g J in
  EmbeddingInitialize_backArc g u J =
    let g4 := backArc_unlinked g J (gp_GetPrevArc g JTwin) (gp_GetNextArc g JTwin) in
    let e := gp_GetVertexFwdArcList g4 A in
    let g5 := backArc_listed g4 A JTwin e (gp_GetPrevArc g4 e) in
    let idx := gp_GetVertexIndex g5 A in
    if bool_decide (idx < gp_GetVertexLeastAncestor g5 u)
    then gp_SetVertexLeastAncestor g5 u idx else g5.
Proof.
  intros JTwin A. unfold EmbeddingInitialize_backArc, backArc_unlinked, backArc_listed.
  cbv zeta.
  change (gp_GetTwinArc (gp_SetEdgeType g J EDGE_TYPE_BACK) J) with JTwin.
  set (g2 := gp_SetEdgeType (gp_SetEdgeType g J EDGE_TYPE_BACK) JTwin EDGE_TYPE_FORWARD).
  assert (HA : gp_GetNeighbor g2 J = A) by (unfold g2; arcs_through; reflexivity).
  assert (Hp2 : gp_GetPrevArc g2 JTwin = gp_GetPrevArc g JTwin)
    by (unfold g2; arcs_through; reflexivity).
  assert (Hn2 : gp_GetNextArc g2 JTwin = gp_GetNextArc g JTwin)
    by (unfold g2; arcs_through; reflexivity).
  rewrite HA, Hp2, Hn2. reflexivity.
Qed.

Lemma arc_links_head g l : forall p n K,
  arc_links g p l n -> head l = Some K -> gp_GetPrevArc g K = p.
Proof. intros p n K Hl Hh. destruct l as [|a l]; [done|]. injection Hh as ->. apply Hl. Qed.

Lemma arc_links_last g l : forall p n K,
  arc_links g p l n -> last l = Some K -> gp_GetNextArc g K = n.
Proof.
  induction l as [|a l IH]; intros p n K Hl Hla; [done|].
  cbn [arc_links] in Hl. destruct Hl as (_ & Hn & Hl). destruct l as [|b l].
  - injection Hla as ->. exact Hn.
  - rewrite last_cons_cons in Hla. eapply IH; eauto.
Qed.

Lemma default_last_eq (l : list Z) (d K : Z) :
  Forall (fun a => a <> d) l -> K <> d -> default d (last l) = K <-> Some K = last l.
Proof.
  intros Hnil HK. destruct (last l) as [x|] eqn:Hl; simpl.
  - split; intros; congruence.
  - split; intros; [congruence|discriminate].
Qed.

Lemma hd_eq_head (l : list Z) (d K : Z) : K <> d -> hd d l = K <-> Some K = head l.
Proof. intros HK. destruct l as [|a l]; cbn; split; intros; congruence. Qed.

Ltac decide_goal :=
  repeat match goal with |- context [decide ?P] => destruct (decide P) end.

(** C2, as the code has it: when the DFS scan of the vertex u meets an arc J
    to a visited neighbour A that is not the arc to the DFS parent, it runs
    the back-arc step.  Where the adjacency list of A holds the twin of J
    and the fwdArcList of A is the circular list f, the step types J back
    and its twin forward, takes the twin out of the adjacency list of A and
    links it in before the head of f, which stays the head: read from its
    head, the fwdArcList of A is f followed by the twin.  The least ancestor
    of u becomes the least of its old value and the index of A.  Where f is
    in ascending order of descendant index and no descendant of f has an
    index above that of u, the new list is in ascending order as well. *)
Theorem EmbeddingInitialize_backArc_appends (g : Graph) (u J : Z) (l1 l2 f : list Z) :
  let JTwin := gp_GetTwinArc g J in
  let A := gp_GetNeighbor g J in
  adjacency_list g A (l1 ++ JTwin :: l2) ->
  fwd_list g A f ->
  JTwin ∉ f -> (forall a, a ∈ f -> a ∉ l1 ++ l2) ->
  let g' := EmbeddingInitialize_backArc g u J in
  (gp_GetVertexVisited g A = true -> gp_GetEdgeType g J <> EDGE_TYPE_PARENT ->
   EmbeddingInitialize_scanArc g u J = g') /\
  gp_GetEdgeType g' J = EDGE_TYPE_BACK /\
  gp_GetEdgeType g' JTwin = EDGE_TYPE_FORWARD /\
  adjacency_list g' A (l1 ++ l2) /\
  fwd_list g' A (f ++ [JTwin]) /\
  gp_GetVertexLeastAncestor g' u =
    Z.min (gp_GetVertexLeastAncestor g u) (gp_GetVertexIndex g A) /\
  (gp_GetNeighbor g JTwin = u -> descendant_order g f ->
   Forall (fun a => descendant_DFI g a <= gp_GetVertexIndex g u) f ->
   descendant_order g' (f ++ [JTwin])).
Proof.
  intros JTwin A Hadj Hfwd HJf Hdisj g'.
  split.
  { intros Hvis Hty. unfold EmbeddingInitialize_scanArc. fold A. rewrite Hvis.
    cbn [negb]. destruct (decide (gp_GetEdgeType g J <> EDGE_TYPE_PARENT)); [reflexivity|done]. }
  split; [apply backArc_types|]. split; [apply backArc_types|].
  destruct (adjacency_list_split _ _ _ _ _ Hadj)
    as (Hp & Hn & Hl1 & Hl2 & HJ1 & HJ2 & H12 & Hnd1 & Hnd2 & HJN & Hnil1 & Hnil2).
  destruct Hadj as (Hfirst & Hlast & _). unfold gp_AdjacencyListEndMark in Hfirst, Hlast.
  destruct Hfwd as (Hshape & Hndf & Hnilf).
  set (p0 := default NIL (last l1)) in *. set (n0 := hd NIL l2) in *.
  (* where the neighbours of JTwin and the ends of the forward list are *)
  assert (Hp0 : p0 = NIL \/ p0 ∈ l1).
  { unfold p0. destruct (last l1) eqn:E1; [right; by apply last_Some_elem_of|by left]. }
  assert (Hn0 : n0 = NIL \/ n0 ∈ l2).
  { unfold n0. destruct l2; [by left|right; by left]. }
  assert (Hin1 : forall K, K ∈ l1 -> K <> NIL /\ K <> JTwin /\ K <> n0 /\ K ∉ f).
  { intros K HK. rewrite Forall_forall in Hnil1. repeat split.
    - by apply Hnil1.
    - intros ->. done.
    - intros ->. destruct Hn0 as [Hn0|Hn0]; [by apply (Hnil1 _ HK)|by apply (H12 _ HK)].
    - intros HKf. apply (Hdisj _ HKf). apply elem_of_app. by left. }
  assert (Hin2 : forall K, K ∈ l2 -> K <> NIL /\ K <> JTwin /\ K <> p0 /\ K ∉ f).
  { intros K HK. rewrite Forall_forall in Hnil2. repeat split.
    - by apply Hnil2.
    - intros ->. done.
    - intros ->. destruct Hp0 as [Hp0|Hp0]; [by apply (Hnil2 _ HK)|by apply (H12 _ Hp0)].
    - intros HKf. apply (Hdisj _ HKf). apply elem_of_app. by right. }
  assert (Hinf : forall K, K ∈ f -> K <> NIL /\ K <> JTwin /\ K <> p0 /\ K <> n0).
  { intros K HK. rewrite Forall_forall in Hnilf. pose proof (Hnilf _ HK) as HKN.
    repeat split; [done|congruence| |].
    - intros ->. destruct Hp0 as [Hp0|Hp0]; [done|]. apply (Hdisj _ HK).
      apply elem_of_app. by left.
    - intros ->. destruct Hn0 as [Hn0|Hn0]; [done|]. apply (Hdisj _ HK).
      apply elem_of_app. by right. }
  (* the state, stage by stage *)
  unfold g'. rewrite backArc_form. cbv zeta. fold JTwin A. rewrite Hp, Hn.
  destruct (backArc_unlinked_effect g J p0 n0) as (N4 & P4 & Nb4 & V4). fold A in V4.
  set (g4 := backArc_unlinked g J p0 n0) in *.
  assert (He : gp_GetVertexFwdArcList g4 A = gp_GetVertexFwdArcList g A).
  { unfold gp_GetVertexFwdArcList. rewrite V4. by rewrite decide_True. }
  rewrite He. set (e := gp_GetVertexFwdArcList g A) in *.
  set (t := gp_GetPrevArc g4 e).
  destruct (backArc_listed_effect g4 A JTwin e t) as (N5 & P5 & Nb5 & V5).
  set (g5 := backArc_listed g4 A JTwin e t) in *.
  set (idx := gp_GetVertexIndex g5 A).
  set (g6 := if bool_decide (idx < gp_GetVertexLeastAncestor g5 u)
             then gp_SetVertexLeastAncestor g5 u idx else g5).
  assert (N6 : forall K, gp_GetNextArc g6 K = gp_GetNextArc g5 K).
  { intros K. unfold g6. by destruct (bool_decide _). }
  assert (P6 : forall K, gp_GetPrevArc g6 K = gp_GetPrevArc g5 K).
  { intros K. unfold g6. by destruct (bool_decide _). }
  assert (Nb6 : forall K, gp_GetNeighbor g6 K = gp_GetNeighbor g K).
  { intros K. rewrite <- Nb4, <- Nb5. unfold g6. by destruct (bool_decide _). }
  assert (V6 : forall v, V g6 !!! v =
            if decide (u = v)
            then set_leastAncestor (Z.min (leastAncestor (V g5 !!! u)) idx) (V g5 !!! u)
            else V g5 !!! v).
  { intros v. unfold g6. destruct (bool_decide _) eqn:Hlt.
    - apply bool_decide_eq_true_1 in Hlt. unfold gp_GetVertexLeastAncestor in Hlt.
      unfold gp_SetVertexLeastAncestor. rewrite V_upd_vertex.
      destruct (decide (u = v)); [|reflexivity]. by rewrite Z.min_r by lia.
    - apply bool_decide_eq_false_1 in Hlt. unfold gp_GetVertexLeastAncestor in Hlt.
      destruct (decide (u = v)) as [->|]; [|reflexivity].
      rewrite Z.min_l by lia. by destruct (V g5 !!! v). }
  (* the vertex fields *)
  assert (F5 : forall v, index (V g5 !!! v) = index (V g !!! v) /\
                         leastAncestor (V g5 !!! v) = leastAncestor (V g !!! v)).
  { intros v. rewrite V5, !V4. decide_goal; destruct_and?; try subst v; try done. }
  assert (F6 : forall v, index (V g6 !!! v) = index (V g !!! v)).
  { intros v. rewrite V6. decide_goal; try subst v; cbn; apply F5. }
  assert (L6 : vlink0 (V g6 !!! A) = (if decide (p0 = NIL) then n0 else vlink0 (V g !!! A)) /\
               vlink1 (V g6 !!! A) = (if decide (n0 = NIL) then p0 else vlink1 (V g !!! A)) /\
               fwdArcList (V g6 !!! A) = if decide (e = NIL) then JTwin else e).
  { rewrite V6, !V5, !V4. unfold e, gp_GetVertexFwdArcList.
    decide_goal; repeat split; try reflexivity; try tauto; try congruence. }
  destruct L6 as (L60 & L61 & L6f).
  (* the head and the tail of the forward list *)
  assert (Hf : (f = [] /\ e = NIL) \/
               (exists tl, e <> NIL /\ Some e = head f /\ Some tl = last f /\ t = tl /\
                           arc_links g tl f e)).
  { destruct f as [|h rest]; [by left|right]. destruct Hshape as [Hh Hlinks].
    apply Forall_cons in Hnilf as Hh'. destruct Hh' as [HhN _].
    destruct (last (h :: rest)) as [tl|] eqn:Hla; [|by apply last_None in Hla].
    exists tl. simpl in Hlinks. destruct Hlinks as (Hprev & Hlinks).
    assert (Ht : t = tl).
    { unfold t. rewrite P4 by congruence. rewrite decide_False; [by rewrite Hh|].
      destruct (Hinf e) as (_ & _ & _ & Hne); [rewrite Hh; by left|congruence]. }
    split; [congruence|]. split; [by rewrite Hh|]. split; [done|]. split; [exact Ht|].
    rewrite Hh. cbn [arc_links]. split; [exact Hprev|exact Hlinks]. }
  split; [|split; [|split]].
  - (* the adjacency list without JTwin *)
    unfold adjacency_list, gp_AdjacencyListEndMark, gp_GetFirstArc, gp_GetLastArc.
    rewrite L60, L61. split; [|split; [|split; [|split]]].
    + unfold gp_GetFirstArc in Hfirst. rewrite Hfirst. unfold p0, n0.
      destruct l1 as [|a l1]; [reflexivity|]. rewrite decide_False; [reflexivity|].
      destruct (last (a :: l1)) as [x|] eqn:Hla; [|by apply last_None in Hla].
      simpl. apply last_Some_elem_of in Hla. by apply Hin1.
    + unfold gp_GetLastArc in Hlast. rewrite Hlast. unfold p0, n0.
      destruct l2 as [|b l2].
      * rewrite decide_True by reflexivity. by rewrite app_nil_r.
      * rewrite decide_False by (apply (Hin2 b); by left).
        by rewrite !last_app_cons, last_cons_cons.
    + apply arc_links_app. fold p0 n0. split.
      * apply (arc_links_relink g g6 l1 NIL JTwin NIL n0 Hl1 Hnd1).
        -- intros K HK. destruct (Hin1 K HK) as (HKN & HKJ & HKn & HKf).
           rewrite P6, P5. rewrite decide_False.
           2:{ intros [_ ->]. destruct Hf as [[_ Hf]|(tl & _ & Hf & _)]; [done|].
               apply HKf. symmetry in Hf. by apply head_Some_elem_of. }
           rewrite decide_False by congruence. rewrite P4 by done.
           rewrite decide_False by congruence.
           destruct (decide (Some K = head l1)) as [Hh|]; [|reflexivity].
           symmetry in Hh. apply (arc_links_head g l1 NIL JTwin K Hl1 Hh).
        -- intros K HK. destruct (Hin1 K HK) as (HKN & HKJ & HKn & HKf).
           rewrite N6, N5. rewrite decide_False.
           2:{ intros [HeN Ht]. destruct Hf as [[_ Hf]|(tl & _ & _ & Hf & Htl & _)]; [done|].
               apply HKf. rewrite <- Ht, Htl. symmetry in Hf. by apply last_Some_elem_of. }
           rewrite decide_False by congruence. rewrite N4 by done.
           pose proof (default_last_eq l1 NIL K Hnil1 HKN) as Hd. fold p0 in Hd.
           decide_goal; tauto.
      * apply (arc_links_relink g g6 l2 JTwin NIL p0 NIL Hl2 Hnd2).
        -- intros K HK. destruct (Hin2 K HK) as (HKN & HKJ & HKp & HKf).
           rewrite P6, P5. rewrite decide_False.
           2:{ intros [_ ->]. destruct Hf as [[_ Hf]|(tl & _ & Hf & _)]; [done|].
               apply HKf. symmetry in Hf. by apply head_Some_elem_of. }
           rewrite decide_False by congruence. rewrite P4 by done.
           pose proof (hd_eq_head l2 NIL K HKN) as Hd. fold n0 in Hd.
           decide_goal; tauto.
        -- intros K HK. destruct (Hin2 K HK) as (HKN & HKJ & HKp & HKf).
           rewrite N6, N5. rewrite decide_False.
           2:{ intros [HeN Ht]. destruct Hf as [[_ Hf]|(tl & _ & _ & Hf & Htl & _)]; [done|].
               apply HKf. rewrite <- Ht, Htl. symmetry in Hf. by apply last_Some_elem_of. }
           rewrite decide_False by congruence. rewrite N4 by done.
           rewrite decide_False by congruence.
           destruct (decide (Some K = last l2)) as [Hh|]; [|reflexivity].
           symmetry in Hh. apply (arc_links_last g l2 JTwin NIL K Hl2 Hh).
    + apply NoDup_app. repeat split; auto.
    + apply Forall_app. by split.
  - (* the forward list with JTwin at its end *)
    unfold fwd_list, gp_GetVertexFwdArcList. rewrite L6f. split; [|split].
    + destruct Hf as [[-> HeN]|(tl & HeN & Hhd & Hla & Htl & Hlinks)].
      * rewrite decide_True by done. cbn [app last default from_option id arc_links hd].
        split; [reflexivity|]. rewrite P6, P5, N6, N5.
        rewrite (decide_False (P := e <> NIL /\ e = JTwin)) by tauto.
        rewrite (decide_False (P := e <> NIL /\ t = JTwin)) by tauto.
        rewrite !decide_True by done. done.
      * destruct f as [|h rest]; [done|]. injection Hhd as Hhd.
        rewrite decide_False by done. cbn [app]. split; [exact Hhd|].
        change (h :: rest ++ [JTwin]) with ((h :: rest) ++ [JTwin]).
        rewrite last_snoc. cbn [default from_option id].
        apply arc_links_app. rewrite <- Hla. cbn [hd default from_option id].
        split.
        -- apply (arc_links_relink g g6 (h :: rest) tl e JTwin JTwin Hlinks Hndf).
           ++ intros K HK. destruct (Hinf K HK) as (HKN & HKJ & HKp & HKn).
              rewrite P6, P5. cbn [head]. rewrite Hhd.
              destruct (decide (Some K = Some h)) as [[= ->]|Hne].
              ** rewrite decide_True; [reflexivity|]. by rewrite <- Hhd.
              ** rewrite decide_False by (intros [_ He']; congruence).
                 rewrite decide_False by congruence. rewrite P4 by done.
                 by rewrite decide_False by congruence.
           ++ intros K HK. destruct (Hinf K HK) as (HKN & HKJ & HKp & HKn).
              rewrite N6, N5. rewrite <- Hla.
              destruct (decide (Some K = Some tl)) as [[= ->]|Hne].
              ** rewrite decide_True; [reflexivity|]. by split.
              ** rewrite decide_False by (intros [_ He']; congruence).
                 rewrite decide_False by congruence. rewrite N4 by done.
                 by rewrite decide_False by congruence.
        -- cbn [arc_links hd]. rewrite P6, P5, N6, N5.
           assert (tl ∈ h :: rest) as Htlf by (symmetry in Hla; by apply last_Some_elem_of).
           rewrite (decide_False (P := e <> NIL /\ t = JTwin)) by (intros [_ Ht]; congruence).
           rewrite (decide_False (P := e <> NIL /\ e = JTwin)).
           2:{ intros [_ He']. apply HJf. rewrite <- He', Hhd. by left. }
           decide_goal; try tauto; try congruence; auto.
    + apply NoDup_app. repeat split; [done| |apply NoDup_singleton].
      intros x Hx ->%list_elem_of_singleton. done.
    + apply Forall_app. split; [done|]. by apply Forall_singleton.
  - (* the least ancestor *)
    unfold gp_GetVertexLeastAncestor, gp_GetVertexIndex. rewrite V6.
    rewrite decide_True by done. cbn. unfold idx, gp_GetVertexIndex.
    destruct (F5 u) as [_ ->]. destruct (F5 A) as [-> _]. reflexivity.
  - (* the order of the forward list *)
    intros HJu Hord Hle. unfold descendant_order in *.
    assert (Hsame : forall l : list Z, descendant_DFI g6 <$> l = descendant_DFI g <$> l).
    { intros l. apply list_fmap_ext. intros i a _. unfold descendant_DFI, gp_GetVertexIndex.
      by rewrite Nb6, F6. }
    rewrite Hsame, fmap_app. apply ascending_snoc; [exact Hord|].
    apply Forall_fmap. eapply Forall_impl; [exact Hle|]. intros a Ha.
    change (descendant_DFI g a <= gp_GetVertexIndex g (gp_GetNeighbor g JTwin)).
    by rewrite HJu.
Qed.

(** The kite when the DFS scan of the vertex 3 is at the arc 9: the arc
    leads to the visited vertex 0, whose adjacency list holds the twin 8
    and whose fwdArcList holds the forward arc 6 to the vertex 2. *)
Lemma kite_numbered3_lists :
  adjacency_list kite_numbered3 0 ([] ++ 8 :: [0]) /\ fwd_list kite_numbered3 0 [6].
Proof.
  split.
  - repeat split; try (vm_compute; reflexivity).
    + apply NoDup_cons. split; [|apply NoDup_singleton].
      intros Hin%list_elem_of_singleton. discriminate.
    + by repeat constructor.
  - repeat split; try (vm_compute; reflexivity).
    + apply NoDup_singleton.
    + by repeat constructor.
Qed.

(** C2 fails as the spec states it: on the kite, the scan of the vertex 3
    finds the arc 9 to the visited vertex 0, which is not the parent of 3;
    the fwdArcList of 0 holds the forward arc 6 to the vertex 2, of DFI 2.
    The step leaves the list with its head 6 and the twin 8 of the arc 9,
    which leads to the vertex 3 of DFI 3, after it: the twin is not the
    new head of the list. *)
Lemma backArc_not_prepended_on_kite :
  let g := kite_numbered3 in
  let g' := EmbeddingInitialize_scanArc g 3 9 in
  gp_GetNextArc g (gp_GetFirstArc g 3) = 9 /\
  gp_GetVertexVisited g (gp_GetNeighbor g 9) = true /\
  gp_GetEdgeType g 9 <> EDGE_TYPE_PARENT /\
  gp_GetTwinArc g 9 = 8 /\
  fwd_list g 0 [6] /\
  gp_GetEdgeType g' 9 = EDGE_TYPE_BACK /\
  gp_GetEdgeType g' 8 = EDGE_TYPE_FORWARD /\
  fwd_list g' 0 [6; 8] /\
  descendant_DFI g' <$> [6; 8] = [2; 3] /\
  ~ fwd_list g' 0 [8; 6] /\
  fwd_list (example_initialized kite) 0 [6; 8].
Proof.
  cbv zeta.
  split; [vm_compute; reflexivity|]. split; [vm_compute; reflexivity|].
  split; [vm_compute; discriminate|]. split; [vm_compute; reflexivity|].
  split; [apply kite_numbered3_lists|].
  split; [vm_compute; reflexivity|]. split; [vm_compute; reflexivity|].
  assert (Hnd : NoDup [6; 8]).
  { apply NoDup_cons. split; [|apply NoDup_singleton].
    intros Hin%list_elem_of_singleton. discriminate. }
  split; [|split; [vm_compute; reflexivity|split]].
  - repeat split; try (vm_compute; reflexivity); [exact Hnd|by repeat constructor].
  - intros [[Hhead _] _]. vm_compute in Hhead. discriminate.
  - repeat split; try (vm_compute; reflexivity); [exact Hnd|by repeat constructor].
Qed.

Lemma EmbeddingInitialize_backArc_appends_witness :
  let g := kite_numbered3 in
  let g' := EmbeddingInitialize_backArc g 3 9 in
  EmbeddingInitialize_scanArc g 3 9 = g' /\
  gp_GetEdgeType g' 9 = EDGE_TYPE_BACK /\
  gp_GetEdgeType g' 8 = EDGE_TYPE_FORWARD /\
  adjacency_list g' 0 [0] /\
  fwd_list g' 0 [6; 8] /\
  gp_GetVertexLeastAncestor g' 3 = Z.min (gp_GetVertexLeastAncestor g 3) 0 /\
  descendant_order g' [6; 8].
Proof.
  destruct (EmbeddingInitialize_backArc_appends kite_numbered3 3 9 [] [0] [6])
    as (Hscan & Hback & Hfwd & Hadj & Hlist & Hla & Hord).
  - apply kite_numbered3_lists.
  - apply kite_numbered3_lists.
  - intros Hin%list_elem_of_singleton. vm_compute in Hin. discriminate.
  - intros a ->%list_elem_of_singleton Hin%list_elem_of_singleton. discriminate.
  - cbv zeta. split; [apply Hscan; [vm_compute; reflexivity|vm_compute; discriminate]|].
    split; [exact Hback|]. split; [exact Hfwd|]. split; [exact Hadj|].
    split; [exact Hlist|]. split; [exact Hla|].
    apply Hord.
    + vm_compute. reflexivity.
    + vm_compute. auto.
    + repeat constructor. vm_compute. discriminate.
Defined.

(** ** The frame of the Walkdown *)

Lemma vertex_kept_refl r : vertex_kept r r.
Proof. repeat split. Qed.

Lemma vertex_kept_trans r1 r2 r3 : vertex_kept r1 r2 -> vertex_kept r2 r3 -> vertex_kept r1 r3.
Proof. unfold vertex_kept. intros; destruct_and!; repeat split; congruence. Qed.

Lemma walk_frame_refl Emb g : walk_frame Emb g g.
Proof. repeat split; auto. intros v. left. apply vertex_kept_refl. Qed.

Lemma walk_state_start D Emb g :
  links_closed g D Emb -> bicomp_lists_bounded g -> walk_state D Emb g g.
Proof. intros H1 H2. split; [exact H1|]. split; [exact H2|apply walk_frame_refl]. Qed.

Lemma walk_state_upd_arc D Emb g0 g e F :
  walk_state D Emb g0 g -> Emb e ->
  (D e -> Emb (alink0 (F (E g !!! e))) /\ Emb (alink1 (F (E g !!! e)))) ->
  walk_state D Emb g0 (upd_arc e F g).
Proof.
  intros ((HN & Hv & Ha) & Hb & (Hg & Hs & Hk & He)) Hin HD.
  split; [|split].
  - split; [exact HN|]. split; [exact Hv|]. intros a Da.
    unfold gp_GetNextArc, gp_GetPrevArc. rewrite E_upd_arc.
    destruct (decide (e = a)) as [->|]; [by apply HD|by apply Ha].
  - exact Hb.
  - split; [exact Hg|]. split; [exact Hs|]. split; [exact Hk|].
    intros a Hna. rewrite E_upd_arc. destruct (decide (e = a)) as [->|]; [done|by apply He].
Qed.

Lemma walk_state_upd_vertex D Emb g0 g v F :
  walk_state D Emb g0 g ->
  Emb (vlink0 (F (V g !!! v))) -> Emb (vlink1 (F (V g !!! v))) ->
  NIL <= pertinentBicompList (F (V g !!! v)) ->
  vertex_kept (V g !!! v) (F (V g !!! v)) ->
  walk_state D Emb g0 (upd_vertex v F g).
Proof.
  intros ((HN & Hv & Ha) & (Hb1 & Hb2) & (Hg & Hs & Hk & He)) H0 H1 Hp Hkept.
  split; [|split].
  - split; [exact HN|]. split; [|exact Ha]. intros u.
    unfold gp_GetFirstArc, gp_GetLastArc. rewrite V_upd_vertex.
    destruct (decide (v = u)) as [->|]; [by split|apply Hv].
  - split; [|exact Hb2]. intros u. unfold gp_GetVertexPertinentBicompList.
    rewrite V_upd_vertex. destruct (decide (v = u)) as [->|]; [exact Hp|apply Hb1].
  - split; [exact Hg|]. split; [exact Hs|]. split; [|exact He].
    intros u. rewrite V_upd_vertex. destruct (decide (v = u)) as [->|]; [|apply Hk].
    destruct (Hk u) as [Hku|[Hu Hnil]].
    + left. by eapply vertex_kept_trans.
    + right. split; [exact Hu|]. destruct Hkept as (_ & _ & -> & _). exact Hnil.
Qed.

Lemma walk_state_reset D Emb g0 g R :
  walk_state D Emb g0 g -> gN g0 <= R -> walk_state D Emb g0 (_InitVertexRec g R).
Proof.
  intros ((HN & Hv & Ha) & (Hb1 & Hb2) & (Hg & Hs & Hk & He)) HR.
  unfold _InitVertexRec. split; [|split].
  - split; [exact HN|]. split; [|exact Ha]. intros u.
    unfold gp_GetFirstArc, gp_GetLastArc. rewrite V_upd_vertex.
    destruct (decide (R = u)) as [->|]; [by split|apply Hv].
  - split; [|exact Hb2]. intros u. unfold gp_GetVertexPertinentBicompList.
    rewrite V_upd_vertex. destruct (decide (R = u)) as [->|]; [done|apply Hb1].
  - split; [exact Hg|]. split; [exact Hs|]. split; [|exact He].
    intros u. rewrite V_upd_vertex. destruct (decide (R = u)) as [->|]; [|apply Hk].
    right. by split.
Qed.

Lemma walk_state_other D Emb g0 g g' :
  walk_state D Emb g0 g ->
  V g' = V g -> E g' = E g -> gN g' = gN g ->
  sortedDFSChildLists g' = sortedDFSChildLists g ->
  (forall k, NIL <= lc_next (BicompLists g' !!! k)) ->
  walk_state D Emb g0 g'.
Proof.
  intros ((HN & Hv & Ha) & (Hb1 & Hb2) & (Hg & Hs & Hk & He)) HV HE HgN Hsl Hbl.
  unfold walk_state, links_closed, bicomp_lists_bounded, walk_frame,
    gp_GetFirstArc, gp_GetLastArc, gp_GetNextArc, gp_GetPrevArc,
    gp_GetVertexPertinentBicompList in *.
  rewrite HV, HE, HgN, Hsl. repeat split; auto; try apply Hv; try apply Ha; auto.
Qed.

Lemma walk_state_stack D Emb g0 g s :
  walk_state D Emb g0 g -> walk_state D Emb g0 (with_theStack s g).
Proof. intros H. apply (walk_state_other _ _ _ g); auto. apply H. Qed.

Lemma walk_state_DFSChildLists D Emb g0 g lc :
  walk_state D Emb g0 g -> walk_state D Emb g0 (with_DFSChildLists lc g).
Proof. intros H. apply (walk_state_other _ _ _ g); auto. apply H. Qed.

Lemma walk_state_BicompLists D Emb g0 g lc :
  walk_state D Emb g0 g -> (forall k, NIL <= lc_next (lc !!! k)) ->
  walk_state D Emb g0 (with_BicompLists lc g).
Proof. intros H Hlc. apply (walk_state_other _ _ _ g); auto. Qed.

(** What the links of a closed state are. *)
Lemma walk_state_NIL D Emb g0 g : walk_state D Emb g0 g -> Emb NIL.
Proof. intros H. apply H. Qed.

Lemma walk_state_GetArc D Emb g0 g v link :
  walk_state D Emb g0 g -> Emb (gp_GetArc g v link).
Proof.
  intros ((_ & Hv & _) & _). unfold gp_GetArc. destruct (bool_decide _); apply Hv.
Qed.

Lemma walk_state_GetFirstArc D Emb g0 g v :
  walk_state D Emb g0 g -> Emb (gp_GetFirstArc g v).
Proof. intros ((_ & Hv & _) & _). apply Hv. Qed.

Lemma walk_state_GetLastArc D Emb g0 g v :
  walk_state D Emb g0 g -> Emb (gp_GetLastArc g v).
Proof. intros ((_ & Hv & _) & _). apply Hv. Qed.

Lemma walk_state_GetNextArc D Emb g0 g a :
  walk_state D Emb g0 g -> D a -> Emb (gp_GetNextArc g a).
Proof. intros ((_ & _ & Ha) & _) Da. by apply Ha. Qed.

Lemma walk_state_GetPrevArc D Emb g0 g a :
  walk_state D Emb g0 g -> D a -> Emb (gp_GetPrevArc g a).
Proof. intros ((_ & _ & Ha) & _) Da. by apply Ha. Qed.

(** The setters of the Walkdown within the frame. *)
Lemma walk_state_SetNextArc D Emb g0 g e x :
  walk_state D Emb g0 g -> Emb e -> Emb x -> walk_state D Emb g0 (gp_SetNextArc g e x).
Proof.
  intros H He Hx. apply walk_state_upd_arc; [exact H|exact He|].
  intros Da. split; [exact Hx|]. destruct (E g !!! e) eqn:Hr. cbn.
  pose proof (walk_state_GetPrevArc _ _ _ _ e H Da) as Hp.
  unfold gp_GetPrevArc in Hp. by rewrite Hr in Hp.
Qed.

Lemma walk_state_SetPrevArc D Emb g0 g e x :
  walk_state D Emb g0 g -> Emb e -> Emb x -> walk_state D Emb g0 (gp_SetPrevArc g e x).
Proof.
  intros H He Hx. apply walk_state_upd_arc; [exact H|exact He|].
  intros Da. split; [|exact Hx]. destruct (E g !!! e) eqn:Hr. cbn.
  pose proof (walk_state_GetNextArc _ _ _ _ e H Da) as Hp.
  unfold gp_GetNextArc in Hp. by rewrite Hr in Hp.
Qed.

Lemma walk_state_SetAdjacentArc D Emb g0 g e link x :
  walk_state D Emb g0 g -> Emb e -> Emb x ->
  walk_state D Emb g0 (gp_SetAdjacentArc g e link x).
Proof.
  intros H He Hx. unfold gp_SetAdjacentArc.
  destruct (bool_decide _); [by apply walk_state_SetNextArc|by apply walk_state_SetPrevArc].
Qed.

Lemma walk_state_arc_data D Emb g0 g e F :
  walk_state D Emb g0 g -> Emb e ->
  (forall r, alink0 (F r) = alink0 r /\ alink1 (F r) = alink1 r) ->
  walk_state D Emb g0 (upd_arc e F g).
Proof.
  intros H He HF. apply walk_state_upd_arc; [exact H|exact He|].
  intros Da. destruct (HF (E g !!! e)) as [-> ->].
  split; [by apply (walk_state_GetNextArc _ _ _ _ e H)|by apply (walk_state_GetPrevArc _ _ _ _ e H)].
Qed.

Lemma walk_state_SetNeighbor D Emb g0 g e v :
  walk_state D Emb g0 g -> Emb e -> walk_state D Emb g0 (gp_SetNeighbor g e v).
Proof. intros H He. apply walk_state_arc_data; [exact H|exact He|]. by intros []. Qed.

Lemma walk_state_XorEdgeFlagInverted D Emb g0 g e :
  walk_state D Emb g0 g -> Emb e -> walk_state D Emb g0 (gp_XorEdgeFlagInverted g e).
Proof. intros H He. apply walk_state_arc_data; [exact H|exact He|]. by intros []. Qed.

Lemma walk_state_vertex_data D Emb g0 g v F :
  walk_state D Emb g0 g ->
  (forall r, vlink0 (F r) = vlink0 r /\ vlink1 (F r) = vlink1 r /\
             pertinentBicompList (F r) = pertinentBicompList r /\ vertex_kept r (F r)) ->
  walk_state D Emb g0 (upd_vertex v F g).
Proof.
  intros H HF. destruct (HF (V g !!! v)) as (H0 & H1 & Hp & Hk).
  apply walk_state_upd_vertex; [exact H| | | |exact Hk].
  - rewrite H0. apply (walk_state_GetFirstArc _ _ _ _ v H).
  - rewrite H1. apply (walk_state_GetLastArc _ _ _ _ v H).
  - rewrite Hp. apply H.
Qed.

Lemma walk_state_SetExtFaceVertex D Emb g0 g v link x :
  walk_state D Emb g0 g -> walk_state D Emb g0 (gp_SetExtFaceVertex g v link x).
Proof.
  intros H. unfold gp_SetExtFaceVertex.
  destruct (bool_decide _); apply walk_state_vertex_data; try exact H; by intros [].
Qed.

Lemma walk_state_SetExtFaceInversionFlag D Emb g0 g v :
  walk_state D Emb g0 g -> walk_state D Emb g0 (gp_SetExtFaceInversionFlag g v).
Proof. intros H. apply walk_state_vertex_data; [exact H|]. by intros []. Qed.

Lemma walk_state_ClearExtFaceInversionFlag D Emb g0 g v :
  walk_state D Emb g0 g -> walk_state D Emb g0 (gp_ClearExtFaceInversionFlag g v).
Proof. intros H. apply walk_state_vertex_data; [exact H|]. by intros []. Qed.

Lemma walk_state_SetVertexSeparatedDFSChildList D Emb g0 g v x :
  walk_state D Emb g0 g -> walk_state D Emb g0 (gp_SetVertexSeparatedDFSChildList g v x).
Proof. intros H. apply walk_state_vertex_data; [exact H|]. by intros []. Qed.

Lemma walk_state_SetVertexPertinentBicompList D Emb g0 g v x :
  walk_state D Emb g0 g -> NIL <= x ->
  walk_state D Emb g0 (gp_SetVertexPertinentBicompList g v x).
Proof.
  intros H Hx. apply walk_state_upd_vertex; try (destruct (V g !!! v) eqn:Hr; cbn).
  - exact H.
  - pose proof (walk_state_GetFirstArc _ _ _ _ v H) as Hf. unfold gp_GetFirstArc in Hf.
    by rewrite Hr in Hf.
  - pose proof (walk_state_GetLastArc _ _ _ _ v H) as Hf. unfold gp_GetLastArc in Hf.
    by rewrite Hr in Hf.
  - exact Hx.
  - repeat split.
Qed.

Lemma walk_state_SetArc D Emb g0 g v link x :
  walk_state D Emb g0 g -> Emb x -> walk_state D Emb g0 (gp_SetArc g v link x).
Proof.
  intros H Hx. unfold gp_SetArc, gp_SetFirstArc, gp_SetLastArc.
  pose proof (walk_state_GetFirstArc _ _ _ _ v H) as Hf. unfold gp_GetFirstArc in Hf.
  pose proof (walk_state_GetLastArc _ _ _ _ v H) as Hl. unfold gp_GetLastArc in Hl.
  assert (Hp : NIL <= pertinentBicompList (V g !!! v)) by apply H.
  destruct (bool_decide _); apply walk_state_upd_vertex; try exact H;
    destruct (V g !!! v); cbn in *; auto; repeat split.
Qed.

Lemma walk_state_SetFirstArc D Emb g0 g v x :
  walk_state D Emb g0 g -> Emb x -> walk_state D Emb g0 (gp_SetFirstArc g v x).
Proof. intros H Hx. apply (walk_state_SetArc _ _ _ _ v 0 x H Hx). Qed.

Lemma walk_state_SetLastArc D Emb g0 g v x :
  walk_state D Emb g0 g -> Emb x -> walk_state D Emb g0 (gp_SetLastArc g v x).
Proof. intros H Hx. apply (walk_state_SetArc _ _ _ _ v 1 x H Hx). Qed.

(** ** The merge of bicomps within the frame *)

Section Merging.

Variable Emb : Z -> Prop.
Variable g0 : Graph.
Hypothesis Htwin : twin_closed Emb.

Lemma InvertVertex_arcs_walk_state fuel : forall g J g',
  walk_state Emb Emb g0 g -> Emb J ->
  InvertVertex_arcs fuel g J = Some g' -> walk_state Emb Emb g0 g'.
Proof.
  induction fuel as [|fuel IH]; intros g J g' H HJ Hrun; cbn [InvertVertex_arcs] in Hrun.
  - destruct (gp_IsArc g J); [discriminate|]. by injection Hrun as <-.
  - destruct (gp_IsArc g J); [|by injection Hrun as <-].
    pose proof (walk_state_GetNextArc _ _ _ _ J H HJ) as Hn.
    pose proof (walk_state_GetPrevArc _ _ _ _ J H HJ) as Hp.
    eapply IH; [|exact Hn|exact Hrun].
    apply walk_state_SetPrevArc; [|exact HJ|exact Hn].
    apply walk_state_SetNextArc; [exact H|exact HJ|exact Hp].
Qed.

Lemma InvertVertex_walk_state fuel g v g' :
  walk_state Emb Emb g0 g -> _InvertVertex fuel g v = Some g' -> walk_state Emb Emb g0 g'.
Proof.
  intros H Hrun. unfold _InvertVertex in Hrun.
  destruct (InvertVertex_arcs fuel g (gp_GetFirstArc g v)) as [g1|] eqn:Harcs; [|discriminate].
  cbn [mbind option_bind] in Hrun. injection Hrun as <-.
  assert (H1 : walk_state Emb Emb g0 g1).
  { eapply InvertVertex_arcs_walk_state; [exact H| |exact Harcs].
    apply (walk_state_GetFirstArc _ _ _ _ v H). }
  apply walk_state_SetExtFaceVertex, walk_state_SetExtFaceVertex.
  apply walk_state_SetLastArc.
  - apply walk_state_SetFirstArc; [exact H1|apply (walk_state_GetLastArc _ _ _ _ v H1)].
  - apply (walk_state_GetFirstArc _ _ _ _ v H1).
Qed.

Lemma MergeVertex_redirect_walk_state fuel W : forall g J g',
  walk_state Emb Emb g0 g -> Emb J ->
  MergeVertex_redirect fuel g W J = Some g' -> walk_state Emb Emb g0 g'.
Proof.
  induction fuel as [|fuel IH]; intros g J g' H HJ Hrun; cbn [MergeVertex_redirect] in Hrun.
  - destruct (gp_IsArc g J); [discriminate|]. by injection Hrun as <-.
  - destruct (gp_IsArc g J) eqn:HJarc; [|by injection Hrun as <-].
    apply bool_decide_eq_true_1 in HJarc.
    assert (H1 : walk_state Emb Emb g0 (gp_SetNeighbor g (gp_GetTwinArc g J) W)).
    { apply walk_state_SetNeighbor; [exact H|]. by apply Htwin. }
    eapply IH; [exact H1| |exact Hrun].
    by apply (walk_state_GetNextArc _ _ _ _ J H1).
Qed.

Lemma MergeVertex_walk_state functions fuel g W WPrevLink R g' :
  fpInitVertexRec functions = _InitVertexRec ->
  walk_state Emb Emb g0 g -> gN g0 <= R ->
  _MergeVertex functions fuel g W WPrevLink R = Some g' -> walk_state Emb Emb g0 g'.
Proof.
  intros Hinit H HR Hrun. unfold _MergeVertex in Hrun.
  destruct (MergeVertex_redirect fuel g W (gp_GetFirstArc g R)) as [g1|] eqn:Hred;
    [|discriminate].
  cbn [mbind option_bind] in Hrun. injection Hrun as <-. rewrite Hinit.
  assert (H1 : walk_state Emb Emb g0 g1).
  { eapply MergeVertex_redirect_walk_state; [exact H| |exact Hred].
    apply (walk_state_GetFirstArc _ _ _ _ R H). }
  pose proof (walk_state_NIL _ _ _ _ H1) as HNIL.
  pose proof (walk_state_GetArc _ _ _ _ W WPrevLink H1) as Hew.
  pose proof (walk_state_GetArc _ _ _ _ R (Z.lxor 1 WPrevLink) H1) as Her.
  pose proof (walk_state_GetArc _ _ _ _ R WPrevLink H1) as Hext.
  apply walk_state_reset; [|exact HR]. unfold gp_AdjacencyListEndMark.
  destruct (gp_IsArc g1 (gp_GetArc g1 W WPrevLink)).
  - apply walk_state_SetAdjacentArc; [|exact Hext|exact HNIL].
    apply walk_state_SetArc; [|exact Hext].
    apply walk_state_SetAdjacentArc; [|exact Her|exact Hew].
    apply walk_state_SetAdjacentArc; [exact H1|exact Hew|exact Her].
  - apply walk_state_SetAdjacentArc; [|exact Hext|exact HNIL].
    apply walk_state_SetArc; [|exact Hext].
    apply walk_state_SetAdjacentArc; [|exact Her|exact HNIL].
    apply walk_state_SetArc; [exact H1|exact Her].
Qed.

Lemma MergeBicomps_signChild_walk_state fuel : forall g J g',
  walk_state Emb Emb g0 g -> Emb J ->
  MergeBicomps_signChild fuel g J = Some g' -> walk_state Emb Emb g0 g'.
Proof.
  induction fuel as [|fuel IH]; intros g J g' H HJ Hrun; cbn [MergeBicomps_signChild] in Hrun.
  - destruct (gp_IsArc g J); [discriminate|]. by injection Hrun as <-.
  - destruct (gp_IsArc g J); [|by injection Hrun as <-].
    destruct (decide (gp_GetEdgeType g J = EDGE_TYPE_CHILD)).
    + injection Hrun as <-. by apply walk_state_XorEdgeFlagInverted.
    + eapply IH; [exact H| |exact Hrun]. by apply (walk_state_GetNextArc _ _ _ _ J H).
Qed.

Lemma MergeBicomps_flip_walk_state fuel g R Rout ZPrevLink Rout' g' :
  walk_state Emb Emb g0 g ->
  MergeBicomps_flip fuel g R Rout ZPrevLink = Some (Rout', g') ->
  walk_state Emb Emb g0 g'.
Proof.
  intros H Hrun. unfold MergeBicomps_flip in Hrun.
  destruct (bool_decide (ZPrevLink = Rout)); [|by injection Hrun as _ <-].
  destruct (bool_decide (gp_GetFirstArc g R <> gp_GetLastArc g R)).
  - destruct (_InvertVertex fuel g R) as [g1|] eqn:Hinv; [|discriminate].
    cbn [mbind option_bind] in Hrun.
    destruct (MergeBicomps_signChild fuel g1 (gp_GetFirstArc g1 R)) as [g2|] eqn:Hsign;
      [|discriminate].
    cbn [mbind option_bind] in Hrun. injection Hrun as _ <-.
    pose proof (InvertVertex_walk_state _ _ _ _ H Hinv) as H1.
    eapply MergeBicomps_signChild_walk_state; [exact H1| |exact Hsign].
    apply (walk_state_GetFirstArc _ _ _ _ R H1).
  - cbn [mbind option_bind] in Hrun.
    destruct (MergeBicomps_signChild fuel g (gp_GetFirstArc g R)) as [g2|] eqn:Hsign;
      [|discriminate].
    cbn [mbind option_bind] in Hrun. injection Hrun as _ <-.
    eapply MergeBicomps_signChild_walk_state; [exact H| |exact Hsign].
    apply (walk_state_GetFirstArc _ _ _ _ R H).
Qed.

Lemma lc_bounded_insert (lc : listCollection) k n :
  (forall k', NIL <= lc_next (lc !!! k')) -> NIL <= lc_next n ->
  forall k', NIL <= lc_next (<[k := n]> lc !!! k').
Proof.
  intros Hlc Hn k'. destruct (decide (k = k')) as [->|Hne].
  - by rewrite lookup_total_insert_eq.
  - rewrite lookup_total_insert_ne by done. apply Hlc.
Qed.

Lemma LCDelete_bounded (lc : listCollection) theList theNode :
  (forall k, NIL <= lc_next (lc !!! k)) -> NIL <= theList ->
  (forall k, NIL <= lc_next ((LCDelete lc theList theNode).1 !!! k)) /\
  NIL <= (LCDelete lc theList theNode).2.
Proof.
  intros Hlc Hl. unfold LCDelete. destruct (bool_decide _); cbv zeta; cbn [fst snd].
  - split; [|done]. by apply lc_bounded_insert.
  - split; [|destruct (bool_decide _); [apply Hlc|exact Hl]].
    apply lc_bounded_insert; [|done].
    assert (Hpred : forall k, NIL <= lc_next
              (<[lc_prev (lc !!! theNode) :=
                   mkLcnode (lc_prev (lc !!! lc_prev (lc !!! theNode)))
                     (lc_next (lc !!! theNode))]> lc !!! k)).
    { apply lc_bounded_insert; [exact Hlc|apply Hlc]. }
    apply lc_bounded_insert; [exact Hpred|apply Hpred].
Qed.

(** The stack through the parts of a merge. *)
Lemma InvertVertex_arcs_stack fuel : forall g J g',
  InvertVertex_arcs fuel g J = Some g' -> theStack g' = theStack g.
Proof.
  induction fuel as [|fuel IH]; intros g J g' Hrun; cbn [InvertVertex_arcs] in Hrun.
  - destruct (gp_IsArc g J); [discriminate|]. by injection Hrun as <-.
  - destruct (gp_IsArc g J); [|by injection Hrun as <-].
    by rewrite (IH _ _ _ Hrun).
Qed.

Lemma InvertVertex_stack fuel g v g' :
  _InvertVertex fuel g v = Some g' -> theStack g' = theStack g.
Proof.
  intros Hrun. unfold _InvertVertex in Hrun.
  destruct (InvertVertex_arcs fuel g (gp_GetFirstArc g v)) as [g1|] eqn:Harcs; [|discriminate].
  cbn [mbind option_bind] in Hrun. injection Hrun as <-.
  rewrite <- (InvertVertex_arcs_stack _ _ _ _ Harcs).
  unfold gp_SetExtFaceVertex. repeat destruct (bool_decide _); reflexivity.
Qed.

Lemma MergeVertex_redirect_stack fuel W : forall g J g',
  MergeVertex_redirect fuel g W J = Some g' -> theStack g' = theStack g.
Proof.
  induction fuel as [|fuel IH]; intros g J g' Hrun; cbn [MergeVertex_redirect] in Hrun.
  - destruct (gp_IsArc g J); [discriminate|]. by injection Hrun as <-.
  - destruct (gp_IsArc g J); [|by injection Hrun as <-].
    by rewrite (IH _ _ _ Hrun).
Qed.

Lemma MergeVertex_stack functions fuel g W WPrevLink R g' :
  fpInitVertexRec functions = _InitVertexRec ->
  _MergeVertex functions fuel g W WPrevLink R = Some g' -> theStack g' = theStack g.
Proof.
  intros Hinit Hrun. unfold _MergeVertex in Hrun.
  destruct (MergeVertex_redirect fuel g W (gp_GetFirstArc g R)) as [g1|] eqn:Hred;
    [|discriminate].
  cbn [mbind option_bind] in Hrun. injection Hrun as <-. rewrite Hinit.
  rewrite <- (MergeVertex_redirect_stack _ _ _ _ _ Hred).
  unfold gp_SetAdjacentArc, gp_SetArc. repeat destruct (bool_decide _);
    destruct (gp_IsArc _ _); reflexivity.
Qed.

Lemma MergeBicomps_signChild_stack fuel : forall g J g',
  MergeBicomps_signChild fuel g J = Some g' -> theStack g' = theStack g.
Proof.
  induction fuel as [|fuel IH]; intros g J g' Hrun; cbn [MergeBicomps_signChild] in Hrun.
  - destruct (gp_IsArc g J); [discriminate|]. by injection Hrun as <-.
  - destruct (gp_IsArc g J); [|by injection Hrun as <-].
    destruct (decide (gp_GetEdgeType g J = EDGE_TYPE_CHILD)).
    + by injection Hrun as <-.
    + by apply (IH _ _ _ Hrun).
Qed.

Lemma MergeBicomps_flip_stack fuel g R Rout ZPrevLink Rout' g' :
  MergeBicomps_flip fuel g R Rout ZPrevLink = Some (Rout', g') -> theStack g' = theStack g.
Proof.
  intros Hrun. unfold MergeBicomps_flip in Hrun.
  destruct (bool_decide (ZPrevLink = Rout)); [|by injection Hrun as _ <-].
  destruct (bool_decide (gp_GetFirstArc g R <> gp_GetLastArc g R)).
  - destruct (_InvertVertex fuel g R) as [g1|] eqn:Hinv; [|discriminate].
    cbn [mbind option_bind] in Hrun.
    destruct (MergeBicomps_signChild fuel g1 (gp_GetFirstArc g1 R)) as [g2|] eqn:Hsign;
      [|discriminate].
    cbn [mbind option_bind] in Hrun. injection Hrun as _ <-.
    rewrite (MergeBicomps_signChild_stack _ _ _ _ Hsign). by apply InvertVertex_stack in Hinv.
  - cbn [mbind option_bind] in Hrun.
    destruct (MergeBicomps_signChild fuel g (gp_GetFirstArc g R)) as [g2|] eqn:Hsign;
      [|discriminate].
    cbn [mbind option_bind] in Hrun. injection Hrun as _ <-.
    by apply MergeBicomps_signChild_stack in Hsign.
Qed.

Lemma MergeBicomps_pair_walk_state functions fuel g Rout R ZPrevLink Zv rest g' :
  fpInitVertexRec functions = _InitVertexRec ->
  walk_state Emb Emb g0 g ->
  stack_items (theStack g) = Rout :: R :: ZPrevLink :: Zv :: rest -> gN g0 <= R ->
  MergeBicomps_pair functions fuel g = Some g' ->
  walk_state Emb Emb g0 g' /\ stack_items (theStack g') = rest.
Proof.
  intros Hinit H Hst HR Hrun. unfold MergeBicomps_pair in Hrun.
  unfold sp_Pop2, sp_Pop in Hrun. rewrite Hst in Hrun. cbn [stack_items] in Hrun.
  cbv zeta in Hrun.
  match type of Hrun with
  | context [MergeBicomps_flip fuel ?g1 R Rout ZPrevLink] => set (gx := g1) in *
  end.
  assert (Hx : walk_state Emb Emb g0 gx).
  { unfold gx. destruct (bool_decide _);
      apply walk_state_SetExtFaceVertex, walk_state_SetExtFaceVertex, walk_state_stack, H. }
  assert (Hsx : stack_items (theStack gx) = rest).
  { unfold gx, gp_SetExtFaceVertex. repeat destruct (bool_decide _); reflexivity. }
  destruct (MergeBicomps_flip fuel gx R Rout ZPrevLink) as [[Rout' g1]|] eqn:Hflip;
    [|discriminate].
  cbn [mbind option_bind] in Hrun.
  pose proof (MergeBicomps_flip_walk_state _ _ _ _ _ _ _ Hx Hflip) as H1.
  pose proof (MergeBicomps_flip_stack _ _ _ _ _ _ _ Hflip) as Hs1. rewrite <- Hs1 in Hsx.
  destruct (LCDelete_bounded (BicompLists g1) (gp_GetVertexPertinentBicompList g1 Zv)
              (R - gN g1)) as [Hlc Hhead]; [apply H1|apply H1|].
  destruct (LCDelete (BicompLists g1) _ _) as [lc theList] eqn:Hdel.
  cbn [fst snd] in Hlc, Hhead.
  match type of Hrun with
  | context [LCDelete (DFSChildLists ?g2) ?l ?n] =>
      destruct (LCDelete (DFSChildLists g2) l n) as [lc2 theList2] eqn:Hdel2
  end.
  match type of Hrun with
  | _MergeVertex functions fuel ?g3 Zv ZPrevLink R = _ => set (gy := g3) in *
  end.
  assert (Hy : walk_state Emb Emb g0 gy).
  { unfold gy. apply walk_state_SetVertexSeparatedDFSChildList, walk_state_DFSChildLists.
    apply walk_state_SetVertexPertinentBicompList; [|exact Hhead].
    by apply walk_state_BicompLists. }
  split.
  - by apply (MergeVertex_walk_state _ _ _ _ _ _ _ Hinit Hy HR Hrun).
  - rewrite (MergeVertex_stack _ _ _ _ _ _ _ Hinit Hrun). exact Hsx.
Qed.

Lemma MergeBicomps_loop_walk_state functions fuel n : forall g g' r,
  fpInitVertexRec functions = _InitVertexRec ->
  walk_state Emb Emb g0 g ->
  merge_stack (gN g0) (stack_items (theStack g)) ->
  MergeBicomps_loop functions fuel n g = Some (r, g') ->
  walk_state Emb Emb g0 g' /\ stack_items (theStack g') = [] /\ r = OK.
Proof.
  induction n as [|n IH]; intros g g' r Hinit H Hst Hrun; cbn [MergeBicomps_loop] in Hrun.
  - unfold sp_NonEmpty in Hrun. destruct (stack_items (theStack g)) eqn:Hs; [|discriminate].
    by injection Hrun as <- <-.
  - unfold sp_NonEmpty in Hrun. destruct (stack_items (theStack g)) as [|Rout l] eqn:Hs.
    { by injection Hrun as <- <-. }
    destruct l as [|R [|ZPrevLink [|Zv rest]]]; try done.
    cbn [merge_stack] in Hst. destruct Hst as [HR Hrest].
    destruct (MergeBicomps_pair functions fuel g) as [g1|] eqn:Hpair; [|discriminate].
    cbn [mbind option_bind] in Hrun.
    destruct (MergeBicomps_pair_walk_state _ _ _ _ _ _ _ _ _ Hinit H Hs HR Hpair) as [H1 Hs1].
    apply (IH g1 g' r Hinit H1); [by rewrite Hs1|exact Hrun].
Qed.

End Merging.

(** ** The invariant of the Walkdown through the frame *)

Lemma walk_lists_same I kids g g' f Emb :
  walk_lists I kids g f Emb ->
  gN g' = gN g -> sortedDFSChildLists g' = sortedDFSChildLists g ->
  (forall v, v < gN g ->
     parent (V g' !!! v) = parent (V g !!! v) /\
     fwdArcList (V g' !!! v) = fwdArcList (V g !!! v) /\
     sortedDFSChildList (V g' !!! v) = sortedDFSChildList (V g !!! v)) ->
  (forall J, J ∈ f -> E g' !!! J = E g !!! J) ->
  walk_lists I kids g' f Emb.
Proof.
  intros ((Hshape & Hnd & Hnil) & Hf & HI & Hkids & Hpar) HgN Hsl Hlow Harc.
  split; [|split; [|split; [|split]]].
  - split; [|by split]. unfold gp_GetVertexFwdArcList in *.
    destruct (Hlow I HI) as (_ & -> & _).
    destruct f as [|h rest]; [exact Hshape|]. destruct Hshape as [Hh Hlinks].
    split; [exact Hh|]. eapply arc_links_frame; [exact Hlinks|].
    intros K HK. by rewrite (Harc K HK).
  - intros J HJ. destruct (Hf J HJ) as (Hne & Htwin & Hlt).
    split; [exact Hne|]. split; [exact Htwin|].
    unfold gp_GetNeighbor in *. by rewrite (Harc J HJ), HgN.
  - by rewrite HgN.
  - unfold gp_GetVertexSortedDFSChildList. destruct (Hlow I HI) as (_ & _ & ->).
    by rewrite Hsl.
  - eapply Forall_impl; [exact Hpar|]. intros c [Hc Hp]. cbn beta.
    rewrite HgN. split; [exact Hc|]. unfold gp_GetVertexParent in *.
    by destruct (Hlow c Hc) as (-> & _).
Qed.

Lemma walk_frame_low Emb g g' v :
  walk_frame Emb g g' -> v < gN g -> vertex_kept (V g !!! v) (V g' !!! v).
Proof. intros (_ & _ & Hk & _) Hv. destruct (Hk v) as [Hkept|[Hge _]]; [exact Hkept|lia]. Qed.

Lemma walk_lists_frame I kids g g' f Emb :
  walk_lists I kids g f Emb -> walk_frame Emb g g' -> walk_lists I kids g' f Emb.
Proof.
  intros Hl Hfr. apply (walk_lists_same _ _ g); [exact Hl|apply Hfr|apply Hfr| |].
  - intros v Hv. destruct (walk_frame_low _ _ _ _ Hfr Hv) as (? & ? & ? & ?). auto.
  - intros J HJ. apply Hfr. destruct Hl as (_ & Hf & _). by apply Hf.
Qed.

Lemma marked_by_frame g g' f Emb :
  marked_by g f ->
  (forall J, J ∈ f -> ~ Emb J /\ gp_GetNeighbor g J < gN g) ->
  walk_frame Emb g g' -> marked_by g' f.
Proof.
  intros (Hm1 & Hm2) Hf Hfr.
  assert (Harc : forall J, J ∈ f -> E g' !!! J = E g !!! J).
  { intros J HJ. apply Hfr. by apply Hf. }
  destruct Hfr as (HgN & Hsl & Hk & He). split.
  - intros W HW. unfold gp_GetVertexPertinentAdjacencyInfo, gp_GetNeighbor in *.
    destruct (Hk W) as [(_ & _ & Hp & _)|[_ Hnone]]; [|done].
    rewrite Hp in HW |- *. destruct (Hm1 W HW) as [Hin Hnb].
    split; [exact Hin|]. by rewrite (Harc _ Hin).
  - intros J HJ. unfold gp_GetVertexPertinentAdjacencyInfo, gp_GetNeighbor in *.
    rewrite (Harc J HJ). destruct (Hf J HJ) as (_ & Hlt).
    unfold gp_GetNeighbor in Hlt.
    destruct (Hk (neighbor (E g !!! J))) as [(_ & _ & -> & _)|[Hge _]]; [|lia].
    by apply Hm2.
Qed.

Lemma walk_lists_arcs I kids g f Emb :
  walk_lists I kids g f Emb ->
  forall J, J ∈ f -> ~ Emb J /\ gp_GetNeighbor g J < gN g.
Proof. intros (_ & Hf & _) J HJ. destruct (Hf J HJ) as (? & _ & ?). by split. Qed.

Lemma walk_inv_frame I kids g g' f Emb :
  walk_inv I kids g f Emb -> walk_state Emb Emb g g' -> walk_inv I kids g' f Emb.
Proof.
  intros ((_ & Htw) & _ & Hm & Hl) (Hcl & Hbd & Hfr).
  split; [by split|]. split; [exact Hbd|].
  split; [|by eapply walk_lists_frame].
  eapply marked_by_frame; [exact Hm| |exact Hfr]. by eapply walk_lists_arcs.
Qed.

(** ** Embedding a back edge: the arc leaves the fwdArcList *)

Lemma EmbedBackEdgeToDescendant_form g RootSide RootVertex W WPrevLink :
  _EmbedBackEdgeToDescendant g RootSide RootVertex W WPrevLink =
  let fwdArc := gp_GetVertexPertinentAdjacencyInfo g W in
  embed_linked (embed_unlisted g (gp_GetVertexParent g (RootVertex - gN g)) fwdArc)
    fwdArc (gp_GetTwinArc g fwdArc) RootSide RootVertex W WPrevLink.
Proof. reflexivity. Qed.

Lemma set_fwdArcList_same r : set_fwdArcList (fwdArcList r) r = r.
Proof. by destruct r. Qed.

Lemma embed_unlisted_effect g I J :
  let p := gp_GetPrevArc g J in
  let n := gp_GetNextArc g J in
  let head :=
    if decide (gp_GetVertexFwdArcList g I = J)
    then (if decide (n = J) then NIL else n) else gp_GetVertexFwdArcList g I in
  let g1 := embed_unlisted g I J in
  (forall a, gp_GetNextArc g1 a = if decide (p = a) then n else gp_GetNextArc g a) /\
  (forall a, gp_GetPrevArc g1 a = if decide (n = a) then p else gp_GetPrevArc g a) /\
  (forall a, gp_GetNeighbor g1 a = gp_GetNeighbor g a) /\
  (forall a, a <> p -> a <> n -> E g1 !!! a = E g !!! a) /\
  (forall v, V g1 !!! v = if decide (I = v) then set_fwdArcList head (V g !!! I) else V g !!! v) /\
  same_frame g g1.
Proof.
  intros p n head g1. unfold g1, embed_unlisted. cbv zeta.
  match goal with
  | |- context [gp_SetNextArc ?gv _ _] => set (g2 := gv)
  end.
  assert (HE : E g2 = E g).
  { unfold g2. repeat destruct (bool_decide _); reflexivity. }
  assert (HV : forall v, V g2 !!! v =
            if decide (I = v) then set_fwdArcList head (V g !!! I) else V g !!! v).
  { intros v. unfold g2, head, gp_GetVertexFwdArcList, gp_SetVertexFwdArcList.
    destruct (decide (fwdArcList (V g !!! I) = J)) as [Hh|Hh].
    - rewrite (bool_decide_eq_true_2 _ Hh). rewrite V_upd_vertex, decide_True by done.
      cbn [fwdArcList set_fwdArcList]. fold n.
      destruct (decide (n = J)) as [Hn|Hn].
      + rewrite (bool_decide_eq_true_2 _ Hn). rewrite !V_upd_vertex.
        destruct (decide (I = v)) as [->|]; [|reflexivity].
        rewrite decide_True by done. by destruct (V g !!! v).
      + rewrite (bool_decide_eq_false_2 _ Hn). rewrite !V_upd_vertex.
        destruct (decide (I = v)) as [->|]; reflexivity.
    - rewrite (bool_decide_eq_false_2 _ Hh).
      destruct (decide (I = v)) as [->|]; [|reflexivity]. by rewrite set_fwdArcList_same. }
  assert (Hfr : same_frame g g2).
  { unfold g2. repeat destruct (bool_decide _); repeat split. }
  assert (Hp2 : gp_GetPrevArc g2 J = p) by (unfold gp_GetPrevArc; by rewrite HE).
  assert (Hn2 : gp_GetNextArc g2 J = n) by (unfold gp_GetNextArc; by rewrite HE).
  rewrite Hp2, Hn2. arcs_through. rewrite Hp2, Hn2.
  assert (Hn3 : (if decide (p = J) then n else n) = n) by (destruct (decide (p = J)); reflexivity).
  rewrite Hn3.
  split; [|split; [|split; [|split; [|split]]]].
  - intros a. arcs_through. unfold gp_GetNextArc. by rewrite HE.
  - intros a. arcs_through. unfold gp_GetPrevArc. by rewrite HE.
  - intros a. arcs_through. unfold gp_GetNeighbor. by rewrite HE.
  - intros a Hap Han. unfold gp_SetPrevArc, gp_SetNextArc. rewrite !E_upd_arc.
    rewrite !decide_False by done. by rewrite HE.
  - intros v. unfold gp_SetPrevArc, gp_SetNextArc. rewrite !V_upd_arc. apply HV.
  - eapply same_frame_trans; [exact Hfr|]. repeat split.
Qed.

Lemma default_last_cons (l : list Z) (d d' x : Z) :
  default d (last (x :: l)) = default d' (last (x :: l)).
Proof. destruct (last (x :: l)) eqn:Hl; [reflexivity|]. by apply last_None in Hl. Qed.

Lemma last_cons_elem_of (l : list Z) (d x : Z) : default d (last (x :: l)) ∈ x :: l.
Proof.
  destruct (last (x :: l)) eqn:Hl; [|by apply last_None in Hl].
  cbn. by apply last_Some_elem_of.
Qed.

Lemma last_cons_Some (l : list Z) (d x : Z) : last (x :: l) = Some (default d (last (x :: l))).
Proof. destruct (last (x :: l)) eqn:Hl; [reflexivity|]. by apply last_None in Hl. Qed.

(** An arc leaves a circular list of arcs. *)
Lemma fwd_list_remove g g1 I f1 J f2 p n :
  fwd_list g I (f1 ++ J :: f2) ->
  p = gp_GetPrevArc g J -> n = gp_GetNextArc g J ->
  (forall a, gp_GetNextArc g1 a = if decide (p = a) then n else gp_GetNextArc g a) ->
  (forall a, gp_GetPrevArc g1 a = if decide (n = a) then p else gp_GetPrevArc g a) ->
  gp_GetVertexFwdArcList g1 I =
    (if decide (gp_GetVertexFwdArcList g I = J)
     then (if decide (n = J) then NIL else n) else gp_GetVertexFwdArcList g I) ->
  fwd_list g1 I (f1 ++ f2) /\ (p ∈ f1 ++ J :: f2) /\ (n ∈ f1 ++ J :: f2).
Proof.
  intros (Hshape & Hnd & Hnil) Hp Hn HN HP Hhead.
  pose proof Hnd as Hnd0.
  apply NoDup_app in Hnd as (Hnd1 & Hdisj & HndJ2). apply NoDup_cons in HndJ2 as [HJ2 Hnd2].
  apply Forall_app in Hnil as [Hnil1 HnilJ2]. apply Forall_cons in HnilJ2 as [HJN Hnil2].
  assert (HJ1 : J ∉ f1) by (intros Hin; apply (Hdisj J Hin); by left).
  assert (H12 : forall K, K ∈ f1 -> K ∉ f2).
  { intros K HK1 HK2. apply (Hdisj K HK1). by right. }
  assert (Hnd' : NoDup (f1 ++ f2)) by (apply NoDup_app; repeat split; auto).
  assert (Hnil' : Forall (fun a => a <> NIL) (f1 ++ f2)) by (apply Forall_app; by split).
  destruct f1 as [|a r1], f2 as [|b r2].
  - (* the only arc *)
    cbn [app] in *. destruct Hshape as [Hh (HpJ & HnJ & _)].
    cbn [last default from_option id hd] in HpJ, HnJ.
    rewrite Hh in Hhead. rewrite decide_True in Hhead by done.
    rewrite decide_True in Hhead by congruence.
    split; [by repeat split|]. rewrite Hp, Hn, HpJ, HnJ. split; by left.
  - (* the head, not the only arc *)
    cbn [app] in *. destruct Hshape as [Hh (HpJ & HnJ & Hlinks)].
    cbn [hd] in HnJ. rewrite last_cons_cons in HpJ.
    rewrite Hh in Hhead. rewrite decide_True in Hhead by done.
    assert (HbJ : b <> J) by (intros ->; apply HJ2; by left).
    rewrite decide_False in Hhead by congruence.
    set (t := default J (last (b :: r2))) in *.
    assert (Ht : last (b :: r2) = Some t) by apply last_cons_Some.
    assert (Htin : t ∈ b :: r2) by apply last_cons_elem_of.
    split; [|split; [rewrite Hp, HpJ; by right|rewrite Hn, HnJ; right; by left]].
    split; [|by split]. split; [congruence|].
    rewrite (default_last_cons _ b J). fold t.
    apply (arc_links_relink g g1 (b :: r2) J J t b Hlinks Hnd2).
    + intros K HK. rewrite HP. cbn [head]. rewrite Hn, HnJ, Hp, HpJ.
      destruct (decide (b = K)) as [->|Hne]; [by rewrite decide_True|].
      rewrite decide_False; [reflexivity|congruence].
    + intros K HK. rewrite HN. rewrite Ht, Hp, HpJ, Hn, HnJ.
      destruct (decide (t = K)) as [->|Hne]; [by rewrite decide_True|].
      rewrite decide_False; [reflexivity|congruence].
  - (* the last arc, not the only one *)
    rewrite app_nil_r in *. destruct Hshape as [Hh Hlinks].
    rewrite last_snoc in Hlinks. cbn [default from_option id] in Hlinks.
    apply arc_links_app in Hlinks as [Hlinks (HpJ & HnJ & _)]. cbn [hd] in Hlinks, HnJ.
    set (t := default J (last (a :: r1))) in *.
    assert (Ht : last (a :: r1) = Some t) by apply last_cons_Some.
    assert (Htin : t ∈ a :: r1) by apply last_cons_elem_of.
    assert (HaJ : a <> J) by (intros ->; apply HJ1; by left).
    cbn [app] in Hh. rewrite Hh in Hhead. rewrite decide_False in Hhead by done.
    split; [|split; [rewrite Hp, HpJ; apply elem_of_app; by left
                    |rewrite Hn, HnJ; apply elem_of_app; left; by left]].
    split; [|by split]. split; [exact Hhead|].
    rewrite (default_last_cons _ a J). fold t.
    apply (arc_links_relink g g1 (a :: r1) J J t a Hlinks Hnd1).
    + intros K HK. rewrite HP. cbn [head]. rewrite Hn, HnJ, Hp, HpJ.
      destruct (decide (a = K)) as [->|Hne]; [by rewrite decide_True|].
      rewrite decide_False; [reflexivity|congruence].
    + intros K HK. rewrite HN. rewrite Ht, Hp, HpJ, Hn, HnJ.
      destruct (decide (t = K)) as [->|Hne]; [by rewrite decide_True|].
      rewrite decide_False; [reflexivity|congruence].
  - (* an arc between two others *)
    destruct Hshape as [Hh Hlinks]. cbn [app] in Hh.
    rewrite last_app_cons, last_cons_cons in Hlinks.
    rewrite (default_last_cons _ a b) in Hlinks.
    set (t2 := default b (last (b :: r2))) in *.
    assert (Ht2 : last (b :: r2) = Some t2) by apply last_cons_Some.
    assert (Ht2in : t2 ∈ b :: r2) by apply last_cons_elem_of.
    apply arc_links_app in Hlinks as [Hl1 (HpJ & HnJ & Hl2)]. cbn [hd] in Hl1, HnJ.
    rewrite (default_last_cons _ t2 J) in HpJ.
    set (t1 := default J (last (a :: r1))) in *.
    assert (Ht1 : last (a :: r1) = Some t1) by apply last_cons_Some.
    assert (Ht1in : t1 ∈ a :: r1) by apply last_cons_elem_of.
    assert (HaJ : a <> J) by (intros ->; apply HJ1; by left).
    rewrite Hh in Hhead. rewrite decide_False in Hhead by done.
    split; [|split; [rewrite Hp, HpJ; apply elem_of_app; by left
                    |rewrite Hn, HnJ; apply elem_of_app; right; right; by left]].
    split; [|by split]. cbn [app]. split; [exact Hhead|].
    change (a :: r1 ++ b :: r2) with ((a :: r1) ++ b :: r2).
    rewrite last_app_cons. rewrite (default_last_cons _ a b). fold t2.
    apply arc_links_app. cbn [hd]. rewrite (default_last_cons _ t2 J). fold t1. split.
    + apply (arc_links_relink g g1 (a :: r1) t2 J t2 b Hl1 Hnd1).
      * intros K HK. rewrite HP, Hn, HnJ, Hp, HpJ.
        rewrite decide_False by (intros ->; apply (H12 K HK); by left).
        destruct (decide (Some K = head (a :: r1))) as [Heq|]; [|reflexivity].
        symmetry in Heq. apply (arc_links_head g (a :: r1) t2 J K Hl1 Heq).
      * intros K HK. rewrite HN. rewrite Ht1, Hp, HpJ, Hn, HnJ.
        destruct (decide (t1 = K)) as [->|Hne]; [by rewrite decide_True|].
        rewrite decide_False; [reflexivity|congruence].
    + apply (arc_links_relink g g1 (b :: r2) J a t1 a Hl2 Hnd2).
      * intros K HK. rewrite HP. cbn [head]. rewrite Hn, HnJ, Hp, HpJ.
        destruct (decide (b = K)) as [->|Hne]; [by rewrite decide_True|].
        rewrite decide_False; [reflexivity|congruence].
      * intros K HK. rewrite HN, Hn, HnJ, Hp, HpJ.
        rewrite decide_False by (intros <-; by apply (H12 t1 Ht1in)).
        destruct (decide (Some K = last (b :: r2))) as [Heq|]; [|reflexivity].
        symmetry in Heq. apply (arc_links_last g (b :: r2) J a K Hl2 Heq).
Qed.

(** ** Embedding a back edge: the arc enters the adjacency lists *)

Lemma walk_state_grow D Emb g0 g e :
  walk_state D Emb g0 g -> Emb (gp_GetNextArc g e) -> Emb (gp_GetPrevArc g e) ->
  walk_state (fun a => D a \/ a = e) Emb g0 g.
Proof.
  intros ((HN & Hv & Ha) & Hb & Hfr) Hn Hp. split; [|by split].
  split; [exact HN|]. split; [exact Hv|]. intros a [Da| ->]; [by apply Ha|by split].
Qed.

Lemma walk_state_weaken (D D' : Z -> Prop) Emb g0 g :
  walk_state D Emb g0 g -> (forall a, D' a -> D a) -> walk_state D' Emb g0 g.
Proof.
  intros ((HN & Hv & Ha) & Hb & Hfr) HD. split; [|by split].
  split; [exact HN|]. split; [exact Hv|]. intros a Da. apply Ha. by apply HD.
Qed.

Lemma SetAdjacentArc_both g e link x y :
  link = 0 \/ link = 1 ->
  let g2 := gp_SetAdjacentArc (gp_SetAdjacentArc g e (Z.lxor 1 link) x) e link y in
  (gp_GetNextArc g2 e = x /\ gp_GetPrevArc g2 e = y) \/
  (gp_GetNextArc g2 e = y /\ gp_GetPrevArc g2 e = x).
Proof.
  intros [-> | ->]; cbv zeta; unfold gp_SetAdjacentArc.
  - change (bool_decide (Z.lxor 1 0 = 0)) with false.
    change (bool_decide (0 = 0)) with true. cbv iota. right.
    arcs_through. by rewrite !decide_True.
  - change (bool_decide (Z.lxor 1 1 = 0)) with true.
    change (bool_decide (1 = 0)) with false. cbv iota. left.
    arcs_through. by rewrite !decide_True.
Qed.

Lemma walk_state_link_both D Emb g0 g e link x y :
  walk_state D Emb g0 g -> link = 0 \/ link = 1 -> Emb e -> Emb x -> Emb y ->
  walk_state (fun a => D a \/ a = e) Emb g0
    (gp_SetAdjacentArc (gp_SetAdjacentArc g e (Z.lxor 1 link) x) e link y).
Proof.
  intros H Hlink He Hx Hy.
  assert (H2 : walk_state D Emb g0
            (gp_SetAdjacentArc (gp_SetAdjacentArc g e (Z.lxor 1 link) x) e link y)).
  { apply walk_state_SetAdjacentArc; [|exact He|exact Hy].
    by apply walk_state_SetAdjacentArc. }
  destruct (SetAdjacentArc_both g e link x y Hlink) as [[Hn Hp]|[Hn Hp]];
    apply walk_state_grow; try exact H2; by rewrite ?Hn, ?Hp.
Qed.

Lemma embed_linked_walk_state D Emb g0 g J Jt RootSide RootVertex W WPrevLink :
  walk_state D Emb g0 g -> Emb J -> Emb Jt ->
  RootSide = 0 \/ RootSide = 1 -> WPrevLink = 0 \/ WPrevLink = 1 ->
  walk_state (fun a => (D a \/ a = J) \/ a = Jt) Emb g0
    (embed_linked g J Jt RootSide RootVertex W WPrevLink).
Proof.
  intros H HJ HJt HRS HWP. unfold embed_linked, gp_AdjacencyListEndMark. cbv zeta.
  pose proof (walk_state_NIL _ _ _ _ H) as HNIL.
  set (s1 := gp_SetAdjacentArc g J (Z.lxor 1 RootSide) NIL).
  assert (H1 : walk_state D Emb g0 s1) by (by apply walk_state_SetAdjacentArc).
  set (s2 := gp_SetAdjacentArc s1 J RootSide (gp_GetArc s1 RootVertex RootSide)).
  assert (H2 : walk_state (fun a => D a \/ a = J) Emb g0 s2).
  { apply walk_state_link_both; auto. apply (walk_state_GetArc _ _ _ _ _ _ H1). }
  set (s3 := gp_SetAdjacentArc s2 (gp_GetArc s2 RootVertex RootSide) (Z.lxor 1 RootSide) J).
  assert (H3 : walk_state (fun a => D a \/ a = J) Emb g0 s3).
  { apply walk_state_SetAdjacentArc; [exact H2| |exact HJ].
    apply (walk_state_GetArc _ _ _ _ _ _ H2). }
  set (s4 := gp_SetArc s3 RootVertex RootSide J).
  assert (H4 : walk_state (fun a => D a \/ a = J) Emb g0 s4)
    by (by apply walk_state_SetArc).
  set (s5 := gp_SetAdjacentArc s4 Jt (Z.lxor 1 WPrevLink) NIL).
  assert (H5 : walk_state (fun a => D a \/ a = J) Emb g0 s5)
    by (by apply walk_state_SetAdjacentArc).
  set (s6 := gp_SetAdjacentArc s5 Jt WPrevLink (gp_GetArc s5 W WPrevLink)).
  assert (H6 : walk_state (fun a => (D a \/ a = J) \/ a = Jt) Emb g0 s6).
  { apply walk_state_link_both; auto. apply (walk_state_GetArc _ _ _ _ _ _ H5). }
  apply walk_state_SetExtFaceVertex, walk_state_SetExtFaceVertex.
  apply walk_state_SetNeighbor; [|exact HJt].
  apply walk_state_SetArc; [|exact HJt].
  apply walk_state_SetAdjacentArc; [exact H6| |exact HJt].
  apply (walk_state_GetArc _ _ _ _ _ _ H6).
Qed.

Lemma twin_closed_with_edge Emb J : twin_closed Emb -> twin_closed (with_edge Emb J).
Proof.
  intros Htw a [Ha|[-> | ->]] HaN.
  - left. by apply Htw.
  - right. by right.
  - right. left. rewrite Z.lxor_assoc. change (Z.lxor 1 1) with 0. apply Z.lxor_0_r.
Qed.

Lemma embed_linked_stack g J Jt RootSide RootVertex W WPrevLink :
  theStack (embed_linked g J Jt RootSide RootVertex W WPrevLink) = theStack g /\
  gN (embed_linked g J Jt RootSide RootVertex W WPrevLink) = gN g.
Proof.
  unfold embed_linked, gp_SetAdjacentArc, gp_SetArc, gp_SetExtFaceVertex.
  repeat destruct (bool_decide _); split; reflexivity.
Qed.

(** ** Embedding a back edge keeps the invariant *)

Lemma embed_walk_inv I kids g f Emb RootSide RootVertex W WPrevLink :
  walk_inv I kids g f Emb ->
  gp_GetVertexPertinentAdjacencyInfo g W <> NIL ->
  gp_GetVertexParent g (RootVertex - gN g) = I ->
  RootSide = 0 \/ RootSide = 1 -> WPrevLink = 0 \/ WPrevLink = 1 ->
  let J := gp_GetVertexPertinentAdjacencyInfo g W in
  let g' := gp_SetVertexPertinentAdjacencyInfo
              (_EmbedBackEdgeToDescendant g RootSide RootVertex W WPrevLink) W NIL in
  exists f1 f2, f = f1 ++ J :: f2 /\
    walk_inv I kids g' (f1 ++ f2) (with_edge Emb J) /\ theStack g' = theStack g /\
    gN g' = gN g.
Proof.
  intros ((Hcl & Htw) & Hbd & (Hm1 & Hm2) & Hl) HW Hpar HRS HWP J g'.
  destruct (Hm1 W HW) as [HJin HJnb]. fold J in HJin, HJnb.
  apply list_elem_of_split in HJin as (f1 & f2 & ->). exists f1, f2. split; [reflexivity|].
  destruct Hl as (Hfwd & Hf & HI & Hkids & Hpars).
  unfold g'. rewrite EmbedBackEdgeToDescendant_form. cbv zeta. rewrite Hpar. fold J.
  destruct (embed_unlisted_effect g I J) as (N1 & P1 & Nb1 & E1 & V1 & Hfr1).
  set (g1 := embed_unlisted g I J) in *.
  set (p := gp_GetPrevArc g J) in *. set (n := gp_GetNextArc g J) in *.
  assert (Hhead1 : gp_GetVertexFwdArcList g1 I =
            (if decide (gp_GetVertexFwdArcList g I = J)
             then (if decide (n = J) then NIL else n) else gp_GetVertexFwdArcList g I)).
  { unfold gp_GetVertexFwdArcList at 1. rewrite V1, decide_True by done. reflexivity. }
  destruct (fwd_list_remove g g1 I f1 J f2 p n Hfwd eq_refl eq_refl N1 P1 Hhead1)
    as (Hfwd1 & Hpin & Hnin).
  pose proof Hfwd as (_ & Hnd & Hnil).
  apply NoDup_app in Hnd as (Hnd1 & Hdisj & HndJ2). apply NoDup_cons in HndJ2 as [HJ2 Hnd2].
  assert (HJ1 : J ∉ f1) by (intros Hin; apply (Hdisj J Hin); by left).
  assert (Hsub : forall K, K ∈ f1 ++ f2 -> K ∈ f1 ++ J :: f2 /\ K <> J).
  { intros K [HK|HK]%elem_of_app.
    - split; [apply elem_of_app; by left|congruence].
    - split; [apply elem_of_app; right; by right|congruence]. }
  assert (HJf : J ∈ f1 ++ J :: f2) by (apply elem_of_app; right; by left).
  destruct Hfr1 as (HgN1 & _ & _ & Hst1 & Hsl1 & _ & Hbl1 & _).
  assert (Hfield : forall v,
            parent (V g1 !!! v) = parent (V g !!! v) /\
            sortedDFSChildList (V g1 !!! v) = sortedDFSChildList (V g !!! v) /\
            pertinentAdjacencyInfo (V g1 !!! v) = pertinentAdjacencyInfo (V g !!! v) /\
            pertinentBicompList (V g1 !!! v) = pertinentBicompList (V g !!! v) /\
            vlink0 (V g1 !!! v) = vlink0 (V g !!! v) /\
            vlink1 (V g1 !!! v) = vlink1 (V g !!! v)).
  { intros v. rewrite V1. destruct (decide (I = v)) as [->|]; [|done]. by destruct (V g !!! v). }
  set (Emb' := with_edge Emb J).
  assert (HEmb' : forall a, Emb a -> Emb' a) by (intros a Ha; by left).
  (* the state when the arc is out of the list *)
  assert (Hcl1 : links_closed g1 Emb Emb').
  { destruct Hcl as (HNIL & Hv & Ha). split; [by apply HEmb'|]. split.
    - intros v. unfold gp_GetFirstArc, gp_GetLastArc in *.
      destruct (Hfield v) as (_ & _ & _ & _ & -> & ->). split; apply HEmb', Hv.
    - intros a Da. unfold gp_GetNextArc, gp_GetPrevArc in *. rewrite E1.
      + split; apply HEmb', Ha, Da.
      + intros Hap. destruct (Hf p Hpin) as [HnE _]. apply HnE. by rewrite <- Hap.
      + intros Han. destruct (Hf n Hnin) as [HnE _]. apply HnE. by rewrite <- Han. }
  assert (Hbd1 : bicomp_lists_bounded g1).
  { destruct Hbd as [Hb1 Hb2]. split.
    - intros v. unfold gp_GetVertexPertinentBicompList in *.
      destruct (Hfield v) as (_ & _ & _ & -> & _). apply Hb1.
    - rewrite Hbl1. exact Hb2. }
  assert (Hl1 : walk_lists I kids g1 (f1 ++ f2) Emb').
  { split; [exact Hfwd1|]. split; [|split; [|split]].
    - intros K HK. destruct (Hsub K HK) as [HKf HKJ].
      destruct (Hf K HKf) as (HnE & HtK & HnbK). split; [|split].
      + intros [HE|[->| ->]]; [done|done|]. by apply (Hf J HJf).
      + intros Hin. apply HtK. by apply Hsub.
      + by rewrite Nb1, HgN1.
    - by rewrite HgN1.
    - unfold gp_GetVertexSortedDFSChildList in *.
      destruct (Hfield I) as (_ & -> & _). by rewrite Hsl1.
    - eapply Forall_impl; [exact Hpars|]. intros c [Hc Hp]. cbn beta.
      rewrite HgN1. split; [exact Hc|]. unfold gp_GetVertexParent in *.
      by destruct (Hfield c) as (-> & _). }
  (* the state when the edge is in the adjacency lists *)
  assert (HJE : Emb' J) by (right; by left).
  assert (HJtE : Emb' (gp_GetTwinArc g J)) by (right; by right).
  pose proof (embed_linked_walk_state Emb Emb' g1 g1 J (gp_GetTwinArc g J)
                RootSide RootVertex W WPrevLink
                (walk_state_start _ _ _ Hcl1 Hbd1) HJE HJtE HRS HWP) as HB.
  set (gB := embed_linked g1 J (gp_GetTwinArc g J) RootSide RootVertex W WPrevLink) in *.
  apply (walk_state_weaken _ Emb') in HB.
  2:{ intros a [Ha|[->| ->]]; [left; by left|left; by right|by right]. }
  destruct HB as (HclB & HbdB & HfrB).
  pose proof (walk_lists_frame _ _ _ _ _ _ Hl1 HfrB) as HlB.
  assert (HpB : forall v, pertinentAdjacencyInfo (V gB !!! v) =
                          pertinentAdjacencyInfo (V g !!! v)).
  { intros v. destruct (Hfield v) as (_ & _ & <- & _).
    destruct HfrB as (_ & _ & Hk & _). destruct (Hk v) as [(_ & _ & Hp & _)|[Hge HpN]].
    - exact Hp.
    - rewrite HpN. destruct (Hfield v) as (_ & _ & -> & _).
      destruct (decide (pertinentAdjacencyInfo (V g !!! v) = NIL)) as [->|Hne]; [done|].
      destruct (Hm1 v Hne) as [Hin Hnb]. destruct (Hf _ Hin) as (_ & _ & Hlt).
      rewrite Hnb in Hlt. lia. }
  assert (HnbB : forall K, K ∈ f1 ++ f2 -> gp_GetNeighbor gB K = gp_GetNeighbor g K).
  { intros K HK. rewrite <- Nb1. unfold gp_GetNeighbor.
    destruct HfrB as (_ & _ & _ & He). rewrite He; [reflexivity|].
    destruct HlB as (_ & HfB & _). by apply HfB. }
  split; [|unfold gp_SetVertexPertinentAdjacencyInfo; cbn [theStack gN upd_vertex with_V];
           unfold gB;
           destruct (embed_linked_stack g1 J (gp_GetTwinArc g J) RootSide RootVertex W WPrevLink)
             as [-> ->]; by split].
  unfold gp_SetVertexPertinentAdjacencyInfo.
  assert (HVg' : forall v,
            V (upd_vertex W (set_pertinentAdjacencyInfo NIL) gB) !!! v =
            if decide (W = v) then set_pertinentAdjacencyInfo NIL (V gB !!! v)
            else V gB !!! v).
  { intros v. rewrite V_upd_vertex. by destruct (decide (W = v)) as [->|]. }
  split; [|split; [|split]].
  - split; [|by apply twin_closed_with_edge].
    destruct HclB as (HNIL & Hv & Ha). split; [exact HNIL|]. split; [|exact Ha].
    intros v. unfold gp_GetFirstArc, gp_GetLastArc in *. rewrite HVg'.
    destruct (decide (W = v)); [|apply Hv]. specialize (Hv v).
    by destruct (V gB !!! v).
  - destruct HbdB as [Hb1 Hb2]. split; [|exact Hb2].
    intros v. unfold gp_GetVertexPertinentBicompList in *. rewrite HVg'.
    destruct (decide (W = v)); [|apply Hb1]. specialize (Hb1 v).
    by destruct (V gB !!! v).
  - assert (Hpg' : forall v,
              gp_GetVertexPertinentAdjacencyInfo
                (upd_vertex W (set_pertinentAdjacencyInfo NIL) gB) v =
              if decide (W = v) then NIL else gp_GetVertexPertinentAdjacencyInfo g v).
    { intros v. unfold gp_GetVertexPertinentAdjacencyInfo. rewrite HVg'.
      destruct (decide (W = v)); [by destruct (V gB !!! v)|apply HpB]. }
    split.
    + intros v. rewrite Hpg'. destruct (decide (W = v)) as [->|Hne]; [done|].
      intros Hv. destruct (Hm1 v Hv) as [Hin Hnb].
      assert (HK : gp_GetVertexPertinentAdjacencyInfo g v ∈ f1 ++ f2).
      { apply elem_of_app in Hin as [Hin|[HeqJ|Hin]%elem_of_cons].
        - apply elem_of_app. by left.
        - rewrite HeqJ in Hnb. congruence.
        - apply elem_of_app. by right. }
      split; [exact HK|]. change (gp_GetNeighbor gB (gp_GetVertexPertinentAdjacencyInfo g v) = v).
      by rewrite HnbB.
    + intros K HK. change (gp_GetNeighbor (upd_vertex W (set_pertinentAdjacencyInfo NIL) gB) K)
        with (gp_GetNeighbor gB K).
      rewrite HnbB by exact HK. rewrite Hpg'. destruct (Hsub K HK) as [HKf HKJ].
      pose proof (Hm2 K HKf) as HmK. rewrite decide_False; [exact HmK|].
      intros HWK. apply HKJ. rewrite <- HmK, <- HWK. reflexivity.
  - apply (walk_lists_same _ _ gB); [exact HlB|reflexivity|reflexivity| |reflexivity].
    intros v _. rewrite HVg'. destruct (decide (W = v)); [|done]. by destruct (V gB !!! v).
Qed.

(** ** The Walkdown keeps the invariant *)

Lemma walk_inv_closed I kids g f Emb :
  walk_inv I kids g f Emb -> walk_state Emb Emb g g.
Proof. intros ((Hcl & _) & Hbd & _). by apply walk_state_start. Qed.

Section CoreWalkdown.

Variables functions leaves : graphFunctionTable.
Variable mfuel : nat.
Hypothesis Hembed : fpEmbedBackEdgeToDescendant functions = _EmbedBackEdgeToDescendant.
Hypothesis Hmerge : fpMergeBicomps functions = _MergeBicomps leaves mfuel.
Hypothesis Hinit : fpInitVertexRec leaves = _InitVertexRec.
Hypothesis Hblocked :
  fpHandleBlockedDescendantBicomp functions = _HandleBlockedDescendantBicomp.
Hypothesis Hinactive : fpHandleInactiveVertex functions = _HandleInactiveVertex.

Variable I : Z.
Variable kids : list Z.
Variable f : list Z.

Lemma WalkDown_embedAt_walk_ok g RootVertex RootSide W WPrevLink r :
  walk_ok I kids f g -> merge_stack (gN g) (stack_items (theStack g)) ->
  RootVertex - gN g ∈ kids -> is_link RootSide -> is_link WPrevLink ->
  WalkDown_embedAt functions g I RootVertex RootSide W WPrevLink = Some r ->
  match r with
  | inl (_, g') => walk_ok I kids f g' /\ gN g' = gN g
  | inr g' =>
      walk_ok I kids f g' /\ gN g' = gN g /\
      merge_stack (gN g') (stack_items (theStack g'))
  end.
Proof.
  intros (f' & Emb & Hsub & Hinv) Hst Hroot HRS HWP Hrun. unfold WalkDown_embedAt in Hrun.
  destruct (bool_decide (gp_GetVertexPertinentAdjacencyInfo g W <> NIL)) eqn:HW.
  2:{ injection Hrun as <-. split; [by exists f', Emb|by split]. }
  apply bool_decide_eq_true_1 in HW.
  assert (Hmerged : exists g1,
            (if sp_NonEmpty (theStack g)
             then fpMergeBicomps functions g I RootVertex W WPrevLink
             else Some (OK, g)) = Some (OK, g1) /\
            walk_state Emb Emb g g1 /\ stack_items (theStack g1) = []).
  { destruct (sp_NonEmpty (theStack g)) eqn:Hne.
    - rewrite Hmerge in Hrun |- *. unfold _MergeBicomps in Hrun |- *.
      destruct (MergeBicomps_loop leaves mfuel mfuel g) as [[r1 g1]|] eqn:Hloop;
        [|discriminate].
      destruct (MergeBicomps_loop_walk_state Emb g (proj2 (proj1 Hinv)) leaves mfuel mfuel
                  g g1 r1 Hinit (walk_inv_closed _ _ _ _ _ Hinv) Hst Hloop)
        as (H1 & Hs1 & ->).
      by exists g1.
    - exists g. split; [reflexivity|]. split; [by eapply walk_inv_closed|].
      unfold sp_NonEmpty in Hne. by destruct (stack_items (theStack g)). }
  destruct Hmerged as (g1 & Hm & H1 & Hs1). rewrite Hm in Hrun.
  cbn [mbind option_bind] in Hrun. destruct (decide (OK <> OK)); [done|].
  injection Hrun as <-. rewrite Hembed.
  pose proof (walk_inv_frame _ _ _ _ _ _ Hinv H1) as Hinv1.
  assert (HgN1 : gN g1 = gN g) by apply H1.
  assert (HW1 : gp_GetVertexPertinentAdjacencyInfo g1 W <> NIL).
  { destruct Hinv as (_ & _ & (Hm1 & _) & (_ & Hf & _)).
    destruct (Hm1 W HW) as [Hin Hnb]. destruct (Hf _ Hin) as (_ & _ & Hlt).
    rewrite Hnb in Hlt. destruct H1 as (_ & _ & Hfr).
    destruct (walk_frame_low _ _ _ _ Hfr Hlt) as (_ & _ & Hp & _).
    unfold gp_GetVertexPertinentAdjacencyInfo in *. by rewrite Hp. }
  assert (Hpar1 : gp_GetVertexParent g1 (RootVertex - gN g1) = I).
  { destruct Hinv1 as (_ & _ & _ & (_ & _ & _ & _ & Hpars)).
    rewrite Forall_forall in Hpars. rewrite HgN1. by apply Hpars. }
  destruct (embed_walk_inv I kids g1 f' Emb RootSide RootVertex W WPrevLink
              Hinv1 HW1 Hpar1 HRS HWP) as (f1 & f2 & Hf' & Hinv2 & Hs2 & HgN2).
  split; [|split; [congruence|]].
  - exists (f1 ++ f2), (with_edge Emb (gp_GetVertexPertinentAdjacencyInfo g1 W)).
    split; [|exact Hinv2]. intros K HK. apply Hsub. rewrite Hf'.
    apply elem_of_app in HK as [HK|HK]; apply elem_of_app; [by left|right; by right].
  - rewrite Hs2, Hs1. done.
Qed.

Lemma walk_ok_state g g' :
  walk_ok I kids f g ->
  (forall Emb, walk_state Emb Emb g g -> walk_state Emb Emb g g') ->
  walk_ok I kids f g' /\ gN g' = gN g.
Proof.
  intros (f' & Emb & Hsub & Hinv) Hstep.
  pose proof (Hstep Emb (walk_inv_closed _ _ _ _ _ Hinv)) as H1.
  split; [|apply H1]. exists f', Emb. split; [exact Hsub|]. by eapply walk_inv_frame.
Qed.

Lemma WalkDown_descend_walk_ok g RootVertex W WPrevLink Rout :
  walk_ok I kids f g -> merge_stack (gN g) (stack_items (theStack g)) ->
  gp_GetVertexPertinentBicompList g W <> NIL ->
  match WalkDown_descend functions g I RootVertex W WPrevLink Rout with
  | inl (_, g') => walk_ok I kids f g' /\ gN g' = gN g
  | inr (_, WPrevLink', _, g') =>
      walk_ok I kids f g' /\ gN g' = gN g /\
      merge_stack (gN g') (stack_items (theStack g')) /\ is_link WPrevLink'
  end.
Proof.
  intros Hok Hst HW.
  assert (HR : gN g <= _GetPertinentChildBicomp
                         (with_theStack (sp_Push2 (theStack g) W WPrevLink) g) W).
  { unfold _GetPertinentChildBicomp.
    change (gp_GetVertexPertinentBicompList (with_theStack _ g) W)
      with (gp_GetVertexPertinentBicompList g W).
    rewrite bool_decide_eq_false_2 by exact HW.
    destruct Hok as (f' & Emb & _ & (_ & (Hb & _) & _)). specialize (Hb W).
    change (gN (with_theStack (sp_Push2 (theStack g) W WPrevLink) g)) with (gN g).
    unfold NIL in *. lia. }
  assert (Hpush : forall s1 s2,
            walk_ok I kids f (with_theStack s2 (with_theStack s1 g)) /\
            gN (with_theStack s2 (with_theStack s1 g)) = gN g).
  { intros s1 s2. apply walk_ok_state; [exact Hok|].
    intros Emb H. by apply walk_state_stack, walk_state_stack. }
  unfold WalkDown_descend. rewrite Hblocked. unfold _HandleBlockedDescendantBicomp.
  cbv zeta.
  set (g1 := with_theStack (sp_Push2 (theStack g) W WPrevLink) g) in *.
  set (R := _GetPertinentChildBicomp g1 W) in *.
  set (X := gp_GetExtFaceVertex g1 R 0). set (Y := gp_GetExtFaceVertex g1 R 1).
  destruct (decide (NONEMBEDDABLE <> OK)) as [_|Hne]; [|by destruct Hne].
  assert (Hdone : forall Rout' l,
            is_link l ->
            walk_ok I kids f (with_theStack (sp_Push2 (theStack g1) R Rout') g1) /\
            gN (with_theStack (sp_Push2 (theStack g1) R Rout') g1) = gN g /\
            merge_stack (gN (with_theStack (sp_Push2 (theStack g1) R Rout') g1))
              (stack_items (theStack (with_theStack (sp_Push2 (theStack g1) R Rout') g1))) /\
            is_link l).
  { intros Rout' l Hl. destruct (Hpush (sp_Push2 (theStack g) W WPrevLink)
                                   (sp_Push2 (theStack g1) R Rout')) as [H1 H2].
    split; [exact H1|]. split; [exact H2|]. split; [|exact Hl].
    cbn. split; [exact HR|exact Hst]. }
  assert (H01 : is_link 0 /\ is_link 1) by (split; [by left|by right]).
  destruct H01 as [H0 H1].
  destruct (bool_decide (X = Y) && gp_GetExtFaceInversionFlag g1 X);
    repeat match goal with
    | |- context [if ?c then _ else _] => destruct c
    end; try (by apply Hdone); apply Hpush.
Qed.

Lemma WalkDown_side_walk_ok fuel RootVertex RootSide :
  is_link RootSide ->
  forall g W WPrevLink Rout r,
  walk_ok I kids f g -> merge_stack (gN g) (stack_items (theStack g)) ->
  RootVertex - gN g ∈ kids -> is_link WPrevLink ->
  WalkDown_side functions fuel g I RootVertex RootSide W WPrevLink Rout = Some r ->
  match r with
  | Side_Return _ g' => walk_ok I kids f g' /\ gN g' = gN g
  | Side_Done _ WPrevLink' _ g' =>
      walk_ok I kids f g' /\ gN g' = gN g /\
      merge_stack (gN g') (stack_items (theStack g')) /\ is_link WPrevLink'
  end.
Proof.
  intros HRS. induction fuel as [|fuel IH]; intros g W WPrevLink Rout r Hok Hst Hroot HWP Hrun;
    cbn [WalkDown_side] in Hrun.
  - destruct (bool_decide (W <> RootVertex)); [discriminate|]. by injection Hrun as <-.
  - destruct (bool_decide (W <> RootVertex)); [|by injection Hrun as <-].
    destruct (WalkDown_embedAt functions g I RootVertex RootSide W WPrevLink) as [r1|] eqn:Hat;
      [|discriminate].
    cbn [mbind option_bind] in Hrun.
    pose proof (WalkDown_embedAt_walk_ok _ _ _ _ _ _ Hok Hst Hroot HRS HWP Hat) as H1.
    destruct r1 as [[RetVal g1]|g1]; [by injection Hrun as <-|].
    destruct H1 as (Hok1 & HgN1 & Hst1).
    assert (Hroot1 : RootVertex - gN g1 ∈ kids) by (by rewrite HgN1).
    destruct (bool_decide (gp_GetVertexPertinentBicompList g1 W <> NIL)) eqn:Hpbl.
    + apply bool_decide_eq_true_1 in Hpbl.
      pose proof (WalkDown_descend_walk_ok g1 RootVertex W WPrevLink Rout Hok1 Hst1 Hpbl) as H2.
      destruct (WalkDown_descend functions g1 I RootVertex W WPrevLink Rout)
        as [[RetVal g2]|[[[W2 WPrevLink2] Rout2] g2]].
      * injection Hrun as <-. destruct H2 as [H2 HgN2]. split; [exact H2|congruence].
      * destruct H2 as (Hok2 & HgN2 & Hst2 & HWP2).
        assert (Hroot2 : RootVertex - gN g2 ∈ kids) by (by rewrite HgN2).
        pose proof (IH g2 W2 WPrevLink2 Rout2 r Hok2 Hst2 Hroot2 HWP2 Hrun) as H3.
        destruct r as [RetVal g3|W3 WPrevLink3 Rout3 g3].
        -- destruct H3 as [H3 HgN3]. split; [exact H3|congruence].
        -- destruct H3 as (H3 & HgN3 & Hst3 & HWP3). repeat split; auto; congruence.
    + destruct (decide (_VertexActiveStatus g1 W I = VAS_INACTIVE)).
      * rewrite Hinactive in Hrun. unfold _HandleInactiveVertex in Hrun. cbv zeta in Hrun.
        destruct (decide (OK <> OK)) as [Hne|_]; [by destruct Hne|].
        assert (HWP2 : is_link
                  (if bool_decide
                        (gp_GetExtFaceVertex g1
                           (gp_GetExtFaceVertex g1 W (Z.lxor 1 WPrevLink)) 0 = W)
                   then 0 else 1)).
        { match goal with |- context [bool_decide ?P] => destruct (bool_decide P) end;
            [left|right]; reflexivity. }
        pose proof (IH g1 _ _ Rout r Hok1 Hst1 Hroot1 HWP2 Hrun) as H3.
        destruct r as [RetVal g3|W3 WPrevLink3 Rout3 g3].
        -- destruct H3 as [H3 HgN3]. split; [exact H3|congruence].
        -- destruct H3 as (H3 & HgN3 & Hst3 & HWP3). repeat split; auto; congruence.
      * injection Hrun as <-. by repeat split.
Qed.

Lemma WalkDown_shortCircuit_walk_ok g RootVertex RootSide W WPrevLink :
  walk_ok I kids f g ->
  walk_ok I kids f (WalkDown_shortCircuit g RootVertex RootSide W WPrevLink) /\
  gN (WalkDown_shortCircuit g RootVertex RootSide W WPrevLink) = gN g /\
  theStack (WalkDown_shortCircuit g RootVertex RootSide W WPrevLink) = theStack g.
Proof.
  intros Hok.
  destruct (walk_ok_state g (WalkDown_shortCircuit g RootVertex RootSide W WPrevLink) Hok)
    as [H1 H2].
  { intros Emb H. unfold WalkDown_shortCircuit.
    destruct (_ && _);
      [apply walk_state_SetExtFaceInversionFlag|apply walk_state_ClearExtFaceInversionFlag];
      by apply walk_state_SetExtFaceVertex, walk_state_SetExtFaceVertex. }
  split; [exact H1|]. split; [exact H2|].
  unfold WalkDown_shortCircuit, gp_SetExtFaceVertex.
  destruct (_ && _); repeat destruct (bool_decide _); reflexivity.
Qed.

Lemma WalkDown_sides_walk_ok fuel RootVertex : forall sides Rout g r g',
  Forall is_link sides ->
  walk_ok I kids f g -> merge_stack (gN g) (stack_items (theStack g)) ->
  RootVertex - gN g ∈ kids ->
  WalkDown_sides functions fuel I RootVertex sides Rout g = Some (r, g') ->
  walk_ok I kids f g' /\ gN g' = gN g.
Proof.
  induction sides as [|RootSide sides IH]; intros Rout g r g' Hsides Hok Hst Hroot Hrun;
    cbn [WalkDown_sides] in Hrun.
  - by injection Hrun as <- <-.
  - apply Forall_cons in Hsides as [HRS Hsides].
    destruct (WalkDown_enter g RootVertex RootSide) as [[W WPrevLink]|] eqn:Henter;
      [|by injection Hrun as <- <-].
    assert (HWP : is_link WPrevLink).
    { unfold WalkDown_enter in Henter. destruct (bool_decide _).
      - injection Henter as <- <-. destruct HRS as [-> | ->]; [by right|by left].
      - destruct (bool_decide (_ <> _)); [discriminate|]. injection Henter as <- <-.
        destruct (bool_decide _); [left|right]; reflexivity. }
    destruct (WalkDown_side functions fuel g I RootVertex RootSide W WPrevLink Rout)
      as [r1|] eqn:Hside; [|discriminate].
    cbn [mbind option_bind] in Hrun.
    pose proof (WalkDown_side_walk_ok _ _ _ HRS _ _ _ _ _ Hok Hst Hroot HWP Hside) as H1.
    destruct r1 as [RetVal g1|W1 WPrevLink1 Rout1 g1]; [by injection Hrun as <- <-|].
    destruct H1 as (Hok1 & HgN1 & Hst1 & HWP1).
    destruct (WalkDown_shortCircuit_walk_ok g1 RootVertex RootSide W1 WPrevLink1 Hok1)
      as (Hok2 & HgN2 & Hs2).
    destruct (bool_decide (W1 = RootVertex)).
    + injection Hrun as <- <-. split; [exact Hok2|congruence].
    + assert (Hst2 : merge_stack (gN (WalkDown_shortCircuit g1 RootVertex RootSide W1 WPrevLink1))
                (stack_items (theStack (WalkDown_shortCircuit g1 RootVertex RootSide W1
                                          WPrevLink1)))) by (by rewrite HgN2, Hs2).
      assert (Hroot2 : RootVertex - gN (WalkDown_shortCircuit g1 RootVertex RootSide W1
                                          WPrevLink1) ∈ kids) by (by rewrite HgN2, HgN1).
      destruct (IH _ _ _ _ Hsides Hok2 Hst2 Hroot2 Hrun) as [H3 HgN3].
      split; [exact H3|congruence].
Qed.

Lemma WalkDown_walk_ok fuel g RootVertex r g' :
  walk_ok I kids f g -> RootVertex - gN g ∈ kids ->
  _WalkDown functions fuel g I RootVertex = Some (r, g') ->
  walk_ok I kids f g' /\ gN g' = gN g.
Proof.
  intros Hok Hroot Hrun. unfold _WalkDown in Hrun.
  destruct (walk_ok_state g (with_theStack (sp_ClearStack (theStack g)) g) Hok) as [Hok1 HgN1].
  { intros Emb H. by apply walk_state_stack. }
  assert (Hsides : Forall is_link [0; 1]).
  { apply Forall_cons. split; [by left|]. apply Forall_cons. split; [by right|].
    apply Forall_nil_2. }
  destruct (WalkDown_sides_walk_ok _ _ _ _ _ _ _ Hsides Hok1 Logic.I Hroot Hrun) as [H2 HgN2].
  split; [exact H2|exact HgN2].
Qed.

End CoreWalkdown.

(** ** The Walkups of a step *)

Lemma LCAppend_bounded (lc : listCollection) theList theNode :
  (forall k, NIL <= lc_next (lc !!! k)) -> NIL <= theList -> NIL <= theNode ->
  (forall k, NIL <= lc_next ((LCAppend lc theList theNode).1 !!! k)) /\
  NIL <= (LCAppend lc theList theNode).2.
Proof.
  intros Hlc Hl Hn. unfold LCAppend. destruct (bool_decide _); cbv zeta; cbn [fst snd].
  - split; [|done]. by apply lc_bounded_insert.
  - split; [|done].
    apply lc_bounded_insert; [|done]. apply lc_bounded_insert; [|done].
    apply lc_bounded_insert; [exact Hlc|apply Hlc].
Qed.

Lemma LCPrepend_bounded (lc : listCollection) theList theNode :
  (forall k, NIL <= lc_next (lc !!! k)) -> NIL <= theList -> NIL <= theNode ->
  (forall k, NIL <= lc_next ((LCPrepend lc theList theNode).1 !!! k)) /\
  NIL <= (LCPrepend lc theList theNode).2.
Proof.
  intros Hlc Hl Hn. unfold LCPrepend.
  destruct (LCAppend_bounded lc theList theNode Hlc Hl Hn) as [H1 _].
  destruct (LCAppend lc theList theNode) as [lc' h]. by split.
Qed.

Lemma WalkUp_probe_root g I Zig Zag ZigPrevLink ZagPrevLink R nextZig nextZag :
  WalkUp_probe g I Zig Zag ZigPrevLink ZagPrevLink = WU_Found R nextZig nextZag ->
  R = NIL \/ gN g <= R.
Proof.
  unfold WalkUp_probe. cbv zeta.
  repeat match goal with
  | |- context [bool_decide ?P] => destruct (bool_decide_reflect P)
  end; intros [= <- _ _] || discriminate; auto; right; lia.
Qed.

Lemma WalkUp_recordRoot_walk_state D Emb g0 g I R :
  walk_state D Emb g0 g -> gN g <= R -> walk_state D Emb g0 (WalkUp_recordRoot g I R).
Proof.
  intros H HR. unfold WalkUp_recordRoot. cbv zeta.
  assert (Hlist : NIL <= gp_GetVertexPertinentBicompList g
                           (gp_GetVertexParent g (R - gN g))) by apply H.
  assert (Hnode : NIL <= R - gN g) by (unfold NIL; lia).
  assert (Hlc : forall k, NIL <= lc_next (BicompLists g !!! k)) by apply H.
  destruct (bool_decide _).
  - destruct (LCAppend_bounded _ _ _ Hlc Hlist Hnode) as [H1 H2].
    destruct (LCAppend _ _ _) as [lc h]. cbn [fst snd] in *.
    apply walk_state_SetVertexPertinentBicompList; [|exact H2].
    by apply walk_state_BicompLists.
  - destruct (LCPrepend_bounded _ _ _ Hlc Hlist Hnode) as [H1 H2].
    destruct (LCPrepend _ _ _) as [lc h]. cbn [fst snd] in *.
    apply walk_state_SetVertexPertinentBicompList; [|exact H2].
    by apply walk_state_BicompLists.
Qed.

Lemma walk_state_SetVertexVisitedInfo D Emb g0 g v x :
  walk_state D Emb g0 g -> walk_state D Emb g0 (gp_SetVertexVisitedInfo g v x).
Proof. intros H. apply walk_state_vertex_data; [exact H|]. by intros []. Qed.

Lemma WalkUp_loop_walk_state D Emb g0 I fuel :
  forall g Zig Zag ZigPrevLink ZagPrevLink g',
  walk_state D Emb g0 g ->
  WalkUp_loop fuel g I Zig Zag ZigPrevLink ZagPrevLink = Some g' ->
  walk_state D Emb g0 g'.
Proof.
  induction fuel as [|fuel IH]; intros g Zig Zag ZigPrevLink ZagPrevLink g' H Hrun;
    cbn [WalkUp_loop] in Hrun.
  - destruct (bool_decide (Zig <> I)); [discriminate|]. by injection Hrun as <-.
  - destruct (bool_decide (Zig <> I)); [|by injection Hrun as <-].
    destruct (WalkUp_probe g I Zig Zag ZigPrevLink ZagPrevLink)
      as [|R nextZig nextZag] eqn:Hprobe; [by injection Hrun as <-|].
    cbv zeta in Hrun.
    assert (H1 : walk_state D Emb g0
              (gp_SetVertexVisitedInfo (gp_SetVertexVisitedInfo g Zig I) Zag I))
      by (by apply walk_state_SetVertexVisitedInfo, walk_state_SetVertexVisitedInfo).
    destruct (bool_decide_reflect (R = NIL)) as [HR|HR].
    + eapply IH; [exact H1|exact Hrun].
    + eapply IH; [|exact Hrun]. apply WalkUp_recordRoot_walk_state; [exact H1|].
      destruct (WalkUp_probe_root _ _ _ _ _ _ _ _ _ Hprobe); [done|].
      change (gN (gp_SetVertexVisitedInfo (gp_SetVertexVisitedInfo g Zig I) Zag I))
        with (gN g). lia.
Qed.

(** The Walkup leaves every mark as _WalkUp set it, and every arc. *)
Lemma WalkUp_recordRoot_marks g I R :
  E (WalkUp_recordRoot g I R) = E g /\
  forall v, gp_GetVertexPertinentAdjacencyInfo (WalkUp_recordRoot g I R) v =
            gp_GetVertexPertinentAdjacencyInfo g v.
Proof.
  unfold WalkUp_recordRoot. cbv zeta.
  destruct (if bool_decide _ then _ else _) as [lc h].
  split; [reflexivity|]. intros v.
  unfold gp_GetVertexPertinentAdjacencyInfo, gp_SetVertexPertinentBicompList.
  rewrite V_upd_vertex. destruct (decide _) as [<-|]; [|reflexivity].
  cbn [V with_BicompLists]. by destruct (V g !!! _).
Qed.

Lemma SetVertexVisitedInfo_marks g u x :
  forall v, gp_GetVertexPertinentAdjacencyInfo (gp_SetVertexVisitedInfo g u x) v =
            gp_GetVertexPertinentAdjacencyInfo g v.
Proof.
  intros v. unfold gp_GetVertexPertinentAdjacencyInfo, gp_SetVertexVisitedInfo.
  rewrite V_upd_vertex. destruct (decide _) as [<-|]; [|reflexivity]. by destruct (V g !!! _).
Qed.

Lemma WalkUp_loop_marks I fuel :
  forall g Zig Zag ZigPrevLink ZagPrevLink g',
  WalkUp_loop fuel g I Zig Zag ZigPrevLink ZagPrevLink = Some g' ->
  E g' = E g /\
  forall v, gp_GetVertexPertinentAdjacencyInfo g' v = gp_GetVertexPertinentAdjacencyInfo g v.
Proof.
  induction fuel as [|fuel IH]; intros g Zig Zag ZigPrevLink ZagPrevLink g' Hrun;
    cbn [WalkUp_loop] in Hrun.
  - destruct (bool_decide (Zig <> I)); [discriminate|]. by injection Hrun as <-.
  - destruct (bool_decide (Zig <> I)); [|by injection Hrun as <-].
    destruct (WalkUp_probe g I Zig Zag ZigPrevLink ZagPrevLink)
      as [|R nextZig nextZag] eqn:Hprobe; [by injection Hrun as <-|].
    cbv zeta in Hrun. destruct (bool_decide (R = NIL)).
    + destruct (IH _ _ _ _ _ _ Hrun) as [HE Hp]. split; [exact HE|].
      intros v. by rewrite Hp, !SetVertexVisitedInfo_marks.
    + destruct (IH _ _ _ _ _ _ Hrun) as [HE Hp].
      destruct (WalkUp_recordRoot_marks
                  (gp_SetVertexVisitedInfo (gp_SetVertexVisitedInfo g Zig I) Zag I) I R)
        as [HE2 Hp2].
      split; [by rewrite HE, HE2|].
      intros v. by rewrite Hp, Hp2, !SetVertexVisitedInfo_marks.
Qed.

Lemma WalkUp_marks fuel g I J g' :
  _WalkUp fuel g I J = Some g' ->
  E g' = E g /\
  forall v, gp_GetVertexPertinentAdjacencyInfo g' v =
            if decide (gp_GetNeighbor g J = v) then J
            else gp_GetVertexPertinentAdjacencyInfo g v.
Proof.
  intros Hrun. unfold _WalkUp in Hrun. cbv zeta in Hrun.
  destruct (WalkUp_loop_marks _ _ _ _ _ _ _ _ Hrun) as [HE Hp].
  split; [exact HE|]. intros v. rewrite Hp.
  unfold gp_GetVertexPertinentAdjacencyInfo, gp_SetVertexPertinentAdjacencyInfo.
  rewrite V_upd_vertex. destruct (decide _) as [<-|]; [|reflexivity]. by destruct (V g !!! _).
Qed.

Lemma fwd_list_next g I pre J post :
  fwd_list g I (pre ++ J :: post) ->
  J <> NIL /\
  gp_GetNextArc g J = hd (gp_GetVertexFwdArcList g I) post /\
  hd NIL post <> gp_GetVertexFwdArcList g I.
Proof.
  intros (Hshape & Hnd & Hnil).
  assert (HJ : J <> NIL).
  { rewrite Forall_forall in Hnil. apply Hnil. apply elem_of_app. right. by left. }
  split; [exact HJ|].
  assert (Hh : exists h, gp_GetVertexFwdArcList g I = h /\ h ∈ pre ++ [J] /\
                 exists t, arc_links g t (pre ++ J :: post) h).
  { destruct pre as [|a pre]; cbn [app] in Hshape; destruct Hshape as [Hh Hl].
    - exists J. split; [exact Hh|]. split; [by left|]. by eexists.
    - exists a. split; [exact Hh|]. split; [by left|]. by eexists. }
  destruct Hh as (h & Hh & Hin & t & Hlinks). rewrite Hh.
  apply arc_links_app in Hlinks as [_ (_ & Hn & _)]. split; [exact Hn|].
  destruct post as [|b post]; cbn [hd].
  - intros <-. rewrite Forall_forall in Hnil. apply (Hnil NIL); [|reflexivity].
    apply elem_of_app in Hin as [Hin|Hin%list_elem_of_singleton].
    + apply elem_of_app. by left.
    + apply elem_of_app. right. rewrite Hin. by left.
  - intros <-. apply NoDup_app in Hnd as (_ & Hdisj & HndJ).
    apply NoDup_cons in HndJ as [HJb _].
    apply elem_of_app in Hin as [Hin|Hin%list_elem_of_singleton].
    + apply (Hdisj b Hin). right. by left.
    + apply HJb. rewrite <- Hin. by left.
Qed.

Lemma NoDup_fmap_neighbor (nb : Z -> Z) (pre post : list Z) (J K : Z) :
  NoDup (nb <$> (pre ++ J :: post)) -> K ∈ pre -> nb K <> nb J.
Proof.
  rewrite fmap_app. intros (_ & Hdisj & _)%NoDup_app HK Heq.
  apply (Hdisj (nb K)); [by apply list_elem_of_fmap_2|].
  rewrite Heq. cbn [fmap list_fmap]. by left.
Qed.

Section Walkups.

Variable functions : graphFunctionTable.
Variable wfuel : nat.
Hypothesis Hwalkup : fpWalkUp functions = _WalkUp wfuel.

Variable I : Z.
Variables kids f : list Z.
Variable Emb : Z -> Prop.

Lemma WalkUp_walkup_inv g J g' pre post :
  f = pre ++ J :: post ->
  walkup_inv I kids f Emb pre g -> NoDup (gp_GetNeighbor g <$> f) ->
  _WalkUp wfuel g I J = Some g' ->
  walkup_inv I kids f Emb (pre ++ [J]) g' /\ NoDup (gp_GetNeighbor g' <$> f) /\
  gN g' = gN g.
Proof.
  intros Hf ((Hcl & Htw) & Hbd & (Hm1 & Hm2) & Hl) Hnb Hrun.
  destruct (WalkUp_marks _ _ _ _ _ Hrun) as [HE Hp].
  assert (Hnbr : forall K, gp_GetNeighbor g' K = gp_GetNeighbor g K).
  { intros K. unfold gp_GetNeighbor. by rewrite HE. }
  unfold _WalkUp in Hrun. cbv zeta in Hrun.
  set (W := gp_GetNeighbor g J) in *.
  set (gA := gp_SetVertexPertinentAdjacencyInfo g W J) in *.
  assert (HVA : forall v, V gA !!! v =
            if decide (W = v) then set_pertinentAdjacencyInfo J (V g !!! v) else V g !!! v).
  { intros v. unfold gA, gp_SetVertexPertinentAdjacencyInfo. rewrite V_upd_vertex.
    by destruct (decide (W = v)) as [->|]. }
  assert (HclA : links_closed gA Emb Emb).
  { destruct Hcl as (HNIL & Hv & Ha). split; [exact HNIL|]. split; [|exact Ha].
    intros v. unfold gp_GetFirstArc, gp_GetLastArc in *. rewrite HVA.
    destruct (decide (W = v)); [|apply Hv]. specialize (Hv v). by destruct (V g !!! v). }
  assert (HbdA : bicomp_lists_bounded gA).
  { destruct Hbd as [Hb1 Hb2]. split; [|exact Hb2].
    intros v. unfold gp_GetVertexPertinentBicompList in *. rewrite HVA.
    destruct (decide (W = v)); [|apply Hb1]. specialize (Hb1 v). by destruct (V g !!! v). }
  assert (HlA : walk_lists I kids gA f Emb).
  { apply (walk_lists_same _ _ g); [exact Hl|reflexivity|reflexivity| |reflexivity].
    intros v _. rewrite HVA. destruct (decide (W = v)); [|done]. by destruct (V g !!! v). }
  pose proof (WalkUp_loop_walk_state Emb Emb gA I wfuel _ _ _ _ _ _
                (walk_state_start _ _ _ HclA HbdA) Hrun) as (Hcl' & Hbd' & Hfr').
  split; [|split; [erewrite list_fmap_ext; [exact Hnb|intros; apply Hnbr]|apply Hfr']].
  split; [by split|]. split; [exact Hbd'|]. split; [|by eapply walk_lists_frame].
  assert (HJf : J ∈ f) by (rewrite Hf; apply elem_of_app; right; by left).
  split.
  - intros v. rewrite Hp, Hnbr. destruct (decide (W = v)) as [<-|Hne].
    + intros _. split; [apply elem_of_app; right; by left|reflexivity].
    + intros Hv. destruct (Hm1 v Hv) as [Hin Hnbv].
      split; [apply elem_of_app; by left|exact Hnbv].
  - intros K HK. rewrite Hp, Hnbr.
    apply elem_of_app in HK as [HK|HK%list_elem_of_singleton].
    + rewrite decide_False; [by apply Hm2|].
      rewrite Hf in Hnb. intros Heq. by apply (NoDup_fmap_neighbor _ _ _ _ _ Hnb HK).
    + rewrite HK. by rewrite decide_True.
Qed.

Lemma Embed_walkups_walkup_inv fuel : forall pre J post g g',
  f = pre ++ J :: post ->
  walkup_inv I kids f Emb pre g -> NoDup (gp_GetNeighbor g <$> f) ->
  Embed_walkups functions fuel g I J = Some g' ->
  walkup_inv I kids f Emb f g' /\ gN g' = gN g.
Proof.
  induction fuel as [|fuel IH]; intros pre J post g g' Hf Hinv Hnb Hrun;
    cbn [Embed_walkups] in Hrun.
  - destruct (bool_decide_reflect (J <> NIL)) as [_|HJ]; [discriminate|].
    destruct Hinv as (_ & _ & _ & (Hfwd & _)). rewrite Hf in Hfwd.
    by destruct (fwd_list_next _ _ _ _ _ Hfwd).
  - destruct (bool_decide_reflect (J <> NIL)) as [_|HJ].
    2:{ destruct Hinv as (_ & _ & _ & (Hfwd & _)). rewrite Hf in Hfwd.
        by destruct (fwd_list_next _ _ _ _ _ Hfwd). }
    rewrite Hwalkup in Hrun.
    destruct (_WalkUp wfuel g I J) as [g1|] eqn:Hup; [|discriminate].
    cbn [mbind option_bind] in Hrun. cbv zeta in Hrun.
    destruct (WalkUp_walkup_inv _ _ _ _ _ Hf Hinv Hnb Hup) as (Hinv1 & Hnb1 & HgN1).
    pose proof Hinv1 as (_ & _ & _ & (Hfwd1 & _)). rewrite Hf in Hfwd1.
    destruct (fwd_list_next _ _ _ _ _ Hfwd1) as (_ & Hnext & Hhead).
    rewrite Hnext in Hrun. destruct post as [|b post]; cbn [hd] in Hrun, Hhead.
    + rewrite bool_decide_eq_true_2 in Hrun by reflexivity.
      assert (Hend : g' = g1).
      { destruct fuel; cbn [Embed_walkups] in Hrun;
          change (bool_decide (NIL <> NIL)) with false in Hrun; by injection Hrun as <-. }
      rewrite Hend. rewrite <- Hf in Hinv1. by split.
    + rewrite bool_decide_eq_false_2 in Hrun by exact Hhead.
      destruct (IH (pre ++ [J]) b post g1 g') as [H2 HgN2];
        [by rewrite <- app_assoc|exact Hinv1|exact Hnb1|exact Hrun|].
      split; [exact H2|congruence].
Qed.

Lemma Embed_walkups_walk_inv fuel g g' :
  embedded_arcs g Emb -> bicomp_lists_bounded g -> unmarked g ->
  walk_lists I kids g f Emb -> NoDup (gp_GetNeighbor g <$> f) ->
  Embed_walkups functions fuel g I (gp_GetVertexFwdArcList g I) = Some g' ->
  walk_inv I kids g' f Emb /\ gN g' = gN g.
Proof.
  intros Hemb Hbd Hun Hl Hnb Hrun.
  assert (Hinv : walkup_inv I kids f Emb [] g).
  { split; [exact Hemb|]. split; [exact Hbd|]. split; [|exact Hl]. split.
    - intros W HW. by destruct (HW (Hun W)).
    - intros J HJ. by apply elem_of_nil in HJ. }
  pose proof Hl as ((Hshape & _) & _). destruct f as [|h rest] eqn:Hf.
  - rewrite Hshape in Hrun.
    assert (Hend : g' = g).
    { destruct fuel; cbn [Embed_walkups] in Hrun;
        change (bool_decide (NIL <> NIL)) with false in Hrun; by injection Hrun as <-. }
    rewrite Hend. by split.
  - destruct Hshape as [Hh _]. rewrite Hh in Hrun. rewrite <- Hf in *.
    apply (Embed_walkups_walkup_inv fuel [] h rest g g'); auto.
Qed.

End Walkups.

(** ** The Walkdowns of a step *)

Lemma lc_path_next (lc : listCollection) (h : Z) : forall pre x l c post,
  x :: l = pre ++ c :: post -> lc_path lc x l h -> lc_next (lc !!! c) = hd h post.
Proof.
  induction pre as [|a pre IH]; intros x l c post Heq Hpath.
  - injection Heq as -> ->. destruct post as [|y post]; [exact Hpath|apply Hpath].
  - injection Heq as -> ->. destruct pre as [|a' pre].
    + cbn [app lc_path] in Hpath. destruct Hpath as [_ Hpath].
      by apply (IH c post c post).
    + cbn [app lc_path] in Hpath. destruct Hpath as [_ Hpath].
      by apply (IH a' (pre ++ c :: post) c post).
Qed.

Lemma lc_list_next (lc : listCollection) head pre c post :
  lc_list lc head (pre ++ c :: post) ->
  c <> NIL /\ LCGetNext lc head c = hd NIL post.
Proof.
  intros (Hshape & Hnd & Hnil). split.
  { rewrite Forall_forall in Hnil. apply Hnil. apply elem_of_app. right. by left. }
  assert (Hx : exists x l, x :: l = pre ++ c :: post /\ head = x /\ lc_path lc x l x).
  { destruct pre as [|a pre]; cbn [app] in *; destruct Hshape as (Hh & Hpath & _);
      eexists _, _; eauto. }
  destruct Hx as (x & l & Heq & -> & Hpath).
  unfold LCGetNext. rewrite (lc_path_next lc x pre x l c post Heq Hpath).
  destruct post as [|b post]; cbn [hd].
  - by rewrite bool_decide_eq_true_2.
  - rewrite bool_decide_eq_false_2; [reflexivity|]. intros ->.
    apply NoDup_app in Hnd as (_ & Hdisj & Hndc). apply NoDup_cons in Hndc as [Hc _].
    destruct pre as [|a pre]; injection Heq as <- _.
    + apply Hc. by left.
    + apply (Hdisj x); [by left|]. right. by left.
Qed.

Lemma walk_inv_marks I kids g f Emb :
  walk_inv I kids g f Emb -> fwd_list g I f /\ marks_unembedded g f.
Proof.
  intros (_ & _ & (Hm1 & Hm2) & (Hfwd & _)). split; [exact Hfwd|].
  intros W. split.
  - intros HW. destruct (Hm1 W HW) as [Hin Hnb]. by eexists.
  - intros (J & HJ & <-). rewrite (Hm2 J HJ).
    destruct Hfwd as (_ & _ & Hnil). rewrite Forall_forall in Hnil. by apply Hnil.
Qed.

Section Step.

Variables functions merging leaves : graphFunctionTable.
Variables wfuel dfuel mfuel : nat.
Hypothesis Hwalkup : fpWalkUp functions = _WalkUp wfuel.
Hypothesis Hwalkdown : fpWalkDown functions = _WalkDown merging dfuel.
Hypothesis Hembed : fpEmbedBackEdgeToDescendant merging = _EmbedBackEdgeToDescendant.
Hypothesis Hmerge : fpMergeBicomps merging = _MergeBicomps leaves mfuel.
Hypothesis Hinit : fpInitVertexRec leaves = _InitVertexRec.
Hypothesis Hblocked :
  fpHandleBlockedDescendantBicomp merging = _HandleBlockedDescendantBicomp.
Hypothesis Hinactive : fpHandleInactiveVertex merging = _HandleInactiveVertex.

Variable I : Z.
Variables kids f : list Z.

Lemma Embed_walkdowns_walk_ok N fuel : forall pre child post g RetVal r,
  kids = pre ++ child :: post ->
  walk_ok I kids f g -> gN g = N ->
  Embed_walkdowns functions fuel g N I child RetVal = Some r ->
  match r with
  | inl g' => walk_ok I kids f g'
  | inr (_, g') => walk_ok I kids f g'
  end.
Proof.
  induction fuel as [|fuel IH]; intros pre child post g RetVal r Hkids Hok HgN Hrun;
    cbn [Embed_walkdowns] in Hrun.
  - destruct (bool_decide (child <> NIL)); [discriminate|]. by injection Hrun as <-.
  - destruct (bool_decide (child <> NIL)); [|by injection Hrun as <-].
    assert (Hstep : exists RetVal1 g1,
              (if bool_decide (gp_GetVertexPertinentBicompList g child <> NIL)
               then fpWalkDown functions g I (child + N) else Some (RetVal, g))
              = Some (RetVal1, g1) /\ walk_ok I kids f g1 /\ gN g1 = N).
    { destruct (bool_decide (gp_GetVertexPertinentBicompList g child <> NIL)).
      - rewrite Hwalkdown in Hrun |- *.
        destruct (_WalkDown merging dfuel g I (child + N)) as [[RetVal1 g1]|] eqn:Hdown;
          [|discriminate].
        exists RetVal1, g1. split; [reflexivity|].
        destruct (WalkDown_walk_ok merging leaves mfuel Hembed Hmerge Hinit Hblocked
                    Hinactive I kids f dfuel g (child + N) RetVal1 g1 Hok) as [H1 H2].
        + rewrite HgN, Hkids. replace (child + N - N) with child by lia.
          apply elem_of_app. right. by left.
        + exact Hdown.
        + split; [exact H1|congruence].
      - exists RetVal, g. by repeat split. }
    destruct Hstep as (RetVal1 & g1 & Hstep & Hok1 & HgN1). rewrite Hstep in Hrun.
    cbn [mbind option_bind] in Hrun.
    destruct (decide (RetVal1 <> OK)).
    + destruct (decide (RetVal1 = NONEMBEDDABLE)); by injection Hrun as <-.
    + pose proof Hok1 as (f' & Emb & _ & (_ & _ & _ & (_ & _ & _ & Hlist & _))).
      rewrite Hkids in Hlist. destruct (lc_list_next _ _ _ _ _ Hlist) as [_ Hnext].
      unfold gp_GetVertexSortedDFSChildList in Hrun.
      unfold gp_GetVertexSortedDFSChildList in Hnext. rewrite Hnext in Hrun.
      destruct post as [|b post]; cbn [hd] in Hrun.
      * destruct fuel; cbn [Embed_walkdowns] in Hrun;
          change (bool_decide (NIL <> NIL)) with false in Hrun; by injection Hrun as <-.
      * apply (IH (pre ++ [child]) b post g1 RetVal1 r); auto. by rewrite <- app_assoc.
Qed.

Lemma Embed_walks_walk_ok N fuel g Emb r :
  gN g = N ->
  embedded_arcs g Emb -> bicomp_lists_bounded g -> unmarked g ->
  walk_lists I kids g f Emb -> NoDup (gp_GetNeighbor g <$> f) ->
  (forall gw,
     Embed_walkups functions fuel (gp_SetVertexVisitedInfo g I N) I
       (gp_GetVertexFwdArcList (gp_SetVertexVisitedInfo g I N) I) = Some gw ->
     walk_inv I kids gw f Emb) /\
  (Embed_walks functions fuel g N I = Some r ->
   match r with
   | inl g' => walk_ok I kids f g'
   | inr (_, g') => walk_ok I kids f g'
   end).
Proof.
  intros HgN (Hcl & Htw) Hbd Hun Hl Hnb.
  set (g0 := gp_SetVertexVisitedInfo g I N).
  assert (H0 : walk_state Emb Emb g g0).
  { apply walk_state_SetVertexVisitedInfo. by apply walk_state_start. }
  assert (Hups : forall gw,
            Embed_walkups functions fuel g0 I (gp_GetVertexFwdArcList g0 I) = Some gw ->
            walk_inv I kids gw f Emb /\ gN gw = N).
  { intros gw Hrun. rewrite <- HgN. change (gN g) with (gN g0).
    apply (Embed_walkups_walk_inv functions wfuel Hwalkup I kids f Emb fuel g0 gw);
      [split; [apply H0|exact Htw]|apply H0| |by eapply walk_lists_frame; [|apply H0]
      |exact Hnb|exact Hrun].
    intros W. unfold g0. by rewrite SetVertexVisitedInfo_marks. }
  split; [intros gw Hrun; by apply Hups|].
  intros Hrun. unfold Embed_walks in Hrun. cbv zeta in Hrun. fold g0 in Hrun.
  destruct (Embed_walkups functions fuel g0 I (gp_GetVertexFwdArcList g0 I)) as [gw|] eqn:Hw;
    [|discriminate].
  cbn [mbind option_bind] in Hrun.
  destruct (Hups gw eq_refl) as [Hinv HgNw].
  assert (Hok : walk_ok I kids f gw) by (by exists f, Emb).
  destruct (Embed_walkdowns functions fuel gw N I (gp_GetVertexSortedDFSChildList gw I) OK)
    as [r1|] eqn:Hdowns; [|discriminate].
  cbn [mbind option_bind] in Hrun.
  assert (H1 : match r1 with
               | inl g' => walk_ok I kids f g'
               | inr (_, g') => walk_ok I kids f g'
               end).
  { pose proof Hinv as (_ & _ & _ & (_ & _ & _ & (Hshape & _) & _)).
    destruct kids as [|c rest] eqn:Hkids.
    - unfold gp_GetVertexSortedDFSChildList in Hdowns, Hshape. rewrite Hshape in Hdowns.
      destruct fuel; cbn [Embed_walkdowns] in Hdowns;
        change (bool_decide (NIL <> NIL)) with false in Hdowns; by injection Hdowns as <-.
    - destruct Hshape as [Hh _].
      unfold gp_GetVertexSortedDFSChildList in Hdowns, Hh. rewrite Hh in Hdowns.
      rewrite <- Hkids in *.
      by apply (Embed_walkdowns_walk_ok N fuel [] c rest gw OK r1). }
  destruct r1 as [g1|[RetVal g1]]; injection Hrun as <-; [exact H1|].
  refine (proj1 (walk_ok_state I kids f _ _ H1 _)).
  intros Emb' H. by apply walk_state_SetVertexPertinentBicompList.
Qed.

End Step.

(** ** The marks of the back edges through a step *)

(** C4, as the code has it.  In step I of gp_Embed with the core functions,
    on a state where no vertex is marked, the fwdArcList of I holds the
    forward arcs f, which lead to different vertices below N and are no
    arcs of the adjacency lists:
    - _WalkUp(I, J) sets the mark of the neighbour of J to J and no other
      mark;
    - when the Walkups of the step are done, a vertex is marked exactly
      when an arc of the fwdArcList of I leads to it;
    - the visit of W by the Walkdown does nothing where W is not marked,
      and where W is marked it ends with the back edge embedded and the
      mark cleared;
    - when the walks of the step are done, the fwdArcList of I holds some
      of the arcs of f, and a vertex is marked exactly when one of them
      leads to it. *)
Theorem Embed_walks_marks_unembedded (fuel cfuel : nat)
    (isolateKuratowski isolateOuterplanar : Graph -> Z -> Z -> RetCode * Graph)
    (sortVertices : Graph -> RetCode * Graph)
    (g : Graph) (I : Z) (kids f : list Z) (Emb : Z -> Prop) :
  let functions := core_functions cfuel isolateKuratowski isolateOuterplanar sortVertices in
  embedded_arcs g Emb -> bicomp_lists_bounded g -> unmarked g ->
  walk_lists I kids g f Emb -> NoDup (gp_GetNeighbor g <$> f) ->
  (forall g1 J g2, fpWalkUp functions g1 I J = Some g2 ->
     forall v, gp_GetVertexPertinentAdjacencyInfo g2 v =
               if decide (gp_GetNeighbor g1 J = v) then J
               else gp_GetVertexPertinentAdjacencyInfo g1 v) /\
  (forall gw,
     let g0 := gp_SetVertexVisitedInfo g I (gN g) in
     Embed_walkups functions fuel g0 I (gp_GetVertexFwdArcList g0 I) = Some gw ->
     fwd_list gw I f /\ marks_unembedded gw f) /\
  (forall g1 RootVertex RootSide W WPrevLink r,
     WalkDown_embedAt functions g1 I RootVertex RootSide W WPrevLink = Some r ->
     (gp_GetVertexPertinentAdjacencyInfo g1 W = NIL -> r = inr g1) /\
     (gp_GetVertexPertinentAdjacencyInfo g1 W <> NIL ->
      forall g2, r = inr g2 ->
        gp_GetVertexPertinentAdjacencyInfo g2 W = NIL /\
        exists gm,
          g2 = gp_SetVertexPertinentAdjacencyInfo
                 (_EmbedBackEdgeToDescendant gm RootSide RootVertex W WPrevLink) W NIL)) /\
  (forall r, Embed_walks functions fuel g (gN g) I = Some r ->
     exists f', f' ⊆ f /\ fwd_list (walked r) I f' /\ marks_unembedded (walked r) f').
Proof.
  intros functions Hemb Hbd Hun Hl Hnb.
  split; [|split; [|split]].
  - intros g1 J g2 Hrun. by destruct (WalkUp_marks _ _ _ _ _ Hrun).
  - intros gw g0 Hrun.
    eapply walk_inv_marks.
    eapply (Embed_walks_walk_ok functions _ _ cfuel cfuel cfuel eq_refl eq_refl eq_refl
              eq_refl eq_refl eq_refl eq_refl I kids f (gN g) fuel g Emb (inl g) eq_refl
              Hemb Hbd Hun Hl Hnb).
    exact Hrun.
  - intros g1 RootVertex RootSide W WPrevLink r Hrun. unfold WalkDown_embedAt in Hrun.
    split.
    + intros HW. rewrite bool_decide_eq_false_2 in Hrun by (intros Hne; by apply Hne).
      by injection Hrun as <-.
    + intros HW g2 ->. rewrite bool_decide_eq_true_2 in Hrun by exact HW.
      destruct (if sp_NonEmpty (theStack g1) then _ else _) as [[RetVal gm]|];
        [|discriminate].
      cbn [mbind option_bind] in Hrun. destruct (decide (RetVal <> OK)); [discriminate|].
      injection Hrun as <-. split; [|by exists gm].
      unfold gp_GetVertexPertinentAdjacencyInfo, gp_SetVertexPertinentAdjacencyInfo.
      rewrite V_upd_vertex, decide_True by done. reflexivity.
  - intros r Hrun.
    destruct (Embed_walks_walk_ok functions _ _ cfuel cfuel cfuel eq_refl eq_refl eq_refl
                eq_refl eq_refl eq_refl eq_refl I kids f (gN g) fuel g Emb r eq_refl
                Hemb Hbd Hun Hl Hnb) as [_ Hend].
    specialize (Hend Hrun).
    assert (Hok : walk_ok I kids f (walked r)) by (by destruct r as [g'|[RetVal g']]).
    destruct Hok as (f' & Emb' & Hsub & Hinv). exists f'. split; [exact Hsub|].
    by eapply walk_inv_marks.
Qed.

(** ** Step 0 on the kite *)

Lemma lookup_total_Forall {A : Type} `{Inhabited A} (P : A -> Prop) (m : gmap Z A) :
  P inhabitant -> Forall (fun kx => P kx.2) (map_to_list m) -> forall k, P (m !!! k).
Proof.
  intros Hi Hall k. rewrite lookup_total_alt.
  destruct (m !! k) as [x|] eqn:Hk; cbn; [|exact Hi].
  apply elem_of_map_to_list in Hk. rewrite Forall_forall in Hall. apply (Hall (k, x) Hk).
Qed.

Ltac listed_records :=
  match goal with
  | |- Forall _ ?l =>
      let l' := eval vm_compute in l in
      replace l with l' by (vm_compute; reflexivity)
  end;
  repeat (apply Forall_cons; split; [cbn; unfold NIL; try split; try lia; try reflexivity|]);
  try apply Forall_nil_2.

Lemma kite_tree_arcs a : kite_tree a -> a = NIL \/ a = 0 \/ a = 1 \/ a = 2 \/ a = 3 \/ a = 4 \/ a = 5.
Proof. unfold kite_tree, NIL. lia. Qed.

Lemma kite_step1_embedded : embedded_arcs kite_step1 kite_tree.
Proof.
  split; [split; [|split]|].
  - unfold kite_tree, NIL. lia.
  - apply (lookup_total_Forall (fun r => kite_tree (vlink0 r) /\ kite_tree (vlink1 r))).
    + cbn. unfold kite_tree, NIL. lia.
    + unfold kite_tree. listed_records.
  - intros a Ha. apply kite_tree_arcs in Ha.
    destruct Ha as [-> | [-> | [-> | [-> | [-> | [-> | ->]]]]]]; vm_compute; repeat split; discriminate.
  - intros a Ha HaN. apply kite_tree_arcs in Ha.
    destruct Ha as [-> | [-> | [-> | [-> | [-> | [-> | ->]]]]]]; [done|..];
      vm_compute; repeat split; discriminate.
Qed.

Lemma kite_step1_bounded : bicomp_lists_bounded kite_step1.
Proof.
  split.
  - apply (lookup_total_Forall (fun r => NIL <= pertinentBicompList r)); [done|].
    listed_records.
  - apply (lookup_total_Forall (fun n => NIL <= lc_next n)); [done|]. listed_records.
Qed.

Lemma kite_step1_unmarked : unmarked kite_step1.
Proof.
  unfold unmarked, gp_GetVertexPertinentAdjacencyInfo.
  apply (lookup_total_Forall (fun r => pertinentAdjacencyInfo r = NIL) (V kite_step1));
    [done|].
  listed_records.
Qed.

Lemma kite_step1_lists : walk_lists 0 [1] kite_step1 [6; 8] kite_tree.
Proof.
  assert (Hnd : NoDup [6; 8]).
  { apply NoDup_cons. split; [|apply NoDup_singleton].
    intros Hin%list_elem_of_singleton. discriminate. }
  split; [|split; [|split; [|split]]].
  - repeat split; try (vm_compute; reflexivity); [exact Hnd|by repeat constructor].
  - intros J [-> | [-> | HJ]%elem_of_cons]%elem_of_cons; [| |by apply elem_of_nil in HJ].
    + split; [unfold kite_tree, NIL; lia|]. split; [|vm_compute; reflexivity].
      change (gp_GetTwinArc kite_step1 6) with 7.
      intros [H|[H|H]%elem_of_cons]%elem_of_cons; [discriminate|discriminate|].
      by apply elem_of_nil in H.
    + split; [unfold kite_tree, NIL; lia|]. split; [|vm_compute; reflexivity].
      change (gp_GetTwinArc kite_step1 8) with 9.
      intros [H|[H|H]%elem_of_cons]%elem_of_cons; [discriminate|discriminate|].
      by apply elem_of_nil in H.
  - vm_compute. reflexivity.
  - split; [|split].
    + vm_compute. auto.
    + apply NoDup_singleton.
    + by repeat constructor.
  - apply Forall_cons. split; [|apply Forall_nil_2]. vm_compute. auto.
Qed.

Lemma kite_step1_neighbors : NoDup (gp_GetNeighbor kite_step1 <$> [6; 8]).
Proof.
  change (gp_GetNeighbor kite_step1 <$> [6; 8]) with [2; 3].
  apply NoDup_cons. split; [|apply NoDup_singleton].
  intros Hin%list_elem_of_singleton. discriminate.
Qed.

(** C4 fails as the spec states it: in step 0 on the kite, whose vertex 0
    has the forward arcs 6 and 8 to the vertices 2 and 3, the Walkup of
    the arc 6 leaves the state kite_walkup1.  The Walkup of the arc 8 is
    still to come: the back edge (0, 3) is not embedded, the arc 8 is in
    the fwdArcList of 0, and the vertex 3 is not marked. *)
Lemma marks_fail_between_walkups_on_kite :
  fwd_list kite_step0 0 [6; 8] /\
  _WalkUp 20 kite_step0 0 6 = Some kite_walkup1 /\
  fwd_list kite_walkup1 0 [6; 8] /\
  gp_GetNeighbor kite_walkup1 8 = 3 /\
  gp_GetVertexPertinentAdjacencyInfo kite_walkup1 3 = NIL /\
  ~ marks_unembedded kite_walkup1 [6; 8].
Proof.
  assert (Hnd : NoDup [6; 8]).
  { apply NoDup_cons. split; [|apply NoDup_singleton].
    intros Hin%list_elem_of_singleton. discriminate. }
  split; [repeat split; try (vm_compute; reflexivity); [exact Hnd|by repeat constructor]|].
  split; [vm_compute; reflexivity|].
  split; [repeat split; try (vm_compute; reflexivity); [exact Hnd|by repeat constructor]|].
  split; [vm_compute; reflexivity|]. split; [vm_compute; reflexivity|].
  intros Hmarks. destruct (Hmarks 3) as [_ Hback]. apply Hback; [|vm_compute; reflexivity].
  exists 8. split; [right; by left|vm_compute; reflexivity].
Qed.

Lemma Embed_walks_marks_unembedded_witness :
  exists f', f' ⊆ [6; 8] /\ fwd_list kite_walked0 0 f' /\ marks_unembedded kite_walked0 f'.
Proof.
  destruct (Embed_walks_marks_unembedded 20 20 example_isolate example_isolate example_sort
              kite_step1 0 [1] [6; 8] kite_tree
              kite_step1_embedded kite_step1_bounded kite_step1_unmarked
              kite_step1_lists kite_step1_neighbors) as (_ & _ & _ & Hend).
  destruct (Embed_walks (example_functions 20) 20 kite_step1 4 0) as [r|] eqn:Hrun.
  - assert (Hw : kite_walked0 = walked r) by (unfold kite_walked0; by rewrite Hrun).
    rewrite Hw. apply Hend. exact Hrun.
  - vm_compute in Hrun. discriminate.
Defined.

(** * Further properties of the code *)

(** ** _InvertVertex on a well-formed adjacency list *)

Lemma inverted_arcRec_twice a : inverted_arcRec (inverted_arcRec a) = a.
Proof. by destruct a. Qed.

Lemma inverted_vertexRec_twice r : inverted_vertexRec (inverted_vertexRec r) = r.
Proof. by destruct r. Qed.

(** X1: _InvertVertex reverses the adjacency list of the vertex: where the
    adjacency list of v holds the arcs l, from the first arc to the last,
    the call returns, given fuel for every arc, and the adjacency list of v
    then holds the same arcs in the opposite order. *)
Theorem InvertVertex_reverses_list (fuel : nat) (g : Graph) (v : Z) (l : list Z) :
  adjacency_list g v l -> (length l <= fuel)%nat ->
  exists g', _InvertVertex fuel g v = Some g' /\ adjacency_list g' v (reverse l).
Proof.
  intros Hadj Hfuel.
  destruct (InvertVertex_reverses fuel g v l Hadj Hfuel) as (g' & Hrun & Hadj' & _).
  by exists g'.
Qed.

(** X2: _InvertVertex is its own inverse: two calls on a vertex with a
    well-formed adjacency list leave every arc record and every vertex
    record as they were, and nothing else of the graph changes. *)
Theorem InvertVertex_twice (fuel : nat) (g : Graph) (v : Z) (l : list Z) :
  adjacency_list g v l -> (length l <= fuel)%nat ->
  exists g1 g2,
    _InvertVertex fuel g v = Some g1 /\ _InvertVertex fuel g1 v = Some g2 /\
    (forall K, E g2 !!! K = E g !!! K) /\ (forall u, V g2 !!! u = V g !!! u) /\
    same_frame g g2.
Proof.
  intros Hadj Hfuel.
  destruct (InvertVertex_reverses fuel g v l Hadj Hfuel)
    as (g1 & Hrun1 & Hadj1 & HE1 & HV1 & Hfr1).
  assert (Hfuel1 : (length (reverse l) <= fuel)%nat) by (by rewrite length_reverse).
  destruct (InvertVertex_reverses fuel g1 v (reverse l) Hadj1 Hfuel1)
    as (g2 & Hrun2 & _ & HE2 & HV2 & Hfr2).
  exists g1, g2. split; [exact Hrun1|]. split; [exact Hrun2|]. split; [|split].
  - intros K. rewrite HE2, HE1. destruct (decide (K ∈ reverse l)) as [Hin|Hin].
    + rewrite decide_True by (by apply elem_of_reverse). apply inverted_arcRec_twice.
    + rewrite decide_False; [reflexivity|]. intros Hin'. apply Hin. by apply elem_of_reverse.
  - intros u. rewrite HV2. destruct (decide (u = v)) as [->|Hne].
    + rewrite HV1, decide_True by done. apply inverted_vertexRec_twice.
    + rewrite HV1. by rewrite decide_False.
  - by eapply same_frame_trans.
Qed.

(** ** _MergeBicomps and the stack *)

Lemma MergeBicomps_result functions fuel g I RootVertex W WPrevLink r g' :
  _MergeBicomps functions fuel g I RootVertex W WPrevLink = Some (r, g') ->
  r = OK /\ sp_NonEmpty (theStack g') = false.
Proof.
  unfold _MergeBicomps. generalize fuel at 2. intros n. revert g.
  induction n as [|n IH]; intros g Hrun; cbn [MergeBicomps_loop] in Hrun.
  - destruct (sp_NonEmpty (theStack g)) eqn:Hs; [discriminate|]. by injection Hrun as <- <-.
  - destruct (sp_NonEmpty (theStack g)) eqn:Hs; [|by injection Hrun as <- <-].
    destruct (MergeBicomps_pair functions fuel g) as [g1|]; [|discriminate].
    by apply (IH g1).
Qed.

(** X3: _MergeBicomps has no failure of its own: whenever it returns, the
    result is OK and the stack is empty, every pair of it merged. *)
Theorem MergeBicomps_empties_stack (functions : graphFunctionTable) (fuel : nat)
    (g : Graph) (I RootVertex W WPrevLink : Z) (r : RetCode) (g' : Graph) :
  _MergeBicomps functions fuel g I RootVertex W WPrevLink = Some (r, g') ->
  r = OK /\ sp_NonEmpty (theStack g') = false.
Proof. apply MergeBicomps_result. Qed.

(** ** The postprocessing of gp_Embed *)

(** X4: _EmbedPostprocess never improves the result of the edge embedding:
    it returns the result it was given, or NOTOK; given a result that is
    neither OK nor NONEMBEDDABLE it returns it with the graph as it is. *)
Theorem EmbedPostprocess_result isolateKuratowski isolateOuterplanar
    (functions : graphFunctionTable) (fuel : nat) (g : Graph) (I : Z)
    (edgeEmbeddingResult r : RetCode) (g' : Graph) :
  _EmbedPostprocess isolateKuratowski isolateOuterplanar functions fuel g I
    edgeEmbeddingResult = Some (r, g') ->
  (r = edgeEmbeddingResult \/ r = NOTOK) /\
  (edgeEmbeddingResult = NOTOK -> g' = g).
Proof.
  unfold _EmbedPostprocess. cbv zeta. intros Hrun.
  destruct (decide (edgeEmbeddingResult = OK)) as [->|Hne].
  - split; [|discriminate].
    destruct (_OrientVerticesInEmbedding fuel g) as [[r1 g1]|]; [|discriminate].
    cbn [mbind option_bind] in Hrun.
    destruct (decide (r1 <> OK)); [injection Hrun as <- _; by right|].
    destruct (_JoinBicomps functions fuel g1) as [[r2 g2]|]; [|discriminate].
    cbn [mbind option_bind] in Hrun.
    destruct (decide (r2 <> OK)); injection Hrun as <- _; auto.
  - destruct (decide (edgeEmbeddingResult = NONEMBEDDABLE)) as [->|Hne2].
    + split; [|discriminate]. destruct (embedFlags g).
      * destruct (isolateKuratowski g I NIL) as [r1 g1].
        destruct (decide (r1 <> OK)); injection Hrun as <- _; auto.
      * destruct (isolateOuterplanar g I NIL) as [r1 g1].
        destruct (decide (r1 <> OK)); injection Hrun as <- _; auto.
      * injection Hrun as <- _. auto.
    + injection Hrun as <- <-. auto.
Qed.

(** ** _JoinBicomps *)

(** X5: where no root copy has an arc, _JoinBicomps has nothing to merge:
    it returns OK and the graph as it is, whatever the fuel. *)
Theorem JoinBicomps_nothing_to_join (functions : graphFunctionTable) (fuel : nat)
    (g : Graph) :
  (forall R, gN g <= R < gN g + gNV g -> gp_GetFirstArc g R = NIL) ->
  _JoinBicomps functions fuel g = Some (OK, g).
Proof.
  intros Hnone. unfold _JoinBicomps.
  assert (Hroots : forall roots, Forall (fun R => gp_GetFirstArc g R = NIL) roots ->
            JoinBicomps_roots functions fuel g roots = Some g).
  { induction roots as [|R roots IH]; intros Hall; [reflexivity|].
    apply Forall_cons in Hall as [HR Hall]. cbn [JoinBicomps_roots].
    unfold gp_IsArc. rewrite HR. rewrite bool_decide_eq_false_2 by (intros Hne; by apply Hne).
    cbn [mbind option_bind]. by apply IH. }
  rewrite Hroots; [reflexivity|].
  apply Forall_forall. intros R HR%elem_of_seqZ. apply Hnone. lia.
Qed.

(** ** _MergeVertex: the union of two adjacency lists *)

Lemma MergeVertex_redirect_spec W l : forall fuel g J,
  arc_chain g J l -> (length l <= fuel)%nat ->
  exists g', MergeVertex_redirect fuel g W J = Some g' /\
    V g' = V g /\ same_frame g g' /\
    (forall K, gp_GetNextArc g' K = gp_GetNextArc g K) /\
    (forall K, gp_GetPrevArc g' K = gp_GetPrevArc g K) /\
    (forall K, gp_GetEdgeType g' K = gp_GetEdgeType g K) /\
    (forall K, gp_GetNeighbor g' K =
       if decide (K ∈ gp_GetTwinArc g <$> l) then W else gp_GetNeighbor g K).
Proof.
  induction l as [|a l IH]; intros fuel g J Hc Hfuel.
  - simpl in Hc. exists g.
    split; [destruct fuel; simpl; by rewrite Hc|].
    split; [reflexivity|]. split; [apply same_frame_refl|].
    do 3 (split; [reflexivity|]).
    intros K. rewrite fmap_nil. rewrite decide_False; [reflexivity|apply not_elem_of_nil].
  - simpl in Hc. destruct Hc as (-> & Harc & Hc).
    destruct fuel as [|fuel]; [simpl in Hfuel; lia|]. simpl in Hfuel.
    cbn [MergeVertex_redirect]. rewrite Harc. cbv zeta.
    set (g1 := gp_SetNeighbor g (gp_GetTwinArc g a) W).
    destruct (IH fuel g1 (gp_GetNextArc g1 a)) as (g' & Hrun & HV & Hfr & Hn & Hp & Ht & Hnb);
      [| lia |].
    { unfold g1 at 2. rewrite next_SetNeighbor.
      eapply arc_chain_frame; [exact Hc|]. intros K HK.
      apply (next_SetNeighbor g (gp_GetTwinArc g a) W K). }
    exists g'. split; [exact Hrun|]. split; [by rewrite HV|].
    split; [eapply same_frame_trans; [|exact Hfr]; repeat split|].
    split; [intros K; rewrite Hn; apply next_SetNeighbor|].
    split; [intros K; rewrite Hp; apply prev_SetNeighbor|].
    split; [intros K; rewrite Ht; apply edgeType_SetNeighbor|].
    intros K. rewrite Hnb. unfold g1. rewrite neighbor_SetNeighbor.
    change (gp_GetTwinArc (gp_SetNeighbor g (gp_GetTwinArc g a) W)) with (gp_GetTwinArc g).
    rewrite fmap_cons.
    destruct (decide (K ∈ gp_GetTwinArc g <$> l)) as [Hin|Hnin].
    + rewrite decide_True by (by right). reflexivity.
    + destruct (decide (gp_GetTwinArc g a = K)) as [<-|Hne].
      * rewrite decide_True by (by left). reflexivity.
      * rewrite decide_False; [reflexivity|].
        intros [->|Hin]%elem_of_cons; done.
Qed.

(** Two runs of arcs, linked end to end, make one adjacency list. *)
Lemma adjacency_list_join g g' W l1 l2 :
  l1 <> [] -> l2 <> [] ->
  arc_links g NIL l1 NIL -> arc_links g NIL l2 NIL ->
  NoDup (l1 ++ l2) -> Forall (fun a => a <> NIL) (l1 ++ l2) ->
  gp_GetFirstArc g' W = hd NIL l1 ->
  gp_GetLastArc g' W = default NIL (last l2) ->
  (forall K, K ∈ l1 ++ l2 -> gp_GetNextArc g' K =
     if decide (Some K = last l1) then hd NIL l2 else gp_GetNextArc g K) ->
  (forall K, K ∈ l1 ++ l2 -> gp_GetPrevArc g' K =
     if decide (Some K = head l2) then default NIL (last l1) else gp_GetPrevArc g K) ->
  adjacency_list g' W (l1 ++ l2).
Proof.
  intros H1 H2 Hl1 Hl2 Hnd Hnil Hf Hla Hnext Hprev.
  pose proof Hnd as Hnd'. apply NoDup_app in Hnd' as (Hnd1 & Hdisj & Hnd2).
  unfold adjacency_list, gp_AdjacencyListEndMark.
  split. { rewrite Hf. by destruct l1. }
  split. { rewrite Hla, last_app. destruct (last l2) eqn:Hl; [reflexivity|].
           by apply last_None in Hl. }
  split; [|by split].
  apply arc_links_app. split.
  - apply (arc_links_relink g g' l1 NIL NIL NIL (hd NIL l2) Hl1 Hnd1).
    + intros K HK. rewrite Hprev by (apply elem_of_app; by left).
      rewrite decide_False.
      2:{ intros Heq. symmetry in Heq. apply head_Some_elem_of in Heq. by apply (Hdisj K). }
      destruct (decide (Some K = head l1)) as [Heq|]; [|reflexivity].
      symmetry in Heq. by apply (arc_links_head g l1 NIL NIL K).
    + intros K HK. by rewrite Hnext by (apply elem_of_app; by left).
  - apply (arc_links_relink g g' l2 NIL NIL (default NIL (last l1)) NIL Hl2 Hnd2).
    + intros K HK. by rewrite Hprev by (apply elem_of_app; by right).
    + intros K HK. rewrite Hnext by (apply elem_of_app; by right).
      rewrite decide_False.
      2:{ intros Heq. symmetry in Heq. apply last_Some_elem_of in Heq. by apply (Hdisj K). }
      destruct (decide (Some K = last l2)) as [Heq|]; [|reflexivity].
      symmetry in Heq. by apply (arc_links_last g l2 NIL NIL K).
Qed.

Lemma first_InitVertexRec g R W : W <> R ->
  gp_GetFirstArc (_InitVertexRec g R) W = gp_GetFirstArc g W /\
  gp_GetLastArc (_InitVertexRec g R) W = gp_GetLastArc g W.
Proof.
  intros Hne. unfold gp_GetFirstArc, gp_GetLastArc, _InitVertexRec.
  rewrite V_upd_vertex. by rewrite decide_False by congruence.
Qed.

Ltac ends_through :=
  unfold_vertex_set; unfold gp_SetPrevArc, gp_SetNextArc, gp_GetFirstArc, gp_GetLastArc;
  repeat first [rewrite V_upd_arc | rewrite V_upd_vertex, decide_True by done];
  cbn [vlink0 vlink1 set_vlink0 set_vlink1].

(** X6: _MergeVertex makes the adjacency list of W the union of the lists
    of W and R, the arcs of R before those of W where WPrevLink is 0 and
    after them where it is 1, each list in its order; the twin of every arc
    of R has W as its neighbour afterwards, no other arc changes its
    neighbour, and the record of R is a fresh one. *)
Theorem MergeVertex_joins_lists (functions : graphFunctionTable) (fuel : nat) (g : Graph)
    (W WPrevLink R : Z) (lW lR : list Z) :
  fpInitVertexRec functions = _InitVertexRec ->
  adjacency_list g W lW -> adjacency_list g R lR -> lR <> [] -> W <> R ->
  (forall a, a ∈ lW -> a ∉ lR) ->
  WPrevLink = 0 \/ WPrevLink = 1 -> (length lR <= fuel)%nat ->
  exists g',
    _MergeVertex functions fuel g W WPrevLink R = Some g' /\
    adjacency_list g' W (if bool_decide (WPrevLink = 0) then lR ++ lW else lW ++ lR) /\
    (forall K, gp_GetNeighbor g' K =
       if decide (K ∈ gp_GetTwinArc g <$> lR) then W else gp_GetNeighbor g K) /\
    V g' !!! R = inhabitant.
Proof.
  intros Hinit HW HR HRne HWR Hdisj HP Hfuel.
  destruct (MergeVertex_redirect_spec W lR fuel g _ (adjacency_list_chain _ _ _ HR) Hfuel)
    as (g1 & Hrun & HV1 & Hfr1 & Hn1 & Hp1 & _ & Hnb1).
  unfold _MergeVertex. rewrite Hrun, Hinit. cbn [mbind option_bind]. cbv zeta.
  eexists. split; [reflexivity|].
  destruct HW as (HWf & HWl & HWlinks & HWnd & HWnil).
  destruct HR as (HRf & HRl & HRlinks & HRnd & HRnil).
  unfold gp_AdjacencyListEndMark in *.
  assert (Hf1 : forall v, gp_GetFirstArc g1 v = gp_GetFirstArc g v)
    by (intros v; unfold gp_GetFirstArc; by rewrite HV1).
  assert (Hl1 : forall v, gp_GetLastArc g1 v = gp_GetLastArc g v)
    by (intros v; unfold gp_GetLastArc; by rewrite HV1).
  assert (Hga : forall v link, gp_GetArc g1 v link = gp_GetArc g v link)
    by (intros v link; unfold gp_GetArc; by rewrite HV1).
  rewrite !Hga.
  destruct lR as [|x lR']; [done|]. clear HRne.
  set (lR := x :: lR') in *.
  assert (Hx : x <> NIL) by (apply Forall_cons in HRnil; tauto).
  set (r := default NIL (last lR)) in *.
  assert (Hr : Some r = last lR) by (symmetry; apply last_cons_Some).
  assert (Hrin : r ∈ lR) by apply last_cons_elem_of.
  assert (HrNIL : r <> NIL) by (rewrite Forall_forall in HRnil; by apply HRnil).
  assert (Hxin : x ∈ lR) by (by left).
  assert (Hhd : head lR = Some x) by reflexivity.
  assert (HndRW : NoDup (lR ++ lW)).
  { apply NoDup_app. split; [exact HRnd|]. split; [|exact HWnd].
    intros K HK HK'. by apply (Hdisj K). }
  assert (HndWR : NoDup (lW ++ lR)).
  { apply NoDup_app. split; [exact HWnd|]. split; [|exact HRnd]. exact Hdisj. }
  assert (HneR : gp_GetFirstArc g R = x) by exact HRf.
  assert (HlaR : gp_GetLastArc g R = r) by exact HRl.
  split; [|split].
  2:{ intros K. rewrite <- Hnb1. destruct HP as [-> | ->];
        change (bool_decide (0 = 0)) with true; change (bool_decide (1 = 0)) with false;
        change (Z.lxor 1 0) with 1; change (Z.lxor 1 1) with 0;
        unfold gp_GetArc, gp_SetArc, gp_SetAdjacentArc;
        change (bool_decide (0 = 0)) with true; change (bool_decide (1 = 0)) with false;
        cbv iota; destruct (gp_IsArc g1 _); unfold _InitVertexRec; arcs_through; reflexivity. }
  2:{ unfold _InitVertexRec. rewrite V_upd_vertex. by rewrite decide_True. }
  destruct HP as [-> | ->];
    change (bool_decide (0 = 0)) with true; change (bool_decide (1 = 0)) with false;
    change (Z.lxor 1 0) with 1; change (Z.lxor 1 1) with 0;
    unfold gp_GetArc, gp_SetArc, gp_SetAdjacentArc;
    change (bool_decide (0 = 0)) with true; change (bool_decide (1 = 0)) with false;
    cbv iota; fold (gp_GetFirstArc g W) (gp_GetLastArc g W) (gp_GetFirstArc g R)
      (gp_GetLastArc g R); rewrite HneR, HlaR.
  - (* the arcs of R come first *)
    destruct lW as [|w lW'].
    + rewrite app_nil_r. rewrite HWf. cbn [hd]. unfold gp_IsArc.
      rewrite bool_decide_eq_false_2 by (intros Hne; by apply Hne).
      split; [|split; [|split; [|by split]]].
      * rewrite (proj1 (first_InitVertexRec _ R W HWR)). ends_through. reflexivity.
      * rewrite (proj2 (first_InitVertexRec _ R W HWR)). ends_through. reflexivity.
      * apply (arc_links_relink g _ lR NIL NIL NIL NIL HRlinks HRnd).
        -- intros K HK. unfold _InitVertexRec. arcs_through. rewrite Hp1, ?Hhd.
           destruct (decide (x = K)) as [<-|]; [|by rewrite decide_False by congruence].
           by rewrite decide_True.
        -- intros K HK. unfold _InitVertexRec. arcs_through. rewrite Hn1.
           destruct (decide (r = K)) as [<-|]; [by rewrite decide_True|].
           rewrite decide_False; [reflexivity|]. rewrite <- Hr. congruence.
    + rewrite HWf. cbn [hd]. unfold gp_IsArc.
      assert (Hw : w <> NIL) by (apply Forall_cons in HWnil; tauto).
      rewrite bool_decide_eq_true_2 by exact Hw.
      assert (Hwx : w ∉ lR) by (apply Hdisj; by left).
      apply (adjacency_list_join g _ W lR (w :: lW')); try done.
      * apply Forall_app; by split.
      * rewrite (proj1 (first_InitVertexRec _ R W HWR)). ends_through. reflexivity.
      * rewrite (proj2 (first_InitVertexRec _ R W HWR)). ends_through. rewrite HV1. exact HWl.
      * intros K HK. unfold _InitVertexRec. arcs_through. rewrite Hn1. cbn [hd].
        destruct (decide (r = K)) as [<-|]; [by rewrite decide_True|].
        rewrite decide_False; [reflexivity|]. rewrite <- Hr. congruence.
      * intros K HK. unfold _InitVertexRec. arcs_through. rewrite Hp1. cbn [head]. rewrite ?Hhd.
        destruct (decide (x = K)) as [<-|Hne].
        -- rewrite decide_False by (intros [= ->]; done).
           symmetry. by apply (arc_links_head g lR NIL NIL x).
        -- destruct (decide (w = K)) as [<-|]; [by rewrite decide_True|].
           by rewrite decide_False by congruence.
  - (* the arcs of R come last *)
    destruct lW as [|w0 lW'].
    + rewrite app_nil_l. rewrite HWl. cbn [last default]. unfold gp_IsArc.
      rewrite bool_decide_eq_false_2 by (intros Hne; by apply Hne).
      split; [|split; [|split; [|by split]]].
      * rewrite (proj1 (first_InitVertexRec _ R W HWR)). ends_through. reflexivity.
      * rewrite (proj2 (first_InitVertexRec _ R W HWR)). ends_through. reflexivity.
      * apply (arc_links_relink g _ lR NIL NIL NIL NIL HRlinks HRnd).
        -- intros K HK. unfold _InitVertexRec. arcs_through. rewrite Hp1, ?Hhd.
           destruct (decide (x = K)) as [<-|]; [by rewrite decide_True|].
           by rewrite decide_False by congruence.
        -- intros K HK. unfold _InitVertexRec. arcs_through. rewrite Hn1.
           destruct (decide (r = K)) as [<-|]; [by rewrite decide_True|].
           rewrite decide_False; [reflexivity|]. rewrite <- Hr. congruence.
    + set (lW := w0 :: lW') in *.
      set (w := default NIL (last lW)) in *.
      assert (Hwl : Some w = last lW) by (symmetry; apply last_cons_Some).
      assert (Hwin : w ∈ lW) by apply last_cons_elem_of.
      assert (Hw : w <> NIL) by (rewrite Forall_forall in HWnil; by apply HWnil).
      rewrite HWl. unfold gp_IsArc. rewrite bool_decide_eq_true_2 by exact Hw.
      assert (Hwx : w ∉ lR) by (by apply Hdisj).
      apply (adjacency_list_join g _ W lW lR); try done.
      * apply Forall_app; by split.
      * rewrite (proj1 (first_InitVertexRec _ R W HWR)). ends_through. rewrite HV1. exact HWf.
      * rewrite (proj2 (first_InitVertexRec _ R W HWR)). ends_through. reflexivity.
      * intros K HK. unfold _InitVertexRec. arcs_through. rewrite Hn1. cbn [hd].
        destruct (decide (r = K)) as [<-|Hne].
        -- rewrite decide_False by (intros Heq; rewrite <- Hwl in Heq; congruence).
           symmetry. by apply (arc_links_last g lR NIL NIL r).
        -- destruct (decide (w = K)) as [<-|]; [by rewrite decide_True|].
           rewrite decide_False; [reflexivity|]. rewrite <- Hwl. congruence.
      * intros K HK. unfold _InitVertexRec. arcs_through. rewrite Hp1. cbn [head]. rewrite ?Hhd.
        destruct (decide (x = K)) as [<-|]; [by rewrite decide_True|].
        by rewrite decide_False by congruence.
Qed.

(** ** The orientation of the vertices of a bicomp *)

Lemma labels_upd_links g e f K :
  (forall a, neighbor (f a) = neighbor a /\ edgeType (f a) = edgeType a /\
             inverted (f a) = inverted a) ->
  gp_GetNeighbor (upd_arc e f g) K = gp_GetNeighbor g K /\
  gp_GetEdgeType (upd_arc e f g) K = gp_GetEdgeType g K /\
  gp_GetEdgeFlagInverted (upd_arc e f g) K = gp_GetEdgeFlagInverted g K.
Proof.
  intros Hf. unfold gp_GetNeighbor, gp_GetEdgeType, gp_GetEdgeFlagInverted.
  rewrite E_upd_arc. destruct (decide (e = K)) as [->|]; [apply Hf|done].
Qed.

Lemma InvertVertex_arcs_labels fuel : forall g J g',
  InvertVertex_arcs fuel g J = Some g' ->
  forall K, gp_GetNeighbor g' K = gp_GetNeighbor g K /\
            gp_GetEdgeType g' K = gp_GetEdgeType g K /\
            gp_GetEdgeFlagInverted g' K = gp_GetEdgeFlagInverted g K.
Proof.
  induction fuel as [|fuel IH]; intros g J g' Hrun K; cbn [InvertVertex_arcs] in Hrun.
  - destruct (gp_IsArc g J); [discriminate|]. by injection Hrun as <-.
  - destruct (gp_IsArc g J); [|by injection Hrun as <-].
    cbv zeta in Hrun. destruct (IH _ _ _ Hrun K) as (-> & -> & ->).
    unfold gp_SetPrevArc, gp_SetNextArc.
    destruct (labels_upd_links (upd_arc J (set_alink0 (gp_GetPrevArc g J)) g) J
                (set_alink1 (gp_GetNextArc g J)) K) as (-> & -> & ->); [by intros []|].
    apply labels_upd_links. by intros [].
Qed.

Lemma InvertVertex_labels fuel g v g' :
  _InvertVertex fuel g v = Some g' ->
  forall K, gp_GetNeighbor g' K = gp_GetNeighbor g K /\
            gp_GetEdgeType g' K = gp_GetEdgeType g K /\
            gp_GetEdgeFlagInverted g' K = gp_GetEdgeFlagInverted g K.
Proof.
  intros Hrun K. unfold _InvertVertex in Hrun.
  destruct (InvertVertex_arcs fuel g (gp_GetFirstArc g v)) as [g1|] eqn:Harcs; [|discriminate].
  cbn [mbind option_bind] in Hrun. injection Hrun as <-.
  destruct (InvertVertex_arcs_labels _ _ _ _ Harcs K) as (<- & <- & <-).
  unfold gp_SetExtFaceVertex. by repeat destruct (bool_decide _).
Qed.

Lemma same_labels_trans g1 g2 g3 :
  same_labels g1 g2 -> same_labels g2 g3 -> same_labels g1 g3.
Proof.
  intros H1 H2 K. destruct (H1 K) as [<- <-]. apply H2.
Qed.

Lemma signs_kept_trans ps g1 g2 g3 :
  signs_kept ps g1 g2 -> signs_kept ps g2 g3 -> signs_kept ps g1 g3.
Proof.
  intros H1 H2 K. destruct (H2 K) as [->|[? ?]]; [apply H1|by right].
Qed.

Lemma labels_same_labels g g' :
  (forall K, gp_GetNeighbor g' K = gp_GetNeighbor g K /\
             gp_GetEdgeType g' K = gp_GetEdgeType g K /\
             gp_GetEdgeFlagInverted g' K = gp_GetEdgeFlagInverted g K) ->
  forall ps, same_labels g g' /\ signs_kept ps g g'.
Proof.
  intros H ps. split; intros K; destruct (H K) as (? & ? & ?); [by split|by left].
Qed.

Lemma pushed_cons v flag ps : pushed ((v, flag) :: ps) = flag :: v :: pushed ps.
Proof. reflexivity. Qed.

Lemma pushed_app ps1 ps2 : pushed (ps1 ++ ps2) = pushed ps1 ++ pushed ps2.
Proof. unfold pushed. apply bind_app. Qed.

(** The scan of the arcs of a vertex pushes pairs and changes no label. *)
Lemma OrientVerticesInBicomp_arcs_spec ps flag fuel : forall g J g',
  OrientVerticesInBicomp_arcs fuel g J flag ps = Some g' ->
  same_labels g g' /\ signs_kept ps g g' /\
  stack_capacity (theStack g') = stack_capacity (theStack g) /\
  exists new, stack_items (theStack g') = pushed new ++ stack_items (theStack g).
Proof.
  induction fuel as [|fuel IH]; intros g J g' Hrun; cbn [OrientVerticesInBicomp_arcs] in Hrun.
  - destruct (gp_IsArc g J); [discriminate|]. injection Hrun as <-.
    split; [by intros K|]. split; [by left|]. split; [reflexivity|]. by exists [].
  - destruct (gp_IsArc g J).
    2:{ injection Hrun as <-.
        split; [by intros K|]. split; [by left|]. split; [reflexivity|]. by exists []. }
    cbv zeta in Hrun.
    match type of Hrun with
    | OrientVerticesInBicomp_arcs _ ?gv _ _ _ = _ => set (g1 := gv) in *
    end.
    destruct (IH _ _ _ Hrun) as (Hl & Hs & Hcap & new & Hitems).
    assert (H1 : same_labels g g1 /\ signs_kept ps g g1 /\
                 stack_capacity (theStack g1) = stack_capacity (theStack g) /\
                 exists new1, stack_items (theStack g1) = pushed new1 ++ stack_items (theStack g)).
    { unfold g1. destruct (decide (gp_GetEdgeType g J = EDGE_TYPE_CHILD)).
      2:{ split; [by intros K|]. split; [by left|]. split; [reflexivity|]. by exists []. }
      destruct ps; cbn [negb].
      - split; [by intros K|]. split; [by left|]. split; [reflexivity|].
        by exists [(gp_GetNeighbor g J, Z.lxor flag (flag_bit (gp_GetEdgeFlagInverted g J)))].
      - split; [|split; [|split]].
        + intros K. unfold gp_ClearEdgeFlagInverted, gp_GetNeighbor, gp_GetEdgeType.
          rewrite E_upd_arc. destruct (decide (J = K)) as [->|]; [|done].
          cbn [E with_theStack]. by destruct (E g !!! K).
        + intros K. unfold gp_ClearEdgeFlagInverted, gp_GetEdgeFlagInverted.
          rewrite E_upd_arc. destruct (decide (J = K)) as [->|]; [by right|by left].
        + reflexivity.
        + by exists [(gp_GetNeighbor g J, Z.lxor flag (flag_bit (gp_GetEdgeFlagInverted g J)))]. }
    destruct H1 as (Hl1 & Hs1 & Hcap1 & new1 & Hitems1).
    split; [by eapply same_labels_trans|]. split; [by eapply signs_kept_trans|].
    split; [congruence|]. exists (new ++ new1).
    rewrite Hitems, Hitems1, pushed_app. by rewrite app_assoc.
Qed.

Lemma stack_of_items s items : stack_items s = items -> s = mkStack items (stack_capacity s).
Proof. destruct s. cbn. by intros ->. Qed.

(** The loop over the stack takes off every pair above the bottom. *)
Lemma OrientVerticesInBicomp_loop_spec ps fuel n : forall g new base g',
  stack_items (theStack g) = pushed new ++ base ->
  OrientVerticesInBicomp_loop fuel n g (Z.of_nat (length base)) ps = Some g' ->
  same_labels g g' /\ signs_kept ps g g' /\
  theStack g' = mkStack base (stack_capacity (theStack g)).
Proof.
  induction n as [|n IH]; intros g new base g' Hitems Hrun;
    cbn [OrientVerticesInBicomp_loop] in Hrun; unfold sp_GetCurrentSize in Hrun;
    rewrite Hitems, length_app in Hrun;
    (destruct new as [|[v flag] new];
     [ cbn [pushed mbind list_bind length Nat.add] in Hrun;
       rewrite bool_decide_eq_false_2 in Hrun by lia; injection Hrun as <-;
       split; [by intros K|]; split; [by left|]; by apply stack_of_items
     | rewrite pushed_cons in Hrun; cbn [length] in Hrun;
       rewrite bool_decide_eq_true_2 in Hrun by lia ]);
    [discriminate|].
  unfold sp_Pop2, sp_Pop in Hrun. rewrite Hitems, pushed_cons in Hrun.
  cbn [app stack_items stack_capacity] in Hrun.
  set (g1 := with_theStack (mkStack (pushed new ++ base) (stack_capacity (theStack g))) g) in *.
  destruct (if bool_decide (flag <> 0) then _InvertVertex fuel g1 v else Some g1)
    as [g2|] eqn:Hinv; [|discriminate].
  cbn [mbind option_bind] in Hrun.
  destruct (OrientVerticesInBicomp_arcs fuel g2 (gp_GetFirstArc g2 v) flag ps)
    as [g3|] eqn:Harcs; [|discriminate].
  cbn [mbind option_bind] in Hrun.
  assert (H2 : (same_labels g g2 /\ signs_kept ps g g2) /\ theStack g2 = theStack g1).
  { destruct (bool_decide (flag <> 0)).
    - split; [|by eapply InvertVertex_stack].
      apply labels_same_labels. intros K. by apply (InvertVertex_labels _ _ _ _ Hinv K).
    - injection Hinv as <-. split; [|reflexivity]. split; [by intros K|by left]. }
  destruct H2 as [[Hl2 Hs2] Hst2].
  destruct (OrientVerticesInBicomp_arcs_spec _ _ _ _ _ _ Harcs)
    as (Hl3 & Hs3 & Hcap3 & new3 & Hitems3).
  rewrite Hst2 in Hitems3, Hcap3. cbn [theStack with_theStack g1 stack_items stack_capacity]
    in Hitems3, Hcap3.
  rewrite app_assoc, <- pushed_app in Hitems3.
  destruct (IH _ _ _ _ Hitems3 Hrun) as (Hl4 & Hs4 & Hst4).
  split; [eapply same_labels_trans; [|exact Hl4]; by eapply same_labels_trans|].
  split; [eapply signs_kept_trans; [|exact Hs4]; by eapply signs_kept_trans|].
  by rewrite Hst4, Hcap3.
Qed.

Lemma OrientVerticesInBicomp_spec fuel g BicompRoot ps r g' :
  _OrientVerticesInBicomp fuel g BicompRoot ps = Some (r, g') ->
  r = OK /\ theStack g' = theStack g /\ same_labels g g' /\ signs_kept ps g g'.
Proof.
  unfold _OrientVerticesInBicomp. cbv zeta. intros Hrun.
  match type of Hrun with
  | context [OrientVerticesInBicomp_loop _ _ ?gv _ _] => set (g1 := gv) in *
  end.
  destruct (OrientVerticesInBicomp_loop fuel fuel g1 (sp_GetCurrentSize (theStack g)) ps)
    as [g2|] eqn:Hloop; [|discriminate].
  cbn [mbind option_bind] in Hrun. injection Hrun as <- <-.
  destruct (OrientVerticesInBicomp_loop_spec ps fuel fuel g1 [(BicompRoot, 0)]
              (stack_items (theStack g)) g2) as (Hl & Hs & Hst); [reflexivity|exact Hloop|].
  split; [reflexivity|]. split; [|by split].
  rewrite Hst. cbn. by destruct (theStack g).
Qed.

(** X7: _OrientVerticesInBicomp has no failure of its own, and it uses
    the stack above what it finds there: whenever it returns, the result is
    OK and the stack is as it was before the call. *)
Theorem OrientVerticesInBicomp_keeps_stack (fuel : nat) (g : Graph) (BicompRoot : Z)
    (PreserveSigns : bool) (r : RetCode) (g' : Graph) :
  _OrientVerticesInBicomp fuel g BicompRoot PreserveSigns = Some (r, g') ->
  r = OK /\ theStack g' = theStack g.
Proof.
  intros Hrun. destruct (OrientVerticesInBicomp_spec _ _ _ _ _ _ Hrun) as (? & ? & _). by split.
Qed.

(** X8: the orientation of a bicomp relabels no arc: every arc keeps its
    neighbour and its type; no inverted flag is ever set, and where
    PreserveSigns is given no inverted flag changes at all. *)
Theorem OrientVerticesInBicomp_keeps_labels (fuel : nat) (g : Graph) (BicompRoot : Z)
    (PreserveSigns : bool) (r : RetCode) (g' : Graph) :
  _OrientVerticesInBicomp fuel g BicompRoot PreserveSigns = Some (r, g') ->
  same_labels g g' /\
  (forall K, gp_GetEdgeFlagInverted g' K = true -> gp_GetEdgeFlagInverted g K = true) /\
  (PreserveSigns = true ->
   forall K, gp_GetEdgeFlagInverted g' K = gp_GetEdgeFlagInverted g K).
Proof.
  intros Hrun. destruct (OrientVerticesInBicomp_spec _ _ _ _ _ _ Hrun) as (_ & _ & Hl & Hs).
  split; [exact Hl|]. split.
  - intros K HK. destruct (Hs K) as [<-|[_ HF]]; [exact HK|congruence].
  - intros -> K. destruct (Hs K) as [?|[? _]]; [done|discriminate].
Qed.

Lemma OrientVerticesInEmbedding_roots_spec fuel roots : forall g r g',
  OrientVerticesInEmbedding_roots fuel g roots = Some (r, g') ->
  r = OK /\ theStack g' = theStack g /\ same_labels g g' /\ signs_kept false g g'.
Proof.
  induction roots as [|R roots IH]; intros g r g' Hrun; cbn [OrientVerticesInEmbedding_roots] in Hrun.
  - injection Hrun as <- <-. split; [done|]. split; [done|]. split; [by intros K|by left].
  - destruct (gp_IsArc g (gp_GetFirstArc g R)); [|by apply IH].
    destruct (_OrientVerticesInBicomp fuel g R false) as [[r1 g1]|] eqn:Hor; [|discriminate].
    cbn [mbind option_bind] in Hrun.
    destruct (OrientVerticesInBicomp_spec _ _ _ _ _ _ Hor) as (-> & Hst & Hl & Hs).
    rewrite decide_False in Hrun by (intros Hne; by apply Hne).
    destruct (IH _ _ _ Hrun) as (-> & Hst' & Hl' & Hs').
    split; [done|]. split; [congruence|].
    split; [by eapply same_labels_trans|by eapply signs_kept_trans].
Qed.

(** X9: _OrientVerticesInEmbedding has no failure of its own either:
    whenever it returns, the result is OK, the stack is empty, every arc
    has the neighbour and the type it had, and no inverted flag was set. *)
Theorem OrientVerticesInEmbedding_result (fuel : nat) (g : Graph) (r : RetCode) (g' : Graph) :
  _OrientVerticesInEmbedding fuel g = Some (r, g') ->
  r = OK /\ sp_NonEmpty (theStack g') = false /\ same_labels g g' /\
  (forall K, gp_GetEdgeFlagInverted g' K = true -> gp_GetEdgeFlagInverted g K = true).
Proof.
  unfold _OrientVerticesInEmbedding. cbv zeta. intros Hrun.
  destruct (OrientVerticesInEmbedding_roots_spec _ _ _ _ _ Hrun) as (-> & Hst & Hl & Hs).
  split; [done|]. split; [by rewrite Hst|]. split; [exact Hl|].
  intros K HK. destruct (Hs K) as [Heq|[_ HF]]; [|congruence].
  rewrite Heq in HK. exact HK.
Qed.

(** ** What a Walkup leaves alone *)

Lemma walkup_fields_refl r : walkup_fields r r.
Proof. unfold walkup_fields. by destruct r. Qed.

Lemma walkup_fields_trans r1 r2 r3 :
  walkup_fields r1 r2 -> walkup_fields r2 r3 -> walkup_fields r1 r3.
Proof.
  unfold walkup_fields. intros H12 H23. rewrite H23 at 1. rewrite H12 at 1.
  by destruct r1.
Qed.

Lemma walkup_kept_refl g : walkup_kept g g.
Proof. repeat split. intros v. apply walkup_fields_refl. Qed.

Lemma walkup_kept_trans g1 g2 g3 : walkup_kept g1 g2 -> walkup_kept g2 g3 -> walkup_kept g1 g3.
Proof.
  intros (? & ? & ? & ? & ? & ? & H12) (? & ? & ? & ? & ? & ? & H23).
  repeat split; try congruence. intros v. eapply walkup_fields_trans; [apply H12|apply H23].
Qed.

Lemma walkup_kept_upd g v f :
  (forall r, walkup_fields r (f r)) -> walkup_kept g (upd_vertex v f g).
Proof.
  intros Hf. repeat split. intros u. rewrite V_upd_vertex.
  destruct (decide (v = u)) as [->|]; [apply Hf|apply walkup_fields_refl].
Qed.

Lemma walkup_kept_SetVertexVisitedInfo g v x : walkup_kept g (gp_SetVertexVisitedInfo g v x).
Proof. apply walkup_kept_upd. intros r. unfold walkup_fields. by destruct r. Qed.

Lemma walkup_kept_recordRoot g I R : walkup_kept g (WalkUp_recordRoot g I R).
Proof.
  unfold WalkUp_recordRoot. cbv zeta. destruct (if bool_decide _ then _ else _) as [lc h].
  apply (walkup_kept_trans _ (with_BicompLists lc g)); [repeat split; intros v; apply walkup_fields_refl|].
  apply walkup_kept_upd. intros r. unfold walkup_fields. by destruct r.
Qed.

Lemma visitedInfo_SetVertexVisitedInfo g u x v :
  gp_GetVertexVisitedInfo (gp_SetVertexVisitedInfo g u x) v =
  if decide (u = v) then x else gp_GetVertexVisitedInfo g v.
Proof.
  unfold gp_GetVertexVisitedInfo, gp_SetVertexVisitedInfo. rewrite V_upd_vertex.
  by destruct (decide (u = v)) as [->|].
Qed.

Lemma visitedInfo_recordRoot g I R v :
  gp_GetVertexVisitedInfo (WalkUp_recordRoot g I R) v = gp_GetVertexVisitedInfo g v.
Proof.
  unfold WalkUp_recordRoot. cbv zeta. destruct (if bool_decide _ then _ else _) as [lc h].
  unfold gp_GetVertexVisitedInfo, gp_SetVertexPertinentBicompList. rewrite V_upd_vertex.
  destruct (decide (_ = v)) as [->|]; [|reflexivity]. cbn [V with_BicompLists]. by destruct (V g !!! v).
Qed.

Lemma WalkUp_loop_kept I fuel : forall g Zig Zag ZigPrevLink ZagPrevLink g',
  WalkUp_loop fuel g I Zig Zag ZigPrevLink ZagPrevLink = Some g' ->
  walkup_kept g g' /\
  forall v, gp_GetVertexVisitedInfo g' v = gp_GetVertexVisitedInfo g v \/
            gp_GetVertexVisitedInfo g' v = I.
Proof.
  induction fuel as [|fuel IH]; intros g Zig Zag ZigPrevLink ZagPrevLink g' Hrun;
    cbn [WalkUp_loop] in Hrun.
  - destruct (bool_decide (Zig <> I)); [discriminate|]. injection Hrun as <-.
    split; [apply walkup_kept_refl|by left].
  - destruct (bool_decide (Zig <> I)).
    2:{ injection Hrun as <-. split; [apply walkup_kept_refl|by left]. }
    destruct (WalkUp_probe g I Zig Zag ZigPrevLink ZagPrevLink) as [|R nextZig nextZag].
    { injection Hrun as <-. split; [apply walkup_kept_refl|by left]. }
    cbv zeta in Hrun.
    set (gm := gp_SetVertexVisitedInfo (gp_SetVertexVisitedInfo g Zig I) Zag I) in *.
    assert (Hm : walkup_kept g gm).
    { eapply walkup_kept_trans; apply walkup_kept_SetVertexVisitedInfo. }
    assert (Hvm : forall v, gp_GetVertexVisitedInfo gm v = gp_GetVertexVisitedInfo g v \/
                            gp_GetVertexVisitedInfo gm v = I).
    { intros v. unfold gm. rewrite !visitedInfo_SetVertexVisitedInfo.
      destruct (decide (Zag = v)); [by right|]. destruct (decide (Zig = v)); [by right|by left]. }
    destruct (bool_decide (R = NIL)).
    + destruct (IH _ _ _ _ _ _ Hrun) as [Hk Hv].
      split; [by eapply walkup_kept_trans|].
      intros v. destruct (Hv v) as [->|?]; [apply Hvm|by right].
    + destruct (IH _ _ _ _ _ _ Hrun) as [Hk Hv].
      split.
      * eapply walkup_kept_trans; [exact Hm|].
        eapply walkup_kept_trans; [apply walkup_kept_recordRoot|exact Hk].
      * intros v. destruct (Hv v) as [->|?]; [|by right].
        rewrite visitedInfo_recordRoot. apply Hvm.
Qed.

Lemma WalkUp_kept fuel g I J g' :
  _WalkUp fuel g I J = Some g' ->
  walkup_kept g g' /\
  forall v, gp_GetVertexVisitedInfo g' v = gp_GetVertexVisitedInfo g v \/
            gp_GetVertexVisitedInfo g' v = I.
Proof.
  unfold _WalkUp. cbv zeta. intros Hrun.
  destruct (WalkUp_loop_kept _ _ _ _ _ _ _ _ Hrun) as [Hk Hv].
  split.
  - eapply walkup_kept_trans; [|exact Hk]. apply walkup_kept_upd.
    intros r. unfold walkup_fields. by destruct r.
  - intros v. destruct (Hv v) as [->|?]; [|by right]. left.
    unfold gp_GetVertexVisitedInfo, gp_SetVertexPertinentAdjacencyInfo. rewrite V_upd_vertex.
    destruct (decide (_ = v)) as [->|]; [|reflexivity]. by destruct (V g !!! v).
Qed.

(** X10: a Walkup changes no arc record, no adjacency list and no external
    face link, and it leaves the stack and the lists of DFS children alone:
    of a vertex record it writes only visitedInfo, pertinentBicompList and
    pertinentAdjacencyInfo; and the visitedInfo of a vertex is what it was
    or the current vertex I. *)
Theorem WalkUp_keeps_embedding (fuel : nat) (g : Graph) (I J : Z) (g' : Graph) :
  _WalkUp fuel g I J = Some g' ->
  walkup_kept g g' /\
  (forall v, gp_GetFirstArc g' v = gp_GetFirstArc g v /\
             gp_GetLastArc g' v = gp_GetLastArc g v /\
             forall link, gp_GetExtFaceVertex g' v link = gp_GetExtFaceVertex g v link) /\
  (forall v, gp_GetVertexVisitedInfo g' v = gp_GetVertexVisitedInfo g v \/
             gp_GetVertexVisitedInfo g' v = I).
Proof.
  intros Hrun. destruct (WalkUp_kept _ _ _ _ _ Hrun) as [Hk Hv].
  split; [exact Hk|]. split; [|exact Hv].
  intros v. destruct Hk as (_ & _ & _ & _ & _ & _ & HV). specialize (HV v).
  unfold gp_GetFirstArc, gp_GetLastArc, gp_GetExtFaceVertex. rewrite HV.
  split; [reflexivity|]. split; [reflexivity|]. intros link. by destruct (bool_decide _).
Qed.

(** ** The Walkups of a step, one for each forward arc *)

Lemma fwd_list_frame g g' v f :
  fwd_list g v f -> E g' = E g ->
  gp_GetVertexFwdArcList g' v = gp_GetVertexFwdArcList g v ->
  fwd_list g' v f.
Proof.
  intros (Hshape & Hnd & Hnil) HE Hh. split; [|by split].
  destruct f as [|h f]; [congruence|]. destruct Hshape as [Hhead Hl].
  split; [congruence|]. eapply arc_links_frame; [exact Hl|].
  intros K _. by rewrite HE.
Qed.

Lemma walkups_of_None functions I f :
  foldl (fun r J => r ≫= fun g => fpWalkUp functions g I J) None f = None.
Proof. induction f as [|J f IH]; [reflexivity|exact IH]. Qed.

Lemma Embed_walkups_steps functions wfuel I f fuel :
  fpWalkUp functions = _WalkUp wfuel ->
  forall pre J post g,
  f = pre ++ J :: post -> fwd_list g I f -> (length (J :: post) <= fuel)%nat ->
  Embed_walkups functions fuel g I J = walkups_of functions I g (J :: post).
Proof.
  intros Hwalkup. induction fuel as [|fuel IH]; intros pre J post g Hf Hfwd Hfuel;
    [cbn in Hfuel; lia|].
  pose proof Hfwd as Hfwd0. rewrite Hf in Hfwd0.
  destruct (fwd_list_next _ _ _ _ _ Hfwd0) as (HJ & Hnext & Hhd).
  cbn [Embed_walkups]. rewrite bool_decide_eq_true_2 by exact HJ.
  unfold walkups_of. cbn [foldl mbind option_bind].
  destruct (fpWalkUp functions g I J) as [g2|] eqn:Hrun; cbn [mbind option_bind];
    [|by rewrite walkups_of_None].
  rewrite Hwalkup in Hrun. destruct (WalkUp_kept _ _ _ _ _ Hrun) as [Hk _].
  destruct Hk as (HE & _ & _ & _ & _ & _ & HV).
  assert (Hh : gp_GetVertexFwdArcList g2 I = gp_GetVertexFwdArcList g I).
  { unfold gp_GetVertexFwdArcList. by rewrite (HV I). }
  assert (Hfwd2 : fwd_list g2 I f) by (by eapply fwd_list_frame).
  assert (Hn2 : gp_GetNextArc g2 J = gp_GetNextArc g J)
    by (unfold gp_GetNextArc; by rewrite HE).
  cbv zeta. rewrite Hn2, Hh, Hnext.
  destruct post as [|J' post].
  - cbn [hd]. rewrite bool_decide_eq_true_2 by reflexivity.
    destruct fuel; cbn [Embed_walkups foldl];
      by rewrite bool_decide_eq_false_2 by (intros Hne; by apply Hne).
  - cbn [hd] in *. rewrite bool_decide_eq_false_2 by exact Hhd.
    apply (IH (pre ++ [J]) J' post g2).
    + by rewrite <- app_assoc.
    + exact Hfwd2.
    + cbn [length] in *. lia.
Qed.

(** X11: the Walkups of a step are one Walkup for each arc of the
    fwdArcList of I, in the order of the list: with fuel for every arc, the
    loop of gp_Embed over the circular list gives what the Walkups of the
    arcs, one after the other, give. *)
Theorem Embed_walkups_one_per_arc (functions : graphFunctionTable) (wfuel fuel : nat)
    (g : Graph) (I : Z) (f : list Z) :
  fpWalkUp functions = _WalkUp wfuel ->
  fwd_list g I f -> (length f <= fuel)%nat ->
  Embed_walkups functions fuel g I (gp_GetVertexFwdArcList g I) = walkups_of functions I g f.
Proof.
  intros Hwalkup Hfwd Hfuel. destruct f as [|J post].
  - destruct Hfwd as (-> & _). destruct fuel; cbn [Embed_walkups];
      by rewrite bool_decide_eq_false_2 by (intros Hne; by apply Hne).
  - assert (Hh : gp_GetVertexFwdArcList g I = J) by (by destruct Hfwd as ((-> & _) & _)).
    rewrite Hh. by apply (Embed_walkups_steps functions wfuel I (J :: post) fuel Hwalkup [] J post g).
Qed.

(** ** The walk along the external face *)

Lemma twin_arc_twice g a : gp_GetTwinArc g (gp_GetTwinArc g a) = a.
Proof.
  unfold gp_GetTwinArc. by rewrite Z.lxor_assoc, Z.lxor_nilpotent, Z.lxor_0_r.
Qed.

(** X12: _GetNextVertexOnExternalFace leaves curVertex by the link opposite
    to PrevLink and reports the link by which it enters the next vertex:
    where the twin of the arc taken is the first or the last arc of the
    next vertex, it is the arc of the link returned.  The step can be taken
    back: where the twin leads to curVertex and curVertex has more than one
    arc, the walk from the next vertex in the opposite direction returns
    curVertex and the link opposite to PrevLink. *)
Theorem GetNextVertexOnExternalFace_enters (g : Graph) (curVertex PrevLink : Z) :
  let arc := gp_GetArc g curVertex (Z.lxor 1 PrevLink) in
  let next := _GetNextVertexOnExternalFace g curVertex PrevLink in
  PrevLink = 0 \/ PrevLink = 1 ->
  gp_GetTwinArc g arc = gp_GetFirstArc g next.1 \/
  gp_GetTwinArc g arc = gp_GetLastArc g next.1 ->
  next.1 = gp_GetNeighbor g arc /\ (next.2 = 0 \/ next.2 = 1) /\
  gp_GetArc g next.1 next.2 = gp_GetTwinArc g arc /\
  (gp_GetNeighbor g (gp_GetTwinArc g arc) = curVertex ->
   gp_GetFirstArc g curVertex <> gp_GetLastArc g curVertex ->
   _GetNextVertexOnExternalFace g next.1 (Z.lxor 1 next.2) = (curVertex, Z.lxor 1 PrevLink)).
Proof.
  intros arc next HP Hend.
  assert (Hn1 : next.1 = gp_GetNeighbor g arc) by reflexivity.
  set (w := gp_GetNeighbor g arc) in *.
  assert (Hn2 : next.2 =
            if bool_decide (gp_GetFirstArc g w <> gp_GetLastArc g w)
            then (if bool_decide (gp_GetTwinArc g arc = gp_GetFirstArc g w) then 0 else 1)
            else PrevLink) by reflexivity.
  rewrite Hn1 in *. clearbody next.
  assert (Hlink : next.2 = 0 \/ next.2 = 1).
  { rewrite Hn2. repeat destruct (bool_decide _); auto. }
  assert (Harc : gp_GetArc g w next.2 = gp_GetTwinArc g arc).
  { rewrite Hn2. unfold gp_GetArc. fold (gp_GetFirstArc g w) (gp_GetLastArc g w).
    destruct (bool_decide_reflect (gp_GetFirstArc g w <> gp_GetLastArc g w)) as [Hne|Heq].
    - destruct (bool_decide_reflect (gp_GetTwinArc g arc = gp_GetFirstArc g w)) as [Hf|Hf].
      + change (bool_decide (0 = 0)) with true. by cbv iota.
      + change (bool_decide (1 = 0)) with false. cbv iota. by destruct Hend.
    - assert (Heq' : gp_GetFirstArc g w = gp_GetLastArc g w)
        by (destruct (decide (gp_GetFirstArc g w = gp_GetLastArc g w)); tauto).
      destruct (bool_decide (PrevLink = 0)); destruct Hend; congruence. }
  split; [reflexivity|]. split; [exact Hlink|]. split; [exact Harc|].
  intros Hback Hmany. unfold _GetNextVertexOnExternalFace. cbv zeta.
  assert (Hxx : Z.lxor 1 (Z.lxor 1 next.2) = next.2).
  { by rewrite <- Z.lxor_assoc, Z.lxor_nilpotent, Z.lxor_0_l. }
  rewrite Hxx, Harc, Hback, twin_arc_twice.
  rewrite bool_decide_eq_true_2 by exact Hmany. f_equal.
  unfold arc, gp_GetArc. fold (gp_GetFirstArc g curVertex) (gp_GetLastArc g curVertex).
  destruct HP as [-> | ->].
  - change (bool_decide (Z.lxor 1 0 = 0)) with false. cbv iota.
    rewrite bool_decide_eq_false_2 by congruence. reflexivity.
  - change (bool_decide (Z.lxor 1 1 = 0)) with true. cbv iota.
    rewrite bool_decide_eq_true_2 by reflexivity. reflexivity.
Qed.

(** ** The singleton bicomps of the tree edges *)

Lemma adjacency_list_frame g g' v l :
  adjacency_list g v l ->
  gp_GetFirstArc g' v = gp_GetFirstArc g v -> gp_GetLastArc g' v = gp_GetLastArc g v ->
  (forall K, K ∈ l -> gp_GetNextArc g' K = gp_GetNextArc g K /\
                      gp_GetPrevArc g' K = gp_GetPrevArc g K) ->
  adjacency_list g' v l.
Proof.
  intros (Hf & Hla & Hl & Hnd & Hnil) Hf' Hla' Hsame.
  split; [congruence|]. split; [congruence|]. split; [|by split].
  eapply arc_links_frame; [exact Hl|]. intros K HK. apply (Hsame K HK).
Qed.

Lemma singleton_bicomp_frame g g' R c e :
  singleton_bicomp g R c e ->
  V g' !!! R = V g !!! R -> V g' !!! c = V g !!! c ->
  E g' !!! e = E g !!! e -> E g' !!! gp_GetTwinArc g e = E g !!! gp_GetTwinArc g e ->
  singleton_bicomp g' R c e.
Proof.
  intros (HR & Hc & Hnb & Hext) HVR HVc HEe HEt. unfold singleton_bicomp.
  change (gp_GetTwinArc g' e) with (gp_GetTwinArc g e).
  split; [|split; [|split]].
  - eapply adjacency_list_frame; [exact HR| | |].
    + unfold gp_GetFirstArc. by rewrite HVR.
    + unfold gp_GetLastArc. by rewrite HVR.
    + intros K ->%list_elem_of_singleton. unfold gp_GetNextArc, gp_GetPrevArc. by rewrite HEe.
  - eapply adjacency_list_frame; [exact Hc| | |].
    + unfold gp_GetFirstArc. by rewrite HVc.
    + unfold gp_GetLastArc. by rewrite HVc.
    + intros K ->%list_elem_of_singleton. unfold gp_GetNextArc, gp_GetPrevArc. by rewrite HEt.
  - unfold gp_GetNeighbor. rewrite HEt. exact Hnb.
  - intros link. unfold gp_GetExtFaceVertex. rewrite HVR, HVc. apply Hext.
Qed.

Ltac records_through :=
  unfold gp_SetExtFaceVertex;
  change (bool_decide (0 = 0)) with true; change (bool_decide (1 = 0)) with false; cbv iota;
  unfold gp_SetFirstArc, gp_SetLastArc, gp_SetNextArc, gp_SetPrevArc, gp_SetNeighbor;
  repeat first [rewrite V_upd_vertex | rewrite V_upd_arc | rewrite E_upd_arc
               | rewrite E_upd_vertex].

(** The records that one turn of the loop leaves as they are. *)
Lemma EmbeddingInitialize_treeEdge_others N g I :
  let e := gp_GetFirstArc g (I + N) in
  (forall u, u <> I -> u <> I + N -> V (EmbeddingInitialize_treeEdge N g I) !!! u = V g !!! u) /\
  (forall u, u <> I -> gp_GetFirstArc (EmbeddingInitialize_treeEdge N g I) u = gp_GetFirstArc g u /\
                       gp_GetLastArc (EmbeddingInitialize_treeEdge N g I) u = gp_GetLastArc g u) /\
  (forall u, gp_GetVertexParent (EmbeddingInitialize_treeEdge N g I) u = gp_GetVertexParent g u) /\
  (forall K, (gp_GetVertexParent g I <> NIL -> K <> e /\ K <> gp_GetTwinArc g e) ->
             E (EmbeddingInitialize_treeEdge N g I) !!! K = E g !!! K).
Proof.
  intros e. unfold EmbeddingInitialize_treeEdge. cbv zeta. fold e.
  destruct (bool_decide_reflect (gp_GetVertexParent g I = NIL)) as [Hp|Hp].
  - split; [|split; [|split]].
    + intros u Hu _. records_through. by rewrite !decide_False by congruence.
    + intros u Hu. unfold gp_GetFirstArc, gp_GetLastArc. records_through.
      by rewrite !decide_False by congruence.
    + intros u. unfold gp_GetVertexParent. records_through.
      destruct (decide (I = u)) as [->|]; [|reflexivity].
      rewrite decide_True by done. by destruct (V g !!! u).
    + intros K _. reflexivity.
  - change (gp_GetTwinArc (gp_SetNextArc (gp_SetPrevArc g e (gp_AdjacencyListEndMark I)) e
                             (gp_AdjacencyListEndMark I)) e) with (gp_GetTwinArc g e).
    set (t := gp_GetTwinArc g e).
    split; [|split; [|split]].
    + intros u Hu HuR. records_through. by rewrite !decide_False by congruence.
    + intros u Hu. unfold gp_GetFirstArc, gp_GetLastArc. records_through.
      repeat match goal with
      | |- context [decide (?a = ?b)] => destruct (decide (a = b))
      end; try congruence; try subst u; done.
    + intros u. unfold gp_GetVertexParent. records_through.
      repeat match goal with
      | |- context [decide (?a = ?b)] => destruct (decide (a = b))
      end; try congruence; try subst u; done.
    + intros K HK. destruct (HK Hp) as [HKe HKt]. records_through.
      by rewrite !decide_False by congruence.
Qed.

(** What one turn of the loop makes of its vertex. *)
Lemma EmbeddingInitialize_treeEdge_makes N g I :
  0 < N -> 0 <= I ->
  let e := gp_GetFirstArc g (I + N) in
  let g' := EmbeddingInitialize_treeEdge N g I in
  (gp_GetVertexParent g I = NIL -> adjacency_list g' I []) /\
  (gp_GetVertexParent g I <> NIL -> 0 <= e -> gp_GetLastArc g (I + N) = e ->
   singleton_bicomp g' (I + N) I e).
Proof.
  intros HN HI e g'. unfold g', EmbeddingInitialize_treeEdge. cbv zeta. fold e.
  assert (HIR : I + N <> I) by lia.
  split.
  - intros Hp. rewrite bool_decide_eq_true_2 by exact Hp.
    split; [|split; [|split; [exact Logic.I|split; [apply NoDup_nil_2|apply Forall_nil_2]]]];
      unfold gp_GetFirstArc, gp_GetLastArc; records_through;
      by rewrite ?decide_True by done.
  - intros Hp He Hlast. rewrite bool_decide_eq_false_2 by exact Hp.
    change (gp_GetTwinArc (gp_SetNextArc (gp_SetPrevArc g e (gp_AdjacencyListEndMark I)) e
                             (gp_AdjacencyListEndMark I)) e) with (gp_GetTwinArc g e).
    set (t := gp_GetTwinArc g e).
    assert (Hte : t <> e) by apply twin_arc_differs.
    assert (HeN : e <> NIL) by (unfold NIL; lia).
    assert (HtN : t <> NIL).
    { unfold t, gp_GetTwinArc, NIL.
      assert (Hpos : 0 <= Z.lxor e 1) by (apply Z.lxor_nonneg; lia). lia. }
    unfold singleton_bicomp.
    match goal with |- context [adjacency_list ?gv _ [e]] => set (g2 := gv) end.
    change (gp_GetTwinArc g2 e) with t.
    assert (HVR : V g2 !!! (I + N) = set_extFace1 I (set_extFace0 I (V g !!! (I + N)))).
    { unfold g2. records_through.
      rewrite !(decide_False (P := I = I + N)) by lia. by rewrite !decide_True by done. }
    assert (HVI : V g2 !!! I =
              set_extFace1 (I + N) (set_extFace0 (I + N)
                (set_vlink1 t (set_vlink0 t (V g !!! I))))).
    { unfold g2. records_through.
      rewrite !(decide_False (P := I + N = I)) by lia. by rewrite !decide_True by done. }
    assert (HEe : E g2 !!! e = set_alink0 NIL (set_alink1 NIL (E g !!! e))).
    { unfold g2, gp_AdjacencyListEndMark. records_through.
      rewrite !(decide_False (P := t = e)) by done. by rewrite !decide_True by done. }
    assert (HEt : E g2 !!! t =
              set_alink0 NIL (set_alink1 NIL (set_neighbor (I + N) (E g !!! t)))).
    { unfold g2, gp_AdjacencyListEndMark. records_through.
      rewrite !(decide_False (P := e = t)) by done. by rewrite !decide_True by done. }
    split; [|split; [|split]].
    + unfold adjacency_list, gp_GetFirstArc, gp_GetLastArc, gp_GetNextArc, gp_GetPrevArc,
        gp_AdjacencyListEndMark. cbn [arc_links hd last default from_option id].
      unfold gp_GetNextArc, gp_GetPrevArc. rewrite HVR, HEe.
      repeat split; try done.
      * apply NoDup_singleton.
      * by apply Forall_singleton.
    + unfold adjacency_list, gp_GetFirstArc, gp_GetLastArc, gp_AdjacencyListEndMark.
      cbn [arc_links hd last default from_option id].
      unfold gp_GetNextArc, gp_GetPrevArc. rewrite HVI, HEt.
      repeat split; try done.
      * apply NoDup_singleton.
      * by apply Forall_singleton.
    + unfold gp_GetNeighbor. by rewrite HEt.
    + intros link. unfold gp_GetExtFaceVertex. rewrite HVR, HVI.
      by destruct (bool_decide (link = 0)).
Qed.

(** X13: the last loop of _EmbeddingInitialize makes a singleton bicomp of
    every tree edge.  Where every DFS child v below N has one arc e at its
    root copy v + N, and these arcs and their twins are all different, then
    after the loop the root copy holds e alone, v holds the twin of e
    alone, the twin names the root copy as its neighbour and the external
    face links of the two lead to each other; a vertex without a DFS parent
    has no arc. *)
Theorem EmbeddingInitialize_treeEdges_singletons (g : Graph) (N : Z) :
  let child v := 0 <= v < N /\ gp_GetVertexParent g v <> NIL in
  (forall v, child v ->
     0 <= gp_GetFirstArc g (v + N) /\ gp_GetLastArc g (v + N) = gp_GetFirstArc g (v + N)) ->
  (forall u v, child u -> child v -> u <> v ->
     gp_GetFirstArc g (u + N) <> gp_GetFirstArc g (v + N) /\
     gp_GetFirstArc g (u + N) <> gp_GetTwinArc g (gp_GetFirstArc g (v + N))) ->
  let g' := foldl (EmbeddingInitialize_treeEdge N) g (seqZ 0 N) in
  forall v, 0 <= v < N ->
    if decide (gp_GetVertexParent g v = NIL) then adjacency_list g' v []
    else singleton_bicomp g' (v + N) v (gp_GetFirstArc g (v + N)).
Proof.
  intros child Harcs Hdiff g'.
  set (P := fun (gk : Graph) (v : Z) =>
              if decide (gp_GetVertexParent g v = NIL) then adjacency_list gk v []
              else singleton_bicomp gk (v + N) v (gp_GetFirstArc g (v + N))).
  set (kept := fun (gk : Graph) =>
              (forall u, gp_GetVertexParent gk u = gp_GetVertexParent g u) /\
              (forall u, N <= u -> gp_GetFirstArc gk u = gp_GetFirstArc g u /\
                                   gp_GetLastArc gk u = gp_GetLastArc g u)).
  assert (Hfold : forall vs gk,
            NoDup vs -> (forall v, v ∈ vs -> 0 <= v < N) -> kept gk ->
            let gl := foldl (EmbeddingInitialize_treeEdge N) gk vs in
            (forall v, v ∈ vs -> P gl v) /\
            (forall v, v ∉ vs -> 0 <= v < N -> P gk v -> P gl v)).
  { induction vs as [|v vs IH]; intros gk Hnd Hin [Hpar Hroot]; cbn [foldl].
    - split; [intros v Hv; by apply elem_of_nil in Hv|auto].
    - apply NoDup_cons in Hnd as [Hv Hnd].
      assert (Hvr : 0 <= v < N) by (apply Hin; by left).
      set (g1 := EmbeddingInitialize_treeEdge N gk v).
      destruct (EmbeddingInitialize_treeEdge_others N gk v) as (HVo & Hends & Hparo & HEo).
      fold g1 in HVo, Hends, Hparo, HEo.
      destruct (EmbeddingInitialize_treeEdge_makes N gk v) as [Hroot1 Hchild1]; [lia|lia|].
      fold g1 in Hroot1, Hchild1.
      assert (Hkept1 : kept g1).
      { split; [intros u; by rewrite Hparo|].
        intros u Hu. destruct (Hends u) as [-> ->]; [lia|]. by apply Hroot. }
      assert (HPv : P g1 v).
      { unfold P. destruct (decide (gp_GetVertexParent g v = NIL)) as [Hp|Hp].
        - apply Hroot1. by rewrite Hpar.
        - destruct (Hroot (v + N)) as [Hf Hl]; [lia|].
          destruct (Harcs v) as [He Hla]; [by split|].
          rewrite <- Hf. apply Hchild1; rewrite ?Hpar, ?Hf, ?Hl; done. }
      assert (Hstep : forall u, u <> v -> 0 <= u < N -> P gk u -> P g1 u).
      { intros u Huv Hur HPu. unfold P in *.
        destruct (decide (gp_GetVertexParent g u = NIL)) as [Hp|Hp].
        - eapply adjacency_list_frame; [exact HPu| | |].
          + by destruct (Hends u Huv).
          + by destruct (Hends u Huv).
          + intros K HK. by apply elem_of_nil in HK.
        - assert (Hcu : child u) by (by split).
          assert (HEsame : forall K,
                    K = gp_GetFirstArc g (u + N) \/
                    K = gp_GetTwinArc g (gp_GetFirstArc g (u + N)) ->
                    E g1 !!! K = E gk !!! K).
          { intros K HK. apply HEo. rewrite Hpar. intros Hpv.
            assert (Hcv : child v) by (by split).
            destruct (Hroot (v + N)) as [-> _]; [lia|].
            destruct (Hdiff u v Hcu Hcv Huv) as [H1 H2].
            destruct (Hdiff v u Hcv Hcu) as [H3 H4]; [congruence|].
            change (gp_GetTwinArc gk) with (gp_GetTwinArc g).
            destruct HK as [-> | ->]; split; try done; try congruence.
            intros Heq. apply H1.
            rewrite <- (twin_arc_twice g (gp_GetFirstArc g (u + N))).
            rewrite Heq. apply twin_arc_twice. }
          eapply singleton_bicomp_frame; [exact HPu| | | |].
          + apply HVo; lia.
          + apply HVo; lia.
          + apply HEsame. by left.
          + change (gp_GetTwinArc gk) with (gp_GetTwinArc g). apply HEsame. by right. }
      destruct (IH g1 Hnd) as [Hin' Hout']; [intros u Hu; apply Hin; by right|exact Hkept1|].
      split.
      + intros u [->|Hu]%elem_of_cons; [by apply Hout'|by apply Hin'].
      + intros u Hu Hur HPu. apply not_elem_of_cons in Hu as [Huv Hu].
        apply Hout'; auto. }
  intros v Hv.
  destruct (Hfold (seqZ 0 N) g) as [Hin _].
  - apply NoDup_seqZ.
  - intros u Hu%elem_of_seqZ. lia.
  - split; auto.
  - apply Hin. apply elem_of_seqZ. lia.
Qed.

(** ** The embedding of a back edge *)

Lemma embed_linked_form g J Jt RootSide RootVertex W WPrevLink :
  embed_linked g J Jt RootSide RootVertex W WPrevLink =
  let g := link_end (link_end g J RootSide RootVertex) Jt WPrevLink W in
  let g := gp_SetNeighbor g Jt RootVertex in
  let g := gp_SetExtFaceVertex g RootVertex RootSide W in
  gp_SetExtFaceVertex g W WPrevLink RootVertex.
Proof. reflexivity. Qed.

Lemma link_end_first g e v :
  let x := gp_GetFirstArc g v in
  let g' := link_end g e 0 v in
  (forall K, gp_GetNextArc g' K = if decide (e = K) then x else gp_GetNextArc g K) /\
  (forall K, gp_GetPrevArc g' K =
     if decide (x = K) then e else if decide (e = K) then NIL else gp_GetPrevArc g K) /\
  (forall K, gp_GetNeighbor g' K = gp_GetNeighbor g K) /\
  (forall u, V g' !!! u = if decide (v = u) then set_vlink0 e (V g !!! v) else V g !!! u).
Proof.
  intros x g'.
  assert (Hform : g' = gp_SetFirstArc
            (gp_SetPrevArc (gp_SetNextArc (gp_SetPrevArc g e NIL) e x) x e) v e) by reflexivity.
  rewrite Hform. clear Hform.
  split; [|split; [|split]]; intros K.
  - arcs_through. reflexivity.
  - arcs_through. reflexivity.
  - arcs_through. reflexivity.
  - unfold gp_SetFirstArc. rewrite V_upd_vertex. reflexivity.
Qed.

Lemma link_end_last g e v :
  let x := gp_GetLastArc g v in
  let g' := link_end g e 1 v in
  (forall K, gp_GetPrevArc g' K = if decide (e = K) then x else gp_GetPrevArc g K) /\
  (forall K, gp_GetNextArc g' K =
     if decide (x = K) then e else if decide (e = K) then NIL else gp_GetNextArc g K) /\
  (forall K, gp_GetNeighbor g' K = gp_GetNeighbor g K) /\
  (forall u, V g' !!! u = if decide (v = u) then set_vlink1 e (V g !!! v) else V g !!! u).
Proof.
  intros x g'.
  assert (Hform : g' = gp_SetLastArc
            (gp_SetNextArc (gp_SetPrevArc (gp_SetNextArc g e NIL) e x) x e) v e) by reflexivity.
  rewrite Hform. clear Hform.
  split; [|split; [|split]]; intros K.
  - arcs_through. reflexivity.
  - arcs_through. reflexivity.
  - arcs_through. reflexivity.
  - unfold gp_SetLastArc. rewrite V_upd_vertex. reflexivity.
Qed.

Lemma fwd_list_frame_links g g' v f :
  fwd_list g v f ->
  gp_GetVertexFwdArcList g' v = gp_GetVertexFwdArcList g v ->
  (forall K, K ∈ f -> gp_GetNextArc g' K = gp_GetNextArc g K /\
                      gp_GetPrevArc g' K = gp_GetPrevArc g K) ->
  fwd_list g' v f.
Proof.
  intros (Hshape & Hnd & Hnil) Hh Hsame. split; [|by split].
  destruct f as [|h f]; [congruence|]. destruct Hshape as [Hhead Hl].
  split; [congruence|]. eapply arc_links_frame; [exact Hl|].
  intros K HK. apply (Hsame K HK).
Qed.

Lemma adjacency_list_end g v l link :
  adjacency_list g v l -> l <> [] -> gp_GetArc g v link ∈ l.
Proof.
  intros (Hf & Hla & _) Hne. unfold gp_GetArc.
  fold (gp_GetFirstArc g v) (gp_GetLastArc g v). rewrite Hf, Hla.
  destruct l as [|a l]; [done|]. destruct (bool_decide (link = 0)).
  - by left.
  - apply last_cons_elem_of.
Qed.

(** An arc linked at an end of an adjacency list. *)
Lemma link_end_spec g e link v l :
  adjacency_list g v l -> l <> [] -> e ∉ l -> e <> NIL -> link = 0 \/ link = 1 ->
  let x := gp_GetArc g v link in
  let g' := link_end g e link v in
  adjacency_list g' v (at_end link e l) /\
  (forall K, K <> e -> K <> x ->
     gp_GetNextArc g' K = gp_GetNextArc g K /\ gp_GetPrevArc g' K = gp_GetPrevArc g K) /\
  (forall K, gp_GetNeighbor g' K = gp_GetNeighbor g K) /\
  (forall u, V g' !!! u =
     if decide (v = u)
     then (if bool_decide (link = 0) then set_vlink0 e else set_vlink1 e) (V g !!! v)
     else V g !!! u).
Proof.
  intros Hadj Hne He HeN Hlink x g'.
  pose proof (adjacency_list_end g v l link Hadj Hne) as Hx. fold x in Hx.
  destruct Hadj as (Hf & Hla & Hl & Hnd & Hnil). unfold gp_AdjacencyListEndMark in *.
  set (gref := upd_arc e (fun a => set_alink0 NIL (set_alink1 NIL a)) g).
  assert (Href : forall K, K <> e ->
            gp_GetNextArc gref K = gp_GetNextArc g K /\ gp_GetPrevArc gref K = gp_GetPrevArc g K).
  { intros K HK. unfold gref, gp_GetNextArc, gp_GetPrevArc. rewrite E_upd_arc.
    by rewrite decide_False by congruence. }
  assert (Hrefe : gp_GetNextArc gref e = NIL /\ gp_GetPrevArc gref e = NIL).
  { unfold gref, gp_GetNextArc, gp_GetPrevArc. rewrite E_upd_arc.
    by rewrite decide_True by done. }
  assert (Hlref : arc_links gref NIL l NIL).
  { eapply arc_links_frame; [exact Hl|]. intros K HK. apply Href. congruence. }
  assert (Heref : arc_links gref NIL [e] NIL) by (cbn; tauto).
  destruct l as [|a l']; [done|]. clear Hne.
  destruct Hlink as [-> | ->]; unfold at_end;
    change (bool_decide (0 = 0)) with true; change (bool_decide (1 = 0)) with false; cbv iota.
  - destruct (link_end_first g e v) as (Hn & Hp & Hnb & HV). fold g' in Hn, Hp, Hnb, HV.
    assert (Hxa : x = a) by exact Hf. assert (Hfx : gp_GetFirstArc g v = a) by exact Hf.
    rewrite Hfx in Hn, Hp.
    split; [|split; [|split]].
    + apply (adjacency_list_join gref g' v [e] (a :: l')); try done.
      * apply NoDup_app. split; [apply NoDup_singleton|]. split; [|exact Hnd].
        intros K ->%list_elem_of_singleton. exact He.
      * apply Forall_app. split; [by apply Forall_singleton|exact Hnil].
      * unfold gp_GetFirstArc. rewrite HV. by rewrite decide_True.
      * unfold gp_GetLastArc. rewrite HV. rewrite decide_True by done.
        cbn [vlink1 set_vlink0]. exact Hla.
      * intros K HK. rewrite Hn. cbn [last hd].
        destruct (decide (e = K)) as [<-|Hne]; [by rewrite decide_True|].
        rewrite decide_False by congruence. symmetry. apply Href. congruence.
      * intros K HK. rewrite Hp. cbn [head last default from_option id].
        destruct (decide (a = K)) as [<-|Hne]; [by rewrite decide_True|].
        rewrite (decide_False (P := Some K = Some a)) by congruence.
        destruct (decide (e = K)) as [<-|HneK]; [symmetry; apply Hrefe|].
        symmetry. apply Href. congruence.
    + intros K HKe HKx. rewrite Hn, Hp, Hxa in *.
      by rewrite !decide_False by congruence.
    + exact Hnb.
    + exact HV.
  - destruct (link_end_last g e v) as (Hp & Hn & Hnb & HV). fold g' in Hn, Hp, Hnb, HV.
    set (r := default NIL (last (a :: l'))) in *.
    assert (Hr : Some r = last (a :: l')) by (symmetry; apply last_cons_Some).
    assert (Hxr : x = r) by exact Hla. assert (Hlx : gp_GetLastArc g v = r) by exact Hla.
    rewrite Hlx in Hn, Hp.
    split; [|split; [|split]].
    + apply (adjacency_list_join gref g' v (a :: l') [e]); try done.
      * apply NoDup_app. split; [exact Hnd|]. split; [|apply NoDup_singleton].
        intros K HK ->%list_elem_of_singleton. by apply He.
      * apply Forall_app. split; [exact Hnil|by apply Forall_singleton].
      * unfold gp_GetFirstArc. rewrite HV. rewrite decide_True by done.
        cbn [vlink0 set_vlink1]. exact Hf.
      * unfold gp_GetLastArc. rewrite HV. by rewrite decide_True.
      * intros K HK. rewrite Hn. cbn [hd].
        destruct (decide (r = K)) as [<-|Hne]; [by rewrite decide_True|].
        rewrite (decide_False (P := Some K = last (a :: l'))) by (rewrite <- Hr; congruence).
        destruct (decide (e = K)) as [<-|HneK]; [symmetry; apply Hrefe|].
        symmetry. apply Href. congruence.
      * intros K HK. rewrite Hp. cbn [head]. fold r.
        destruct (decide (e = K)) as [<-|Hne]; [by rewrite decide_True|].
        rewrite decide_False by congruence. symmetry. apply Href. congruence.
    + intros K HKe HKx. rewrite Hn, Hp, Hxr in *.
      by rewrite !decide_False by congruence.
    + exact Hnb.
    + exact HV.
Qed.

Lemma link_end_vertex_fields g e link v u :
  let g' := link_end g e link v in
  link = 0 \/ link = 1 ->
  gp_GetVertexFwdArcList g' u = gp_GetVertexFwdArcList g u /\
  (u <> v -> gp_GetFirstArc g' u = gp_GetFirstArc g u /\
             gp_GetLastArc g' u = gp_GetLastArc g u).
Proof.
  intros g' Hlink. unfold gp_GetVertexFwdArcList, gp_GetFirstArc, gp_GetLastArc.
  assert (HV : V g' !!! u =
            if decide (v = u)
            then (if bool_decide (link = 0) then set_vlink0 e else set_vlink1 e) (V g !!! v)
            else V g !!! u).
  { destruct Hlink as [-> | ->].
    - by destruct (link_end_first g e v) as (_ & _ & _ & ->).
    - by destruct (link_end_last g e v) as (_ & _ & _ & ->). }
  rewrite HV. destruct (decide (v = u)) as [->|Hne].
  - split; [by destruct (bool_decide _)|done].
  - done.
Qed.

Lemma link_end_links g e link v K :
  link = 0 \/ link = 1 -> K <> e -> K <> gp_GetArc g v link ->
  gp_GetNextArc (link_end g e link v) K = gp_GetNextArc g K /\
  gp_GetPrevArc (link_end g e link v) K = gp_GetPrevArc g K.
Proof.
  intros [-> | ->] HKe HKx.
  - destruct (link_end_first g e v) as (Hn & Hp & _). rewrite Hn, Hp.
    change (gp_GetArc g v 0) with (gp_GetFirstArc g v) in HKx.
    by rewrite !decide_False by congruence.
  - destruct (link_end_last g e v) as (Hp & Hn & _). rewrite Hn, Hp.
    change (gp_GetArc g v 1) with (gp_GetLastArc g v) in HKx.
    by rewrite !decide_False by congruence.
Qed.

Lemma link_end_neighbor g e link v K :
  link = 0 \/ link = 1 ->
  gp_GetNeighbor (link_end g e link v) K = gp_GetNeighbor g K.
Proof.
  intros [-> | ->].
  - by destruct (link_end_first g e v) as (_ & _ & -> & _).
  - by destruct (link_end_last g e v) as (_ & _ & -> & _).
Qed.

Lemma SetExtFaceVertex_fields g v link x u :
  E (gp_SetExtFaceVertex g v link x) = E g /\
  gp_GetVertexFwdArcList (gp_SetExtFaceVertex g v link x) u = gp_GetVertexFwdArcList g u /\
  gp_GetFirstArc (gp_SetExtFaceVertex g v link x) u = gp_GetFirstArc g u /\
  gp_GetLastArc (gp_SetExtFaceVertex g v link x) u = gp_GetLastArc g u /\
  (u <> v -> V (gp_SetExtFaceVertex g v link x) !!! u = V g !!! u) /\
  gp_GetExtFaceVertex (gp_SetExtFaceVertex g v link x) v link = x.
Proof.
  unfold gp_SetExtFaceVertex, gp_GetExtFaceVertex, gp_GetVertexFwdArcList,
    gp_GetFirstArc, gp_GetLastArc.
  destruct (bool_decide (link = 0)); rewrite !V_upd_vertex;
    (split; [reflexivity|]); rewrite (decide_True (P := v = v)) by done;
    (destruct (decide (v = u)) as [Heq|Hne];
     [rewrite <- Heq; repeat split; try done; by destruct (V g !!! v)
     |repeat split; done]).
Qed.

Lemma elem_of_at_end link e l K : K ∈ at_end link e l -> K = e \/ K ∈ l.
Proof.
  unfold at_end. destruct (bool_decide (link = 0)).
  - intros [->|?]%elem_of_cons; auto.
  - intros [?| ->%list_elem_of_singleton]%elem_of_app; auto.
Qed.

(** X14: _EmbedBackEdgeToDescendant moves the two arcs of the back edge
    into the embedding.  The forward arc, the mark of W, leaves the
    fwdArcList of the parent copy, whose other arcs keep their order; it
    becomes the arc at the RootSide end of the adjacency list of
    RootVertex, and its twin the arc at the WPrevLink end of the adjacency
    list of W, the two lists as they were otherwise.  The twin names
    RootVertex as its neighbour, no other arc changes its neighbour, and
    the external face links RootSide of RootVertex and WPrevLink of W lead
    to W and to RootVertex. *)
Theorem EmbedBackEdgeToDescendant_moves_arcs (g : Graph)
    (RootSide RootVertex W WPrevLink : Z) (f1 f2 lR lW : list Z) :
  let fwdArc := gp_GetVertexPertinentAdjacencyInfo g W in
  let backArc := gp_GetTwinArc g fwdArc in
  let parentCopy := gp_GetVertexParent g (RootVertex - gN g) in
  let g' := _EmbedBackEdgeToDescendant g RootSide RootVertex W WPrevLink in
  fwd_list g parentCopy (f1 ++ fwdArc :: f2) ->
  adjacency_list g RootVertex lR -> adjacency_list g W lW -> lR <> [] -> lW <> [] ->
  RootVertex <> W ->
  (forall a, a ∈ lR -> a ∉ lW) ->
  (forall a, a ∈ f1 ++ fwdArc :: f2 -> (a ∉ lR) /\ (a ∉ lW)) ->
  backArc ∉ f1 ++ fwdArc :: f2 -> backArc ∉ lR -> backArc ∉ lW -> backArc <> NIL ->
  is_link RootSide -> is_link WPrevLink ->
  fwd_list g' parentCopy (f1 ++ f2) /\
  adjacency_list g' RootVertex (at_end RootSide fwdArc lR) /\
  adjacency_list g' W (at_end WPrevLink backArc lW) /\
  (forall K, gp_GetNeighbor g' K =
     if decide (backArc = K) then RootVertex else gp_GetNeighbor g K) /\
  gp_GetExtFaceVertex g' RootVertex RootSide = W /\
  gp_GetExtFaceVertex g' W WPrevLink = RootVertex.
Proof.
  intros J Jt P g' Hfwd HR HW HRne HWne HRW Hdisj Hfdisj HJtf HJtR HJtW HJtN HRS HWP.
  assert (Hform : g' =
            gp_SetExtFaceVertex
              (gp_SetExtFaceVertex
                 (gp_SetNeighbor
                    (link_end (link_end (embed_unlisted g P J) J RootSide RootVertex)
                       Jt WPrevLink W) Jt RootVertex)
                 RootVertex RootSide W) W WPrevLink RootVertex) by reflexivity.
  rewrite Hform. clear Hform g'.
  set (g1 := embed_unlisted g P J).
  pose proof (embed_unlisted_effect g P J) as Heff. cbv zeta in Heff. fold g1 in Heff.
  destruct Heff as (Hn1 & Hp1 & Hnb1 & _ & HV1 & _).
  assert (HJf : J ∈ f1 ++ J :: f2) by (apply elem_of_app; right; by left).
  assert (HJN : J <> NIL).
  { destruct Hfwd as (_ & _ & Hnil). rewrite Forall_forall in Hnil. by apply Hnil. }
  destruct (Hfdisj J HJf) as [HJR HJW].
  assert (HfR : forall K, K ∈ f1 ++ J :: f2 -> K ∉ lR) by (intros K HK; by apply Hfdisj).
  assert (HfW : forall K, K ∈ f1 ++ J :: f2 -> K ∉ lW) by (intros K HK; by apply Hfdisj).
  assert (HJJt : Jt <> J) by apply twin_arc_differs.
  assert (Hsub : forall K, K ∈ f1 ++ f2 -> K ∈ f1 ++ J :: f2 /\ K <> J).
  { intros K HK. destruct Hfwd as (_ & Hnd & _).
    apply NoDup_app in Hnd as (_ & Hd & Hnd2). apply NoDup_cons in Hnd2 as [HJ2 _].
    apply elem_of_app in HK as [HK|HK].
    - split; [apply elem_of_app; by left|]. intros ->. apply (Hd J HK). by left.
    - split; [apply elem_of_app; right; by right|]. by intros ->. }
  assert (Hhead1 : gp_GetVertexFwdArcList g1 P =
            (if decide (gp_GetVertexFwdArcList g P = J)
             then (if decide (gp_GetNextArc g J = J) then NIL else gp_GetNextArc g J)
             else gp_GetVertexFwdArcList g P)).
  { unfold gp_GetVertexFwdArcList at 1. rewrite HV1. by rewrite decide_True. }
  destruct (fwd_list_remove g g1 P f1 J f2 _ _ Hfwd eq_refl eq_refl Hn1 Hp1 Hhead1)
    as (Hfwd1 & Hpin & Hnin).
  assert (Hends1 : forall u, gp_GetFirstArc g1 u = gp_GetFirstArc g u /\
                             gp_GetLastArc g1 u = gp_GetLastArc g u).
  { intros u. unfold gp_GetFirstArc, gp_GetLastArc. rewrite HV1.
    destruct (decide (P = u)) as [->|]; done. }
  assert (Hlinks1 : forall K, K ∉ f1 ++ J :: f2 ->
            gp_GetNextArc g1 K = gp_GetNextArc g K /\ gp_GetPrevArc g1 K = gp_GetPrevArc g K).
  { intros K HK. rewrite Hn1, Hp1. rewrite !decide_False; [done| |]; by intros <-. }
  assert (HR1 : adjacency_list g1 RootVertex lR).
  { eapply adjacency_list_frame; [exact HR|apply Hends1|apply Hends1|].
    intros K HK. apply Hlinks1. intros HKf. by apply (HfR K HKf). }
  assert (HW1 : adjacency_list g1 W lW).
  { eapply adjacency_list_frame; [exact HW|apply Hends1|apply Hends1|].
    intros K HK. apply Hlinks1. intros HKf. by apply (HfW K HKf). }
  (* the forward arc at the end of RootVertex *)
  set (g2 := link_end g1 J RootSide RootVertex).
  pose proof (adjacency_list_end g1 RootVertex lR RootSide HR1 HRne) as Hx.
  destruct (link_end_spec g1 J RootSide RootVertex lR HR1 HRne HJR HJN HRS) as (HR2 & _).
  fold g2 in HR2.
  assert (Hlinks2 : forall K, K <> J -> K ∉ lR ->
            gp_GetNextArc g2 K = gp_GetNextArc g1 K /\ gp_GetPrevArc g2 K = gp_GetPrevArc g1 K).
  { intros K HKJ HKR. apply link_end_links; [exact HRS|exact HKJ|]. by intros ->. }
  assert (HW2 : adjacency_list g2 W lW).
  { eapply adjacency_list_frame; [exact HW1| | |].
    - apply (link_end_vertex_fields g1 J RootSide RootVertex W HRS). congruence.
    - apply (link_end_vertex_fields g1 J RootSide RootVertex W HRS). congruence.
    - intros K HK. apply Hlinks2; [by intros ->|]. intros HKR. by apply (Hdisj K). }
  assert (Hfwd2 : fwd_list g2 P (f1 ++ f2)).
  { eapply fwd_list_frame_links; [exact Hfwd1| |].
    - apply (link_end_vertex_fields g1 J RootSide RootVertex P HRS).
    - intros K HK. destruct (Hsub K HK) as [HKf HKJ].
      apply Hlinks2; [exact HKJ|]. by apply HfR. }
  (* the back arc at the end of W *)
  set (g3 := link_end g2 Jt WPrevLink W).
  pose proof (adjacency_list_end g2 W lW WPrevLink HW2 HWne) as Hy.
  destruct (link_end_spec g2 Jt WPrevLink W lW HW2 HWne HJtW HJtN HWP) as (HW3 & _).
  fold g3 in HW3.
  assert (Hlinks3 : forall K, K <> Jt -> K ∉ lW ->
            gp_GetNextArc g3 K = gp_GetNextArc g2 K /\ gp_GetPrevArc g3 K = gp_GetPrevArc g2 K).
  { intros K HKJ HKW. apply link_end_links; [exact HWP|exact HKJ|]. by intros ->. }
  assert (HR3 : adjacency_list g3 RootVertex (at_end RootSide J lR)).
  { eapply adjacency_list_frame; [exact HR2| | |].
    - by apply (link_end_vertex_fields g2 Jt WPrevLink W RootVertex HWP).
    - by apply (link_end_vertex_fields g2 Jt WPrevLink W RootVertex HWP).
    - intros K [-> |HK]%elem_of_at_end.
      + apply Hlinks3; [congruence|exact HJW].
      + apply Hlinks3; [by intros ->|by apply Hdisj]. }
  assert (Hfwd3 : fwd_list g3 P (f1 ++ f2)).
  { eapply fwd_list_frame_links; [exact Hfwd2| |].
    - apply (link_end_vertex_fields g2 Jt WPrevLink W P HWP).
    - intros K HK. destruct (Hsub K HK) as [HKf HKJ].
      apply Hlinks3; [by intros ->|]. by apply HfW. }
  (* the neighbour of the back arc and the external face *)
  set (g4 := gp_SetNeighbor g3 Jt RootVertex).
  set (g5 := gp_SetExtFaceVertex g4 RootVertex RootSide W).
  set (g6 := gp_SetExtFaceVertex g5 W WPrevLink RootVertex).
  assert (HE6 : E g6 = E g4).
  { transitivity (E g5).
    - apply (SetExtFaceVertex_fields g5 W WPrevLink RootVertex W).
    - apply (SetExtFaceVertex_fields g4 RootVertex RootSide W W). }
  assert (Hlinks6 : forall K, gp_GetNextArc g6 K = gp_GetNextArc g3 K /\
                              gp_GetPrevArc g6 K = gp_GetPrevArc g3 K).
  { intros K. unfold gp_GetNextArc, gp_GetPrevArc. rewrite HE6.
    fold (gp_GetNextArc g4 K) (gp_GetPrevArc g4 K). unfold g4.
    by rewrite next_SetNeighbor, prev_SetNeighbor. }
  assert (Hfields6 : forall u,
            gp_GetVertexFwdArcList g6 u = gp_GetVertexFwdArcList g3 u /\
            gp_GetFirstArc g6 u = gp_GetFirstArc g3 u /\
            gp_GetLastArc g6 u = gp_GetLastArc g3 u).
  { intros u.
    destruct (SetExtFaceVertex_fields g5 W WPrevLink RootVertex u) as (_ & H1 & H2 & H3 & _).
    destruct (SetExtFaceVertex_fields g4 RootVertex RootSide W u) as (_ & H4 & H5 & H6 & _).
    fold g6 in H1, H2, H3. fold g5 in H4, H5, H6. rewrite H1, H2, H3, H4, H5, H6. done. }
  split; [|split; [|split; [|split; [|split]]]].
  - eapply fwd_list_frame_links; [exact Hfwd3|apply Hfields6|]. intros K _. apply Hlinks6.
  - eapply adjacency_list_frame; [exact HR3|apply Hfields6|apply Hfields6|].
    intros K _. apply Hlinks6.
  - eapply adjacency_list_frame; [exact HW3|apply Hfields6|apply Hfields6|].
    intros K _. apply Hlinks6.
  - intros K. unfold gp_GetNeighbor at 1. rewrite HE6. fold (gp_GetNeighbor g4 K).
    unfold g4. rewrite neighbor_SetNeighbor. unfold g3, g2.
    rewrite (link_end_neighbor _ _ _ _ _ HWP), (link_end_neighbor _ _ _ _ _ HRS), Hnb1.
    reflexivity.
  - destruct (SetExtFaceVertex_fields g5 W WPrevLink RootVertex RootVertex)
      as (_ & _ & _ & _ & HV & _).
    fold g6 in HV. unfold gp_GetExtFaceVertex. rewrite (HV HRW).
    apply (SetExtFaceVertex_fields g4 RootVertex RootSide W W).
  - apply (SetExtFaceVertex_fields g5 W WPrevLink RootVertex W).
Qed.

(** ** A Walkdown that does not return OK *)

Section StoppedWalkdown.

Variables functions leaves : graphFunctionTable.
Variable mfuel : nat.
Hypothesis Hmerge : fpMergeBicomps functions = _MergeBicomps leaves mfuel.
Hypothesis Hblocked :
  fpHandleBlockedDescendantBicomp functions = _HandleBlockedDescendantBicomp.
Hypothesis Hinactive : fpHandleInactiveVertex functions = _HandleInactiveVertex.

Lemma WalkDown_embedAt_goes_on g I RootVertex RootSide W WPrevLink r :
  WalkDown_embedAt functions g I RootVertex RootSide W WPrevLink = Some r ->
  exists g', r = inr g'.
Proof.
  unfold WalkDown_embedAt. intros Hrun.
  destruct (bool_decide (gp_GetVertexPertinentAdjacencyInfo g W <> NIL)).
  2:{ injection Hrun as <-. by eexists. }
  destruct (sp_NonEmpty (theStack g)).
  - rewrite Hmerge in Hrun.
    destruct (_MergeBicomps leaves mfuel g I RootVertex W WPrevLink) as [[r1 g1]|] eqn:Hm;
      [|discriminate].
    destruct (MergeBicomps_result _ _ _ _ _ _ _ _ _ Hm) as [-> _].
    cbn [mbind option_bind] in Hrun. rewrite decide_False in Hrun by (intros Hne; by apply Hne).
    injection Hrun as <-. by eexists.
  - cbn [mbind option_bind] in Hrun. rewrite decide_False in Hrun by (intros Hne; by apply Hne).
    injection Hrun as <-. by eexists.
Qed.

Lemma WalkDown_descend_stops g I RootVertex W WPrevLink Rout r g' :
  gp_GetVertexPertinentBicompList g W <> NIL ->
  WalkDown_descend functions g I RootVertex W WPrevLink Rout = inl (r, g') ->
  walkdown_stopped g' I RootVertex r.
Proof.
  intros Hpert. unfold WalkDown_descend. cbv zeta. rewrite Hblocked.
  set (g1 := with_theStack (sp_Push2 (theStack g) W WPrevLink) g).
  set (R := _GetPertinentChildBicomp g1 W).
  set (X := gp_GetExtFaceVertex g1 R 0). set (Y := gp_GetExtFaceVertex g1 R 1).
  destruct (bool_decide (X = Y) && gp_GetExtFaceInversionFlag g1 X).
  all: destruct (decide (_VertexActiveStatus g1 X I = VAS_INTERNAL)) as [|HX]; [discriminate|].
  all: destruct (decide (_VertexActiveStatus g1 Y I = VAS_INTERNAL)) as [|HY]; [discriminate|].
  all: destruct (PERTINENT g1 X) eqn:HPX; [discriminate|].
  all: destruct (PERTINENT g1 Y) eqn:HPY; [discriminate|].
  all: unfold _HandleBlockedDescendantBicomp; cbv zeta;
    rewrite decide_True by discriminate; intros [= <- <-]; left; split; [reflexivity|];
    exists R, W, WPrevLink, (stack_items (theStack g)); split; [reflexivity|];
    repeat split; assumption.
Qed.

Lemma WalkDown_side_stops I RootVertex RootSide fuel : forall g W WPrevLink Rout r g',
  WalkDown_side functions fuel g I RootVertex RootSide W WPrevLink Rout
    = Some (Side_Return r g') ->
  walkdown_stopped g' I RootVertex r.
Proof.
  induction fuel as [|fuel IH]; intros g W WPrevLink Rout r g' Hrun;
    cbn [WalkDown_side] in Hrun.
  - destruct (bool_decide (W <> RootVertex)); discriminate.
  - destruct (bool_decide (W <> RootVertex)); [|discriminate].
    destruct (WalkDown_embedAt functions g I RootVertex RootSide W WPrevLink)
      as [e|] eqn:Hembed; [|discriminate].
    destruct (WalkDown_embedAt_goes_on _ _ _ _ _ _ _ Hembed) as [g1 ->].
    cbn [mbind option_bind] in Hrun.
    destruct (bool_decide_reflect (gp_GetVertexPertinentBicompList g1 W <> NIL)) as [Hpert|_].
    + destruct (WalkDown_descend functions g1 I RootVertex W WPrevLink Rout)
        as [[r1 g2]|[[[W2 P2] R2] g2]] eqn:Hd.
      * injection Hrun as <- <-. by eapply WalkDown_descend_stops.
      * by eapply IH.
    + destruct (decide (_VertexActiveStatus g1 W I = VAS_INACTIVE)); [|discriminate].
      rewrite Hinactive in Hrun. unfold _HandleInactiveVertex in Hrun. cbv zeta in Hrun.
      rewrite decide_False in Hrun by (intros Hne; by apply Hne). by eapply IH.
Qed.

Lemma WalkDown_sides_stops I RootVertex fuel : forall sides Rout g r g',
  Forall is_link sides ->
  WalkDown_sides functions fuel I RootVertex sides Rout g = Some (r, g') -> r <> OK ->
  walkdown_stopped g' I RootVertex r.
Proof.
  induction sides as [|RootSide sides IH]; intros Rout g r g' Hlinks Hrun Hr;
    cbn [WalkDown_sides] in Hrun.
  - injection Hrun as <- <-. done.
  - apply Forall_cons in Hlinks as [Hlink Hlinks].
    destruct (WalkDown_enter g RootVertex RootSide) as [[W WPrevLink]|] eqn:Henter.
    2:{ injection Hrun as <- <-. right. split; [reflexivity|]. by exists RootSide. }
    destruct (WalkDown_side functions fuel g I RootVertex RootSide W WPrevLink Rout)
      as [[r1 g1|W1 P1 R1 g1]|] eqn:Hside; [| |discriminate]; cbn [mbind option_bind] in Hrun.
    + injection Hrun as <- <-. by eapply WalkDown_side_stops.
    + destruct (bool_decide (W1 = RootVertex)); [injection Hrun as <- <-; done|].
      by eapply IH.
Qed.

End StoppedWalkdown.

(** X15: a Walkdown that does not return OK has stopped in one of two
    ways.  It returns NONEMBEDDABLE at a blocked descent: the stack then
    holds on top the pair of the root R of the blocking bicomp, above the
    pair of the vertex W it is a pertinent child bicomp of, and neither
    vertex next to R on the external face is internally active or
    pertinent.  Or it returns NOTOK at the start of a side of RootVertex,
    where the external face link does not lead back to RootVertex.  The
    merge of bicomps and the step over an inactive vertex never stop it. *)
Theorem WalkDown_stopped (functions leaves : graphFunctionTable) (mfuel fuel : nat)
    (g : Graph) (I RootVertex : Z) (r : RetCode) (g' : Graph) :
  fpMergeBicomps functions = _MergeBicomps leaves mfuel ->
  fpHandleBlockedDescendantBicomp functions = _HandleBlockedDescendantBicomp ->
  fpHandleInactiveVertex functions = _HandleInactiveVertex ->
  _WalkDown functions fuel g I RootVertex = Some (r, g') -> r <> OK ->
  walkdown_stopped g' I RootVertex r.
Proof.
  intros Hmerge Hblocked Hinactive Hrun Hr. unfold _WalkDown in Hrun.
  eapply (WalkDown_sides_stops functions leaves mfuel Hmerge Hblocked Hinactive);
    [|exact Hrun|exact Hr].
  apply Forall_cons. split; [by left|]. apply Forall_cons. split; [by right|]. apply Forall_nil_2.
Qed.

(** ** The root copies after _JoinBicomps *)


Lemma vertices_kept_refl W g : vertices_kept W g g.
Proof. by repeat split. Qed.







(** ** The bucket sort of the DFS children *)

Lemma LCAppend_others (lc : listCollection) h x K :
  K <> x -> (h <> NIL -> K <> h /\ K <> lc_prev (lc !!! h)) ->
  (LCAppend lc h x).1 !!! K = lc !!! K.
Proof.
  intros HKx HKh. unfold LCAppend. destruct (bool_decide_reflect (h = NIL)) as [Hh|Hh].
  - cbn [fst]. by rewrite lookup_total_insert_ne by congruence.
  - destruct (HKh Hh) as [HKh1 HKp]. cbv zeta. cbn [fst].
    by rewrite !lookup_total_insert_ne by congruence.
Qed.

Lemma lc_path_frame (lc lc' : listCollection) : forall rest x stop,
  lc_path lc x rest stop ->
  (forall K, K ∈ x :: rest -> lc' !!! K = lc !!! K) ->
  lc_path lc' x rest stop.
Proof.
  induction rest as [|y rest IH]; intros x stop Hpath Hsame; cbn [lc_path] in *.
  - rewrite Hsame by (by left). exact Hpath.
  - destruct Hpath as [Hn Hpath]. split; [rewrite Hsame by (by left); exact Hn|].
    apply IH; [exact Hpath|]. intros K HK. apply Hsame. by right.
Qed.

Lemma lc_list_frame (lc lc' : listCollection) h l :
  lc_list lc h l -> (forall K, K ∈ l -> lc' !!! K = lc !!! K) -> lc_list lc' h l.
Proof.
  intros (Hshape & Hnd & Hnil) Hsame. split; [|by split].
  destruct l as [|x rest]; [exact Hshape|]. destruct Hshape as (Hh & Hpath & Hprev).
  split; [exact Hh|]. split; [by apply (lc_path_frame lc)|].
  rewrite Hsame by (by left). exact Hprev.
Qed.

(** An append to one list of a collection leaves a list with other nodes
    as it is. *)
Lemma LCAppend_frame (lc : listCollection) h l x h' l' :
  lc_list lc h l -> lc_list lc h' l' ->
  (forall K, K ∈ l' -> K <> x /\ K ∉ l) ->
  lc_list (LCAppend lc h x).1 h' l'.
Proof.
  intros Hl Hl' Hdisj. eapply lc_list_frame; [exact Hl'|].
  intros K HK. destruct (Hdisj K HK) as [HKx HKl].
  apply LCAppend_others; [exact HKx|]. intros Hh.
  destruct Hl as (Hshape & _ & _). destruct l as [|a rest]; [done|].
  destruct Hshape as (-> & _ & Hprev). split.
  - intros ->. apply HKl. by left.
  - rewrite Hprev. intros ->. apply HKl. apply lc_list_last_elem.
Qed.

Lemma bucket_insert g L x L' :
  default NIL (<[L := x]> (buckets g) !! L') = if decide (L = L') then x else bucket g L'.
Proof.
  unfold bucket. destruct (decide (L = L')) as [->|Hne].
  - by rewrite lookup_insert_eq.
  - by rewrite lookup_insert_ne.
Qed.

(** The buckets start empty (lines 343-345). *)
Lemma buckets_emptied vs : forall g I,
  bucket (foldl (fun g I => with_buckets (<[I := NIL]> (buckets g)) g) g vs) I =
  if decide (I ∈ vs) then NIL else bucket g I.
Proof.
  induction vs as [|v vs IH]; intros g I; cbn [foldl].
  - rewrite decide_False; [reflexivity|apply not_elem_of_nil].
  - rewrite IH. destruct (decide (I ∈ vs)) as [Hin|Hnin].
    + by rewrite decide_True by (by right).
    + unfold bucket at 1. cbn [buckets with_buckets]. rewrite bucket_insert.
      destruct (decide (v = I)) as [->|Hne].
      * by rewrite decide_True by (by left).
      * rewrite decide_False; [reflexivity|].
        intros [->|Hin]%elem_of_cons; done.
Qed.

Lemma buckets_emptied_frame vs : forall g,
  let g' := foldl (fun g I => with_buckets (<[I := NIL]> (buckets g)) g) g vs in
  V g' = V g /\ gN g' = gN g /\ DFSChildLists g' = DFSChildLists g /\ bin g' = bin g.
Proof.
  induction vs as [|v vs IH]; intros g; cbn [foldl]; [done|].
  specialize (IH (with_buckets (<[v := NIL]> (buckets g)) g)). cbv zeta in IH.
  by destruct IH as (-> & -> & -> & ->).
Qed.

Lemma lc_list_empty_bin L : lc_list (LCReset L) NIL [].
Proof. split; [reflexivity|]. split; [apply NoDup_nil_2|apply Forall_nil_2]. Qed.

(** A vertex drops into the bucket of its lowpoint (lines 350-354). *)
Lemma drop_holds g0 g dropped v :
  buckets_hold g0 g dropped -> v ∉ dropped -> v <> NIL ->
  0 <= gp_GetVertexLowpoint g0 v < gN g0 ->
  buckets_hold g0 (CreateSortedSeparatedDFSChildLists_drop g v) (dropped ++ [v]).
Proof.
  intros (HV & HN & HD & Hb) Hv HvN HL. unfold CreateSortedSeparatedDFSChildLists_drop.
  assert (HLv : gp_GetVertexLowpoint g v = gp_GetVertexLowpoint g0 v)
    by (unfold gp_GetVertexLowpoint; by rewrite HV).
  cbv zeta. rewrite HLv. set (L0 := gp_GetVertexLowpoint g0 v) in *.
  pose proof (Hb L0 HL) as Hl0.
  assert (Hnotin : v ∉ filter (fun u => gp_GetVertexLowpoint g0 u = L0) dropped).
  { intros [_ Hin]%list_elem_of_filter. done. }
  pose proof (LCAppend_list _ _ _ v Hl0 Hnotin HvN) as Happ.
  destruct (LCAppend (bin g) (bucket g L0) v) as [lc theList] eqn:HA.
  cbn [fst snd] in Happ.
  split; [exact HV|]. split; [exact HN|]. split; [exact HD|].
  intros L HLr. unfold bucket. cbn [bin buckets with_buckets with_bin]. rewrite bucket_insert.
  rewrite filter_app. destruct (decide (L0 = L)) as [<-|Hne].
  - rewrite filter_cons_True by reflexivity. exact Happ.
  - rewrite filter_cons_False by (unfold L0 in Hne; congruence). rewrite app_nil_r.
    pose proof (LCAppend_frame (bin g) (bucket g L0) _ v (bucket g L) _ Hl0 (Hb L HLr)) as Hfr.
    rewrite HA in Hfr. cbn [fst] in Hfr. apply Hfr.
    intros K [HKL HKin]%list_elem_of_filter. split; [by intros ->|].
    intros [HKL0 _]%list_elem_of_filter. congruence.
Qed.

Lemma drops_hold g0 vs : forall g dropped,
  buckets_hold g0 g dropped -> NoDup (dropped ++ vs) ->
  (forall v, v ∈ vs -> 0 <= v /\ 0 <= gp_GetVertexLowpoint g0 v < gN g0) ->
  buckets_hold g0 (foldl CreateSortedSeparatedDFSChildLists_drop g vs) (dropped ++ vs).
Proof.
  induction vs as [|v vs IH]; intros g dropped Hh Hnd Hvs; cbn [foldl].
  - by rewrite app_nil_r.
  - replace (dropped ++ v :: vs) with ((dropped ++ [v]) ++ vs) in * by (by rewrite <- app_assoc).
    destruct (Hvs v) as [Hv HL]; [by left|].
    apply IH; [|exact Hnd|intros u Hu; apply Hvs; by right].
    apply drop_holds; [exact Hh| |unfold NIL; lia|exact HL].
    apply NoDup_app in Hnd as (Hnd & _ & _). apply NoDup_app in Hnd as (_ & Hd & _).
    intros Hin. apply (Hd v Hin). by left.
Qed.

(** A vertex goes into the separatedDFSChildList of its DFS parent
    (lines 366-373). *)
Lemma place_holds g0 gb g placed L :
  children_placed g0 gb g placed -> L ∉ placed -> L <> NIL ->
  let DFSParent := gp_GetVertexParent g L in
  let g1 :=
    if bool_decide (DFSParent <> NIL) && bool_decide (DFSParent <> L) then
      let theList := gp_GetVertexSeparatedDFSChildList g DFSParent in
      let '(lc, theList) := LCAppend (DFSChildLists g) theList L in
      let g := with_DFSChildLists lc g in
      gp_SetVertexSeparatedDFSChildList g DFSParent theList
    else g in
  children_placed g0 gb g1 (placed ++ [L]).
Proof.
  intros (HN & Hbin & Hbk & Hpar & Hlists) HL HLN DFSParent g1.
  assert (HP : DFSParent = gp_GetVertexParent g0 L) by apply Hpar.
  unfold g1. clear g1.
  destruct (bool_decide_reflect (DFSParent <> NIL)) as [Hp1|Hp1]; cbn [andb];
    [destruct (bool_decide_reflect (DFSParent <> L)) as [Hp2|Hp2]|].
  - (* the vertex is appended to the list of its parent *)
    cbv zeta.
    pose proof (Hlists DFSParent) as Hl0.
    assert (Hnotin : L ∉ children_of g0 DFSParent placed).
    { intros [_ Hin]%list_elem_of_filter. done. }
    pose proof (LCAppend_list _ _ _ L Hl0 Hnotin HLN) as Happ.
    destruct (LCAppend (DFSChildLists g) (gp_GetVertexSeparatedDFSChildList g DFSParent) L)
      as [lc theList] eqn:HA. cbn [fst snd] in Happ.
    split; [exact HN|]. split; [exact Hbin|]. split; [exact Hbk|]. split.
    + intros v. destruct (Hpar v) as [<- <-].
      unfold gp_GetVertexParent, gp_GetVertexLowpoint, gp_SetVertexSeparatedDFSChildList.
      rewrite V_upd_vertex. destruct (decide (DFSParent = v)) as [->|]; [|done].
      cbn [V with_DFSChildLists]. by destruct (V g !!! v).
    + intros p. unfold children_of. rewrite filter_app. fold (children_of g0 p placed).
      unfold gp_GetVertexSeparatedDFSChildList at 1, gp_SetVertexSeparatedDFSChildList.
      rewrite V_upd_vertex. cbn [DFSChildLists with_DFSChildLists upd_vertex with_V].
      destruct (decide (DFSParent = p)) as [<-|Hne].
      * rewrite filter_cons_True by (split; [by symmetry|by split]).
        cbn [separatedDFSChildList set_separatedDFSChildList]. exact Happ.
      * rewrite filter_cons_False by (intros (Heq & _); congruence). rewrite app_nil_r.
        fold (gp_GetVertexSeparatedDFSChildList g p).
        pose proof (LCAppend_frame (DFSChildLists g) _ _ L _ _ Hl0 (Hlists p)) as Hfr.
        rewrite HA in Hfr. cbn [fst] in Hfr. apply Hfr.
        intros K [(HKp & _) HKin]%list_elem_of_filter. split; [by intros ->|].
        intros [(HKp0 & _) _]%list_elem_of_filter. congruence.
  - (* the vertex is its own parent *)
    assert (Heq : DFSParent = L) by (destruct (decide (DFSParent = L)); tauto).
    split; [exact HN|]. split; [exact Hbin|]. split; [exact Hbk|]. split; [exact Hpar|].
    intros p. unfold children_of. rewrite filter_app.
    rewrite filter_cons_False by (intros (Hq & _ & Hq'); congruence).
    rewrite app_nil_r. apply Hlists.
  - (* the vertex has no parent *)
    assert (Heq : DFSParent = NIL) by (destruct (decide (DFSParent = NIL)); tauto).
    split; [exact HN|]. split; [exact Hbin|]. split; [exact Hbk|]. split; [exact Hpar|].
    intros p. unfold children_of. rewrite filter_app.
    rewrite filter_cons_False by (intros (Hq & Hq' & _); congruence).
    rewrite app_nil_r. apply Hlists.
Qed.

(** The loop over one bucket (lines 362-376). *)
Lemma bucket_places g0 gb I lb :
  lc_list (bin gb) (bucket gb I) lb ->
  forall post pre g placed fuel,
  lb = pre ++ post -> children_placed g0 gb g placed -> NoDup (placed ++ post) ->
  (length post <= fuel)%nat ->
  exists g', CreateSortedSeparatedDFSChildLists_bucket fuel g I (hd NIL post) = Some g' /\
    children_placed g0 gb g' (placed ++ post).
Proof.
  intros Hlb. induction post as [|L post IH]; intros pre g placed fuel Heq Hpl Hnd Hfuel.
  - exists g. rewrite app_nil_r. split; [|exact Hpl]. cbn [hd].
    destruct fuel; cbn [CreateSortedSeparatedDFSChildLists_bucket];
      by rewrite bool_decide_eq_false_2 by (intros Hne; by apply Hne).
  - destruct fuel as [|fuel]; [cbn in Hfuel; lia|]. cbn [length] in Hfuel.
    rewrite Heq in Hlb. destruct (lc_list_next _ _ _ _ _ Hlb) as [HLN Hnext].
    cbn [hd CreateSortedSeparatedDFSChildLists_bucket].
    rewrite bool_decide_eq_true_2 by exact HLN. cbv zeta.
    assert (HL : L ∉ placed).
    { apply NoDup_app in Hnd as (_ & Hd & _). intros Hin. apply (Hd L Hin). by left. }
    pose proof (place_holds g0 gb g placed L Hpl HL HLN) as Hstep. cbv zeta in Hstep.
    match type of Hstep with children_placed _ _ ?gv _ => set (g1 := gv) in * end.
    assert (Hb1 : bin g1 = bin gb) by apply Hstep.
    assert (Hk1 : bucket g1 I = bucket gb I).
    { unfold bucket. destruct Hstep as (_ & _ & -> & _). reflexivity. }
    rewrite Hb1, Hk1, Hnext.
    destruct (IH (pre ++ [L]) g1 (placed ++ [L]) fuel) as (g' & Hrun & Hpl');
      [by rewrite <- app_assoc|exact Hstep|by rewrite <- app_assoc|lia|].
    exists g'. split; [exact Hrun|]. by rewrite <- app_assoc in Hpl'.
Qed.

(** The loop over the buckets (lines 360-377). *)
Lemma scan_places g0 gb vs fuel :
  buckets_hold g0 gb vs -> (length vs <= fuel)%nat ->
  forall Is g placed,
  (forall I, I ∈ Is -> 0 <= I < gN g0) ->
  children_placed g0 gb g placed ->
  NoDup (placed ++ (Is ≫= fun I => filter (fun v => gp_GetVertexLowpoint g0 v = I) vs)) ->
  exists g', CreateSortedSeparatedDFSChildLists_scan fuel g Is = Some g' /\
    children_placed g0 gb g'
      (placed ++ (Is ≫= fun I => filter (fun v => gp_GetVertexLowpoint g0 v = I) vs)).
Proof.
  intros (_ & _ & _ & Hb) Hfuel. induction Is as [|I Is IH]; intros g placed HIs Hpl Hnd.
  - exists g. cbn. rewrite app_nil_r. by split.
  - cbn [CreateSortedSeparatedDFSChildLists_scan]. rewrite bind_cons in *.
    set (lb := filter (fun v => gp_GetVertexLowpoint g0 v = I) vs) in *.
    assert (Hlb : lc_list (bin gb) (bucket gb I) lb) by (apply Hb, HIs; by left).
    assert (Hk : bucket g I = bucket gb I).
    { unfold bucket. destruct Hpl as (_ & _ & -> & _). reflexivity. }
    rewrite Hk.
    destruct (bucket_places g0 gb I lb Hlb lb [] g placed fuel) as (g1 & Hrun & Hpl1).
    + reflexivity.
    + exact Hpl.
    + rewrite app_assoc in Hnd. by apply NoDup_app in Hnd as (Hnd & _ & _).
    + etrans; [apply length_filter|exact Hfuel].
    + assert (Hhd : hd NIL lb = bucket gb I).
      { destruct Hlb as (Hshape & _). destruct lb as [|a rest]; [by rewrite Hshape|].
        by destruct Hshape as (-> & _). }
      rewrite <- Hhd, Hrun. cbn [mbind option_bind].
      destruct (IH g1 (placed ++ lb)) as (g' & Hrun' & Hpl');
        [intros J HJ; apply HIs; by right|exact Hpl1|by rewrite <- app_assoc|].
      exists g'. split; [exact Hrun'|]. by rewrite <- app_assoc in Hpl'.
Qed.

Lemma ascending_app (l1 l2 : list Z) :
  ascending l1 -> ascending l2 -> (forall a b, a ∈ l1 -> b ∈ l2 -> a <= b) ->
  ascending (l1 ++ l2).
Proof.
  induction l1 as [|a l1 IH]; intros H1 H2 Hle; [exact H2|].
  cbn [ascending] in H1. destruct H1 as [Hab H1]. cbn [app ascending]. split.
  - destruct l1 as [|b l1]; cbn [app].
    + destruct l2 as [|c l2]; [exact Logic.I|]. apply Hle; by left.
    + exact Hab.
  - apply IH; [exact H1|exact H2|]. intros x y Hx Hy. apply Hle; [by right|exact Hy].
Qed.

Lemma ascending_const (l : list Z) (c : Z) : Forall (fun x => x = c) l -> ascending l.
Proof.
  induction l as [|a l IH]; intros Hall; [exact Logic.I|].
  apply Forall_cons in Hall as [-> Hall]. cbn [ascending]. split; [|by apply IH].
  destruct l as [|b l]; [exact Logic.I|]. apply Forall_cons in Hall as [-> _]. lia.
Qed.

(** The order of the bucket sort is ascending in the lowpoint. *)
Lemma lowpoint_blocks_ascending g vs (P : Z -> Prop) `{!forall x, Decision (P x)} :
  forall k m,
  let l := gp_GetVertexLowpoint g <$>
             filter P (seqZ m (Z.of_nat k) ≫=
                         fun I => filter (fun v => gp_GetVertexLowpoint g v = I) vs) in
  ascending l /\ Forall (fun x => m <= x) l.
Proof.
  induction k as [|k IH]; intros m l; unfold l; clear l.
  - change (seqZ m (Z.of_nat 0)) with (@nil Z). cbn. split; [exact Logic.I|apply Forall_nil_2].
  - rewrite seqZ_cons by lia.
    replace (Z.pred (Z.of_nat (S k))) with (Z.of_nat k) by lia.
    rewrite bind_cons, filter_app, fmap_app.
    destruct (IH (Z.succ m)) as [Hasc Hge].
    assert (Hblock : Forall (fun x => x = m)
              (gp_GetVertexLowpoint g <$>
                 filter P (filter (fun v => gp_GetVertexLowpoint g v = m) vs))).
    { apply Forall_forall. intros x (v & -> & Hv)%list_elem_of_fmap.
      apply list_elem_of_filter in Hv as [_ Hv]. by apply list_elem_of_filter in Hv as [Hv _]. }
    split.
    + apply ascending_app; [by eapply ascending_const|exact Hasc|].
      intros a b Ha Hb. rewrite Forall_forall in Hblock, Hge.
      rewrite (Hblock a Ha). specialize (Hge b Hb). lia.
    + apply Forall_app. split.
      * eapply Forall_impl; [exact Hblock|]. intros x ->. lia.
      * eapply Forall_impl; [exact Hge|]. intros x Hx. cbv beta in Hx. lia.
Qed.

Lemma lowpoint_order_NoDup g N : NoDup (lowpoint_order g N).
Proof.
  unfold lowpoint_order. apply NoDup_bind.
  - intros I1 I2 v _ _ [H1 _]%list_elem_of_filter [H2 _]%list_elem_of_filter. congruence.
  - intros I _. apply NoDup_filter, NoDup_seqZ.
  - apply NoDup_seqZ.
Qed.

Lemma elem_of_lowpoint_order g N v :
  (forall u, 0 <= u < N -> 0 <= gp_GetVertexLowpoint g u < N) ->
  v ∈ lowpoint_order g N <-> 0 <= v < N.
Proof.
  intros Hlow. unfold lowpoint_order. rewrite list_elem_of_bind. split.
  - intros (I & [_ Hv%elem_of_seqZ]%list_elem_of_filter & _). lia.
  - intros Hv. exists (gp_GetVertexLowpoint g v). split.
    + apply list_elem_of_filter. split; [reflexivity|]. apply elem_of_seqZ. lia.
    + apply elem_of_seqZ. specialize (Hlow v Hv). lia.
Qed.

(** X17: _CreateSortedSeparatedDFSChildLists sorts the DFS children by
    lowpoint.  On a graph whose lowpoints lie below N and whose
    separatedDFSChildLists are empty, the call returns, given fuel for N
    vertices, and the separatedDFSChildList of every vertex p then holds
    exactly the DFS children of p below N, in ascending order of lowpoint,
    the children of one lowpoint in the order of their numbers; it changes
    no DFS parent and no lowpoint. *)
Theorem CreateSortedSeparatedDFSChildLists_sorts (fuel : nat) (g : Graph) :
  (forall v, 0 <= v < gN g -> 0 <= gp_GetVertexLowpoint g v < gN g) ->
  (forall p, gp_GetVertexSeparatedDFSChildList g p = NIL) ->
  (Z.to_nat (gN g) <= fuel)%nat ->
  exists g', _CreateSortedSeparatedDFSChildLists fuel g = Some g' /\
    (forall v, gp_GetVertexParent g' v = gp_GetVertexParent g v /\
               gp_GetVertexLowpoint g' v = gp_GetVertexLowpoint g v) /\
    forall p,
      let l := children_of g p (lowpoint_order g (gN g)) in
      lc_list (DFSChildLists g') (gp_GetVertexSeparatedDFSChildList g' p) l /\
      (forall v, v ∈ l <->
         0 <= v < gN g /\ gp_GetVertexParent g v = p /\ p <> NIL /\ p <> v) /\
      ascending (gp_GetVertexLowpoint g <$> l).
Proof.
  intros Hlow Hempty Hfuel. unfold _CreateSortedSeparatedDFSChildLists. cbv zeta.
  set (N := gN g) in *.
  set (g1 := with_bin (LCReset (bin g)) g).
  set (g2 := foldl (fun g I => with_buckets (<[I := NIL]> (buckets g)) g) g1 (seqZ 0 N)).
  set (gb := foldl CreateSortedSeparatedDFSChildLists_drop g2 (seqZ 0 N)).
  destruct (buckets_emptied_frame (seqZ 0 N) g1) as (HV2 & HN2 & HD2 & HB2). fold g2 in HV2, HN2, HD2, HB2.
  assert (Hh2 : buckets_hold g g2 []).
  { split; [exact HV2|]. split; [exact HN2|]. split; [exact HD2|].
    intros L HL. rewrite filter_nil. unfold g2. rewrite buckets_emptied.
    rewrite decide_True by (apply elem_of_seqZ; fold N in HL; lia).
    fold g2. rewrite HB2. apply lc_list_empty_bin. }
  assert (Hhb : buckets_hold g gb ([] ++ seqZ 0 N)).
  { apply drops_hold; [exact Hh2|apply NoDup_seqZ|].
    intros v Hv%elem_of_seqZ. split; [lia|]. apply Hlow. lia. }
  cbn [app] in Hhb.
  assert (Hpl0 : children_placed g gb gb []).
  { destruct Hhb as (HVb & HNb & HDb & _).
    split; [exact HNb|]. split; [reflexivity|]. split; [reflexivity|]. split.
    - intros v. unfold gp_GetVertexParent, gp_GetVertexLowpoint. by rewrite HVb.
    - intros p. unfold gp_GetVertexSeparatedDFSChildList. rewrite HVb.
      fold (gp_GetVertexSeparatedDFSChildList g p). rewrite Hempty.
      split; [reflexivity|]. split; [apply NoDup_nil_2|apply Forall_nil_2]. }
  assert (Hlen : (length (seqZ 0 N) <= fuel)%nat) by (by rewrite length_seqZ).
  assert (HIs : forall I, I ∈ seqZ 0 N -> 0 <= I < gN g)
    by (intros I HI%elem_of_seqZ; fold N; lia).
  destruct (scan_places g gb (seqZ 0 N) fuel Hhb Hlen (seqZ 0 N) gb [] HIs Hpl0
              (lowpoint_order_NoDup g N)) as (g' & Hrun & Hpl).
  exists g'. split; [exact Hrun|]. cbn [app] in Hpl. fold (lowpoint_order g N) in Hpl.
  destruct Hpl as (_ & _ & _ & Hfields & Hlists). split; [exact Hfields|].
  intros p. split; [apply Hlists|]. split.
  - intros v. unfold children_of. rewrite list_elem_of_filter.
    rewrite (elem_of_lowpoint_order g N v Hlow). tauto.
  - unfold children_of, lowpoint_order.
    assert (HNk : seqZ 0 N = seqZ 0 (Z.of_nat (Z.to_nat N))).
    { unfold seqZ. by rewrite Nat2Z.id. }
    rewrite HNk at 1.
    apply (lowpoint_blocks_ascending g (seqZ 0 N)
             (fun v => gp_GetVertexParent g v = p /\ p <> NIL /\ p <> v) (Z.to_nat N) 0).
Qed.

(** ** The numbering of the vertices by the DFS *)

Lemma same_numbering_refl g : same_numbering g g.
Proof. by split. Qed.

Lemma same_numbering_trans g1 g2 g3 :
  same_numbering g1 g2 -> same_numbering g2 g3 -> same_numbering g1 g3.
Proof.
  intros [Hs1 H1] [Hs2 H2]. split; [congruence|]. intros v. by rewrite H2, H1.
Qed.

Lemma same_numbering_upd_vertex g v f :
  (forall r, dfs_number (f r) = dfs_number r) -> same_numbering g (upd_vertex v f g).
Proof.
  intros Hf. split; [reflexivity|]. intros u. rewrite V_upd_vertex.
  destruct (decide (v = u)) as [->|]; [apply Hf|reflexivity].
Qed.

Lemma same_numbering_upd_arc g e f : same_numbering g (upd_arc e f g).
Proof. by split. Qed.

Ltac numbering_kept :=
  repeat match goal with
  | |- same_numbering ?g ?g => apply same_numbering_refl
  | |- same_numbering _ (if ?c then _ else _) => destruct c
  | |- same_numbering _ (upd_vertex _ _ _) =>
      eapply same_numbering_trans; [|apply same_numbering_upd_vertex; by intros []]
  | |- same_numbering _ (upd_arc _ _ _) =>
      eapply same_numbering_trans; [|apply same_numbering_upd_arc]
  end.

Lemma backArc_same_numbering g u J : same_numbering g (EmbeddingInitialize_backArc g u J).
Proof.
  unfold EmbeddingInitialize_backArc. cbv zeta.
  unfold gp_SetVertexLeastAncestor, gp_SetVertexFwdArcList, gp_SetFirstArc, gp_SetLastArc,
    gp_SetNextArc, gp_SetPrevArc, gp_SetEdgeType.
  numbering_kept.
Qed.

(** The scan of a vertex numbers no vertex and pushes pairs with the vertex
    as the parent. *)
Lemma scan_pushes u fuel : forall g J g',
  EmbeddingInitialize_scan fuel g u J = Some g' ->
  (forall v, dfs_number (V g' !!! v) = dfs_number (V g !!! v)) /\
  exists new, stack_items (theStack g') = pushed new ++ stack_items (theStack g) /\
    Forall (fun p => p.1 = u) new.
Proof.
  induction fuel as [|fuel IH]; intros g J g' Hrun; cbn [EmbeddingInitialize_scan] in Hrun.
  - destruct (gp_IsArc g J); [discriminate|]. injection Hrun as <-.
    split; [done|]. exists []. by split.
  - destruct (gp_IsArc g J).
    2:{ injection Hrun as <-. split; [done|]. exists []. by split. }
    cbv zeta in Hrun. destruct (IH _ _ _ Hrun) as (Hnum & new & Hitems & Hnew).
    unfold EmbeddingInitialize_scanArc in Hnum, Hitems.
    destruct (negb (gp_GetVertexVisited g (gp_GetNeighbor g J))).
    + split; [exact Hnum|]. exists (new ++ [(u, J)]). split.
      * rewrite Hitems, pushed_app, <- app_assoc. reflexivity.
      * apply Forall_app. split; [exact Hnew|]. by apply Forall_singleton.
    + destruct (decide (gp_GetEdgeType g J <> EDGE_TYPE_PARENT)).
      * destruct (backArc_same_numbering g u J) as [Hst Hb].
        split; [intros v; by rewrite Hnum, Hb|]. exists new. rewrite Hitems, Hst. by split.
      * split; [exact Hnum|]. by exists new.
Qed.

(** The numbering of a vertex. *)
Lemma number_numbers g N DFI uparent e u :
  let g' := EmbeddingInitialize_number g N DFI uparent e u in
  theStack g' = theStack g /\
  forall v, dfs_number (V g' !!! v) =
    if decide (u = v) then (true, DFI, uparent) else dfs_number (V g !!! v).
Proof.
  intros g'.
  set (g3 := gp_SetVertexParent (gp_SetVertexIndex (gp_SetVertexVisited g u) u DFI) u uparent).
  assert (H3 : forall v, dfs_number (V g3 !!! v) =
            if decide (u = v) then (true, DFI, uparent) else dfs_number (V g !!! v)).
  { intros v. unfold g3, gp_SetVertexParent, gp_SetVertexIndex, gp_SetVertexVisited.
    rewrite !V_upd_vertex. destruct (decide (u = v)) as [->|]; [|reflexivity].
    rewrite !decide_True by done. reflexivity. }
  assert (Hk : same_numbering g3 g').
  { unfold g', EmbeddingInitialize_number. cbv zeta. fold g3.
    destruct (bool_decide (e <> NIL)); [|apply same_numbering_refl].
    destruct (LCAppend _ _ _) as [lc theList].
    unfold gp_SetLastArc, gp_SetFirstArc, gp_SetVertexSortedDFSChildList.
    eapply same_numbering_trans; [|apply same_numbering_upd_vertex; by intros []].
    eapply same_numbering_trans; [|apply same_numbering_upd_vertex; by intros []].
    eapply same_numbering_trans; [|apply same_numbering_upd_vertex; by intros []].
    apply (same_numbering_trans _ (gp_SetEdgeType (gp_SetEdgeType g3 e EDGE_TYPE_CHILD)
             (gp_GetTwinArc (gp_SetEdgeType g3 e EDGE_TYPE_CHILD) e) EDGE_TYPE_PARENT));
      [|by split].
    unfold gp_SetEdgeType. numbering_kept. }
  destruct Hk as [Hst Hk]. split; [by rewrite Hst|]. intros v. by rewrite Hk, H3.
Qed.

Lemma dfs_number_fields g g' v :
  dfs_number (V g' !!! v) = dfs_number (V g !!! v) ->
  gp_GetVertexVisited g' v = gp_GetVertexVisited g v /\
  gp_GetVertexIndex g' v = gp_GetVertexIndex g v /\
  gp_GetVertexParent g' v = gp_GetVertexParent g v.
Proof.
  unfold dfs_number, gp_GetVertexVisited, gp_GetVertexIndex, gp_GetVertexParent.
  by intros [= -> -> ->].
Qed.

(** The visit of the endpoint of a popped pair. *)
Lemma visit_state fuel g N DFI uparent e u ps DFI' g' :
  dfs_state g DFI ps -> uparent = NIL \/ gp_GetVertexVisited g uparent = true ->
  EmbeddingInitialize_visit fuel g N DFI uparent e u = Some (DFI', g') ->
  exists ps', dfs_state g' DFI' ps'.
Proof.
  intros (order & (Hnd & Hidx & Hvis) & HDFI & (Hitems & Hps) & Hpf) Hup Hrun.
  unfold EmbeddingInitialize_visit in Hrun.
  destruct (gp_GetVertexVisited g u) eqn:Hu; cbn [negb] in Hrun.
  { injection Hrun as <- <-. exists ps, order. by split; [split|split; [|split]]. }
  cbv zeta in Hrun.
  destruct (number_numbers g N DFI uparent e u) as [Hst1 Hn1].
  set (g1 := EmbeddingInitialize_number g N DFI uparent e u) in *.
  destruct (EmbeddingInitialize_scan fuel g1 u (gp_GetFirstArc g1 u)) as [g2|] eqn:Hscan;
    [|discriminate].
  cbn [mbind option_bind] in Hrun. injection Hrun as <- <-.
  destruct (scan_pushes _ _ _ _ _ Hscan) as (Hn2 & new & Hitems2 & Hnew).
  assert (Hnum : forall v, dfs_number (V g2 !!! v) =
            if decide (u = v) then (true, DFI, uparent) else dfs_number (V g !!! v)).
  { intros v. by rewrite Hn2, Hn1. }
  assert (Hother : forall v, u <> v ->
            gp_GetVertexVisited g2 v = gp_GetVertexVisited g v /\
            gp_GetVertexIndex g2 v = gp_GetVertexIndex g v /\
            gp_GetVertexParent g2 v = gp_GetVertexParent g v).
  { intros v Hv. apply dfs_number_fields. rewrite Hnum. by rewrite decide_False. }
  assert (Hself : gp_GetVertexVisited g2 u = true /\ gp_GetVertexIndex g2 u = DFI /\
                  gp_GetVertexParent g2 u = uparent).
  { specialize (Hnum u). rewrite decide_True in Hnum by done.
    unfold dfs_number, gp_GetVertexVisited, gp_GetVertexIndex, gp_GetVertexParent in *.
    by injection Hnum as -> -> ->. }
  destruct Hself as (Hvu & Hiu & Hpu).
  assert (Hunew : u ∉ order) by (intros Hin; apply Hvis in Hin; congruence).
  assert (Hmono : forall v, gp_GetVertexVisited g v = true ->
            u <> v /\ gp_GetVertexVisited g2 v = true).
  { intros v Hv. assert (Huv : u <> v) by (intros ->; congruence).
    split; [exact Huv|]. destruct (Hother v Huv) as (-> & _). exact Hv. }
  assert (Hplace : forall v, gp_GetVertexVisited g v = true ->
            gp_GetVertexIndex g v < DFI).
  { intros v Hv. apply Hvis in Hv. apply list_elem_of_lookup in Hv as [k Hk].
    rewrite (Hidx k v Hk), HDFI. apply lookup_lt_Some in Hk. lia. }
  exists (new ++ ps), (order ++ [u]). split; [|split; [|split]].
  - split; [|split].
    + apply NoDup_app. split; [exact Hnd|]. split; [|apply NoDup_singleton].
      intros v Hv ->%list_elem_of_singleton. done.
    + intros k v Hk. apply lookup_app_Some in Hk as [Hk|[Hlen Hk]].
      * assert (Huv : u <> v) by (intros ->; apply Hunew; by eapply list_elem_of_lookup_2).
        destruct (Hother v Huv) as (_ & -> & _). by apply Hidx.
      * apply list_lookup_singleton_Some in Hk as [Hk ->]. rewrite Hiu, HDFI. lia.
    + intros v. rewrite elem_of_app, list_elem_of_singleton. destruct (decide (u = v)) as [->|Huv].
      * split; [by right|done].
      * destruct (Hother v Huv) as (-> & _). rewrite Hvis. split; [by left|].
        intros [?| ->]; done.
  - rewrite length_app. cbn [length]. lia.
  - split.
    + rewrite Hitems2, Hst1, Hitems, pushed_app. reflexivity.
    + apply Forall_app. split.
      * eapply Forall_impl; [exact Hnew|]. intros p ->. by right.
      * eapply Forall_impl; [exact Hps|]. intros p [Hp|Hp]; [by left|right].
        by apply Hmono.
  - intros v Hv. destruct (decide (u = v)) as [<-|Huv].
    + rewrite Hpu, Hiu. destruct Hup as [->|Hup]; [by left|right].
      destruct (Hmono _ Hup) as [Hne Hv2]. split; [exact Hv2|].
      destruct (Hother _ Hne) as (_ & -> & _). by apply Hplace.
    + destruct (Hother v Huv) as (Hv' & -> & ->). rewrite Hv' in Hv.
      destruct (Hpf v Hv) as [Hp|[Hp Hlt]]; [by left|right].
      destruct (Hmono _ Hp) as [Hne Hv2]. split; [exact Hv2|].
      by destruct (Hother _ Hne) as (_ & -> & _).
Qed.

Lemma turn_state fuel g N I DFI uparent e ps DFI' g' :
  dfs_state g DFI ((uparent, e) :: ps) ->
  EmbeddingInitialize_turn fuel g N I DFI = Some (DFI', g') ->
  exists ps', dfs_state g' DFI' ps'.
Proof.
  intros (order & Hnum & HDFI & (Hitems & Hps) & Hpf) Hrun.
  unfold EmbeddingInitialize_turn, sp_Pop2, sp_Pop in Hrun.
  rewrite Hitems, pushed_cons in Hrun. cbn [stack_items fst snd] in Hrun.
  apply Forall_cons in Hps as [Hup Hps]. cbn [fst] in Hup.
  eapply (visit_state fuel _ N DFI uparent e _ ps); [| |exact Hrun]; [|exact Hup].
  exists order. split; [exact Hnum|]. split; [exact HDFI|]. split; [|exact Hpf].
  split; [reflexivity|exact Hps].
Qed.

Lemma component_state fuel N I n : forall g DFI ps DFI' g',
  dfs_state g DFI ps ->
  EmbeddingInitialize_component fuel n g N I DFI = Some (DFI', g') ->
  dfs_state g' DFI' [].
Proof.
  induction n as [|n IH]; intros g DFI ps DFI' g' Hst Hrun;
    cbn [EmbeddingInitialize_component] in Hrun.
  - destruct Hst as (order & Hnum & HDFI & (Hitems & Hps) & Hpf).
    unfold sp_NonEmpty in Hrun. rewrite Hitems in Hrun.
    destruct ps as [|[uparent e] ps]; [|discriminate]. injection Hrun as <- <-.
    exists order. by split; [|split; [|split]].
  - pose proof Hst as (order & Hnum & HDFI & (Hitems & Hps) & Hpf).
    unfold sp_NonEmpty in Hrun. rewrite Hitems in Hrun.
    destruct ps as [|[uparent e] ps].
    + injection Hrun as <- <-. exists order. by split; [|split; [|split]].
    + rewrite pushed_cons in Hrun.
      destruct (EmbeddingInitialize_turn fuel g N I DFI) as [[DFI1 g1]|] eqn:Hturn;
        [|discriminate].
      cbn [mbind option_bind] in Hrun.
      destruct (turn_state _ _ _ _ _ _ _ _ _ _ Hst Hturn) as [ps1 Hst1].
      by eapply IH.
Qed.

Lemma roots_state fuel N n : forall g I DFI g',
  dfs_state g DFI [] ->
  EmbeddingInitialize_roots fuel n g N I DFI = Some g' ->
  exists DFI', dfs_state g' DFI' [] /\ N <= DFI'.
Proof.
  induction n as [|n IH]; intros g I DFI g' Hst Hrun; cbn [EmbeddingInitialize_roots] in Hrun.
  - destruct (bool_decide_reflect (DFI < N)); [discriminate|]. injection Hrun as <-.
    exists DFI. split; [exact Hst|lia].
  - destruct (bool_decide_reflect (DFI < N)).
    2:{ injection Hrun as <-. exists DFI. split; [exact Hst|lia]. }
    destruct (bool_decide (gp_GetVertexParent g I <> NIL)); [by eapply IH|].
    cbv zeta in Hrun.
    destruct (EmbeddingInitialize_component fuel fuel _ N I DFI) as [[DFI1 g1]|] eqn:Hcomp;
      [|discriminate].
    cbn [mbind option_bind] in Hrun.
    eapply IH; [|exact Hrun].
    eapply (component_state fuel N I fuel _ DFI [(NIL, NIL)]); [|exact Hcomp].
    destruct Hst as (order & Hnum & HDFI & (Hitems & Hps) & Hpf).
    exists order. split; [exact Hnum|]. split; [exact HDFI|]. split; [|exact Hpf]. split.
    + cbn [theStack with_theStack]. unfold sp_Push2, sp_Push. cbn [stack_items].
      rewrite Hitems. reflexivity.
    + apply Forall_singleton. by left.
Qed.

(** X18: the DFS of _EmbeddingInitialize numbers the vertices it visits
    0, 1, 2, ... in the order of the visits.  Started with the index 0 on an
    empty stack with no vertex visited, whenever its loop over the DFS tree
    roots returns, the visited vertices are the vertices of a list without
    repetition, the index of each is its place in the list, there are at
    least N of them, every visited vertex is a DFS tree root or has a
    visited DFS parent of smaller index, and the stack is empty again. *)
Theorem EmbeddingInitialize_roots_numbers (fuel n : nat) (g : Graph) (N I : Z) (g' : Graph) :
  (forall v, gp_GetVertexVisited g v = false) -> stack_items (theStack g) = [] ->
  EmbeddingInitialize_roots fuel n g N I 0 = Some g' ->
  exists order, numbered g' order /\ N <= Z.of_nat (length order) /\
    parents_first g' /\ stack_items (theStack g') = [].
Proof.
  intros Hnone Hempty Hrun.
  assert (Hst : dfs_state g 0 []).
  { exists []. split; [|split; [reflexivity|split]].
    - split; [apply NoDup_nil_2|]. split; [intros k v Hk; by rewrite lookup_nil in Hk|].
      intros v. rewrite Hnone. split; [discriminate|]. intros Hin. by apply elem_of_nil in Hin.
    - split; [exact Hempty|apply Forall_nil_2].
    - intros v Hv. rewrite Hnone in Hv. discriminate. }
  destruct (roots_state _ _ _ _ _ _ _ Hst Hrun)
    as (DFI' & (order & Hnum & HDFI & (Hitems & _) & Hpf) & HN).
  exists order. split; [exact Hnum|]. split; [lia|]. split; [exact Hpf|exact Hitems].
Qed.
(** ** The embedding of the DFS tree *)

Lemma first_parent_Some g l J :
  first_parent g l = Some J -> J ∈ l /\ gp_GetEdgeType g J = EDGE_TYPE_PARENT.
Proof.
  induction l as [|a l IH]; cbn [first_parent]; [discriminate|].
  destruct (decide (gp_GetEdgeType g a = EDGE_TYPE_PARENT)) as [Ha|Ha].
  - intros [= <-]. split; [by left|exact Ha].
  - intros HJ. destruct (IH HJ) as [Hin Hty]. split; [by right|exact Hty].
Qed.

Lemma first_parent_frame g g' l :
  (forall K, K ∈ l -> gp_GetEdgeType g' K = gp_GetEdgeType g K) ->
  first_parent g' l = first_parent g l.
Proof.
  induction l as [|a l IH]; intros Hty; [reflexivity|]. cbn [first_parent].
  rewrite (Hty a) by (by left). rewrite IH; [reflexivity|].
  intros K HK. apply Hty. by right.
Qed.

(** The search for the parent arc stops at the first parent arc of the
    list it walks through. *)
Lemma CreateDFSTreeEmbedding_parentArc_finds g J : forall l p n fuel,
  arc_links g p l n -> first_parent g l = Some J -> (length l <= fuel)%nat ->
  CreateDFSTreeEmbedding_parentArc fuel g (hd n l) = Some J.
Proof.
  induction l as [|a l IH]; intros p n fuel Hl HJ Hfuel; cbn [first_parent] in HJ;
    [discriminate|].
  cbn [hd]. destruct Hl as (_ & Hnext & Hl).
  destruct (decide (gp_GetEdgeType g a = EDGE_TYPE_PARENT)) as [Ha|Ha].
  - injection HJ as <-. destruct fuel; cbn [CreateDFSTreeEmbedding_parentArc];
      by rewrite decide_False by (by intros H; apply H).
  - destruct fuel as [|fuel]; [cbn [length] in Hfuel; lia|].
    cbn [CreateDFSTreeEmbedding_parentArc]. rewrite decide_True by exact Ha.
    rewrite Hnext. apply (IH a n fuel Hl HJ). cbn [length] in Hfuel. lia.
Qed.

(** The body of the loop on a vertex without a DFS parent. *)
Lemma CreateDFSTreeEmbedding_vertex_root fuel g I R :
  gp_GetVertexParent g I = NIL ->
  exists g', CreateDFSTreeEmbedding_vertex fuel g I R = Some g' /\
    (forall u, u <> I -> V g' !!! u = V g !!! u) /\
    (forall u, gp_GetVertexParent g' u = gp_GetVertexParent g u) /\
    E g' = E g /\ adjacency_list g' I [].
Proof.
  intros Hp. unfold CreateDFSTreeEmbedding_vertex.
  rewrite bool_decide_eq_true_2 by exact Hp. cbv zeta. eexists. split; [reflexivity|].
  split; [|split; [|split]].
  - intros u Hu. records_through. by rewrite !decide_False by congruence.
  - intros u. unfold gp_GetVertexParent. records_through.
    destruct (decide (I = u)) as [->|]; [|reflexivity].
    rewrite decide_True by done. by destruct (V g !!! u).
  - reflexivity.
  - split; [|split; [|split; [exact Logic.I|split; [apply NoDup_nil_2|apply Forall_nil_2]]]];
      unfold gp_GetFirstArc, gp_GetLastArc; records_through;
      by rewrite ?decide_True by done.
Qed.

(** The body of the loop on a DFS child whose parent arc the search finds. *)
Lemma CreateDFSTreeEmbedding_vertex_child fuel g I R J :
  gp_GetVertexParent g I <> NIL -> I <> R -> J <> NIL -> gp_GetTwinArc g J <> NIL ->
  CreateDFSTreeEmbedding_parentArc fuel g (gp_GetFirstArc g I) = Some J ->
  exists g', CreateDFSTreeEmbedding_vertex fuel g I R = Some g' /\
    (forall u, u <> I -> u <> R -> V g' !!! u = V g !!! u) /\
    (forall u, gp_GetVertexParent g' u = gp_GetVertexParent g u) /\
    (forall K, K <> J -> K <> gp_GetTwinArc g J -> E g' !!! K = E g !!! K) /\
    singleton_bicomp g' R I (gp_GetTwinArc g J).
Proof.
  intros Hp HIR HJN HtN Hsearch. unfold CreateDFSTreeEmbedding_vertex.
  rewrite bool_decide_eq_false_2 by exact Hp. rewrite Hsearch.
  cbn [mbind option_bind]. cbv zeta.
  match goal with
  | |- context [gp_GetTwinArc ?gv J] => change (gp_GetTwinArc gv J) with (gp_GetTwinArc g J)
  end.
  set (t := gp_GetTwinArc g J) in *.
  assert (HtJ : t <> J) by apply twin_arc_differs.
  eexists. split; [reflexivity|].
  match goal with |- context [singleton_bicomp ?gv _ _ _] => set (g2 := gv) end.
  assert (HVR : V g2 !!! R =
            set_extFace1 I (set_extFace0 I (set_vlink1 t (set_vlink0 t (V g !!! R))))).
  { unfold g2. records_through.
    rewrite !(decide_False (P := I = R)) by done. by rewrite !decide_True by done. }
  assert (HVI : V g2 !!! I =
            set_extFace1 R (set_extFace0 R (set_vlink1 J (set_vlink0 J (V g !!! I))))).
  { unfold g2. records_through.
    rewrite !(decide_False (P := R = I)) by done. by rewrite !decide_True by done. }
  assert (HEJ : E g2 !!! J =
            set_neighbor R (set_alink1 NIL (set_alink0 NIL (E g !!! J)))).
  { unfold g2, gp_AdjacencyListEndMark. records_through.
    rewrite !(decide_False (P := t = J)) by done. by rewrite !decide_True by done. }
  assert (HEt : E g2 !!! t = set_alink1 NIL (set_alink0 NIL (E g !!! t))).
  { unfold g2, gp_AdjacencyListEndMark. records_through.
    rewrite !(decide_False (P := J = t)) by done. by rewrite !decide_True by done. }
  split; [|split; [|split]].
  - intros u HuI HuR. unfold g2. records_through. by rewrite !decide_False by congruence.
  - intros u. unfold gp_GetVertexParent.
    destruct (decide (u = I)) as [->|HuI]; [rewrite HVI; by destruct (V g !!! I)|].
    destruct (decide (u = R)) as [->|HuR]; [rewrite HVR; by destruct (V g !!! R)|].
    unfold g2. records_through. by rewrite !decide_False by congruence.
  - intros K HKJ HKt. unfold g2. records_through. by rewrite !decide_False by congruence.
  - unfold singleton_bicomp. change (gp_GetTwinArc g2 t) with (gp_GetTwinArc g t).
    assert (Htt : gp_GetTwinArc g t = J) by apply twin_arc_twice. rewrite !Htt.
    split; [|split; [|split]].
    + unfold adjacency_list, gp_GetFirstArc, gp_GetLastArc, gp_AdjacencyListEndMark.
      cbn [arc_links hd last default from_option id].
      unfold gp_GetNextArc, gp_GetPrevArc. rewrite HVR, HEt.
      repeat split; try done.
      * apply NoDup_singleton.
      * by apply Forall_singleton.
    + unfold adjacency_list, gp_GetFirstArc, gp_GetLastArc, gp_AdjacencyListEndMark.
      cbn [arc_links hd last default from_option id].
      unfold gp_GetNextArc, gp_GetPrevArc. rewrite HVI, HEJ.
      repeat split; try done.
      * apply NoDup_singleton.
      * by apply Forall_singleton.
    + unfold gp_GetNeighbor. by rewrite HEJ.
    + intros link. unfold gp_GetExtFaceVertex. rewrite HVR, HVI.
      by destruct (bool_decide (link = 0)).
Qed.

(** X19: _CreateDFSTreeEmbedding makes a singleton bicomp of every tree
    edge.  On a graph whose vertices below N have well-formed, pairwise
    disjoint adjacency lists, where every DFS child has a smaller DFS parent,
    a parent arc in its list and the twin of its first parent arc, a child
    arc, in the list of its parent, the call returns, given fuel for the
    longest list; then every DFS child v holds its first parent arc alone,
    its root copy v + N holds the twin alone, the parent arc names the root
    copy as its neighbour and the external face links of the two lead to
    each other; a vertex without a DFS parent has no arc. *)
Theorem CreateDFSTreeEmbedding_singletons (fuel : nat) (g : Graph) (lists : Z -> list Z) :
  let N := gN g in
  (forall v, 0 <= v < N -> adjacency_list g v (lists v) /\ (length (lists v) <= fuel)%nat) ->
  (forall u v K, 0 <= u < N -> 0 <= v < N -> K ∈ lists u -> K ∈ lists v -> u = v) ->
  (forall v, 0 <= v < N -> gp_GetVertexParent g v <> NIL ->
     0 <= gp_GetVertexParent g v < v /\
     exists J, first_parent g (lists v) = Some J /\
       gp_GetEdgeType g (gp_GetTwinArc g J) = EDGE_TYPE_CHILD /\
       gp_GetTwinArc g J ∈ lists (gp_GetVertexParent g v)) ->
  exists g', _CreateDFSTreeEmbedding fuel g = Some g' /\
    forall v, 0 <= v < N ->
      if decide (gp_GetVertexParent g v = NIL) then adjacency_list g' v []
      else exists J, first_parent g (lists v) = Some J /\
             singleton_bicomp g' (v + N) v (gp_GetTwinArc g J).
Proof.
  intros N Hlists Hdisj Hchildren.
  set (Jof := fun v => default NIL (first_parent g (lists v))).
  set (twin := fun J => gp_GetTwinArc g J).
  assert (HJ : forall v, 0 <= v < N -> gp_GetVertexParent g v <> NIL ->
            first_parent g (lists v) = Some (Jof v) /\ Jof v ∈ lists v /\
            gp_GetEdgeType g (Jof v) = EDGE_TYPE_PARENT /\
            gp_GetEdgeType g (twin (Jof v)) = EDGE_TYPE_CHILD /\
            twin (Jof v) ∈ lists (gp_GetVertexParent g v) /\
            0 <= gp_GetVertexParent g v < v /\ Jof v <> NIL /\ twin (Jof v) <> NIL).
  { intros v Hv Hp. destruct (Hchildren v Hv Hp) as (Hpv & J & Hfirst & Hty & Hin).
    unfold Jof. rewrite Hfirst. cbn [default from_option id].
    destruct (first_parent_Some _ _ _ Hfirst) as [HJin HJty].
    destruct (Hlists v Hv) as [(_ & _ & _ & _ & Hnil) _].
    destruct (Hlists (gp_GetVertexParent g v)) as [(_ & _ & _ & _ & Hnilp) _]; [lia|].
    rewrite Forall_forall in Hnil, Hnilp.
    repeat split; try done; try lia; [by apply Hnil|by apply Hnilp]. }
  assert (Hdiff : forall u v, 0 <= u < N -> 0 <= v < N -> u <> v ->
            gp_GetVertexParent g u <> NIL -> gp_GetVertexParent g v <> NIL ->
            Jof u <> Jof v /\ Jof u <> twin (Jof v) /\ twin (Jof u) <> twin (Jof v)).
  { intros u v Hu Hv Huv Hpu Hpv.
    destruct (HJ u Hu Hpu) as (_ & Hinu & Htyu & Htwu & _).
    destruct (HJ v Hv Hpv) as (_ & Hinv & Htyv & Htwv & _).
    assert (Hne : Jof u <> Jof v).
    { intros Heq. apply Huv. apply (Hdisj u v (Jof u) Hu Hv Hinu). by rewrite Heq. }
    split; [exact Hne|]. split.
    - intros Heq. rewrite Heq in Htyu. congruence.
    - intros Heq. apply Hne. unfold twin in Heq.
      rewrite <- (twin_arc_twice g (Jof u)), Heq. apply twin_arc_twice. }
  set (P := fun (gk : Graph) (v : Z) =>
              if decide (gp_GetVertexParent g v = NIL) then adjacency_list gk v []
              else singleton_bicomp gk (v + N) v (twin (Jof v))).
  set (Inv := fun (gk : Graph) (k : Z) =>
              (forall u, gp_GetVertexParent gk u = gp_GetVertexParent g u) /\
              (forall u, k <= u < N -> V gk !!! u = V g !!! u) /\
              (forall K, (forall u, 0 <= u < k -> gp_GetVertexParent g u <> NIL ->
                            K <> Jof u /\ K <> twin (Jof u)) ->
                         E gk !!! K = E g !!! K) /\
              (forall v, 0 <= v < k -> P gk v)).
  assert (Hframe : forall gk g1 k v, 0 <= v < k -> k < N ->
            (forall u, u <> k -> u <> k + N -> V g1 !!! u = V gk !!! u) ->
            (forall K, (gp_GetVertexParent g k <> NIL -> K <> Jof k /\ K <> twin (Jof k)) ->
                       E g1 !!! K = E gk !!! K) ->
            P gk v -> P g1 v).
  { intros gk g1 k v Hv Hk HV HE HP. unfold P in *.
    destruct (decide (gp_GetVertexParent g v = NIL)) as [Hp|Hp].
    - eapply adjacency_list_frame; [exact HP| | |].
      + unfold gp_GetFirstArc. rewrite HV by lia. reflexivity.
      + unfold gp_GetLastArc. rewrite HV by lia. reflexivity.
      + intros K HK. by apply elem_of_nil in HK.
    - eapply singleton_bicomp_frame; [exact HP| | | |].
      + apply HV; lia.
      + apply HV; lia.
      + apply HE. intros Hpk.
        destruct (Hdiff k v) as (H1 & H2 & H3); [lia|lia|lia|done|done|].
        split; congruence.
      + change (gp_GetTwinArc gk (twin (Jof v))) with (gp_GetTwinArc g (twin (Jof v))).
        assert (Htt : gp_GetTwinArc g (twin (Jof v)) = Jof v) by apply twin_arc_twice.
        rewrite Htt. apply HE. intros Hpk.
        destruct (Hdiff k v) as (H1 & H2 & H3); [lia|lia|lia|done|done|].
        destruct (Hdiff v k) as (H4 & H5 & H6); [lia|lia|lia|done|done|].
        split; congruence. }
  assert (Hloop : forall n k gk, 0 <= k -> k + Z.of_nat n <= N -> Inv gk k ->
            exists g', CreateDFSTreeEmbedding_loop fuel N gk (seqZ k (Z.of_nat n)) = Some g' /\
              forall v, 0 <= v < k + Z.of_nat n -> P g' v).
  { induction n as [|n IH]; intros k gk Hk HkN (Hpar & HVk & HEk & HPk).
    { exists gk. split; [reflexivity|]. intros v Hv. apply HPk. lia. }
    rewrite seqZ_cons by lia.
    replace (Z.pred (Z.of_nat (S n))) with (Z.of_nat n) by lia.
    replace (Z.succ k) with (k + 1) by lia.
    cbn [CreateDFSTreeEmbedding_loop].
    assert (Hstep : exists g1, CreateDFSTreeEmbedding_vertex fuel gk k (k + N) = Some g1 /\
              Inv g1 (k + 1)).
    { destruct (decide (gp_GetVertexParent g k = NIL)) as [Hp|Hp].
      - destruct (CreateDFSTreeEmbedding_vertex_root fuel gk k (k + N))
          as (g1 & Hrun & HV1 & Hpar1 & HE1 & Hadj); [by rewrite Hpar|].
        exists g1. split; [exact Hrun|]. split; [|split; [|split]].
        + intros u. by rewrite Hpar1.
        + intros u Hu. rewrite HV1 by lia. apply HVk. lia.
        + intros K HK. rewrite HE1. apply HEk. intros u Hu. apply HK. lia.
        + intros v Hv. destruct (decide (v = k)) as [->|Hvk].
          * unfold P. by rewrite decide_True by done.
          * apply (Hframe gk g1 k v); [lia|lia| | |apply HPk; lia].
            -- intros u Hu _. by apply HV1.
            -- intros K _. by rewrite HE1.
      - destruct (HJ k) as (Hfirst & Hin & Hty & Htw & Htin & Hpk & HJN & HtN); [lia|done|].
        destruct (Hlists k) as [(Hf & _ & Hl & _ & _) Hfuel]; [lia|].
        assert (Hsame : forall K, K ∈ lists k -> E gk !!! K = E g !!! K).
        { intros K HK. apply HEk. intros u Hu Hpu.
          destruct (HJ u) as (_ & Hinu & _ & _ & Htinu & Hpu' & _); [lia|done|].
          split.
          - intros ->. assert (k = u) by (apply (Hdisj k u (Jof u)); [lia|lia|done|done]). lia.
          - intros ->.
            assert (k = gp_GetVertexParent g u)
              by (apply (Hdisj k _ (twin (Jof u))); [lia|lia|done|done]). lia. }
        assert (Hsearch : CreateDFSTreeEmbedding_parentArc fuel gk (gp_GetFirstArc gk k)
                          = Some (Jof k)).
        { replace (gp_GetFirstArc gk k) with (hd NIL (lists k)).
          2:{ unfold gp_GetFirstArc. rewrite HVk by lia. symmetry. exact Hf. }
          apply (CreateDFSTreeEmbedding_parentArc_finds gk (Jof k) (lists k) NIL NIL fuel).
          - eapply arc_links_frame; [exact Hl|]. intros K HK. by rewrite Hsame.
          - rewrite <- Hfirst. apply first_parent_frame. intros K HK.
            unfold gp_GetEdgeType. by rewrite Hsame.
          - exact Hfuel. }
        destruct (CreateDFSTreeEmbedding_vertex_child fuel gk k (k + N) (Jof k))
          as (g1 & Hrun & HV1 & Hpar1 & HE1 & Hsingle);
          [by rewrite Hpar|lia|exact HJN|exact HtN|exact Hsearch|].
        exists g1. split; [exact Hrun|]. split; [|split; [|split]].
        + intros u. by rewrite Hpar1.
        + intros u Hu. rewrite HV1 by lia. apply HVk. lia.
        + intros K HK. destruct (HK k) as [HK1 HK2]; [lia|done|].
          rewrite HE1 by done. apply HEk. intros u Hu. apply HK. lia.
        + intros v Hv. destruct (decide (v = k)) as [->|Hvk].
          * unfold P. rewrite decide_False by done. exact Hsingle.
          * apply (Hframe gk g1 k v); [lia|lia|exact HV1| |apply HPk; lia].
            intros K HK. destruct (HK Hp) as [HK1 HK2]. by apply HE1. }
    destruct Hstep as (g1 & -> & Hinv1). cbn [mbind option_bind].
    destruct (IH (k + 1) g1) as (g' & Hrun & HP'); [lia|lia|exact Hinv1|].
    exists g'. split; [exact Hrun|]. intros v Hv. apply HP'. lia. }
  unfold _CreateDFSTreeEmbedding. cbv zeta. fold N.
  destruct (decide (0 <= N)) as [HN|HN].
  - destruct (Hloop (Z.to_nat N) 0 g) as (g' & Hrun & HP); [lia|lia| |].
    { split; [done|]. split; [done|]. split; [done|]. intros v Hv. lia. }
    rewrite Z2Nat.id in Hrun by lia. exists g'. split; [exact Hrun|].
    intros v Hv. specialize (HP v). unfold P in HP. rewrite Z2Nat.id in HP by lia.
    specialize (HP ltac:(lia)).
    destruct (decide (gp_GetVertexParent g v = NIL)) as [Hp|Hp]; [exact HP|].
    exists (Jof v). split; [|exact HP]. by destruct (HJ v Hv Hp).
  - exists g. split; [|intros v Hv; lia].
    unfold seqZ. rewrite Z2Nat.nonpos by lia. reflexivity.
Qed.

(** ** The further properties at work on the examples *)

Ltac concrete_list := repeat split; try compute_done.

Lemma InvertVertex_reverses_list_witness :
  exists g', _InvertVertex 2 k4_step0 6 = Some g' /\ adjacency_list g' 6 (reverse [8; 6]).
Proof.
  apply (InvertVertex_reverses_list 2 k4_step0 6 [8; 6]).
  - exact k4_step0_root6.
  - simpl. lia.
Defined.

Lemma InvertVertex_twice_witness :
  exists g1 g2,
    _InvertVertex 2 k4_step0 6 = Some g1 /\ _InvertVertex 2 g1 6 = Some g2 /\
    (forall K, E g2 !!! K = E k4_step0 !!! K) /\
    (forall u, V g2 !!! u = V k4_step0 !!! u) /\
    same_frame k4_step0 g2.
Proof.
  apply (InvertVertex_twice 2 k4_step0 6 [8; 6]).
  - exact k4_step0_root6.
  - simpl. lia.
Defined.

Lemma MergeBicomps_empties_stack_witness :
  OK = OK /\ sp_NonEmpty (theStack k4_merged) = false.
Proof.
  apply (MergeBicomps_empties_stack (example_functions 20) 20 k4_descended 1 6 3 1 OK k4_merged).
  vm_compute. reflexivity.
Defined.

Lemma EmbedPostprocess_result_witness :
  (OK = OK \/ OK = NOTOK) /\ (OK = NOTOK -> k4_joined = k4_embedded).
Proof.
  apply (EmbedPostprocess_result example_isolate example_isolate (example_functions 20) 20
           k4_embedded (-1) OK OK k4_joined).
  vm_compute. reflexivity.
Defined.

Lemma k4_joined_roots R : gN k4_joined <= R < gN k4_joined + gNV k4_joined ->
  gp_GetFirstArc k4_joined R = NIL.
Proof.
  change (gN k4_joined) with 4. change (gNV k4_joined) with 4. intros HR.
  assert (HR' : R = 4 \/ R = 5 \/ R = 6 \/ R = 7) by lia.
  destruct HR' as [-> | [-> | [-> | ->]]]; vm_compute; reflexivity.
Qed.

Lemma JoinBicomps_nothing_to_join_witness :
  _JoinBicomps (example_functions 20) 20 k4_joined = Some (OK, k4_joined).
Proof.
  apply (JoinBicomps_nothing_to_join (example_functions 20) 20 k4_joined).
  exact k4_joined_roots.
Defined.

Lemma k4_descended_lists :
  adjacency_list k4_descended 2 [7] /\ adjacency_list k4_descended 7 [10].
Proof. concrete_list. Qed.

Lemma MergeVertex_joins_lists_witness :
  exists g',
    _MergeVertex (example_functions 20) 1 k4_descended 2 1 7 = Some g' /\
    adjacency_list g' 2 (if bool_decide (1 = 0) then [10] ++ [7] else [7] ++ [10]) /\
    (forall K, gp_GetNeighbor g' K =
       if decide (K ∈ gp_GetTwinArc k4_descended <$> [10]) then 2
       else gp_GetNeighbor k4_descended K) /\
    V g' !!! 7 = inhabitant.
Proof.
  apply (MergeVertex_joins_lists (example_functions 20) 1 k4_descended 2 1 7 [7] [10]).
  - reflexivity.
  - apply k4_descended_lists.
  - apply k4_descended_lists.
  - discriminate.
  - lia.
  - intros a ->%list_elem_of_singleton Hin%list_elem_of_singleton. discriminate.
  - by right.
  - simpl. lia.
Defined.

Lemma OrientVerticesInBicomp_keeps_stack_witness :
  OK = OK /\ theStack (k4_step0_oriented false) = theStack k4_step0.
Proof.
  apply (OrientVerticesInBicomp_keeps_stack 20 k4_step0 6 false OK (k4_step0_oriented false)).
  vm_compute. reflexivity.
Defined.

Lemma OrientVerticesInBicomp_keeps_labels_witness :
  same_labels k4_step0 (k4_step0_oriented true) /\
  (forall K, gp_GetEdgeFlagInverted (k4_step0_oriented true) K = true ->
             gp_GetEdgeFlagInverted k4_step0 K = true) /\
  (true = true ->
   forall K, gp_GetEdgeFlagInverted (k4_step0_oriented true) K =
             gp_GetEdgeFlagInverted k4_step0 K).
Proof.
  apply (OrientVerticesInBicomp_keeps_labels 20 k4_step0 6 true OK (k4_step0_oriented true)).
  vm_compute. reflexivity.
Defined.

Lemma OrientVerticesInEmbedding_result_witness :
  OK = OK /\ sp_NonEmpty (theStack k4_oriented) = false /\ same_labels k4_embedded k4_oriented /\
  (forall K, gp_GetEdgeFlagInverted k4_oriented K = true ->
             gp_GetEdgeFlagInverted k4_embedded K = true).
Proof.
  apply (OrientVerticesInEmbedding_result 20 k4_embedded OK k4_oriented).
  vm_compute. reflexivity.
Defined.

Lemma WalkUp_keeps_embedding_witness :
  walkup_kept kite_step0 kite_walkup1 /\
  (forall v, gp_GetFirstArc kite_walkup1 v = gp_GetFirstArc kite_step0 v /\
             gp_GetLastArc kite_walkup1 v = gp_GetLastArc kite_step0 v /\
             forall link, gp_GetExtFaceVertex kite_walkup1 v link =
                          gp_GetExtFaceVertex kite_step0 v link) /\
  (forall v, gp_GetVertexVisitedInfo kite_walkup1 v = gp_GetVertexVisitedInfo kite_step0 v \/
             gp_GetVertexVisitedInfo kite_walkup1 v = 0).
Proof.
  apply (WalkUp_keeps_embedding 20 kite_step0 0 6 kite_walkup1).
  vm_compute. reflexivity.
Defined.

Lemma kite_step0_fwd : fwd_list kite_step0 0 [6; 8].
Proof. concrete_list. Qed.

Lemma Embed_walkups_one_per_arc_witness :
  Embed_walkups (example_functions 20) 20 kite_step0 0 (gp_GetVertexFwdArcList kite_step0 0)
  = walkups_of (example_functions 20) 0 kite_step0 [6; 8].
Proof.
  apply (Embed_walkups_one_per_arc (example_functions 20) 20 20 kite_step0 0 [6; 8]).
  - reflexivity.
  - exact kite_step0_fwd.
  - simpl. lia.
Defined.

Lemma GetNextVertexOnExternalFace_enters_witness :
  let arc := gp_GetArc k4_step0 6 (Z.lxor 1 0) in
  let next := _GetNextVertexOnExternalFace k4_step0 6 0 in
  next.1 = gp_GetNeighbor k4_step0 arc /\ (next.2 = 0 \/ next.2 = 1) /\
  gp_GetArc k4_step0 next.1 next.2 = gp_GetTwinArc k4_step0 arc /\
  (gp_GetNeighbor k4_step0 (gp_GetTwinArc k4_step0 arc) = 6 ->
   gp_GetFirstArc k4_step0 6 <> gp_GetLastArc k4_step0 6 ->
   _GetNextVertexOnExternalFace k4_step0 next.1 (Z.lxor 1 next.2) = (6, Z.lxor 1 0)).
Proof.
  apply (GetNextVertexOnExternalFace_enters k4_step0 6 0).
  - by left.
  - left. vm_compute. reflexivity.
Defined.

Lemma kite_lowpoints_children v :
  0 <= v < 4 /\ gp_GetVertexParent kite_lowpoints v <> NIL -> v = 1 \/ v = 2 \/ v = 3.
Proof.
  intros [Hv Hp]. assert (Hv' : v = 0 \/ v = 1 \/ v = 2 \/ v = 3) by lia.
  destruct Hv' as [-> | Hv']; [|exact Hv']. exfalso. apply Hp. vm_compute. reflexivity.
Qed.

Lemma kite_lowpoints_roots v :
  0 <= v < 4 /\ gp_GetVertexParent kite_lowpoints v <> NIL ->
  0 <= gp_GetFirstArc kite_lowpoints (v + 4) /\
  gp_GetLastArc kite_lowpoints (v + 4) = gp_GetFirstArc kite_lowpoints (v + 4).
Proof.
  intros Hc. destruct (kite_lowpoints_children v Hc) as [-> | [-> | ->]]; clear Hc;
    split; vm_compute; first [discriminate|reflexivity].
Qed.

Lemma kite_lowpoints_arcs u v :
  0 <= u < 4 /\ gp_GetVertexParent kite_lowpoints u <> NIL ->
  0 <= v < 4 /\ gp_GetVertexParent kite_lowpoints v <> NIL -> u <> v ->
  gp_GetFirstArc kite_lowpoints (u + 4) <> gp_GetFirstArc kite_lowpoints (v + 4) /\
  gp_GetFirstArc kite_lowpoints (u + 4) <>
    gp_GetTwinArc kite_lowpoints (gp_GetFirstArc kite_lowpoints (v + 4)).
Proof.
  intros Hu Hv Huv.
  destruct (kite_lowpoints_children u Hu) as [-> | [-> | ->]];
    destruct (kite_lowpoints_children v Hv) as [-> | [-> | ->]];
    clear Hu Hv; try (exfalso; apply Huv; reflexivity); clear Huv;
    split; vm_compute; discriminate.
Qed.

Lemma EmbeddingInitialize_treeEdges_singletons_witness :
  let g' := foldl (EmbeddingInitialize_treeEdge 4) kite_lowpoints (seqZ 0 4) in
  if decide (gp_GetVertexParent kite_lowpoints 2 = NIL) then adjacency_list g' 2 []
  else singleton_bicomp g' (2 + 4) 2 (gp_GetFirstArc kite_lowpoints (2 + 4)).
Proof.
  apply (EmbeddingInitialize_treeEdges_singletons kite_lowpoints 4).
  - exact kite_lowpoints_roots.
  - exact kite_lowpoints_arcs.
  - lia.
Defined.

Lemma k4_merged_lists :
  fwd_list k4_merged 1 ([] ++ 8 :: []) /\ adjacency_list k4_merged 6 [6] /\
  adjacency_list k4_merged 3 [11].
Proof. concrete_list. Qed.

Lemma k4_merged_mark : gp_GetVertexPertinentAdjacencyInfo k4_merged 3 = 8.
Proof. vm_compute. reflexivity. Qed.

Lemma EmbedBackEdgeToDescendant_moves_arcs_witness :
  let g' := _EmbedBackEdgeToDescendant k4_merged 0 6 3 1 in
  fwd_list g' 1 ([] ++ []) /\
  adjacency_list g' 6 (at_end 0 8 [6]) /\
  adjacency_list g' 3 (at_end 1 9 [11]) /\
  (forall K, gp_GetNeighbor g' K = if decide (9 = K) then 6 else gp_GetNeighbor k4_merged K) /\
  gp_GetExtFaceVertex g' 6 0 = 3 /\
  gp_GetExtFaceVertex g' 3 1 = 6.
Proof.
  apply (EmbedBackEdgeToDescendant_moves_arcs k4_merged 0 6 3 1 [] [] [6] [11]).
  - apply k4_merged_lists.
  - apply k4_merged_lists.
  - apply k4_merged_lists.
  - discriminate.
  - discriminate.
  - lia.
  - intros a ->%list_elem_of_singleton Hin%list_elem_of_singleton. discriminate.
  - rewrite k4_merged_mark. intros a ->%list_elem_of_singleton.
    split; intros Hin%list_elem_of_singleton; discriminate.
  - rewrite k4_merged_mark. change (gp_GetTwinArc k4_merged 8) with 9.
    intros Hin%list_elem_of_singleton. discriminate.
  - rewrite k4_merged_mark. change (gp_GetTwinArc k4_merged 8) with 9.
    intros Hin%list_elem_of_singleton. discriminate.
  - rewrite k4_merged_mark. change (gp_GetTwinArc k4_merged 8) with 9.
    intros Hin%list_elem_of_singleton. discriminate.
  - rewrite k4_merged_mark. discriminate.
  - by left.
  - by right.
Defined.

Lemma WalkDown_stopped_witness : walkdown_stopped k33_blocked 1 8 NONEMBEDDABLE.
Proof.
  eapply (WalkDown_stopped (example_functions 20) _ _ 20 k33_walkedUp 1 8 NONEMBEDDABLE
            k33_blocked).
  - reflexivity.
  - reflexivity.
  - reflexivity.
  - vm_compute. reflexivity.
  - discriminate.
Defined.



Lemma kite_initialized_lowpoints v :
  0 <= v < gN (example_initialized kite) ->
  0 <= gp_GetVertexLowpoint (example_initialized kite) v < gN (example_initialized kite).
Proof.
  change (gN (example_initialized kite)) with 4. intros Hv.
  assert (Hv' : v = 0 \/ v = 1 \/ v = 2 \/ v = 3) by lia. clear Hv.
  destruct Hv' as [-> | [-> | [-> | ->]]]; vm_compute; split; congruence.
Qed.

Lemma kite_initialized_separated p :
  gp_GetVertexSeparatedDFSChildList (example_initialized kite) p = NIL.
Proof.
  unfold gp_GetVertexSeparatedDFSChildList.
  apply (lookup_total_Forall (fun r => separatedDFSChildList r = NIL)
           (V (example_initialized kite))); [done|].
  listed_records.
Qed.

Lemma CreateSortedSeparatedDFSChildLists_sorts_witness :
  exists g', _CreateSortedSeparatedDFSChildLists 20 (example_initialized kite) = Some g' /\
    (forall v, gp_GetVertexParent g' v = gp_GetVertexParent (example_initialized kite) v /\
               gp_GetVertexLowpoint g' v = gp_GetVertexLowpoint (example_initialized kite) v) /\
    forall p,
      let l := children_of (example_initialized kite) p
                 (lowpoint_order (example_initialized kite) (gN (example_initialized kite))) in
      lc_list (DFSChildLists g') (gp_GetVertexSeparatedDFSChildList g' p) l /\
      (forall v, v ∈ l <->
         0 <= v < gN (example_initialized kite) /\
         gp_GetVertexParent (example_initialized kite) v = p /\ p <> NIL /\ p <> v) /\
      ascending (gp_GetVertexLowpoint (example_initialized kite) <$> l).
Proof.
  apply (CreateSortedSeparatedDFSChildLists_sorts 20 (example_initialized kite)).
  - exact kite_initialized_lowpoints.
  - exact kite_initialized_separated.
  - vm_compute. lia.
Defined.
Lemma kite_unvisited_none v : gp_GetVertexVisited kite_unvisited v = false.
Proof.
  unfold gp_GetVertexVisited.
  apply (lookup_total_Forall (fun r => visited r = false) (V kite_unvisited)); [done|].
  listed_records.
Qed.

Lemma EmbeddingInitialize_roots_numbers_witness :
  exists order, numbered kite_numbered order /\ 4 <= Z.of_nat (length order) /\
    parents_first kite_numbered /\ stack_items (theStack kite_numbered) = [].
Proof.
  apply (EmbeddingInitialize_roots_numbers 20 20 kite_unvisited 4 0 kite_numbered).
  - exact kite_unvisited_none.
  - reflexivity.
  - vm_compute. reflexivity.
Defined.
Lemma kite_numbered_adjacency v :
  0 <= v < gN kite_numbered ->
  adjacency_list kite_numbered v (kite_numbered_lists v) /\
  (length (kite_numbered_lists v) <= 10)%nat.
Proof.
  change (gN kite_numbered) with 4. intros Hv.
  assert (Hv' : v = 0 \/ v = 1 \/ v = 2 \/ v = 3) by lia. clear Hv.
  destruct Hv' as [-> | [-> | [-> | ->]]]; (split; [concrete_list|vm_compute; lia]).
Qed.

Lemma kite_numbered_disjoint u v K :
  0 <= u < gN kite_numbered -> 0 <= v < gN kite_numbered ->
  K ∈ kite_numbered_lists u -> K ∈ kite_numbered_lists v -> u = v.
Proof.
  change (gN kite_numbered) with 4. intros Hu Hv.
  assert (Hu' : u = 0 \/ u = 1 \/ u = 2 \/ u = 3) by lia.
  assert (Hv' : v = 0 \/ v = 1 \/ v = 2 \/ v = 3) by lia. clear Hu Hv.
  destruct Hu' as [-> | [-> | [-> | ->]]]; destruct Hv' as [-> | [-> | [-> | ->]]];
    try reflexivity;
    repeat match goal with
    | |- context [kite_numbered_lists ?v] =>
        let l := eval vm_compute in (kite_numbered_lists v) in
        change (kite_numbered_lists v) with l
    end;
    rewrite !elem_of_cons, !elem_of_nil; lia.
Qed.

Lemma kite_numbered_children v :
  0 <= v < gN kite_numbered -> gp_GetVertexParent kite_numbered v <> NIL ->
  0 <= gp_GetVertexParent kite_numbered v < v /\
  exists J, first_parent kite_numbered (kite_numbered_lists v) = Some J /\
    gp_GetEdgeType kite_numbered (gp_GetTwinArc kite_numbered J) = EDGE_TYPE_CHILD /\
    gp_GetTwinArc kite_numbered J ∈ kite_numbered_lists (gp_GetVertexParent kite_numbered v).
Proof.
  change (gN kite_numbered) with 4. intros Hv.
  assert (Hv' : v = 0 \/ v = 1 \/ v = 2 \/ v = 3) by lia. clear Hv.
  destruct Hv' as [-> | [-> | [-> | ->]]]; intros Hp.
  - exfalso. apply Hp. vm_compute. reflexivity.
  - split; [vm_compute; split; congruence|]. exists 1. repeat split; try compute_done.
  - split; [vm_compute; split; congruence|]. exists 3. repeat split; try compute_done.
  - split; [vm_compute; split; congruence|]. exists 5. repeat split; try compute_done.
Qed.

Lemma CreateDFSTreeEmbedding_singletons_witness :
  exists g', _CreateDFSTreeEmbedding 10 kite_numbered = Some g' /\
    forall v, 0 <= v < gN kite_numbered ->
      if decide (gp_GetVertexParent kite_numbered v = NIL) then adjacency_list g' v []
      else exists J, first_parent kite_numbered (kite_numbered_lists v) = Some J /\
             singleton_bicomp g' (v + gN kite_numbered) v (gp_GetTwinArc kite_numbered J).
Proof.
  apply (CreateDFSTreeEmbedding_singletons 10 kite_numbered kite_numbered_lists).
  - exact kite_numbered_adjacency.
  - exact kite_numbered_disjoint.
  - exact kite_numbered_children.
Defined.
